(** * Skene rendering core: style values, layout arithmetic and text selection

    A shallow embedding of the parts of the engine that its specification
    makes claims about: [CssParser::parseValue] and [CssValue::toPx]
    (CssParser.hpp), [StyleSheet::applyProperty] (StyleSheet.hpp),
    [MSDFFont::hitTestText] (MSDFFont.hpp), the block, flex and scroll
    arithmetic of [RenderBox] and the [TextSelection] record
    (RenderTree.hpp), and the word, copy and caret routines of the main
    program (HtmlParser.hpp).

    Number model.  The C++ code computes with [float].  Here a [float] is
    an exact rational ([Q]): rounding, overflow and the non-finite values
    are left out of the model.  [size_t] indices are [nat], [int] is [Z].
    [std::string] is [string], a sequence of bytes ([ascii]). *)

From Stdlib Require Import Bool Arith ZArith QArith Qminmax Lia Lqa List.
From Stdlib Require Import Permutation Sorted.
From Stdlib Require Import Ascii String.
Import ListNotations.

Local Open Scope string_scope.
Set Warnings "-register-all".

(** ** Outcomes of code that can throw *)

(** The C++ exceptions the modelled code can raise. *)
Inductive exn : Type :=
| invalid_argument
| out_of_range.

(** [Ok a]: normal return.  [Throw e]: the call leaves by exception [e].
    [Unmodelled]: the C++ value has no counterpart in the number model
    (a non-finite or hexadecimal float literal) or the property is one the
    embedding does not cover. *)
Inductive res (A : Type) : Type :=
| Ok (a : A)
| Throw (e : exn)
| Unmodelled.

Arguments Ok {A} a.
Arguments Throw {A} e.
Arguments Unmodelled {A}.

Definition bind {A B : Type} (m : res A) (k : A -> res B) : res B :=
  match m with
  | Ok a => k a
  | Throw e => Throw e
  | Unmodelled => Unmodelled
  end.

Notation "x <- m ;; k" := (bind m (fun x => k))
  (at level 61, m at next level, right associativity).

(** ** Floats as rationals *)

(** [a < b] on floats. *)
Definition fltb (a b : Q) : bool := negb (Qle_bool b a).
(** [a <= b] on floats. *)
Definition fleb (a b : Q) : bool := Qle_bool a b.

(** [std::max(a, b)] is [(a < b) ? b : a]. *)
Definition std_max (a b : Q) : Q := if fltb a b then b else a.
(** [std::min(a, b)] is [(b < a) ? b : a]. *)
Definition std_min (a b : Q) : Q := if fltb b a then b else a.
(** [std::abs]. *)
Definition std_abs (a : Q) : Q := if fltb a 0 then - a else a.

(** ** Characters and strings *)

Definition code (c : ascii) : nat := nat_of_ascii c.

(** <cctype> in the "C" locale. *)
Definition isdigit (c : ascii) : bool := (48 <=? code c)%nat && (code c <=? 57)%nat.
Definition isspace (c : ascii) : bool :=
  (code c =? 32)%nat || ((9 <=? code c)%nat && (code c <=? 13)%nat).
Definition isalpha (c : ascii) : bool :=
  ((65 <=? code c)%nat && (code c <=? 90)%nat) ||
  ((97 <=? code c)%nat && (code c <=? 122)%nat).
Definition ispunct (c : ascii) : bool :=
  ((33 <=? code c)%nat && (code c <=? 47)%nat) ||
  ((58 <=? code c)%nat && (code c <=? 64)%nat) ||
  ((91 <=? code c)%nat && (code c <=? 96)%nat) ||
  ((123 <=? code c)%nat && (code c <=? 126)%nat).
Definition tolower (c : ascii) : ascii :=
  if (65 <=? code c)%nat && (code c <=? 90)%nat
  then ascii_of_nat (code c + 32) else c.

Fixpoint map_string (f : ascii -> ascii) (s : string) : string :=
  match s with
  | EmptyString => EmptyString
  | String c s' => String (f c) (map_string f s')
  end.

Fixpoint rev_string_onto (s acc : string) : string :=
  match s with
  | EmptyString => acc
  | String c s' => rev_string_onto s' (String c acc)
  end.
Definition rev_string (s : string) : string := rev_string_onto s EmptyString.

(** Drop the longest prefix whose characters satisfy [p]. *)
Fixpoint drop_while (p : ascii -> bool) (s : string) : string :=
  match s with
  | EmptyString => EmptyString
  | String c s' => if p c then drop_while p s' else s
  end.

(** The longest prefix whose characters satisfy [p]. *)
Fixpoint take_while (p : ascii -> bool) (s : string) : string :=
  match s with
  | EmptyString => EmptyString
  | String c s' => if p c then String c (take_while p s') else EmptyString
  end.

(** [s.back()] of a non-empty string. *)
Fixpoint last_char (s : string) : option ascii :=
  match s with
  | EmptyString => None
  | String c EmptyString => Some c
  | String _ s' => last_char s'
  end.

Definition is_empty (s : string) : bool :=
  match s with EmptyString => true | _ => false end.

(** ** <string> conversions *)

Definition digit_val (c : ascii) : Z := Z.of_nat (code c) - 48.

(** Value of a run of decimal digits, most significant first. *)
Fixpoint digits_val (acc : Z) (s : string) : Z :=
  match s with
  | EmptyString => acc
  | String c s' => digits_val (10 * acc + digit_val c) s'
  end.

Definition pow10 (n : nat) : Z := Z.pow 10 (Z.of_nat n).

(** Case-insensitive prefix test, [pre] given in lower case. *)
Fixpoint has_prefix_ci (pre s : string) : bool :=
  match pre, s with
  | EmptyString, _ => true
  | String _ _, EmptyString => false
  | String a pre', String c s' => Ascii.eqb a (tolower c) && has_prefix_ci pre' s'
  end.

Definition isxdigit (c : ascii) : bool :=
  isdigit c || ((97 <=? code (tolower c))%nat && (code (tolower c) <=? 102)%nat).

(** A hexadecimal float literal starts with 0x and a hexadecimal digit
    (or a point and a hexadecimal digit). *)
Definition is_hex_float (s : string) : bool :=
  match s with
  | String z (String x (String d rest)) =>
      Ascii.eqb z "0" && Ascii.eqb (tolower x) "x" &&
      (isxdigit d ||
       (Ascii.eqb d "." && match rest with String d' _ => isxdigit d' | _ => false end))
  | _ => false
  end.

(** The optional exponent part [e[+-]digits] of a decimal literal; [0]
    when there is none (an [e] not followed by digits is not consumed). *)
Definition exponent_of (s : string) : Z :=
  match s with
  | String e rest =>
      if Ascii.eqb (tolower e) "e" then
        match rest with
        | String sg rest' =>
            if Ascii.eqb sg "-" then
              match take_while isdigit rest' with
              | EmptyString => 0
              | ds => - digits_val 0 ds
              end
            else if Ascii.eqb sg "+" then digits_val 0 (take_while isdigit rest')
            else digits_val 0 (take_while isdigit rest)
        | EmptyString => 0
        end
      else 0
  | EmptyString => 0
  end%Z.

Definition scale10 (q : Q) (e : Z) : Q :=
  match e with
  | Z0 => q
  | Zpos _ => q * inject_Z (Z.pow 10 e)
  | Zneg _ => q / inject_Z (Z.pow 10 (- e))
  end.

(** The range of [float].  From [FLT_OVERFLOW] = 2^128 - 2^103 on, the
    nearest [float] is infinite; below [FLT_MIN] = 2^-126 a number other
    than zero is subnormal: it is a [float] itself when it is a multiple
    of 2^-149, and the nearest [float] is [FLT_MIN] from
    [FLT_ROUNDS_TO_MIN] = 2^-126 - 2^-150 on. *)
Definition FLT_OVERFLOW : Q := 340282356779733661637539395458142568448.
Definition FLT_MIN : Q := 1 # 85070591730234615865843651857942052864.
Definition FLT_ROUNDS_TO_MIN : Q :=
  16777215 # 1427247692705959881058285969449495136382746624.
Definition exact_subnormal (v : Q) : bool :=
  ((Qnum v * 713623846352979940529142984724747568191373312) mod Zpos (Qden v) =? 0)%Z.

(** [std::stof]: skips leading white space, reads an optional sign and the
    longest decimal floating literal; throws [std::invalid_argument] when
    no conversion can be performed, and [std::out_of_range] when [strtof]
    reports a range error: the number is too large for a [float], or it is
    not zero and too small for a normal one.  (Whether a subnormal number
    that is a [float] exactly, or one that rounds to the smallest normal
    [float], is reported is left to the C library, and to [Unmodelled]
    here.)  What follows the literal is ignored. *)
Definition stof (s : string) : res Q :=
  let s1 := drop_while isspace s in
  let '(neg, s2) :=
    match s1 with
    | String c r => if Ascii.eqb c "-" then (true, r)
                    else if Ascii.eqb c "+" then (false, r) else (false, s1)
    | EmptyString => (false, s1)
    end in
  if has_prefix_ci "inf" s2 || has_prefix_ci "nan" s2 || is_hex_float s2
  then Unmodelled
  else
    let ip := take_while isdigit s2 in
    let r1 := drop_while isdigit s2 in
    let '(fp, r2) :=
      match r1 with
      | String c r => if Ascii.eqb c "." then (take_while isdigit r, drop_while isdigit r)
                      else (EmptyString, r1)
      | EmptyString => (EmptyString, r1)
      end in
    if is_empty ip && is_empty fp then Throw invalid_argument
    else
      let m := inject_Z (digits_val 0 ip) +
               inject_Z (digits_val 0 fp) / inject_Z (pow10 (String.length fp)) in
      let v := scale10 m (exponent_of r2) in
      if Qle_bool FLT_OVERFLOW v then Throw out_of_range
      else if fltb 0 v && fltb v FLT_MIN then
        if exact_subnormal v || Qle_bool FLT_ROUNDS_TO_MIN v then Unmodelled
        else Throw out_of_range
      else Ok (if neg then - v else v).

Definition INT_MIN : Z := -2147483648.
Definition INT_MAX : Z := 2147483647.

(** [std::stoi] in base 10: white space, optional sign, digits; throws
    [std::invalid_argument] without digits and [std::out_of_range] when the
    value does not fit an [int]. *)
Definition stoi (s : string) : res Z :=
  let s1 := drop_while isspace s in
  let '(neg, s2) :=
    match s1 with
    | String c r => if Ascii.eqb c "-" then (true, r)
                    else if Ascii.eqb c "+" then (false, r) else (false, s1)
    | EmptyString => (false, s1)
    end in
  match take_while isdigit s2 with
  | EmptyString => Throw invalid_argument
  | ds =>
      let v := if neg then (- digits_val 0 ds)%Z else digits_val 0 ds in
      if (INT_MIN <=? v)%Z && (v <=? INT_MAX)%Z then Ok v else Throw out_of_range
  end.

(** ** CSS values (CssParser.hpp) *)

Module Css.
Local Open Scope Q_scope.

Inductive CssUnit : Type := Px | Em | Rem | Percent | Vw | Vh | Auto | None_.

Record CssValue : Type := mkCssValue { value : Q; unit : CssUnit }.

(** The context [toPx] resolves against; the C++ defaults are
    [parentSize = 0], [fontSize = 16], a 1024 x 768 viewport. *)
Record PxContext : Type := mkPxContext {
  parentSize : Q; fontSize : Q; viewportWidth : Q; viewportHeight : Q }.

Definition default_context : PxContext := mkPxContext 0 16 1024 768.

(** [CssValue::toPx]. *)
Definition toPx (v : CssValue) (ctx : PxContext) : Q :=
  match unit v with
  | Px => value v
  | Em => value v * fontSize ctx
  | Rem => value v * 16
  | Percent => (value v / 100) * parentSize ctx
  | Vw => (value v / 100) * viewportWidth ctx
  | Vh => (value v / 100) * viewportHeight ctx
  | Auto | None_ => -1
  end.

(** [toPx(parentSize, fontSize)] with the default viewport. *)
Definition toPx2 (v : CssValue) (parent font : Q) : Q :=
  toPx v (mkPxContext parent font 1024 768).

Definition isAuto (v : CssValue) : bool :=
  match unit v with Auto => true | _ => false end.

(** The characters [CssParser::trim] strips: space, tab, LF, CR. *)
Definition is_trim_char (c : ascii) : bool :=
  (code c =? 32)%nat || (code c =? 9)%nat || (code c =? 10)%nat || (code c =? 13)%nat.

(** [CssParser::trim]. *)
Definition trim (s : string) : string :=
  rev_string (drop_while is_trim_char (rev_string (drop_while is_trim_char s))).

Definition is_num_char (c : ascii) : bool := isdigit c || Ascii.eqb c ".".

Definition unit_of (unitStr : string) : CssUnit :=
  if String.eqb unitStr "" || String.eqb unitStr "px" then Px
  else if String.eqb unitStr "em" then Em
  else if String.eqb unitStr "rem" then Rem
  else if String.eqb unitStr "%" then Percent
  else if String.eqb unitStr "vw" then Vw
  else if String.eqb unitStr "vh" then Vh
  else Px.

(** [CssParser::parseValue]. *)
Definition parseValue (valueStr : string) : res CssValue :=
  let str := trim valueStr in
  if is_empty str then Ok (mkCssValue 0 Px)
  else if String.eqb str "auto" then Ok (mkCssValue 0 Auto)
  else if String.eqb str "none" || String.eqb str "0" then Ok (mkCssValue 0 None_)
  else
    let '(negative, body) :=
      match str with
      | String c r => if Ascii.eqb c "-" then (true, r) else (false, str)
      | EmptyString => (false, str)
      end in
    let num := take_while is_num_char body in
    if is_empty num then Ok (mkCssValue 0 Px)
    else
      v <- stof num ;;
      let value := if negative then - v else v in
      let unitStr := map_string tolower (trim (drop_while is_num_char body)) in
      Ok (mkCssValue value (unit_of unitStr)).

End Css.

(** *** Unit-less numbers *)

Module CssNumber.
Import Css.
Local Open Scope Q_scope.

Fixpoint all_chars (p : ascii -> bool) (s : string) : bool :=
  match s with
  | EmptyString => true
  | String c s' => p c && all_chars p s'
  end.

(** The characters after an optional leading minus sign. *)
Definition unsigned_part (s : string) : string :=
  match s with
  | String c r => if Ascii.eqb c "-" then r else s
  | EmptyString => s
  end.

Definition is_negative (s : string) : bool :=
  match s with
  | String c _ => Ascii.eqb c "-"
  | EmptyString => false
  end.

(** A number without unit: an optional minus sign, then digits with an
    optional fraction, or a point followed by digits. *)
Definition unitless_numeric (s : string) : bool :=
  let body := unsigned_part s in
  let ip := take_while isdigit body in
  match drop_while isdigit body with
  | EmptyString => negb (is_empty ip)
  | String c fp =>
      Ascii.eqb c "." && all_chars isdigit fp &&
      (negb (is_empty ip) || negb (is_empty fp))
  end.

(** The rational a unit-less number denotes. *)
Definition numeric_value (s : string) : Q :=
  let body := unsigned_part s in
  let ip := take_while isdigit body in
  let fp := match drop_while isdigit body with
            | String _ fp => fp
            | EmptyString => EmptyString
            end in
  let m := inject_Z (digits_val 0 ip) +
           inject_Z (digits_val 0 fp) / inject_Z (pow10 (String.length fp)) in
  if is_negative s then - m else m.

End CssNumber.


(** ** Word boundaries (HtmlParser.hpp) *)

Module Word.

(** [text[i]], when [i] is in range. *)
Definition char_at (text : string) (i : nat) : option ascii := String.get i text.

Definition apostrophe : ascii := "'"%char.
(** 0xE2, the first byte of the UTF-8 right single quotation mark
    (0xE2 0x80 0x99). *)
Definition xe2 : ascii := ascii_of_nat 226.

Definition alpha_at (text : string) (i : nat) : bool :=
  match char_at text i with
  | Some c => isalpha c
  | None => false
  end.

(** [isWordBoundaryAt]. *)
Definition isWordBoundaryAt (text : string) (idx : nat) : bool :=
  match char_at text idx with
  | None => true
  | Some c =>
      if isspace c then true
      else
        let hasBefore := match idx with
                         | O => false
                         | S p => alpha_at text p
                         end in
        let hasAfter := alpha_at text (S idx) in
        if (Ascii.eqb c apostrophe || Ascii.eqb c xe2) && hasBefore && hasAfter
        then false
        else ispunct c
  end.

(** An apostrophe (or the lead byte of the typographic one) with an
    ASCII letter on each side. *)
Definition word_internal_apostrophe (text : string) (idx : nat) : bool :=
  match char_at text idx with
  | Some c =>
      (Ascii.eqb c apostrophe || Ascii.eqb c xe2) &&
      match idx with O => false | S p => alpha_at text p end &&
      alpha_at text (S idx)
  | None => false
  end.

(** [while (start > 0 && !isWordBoundaryAt(text, start - 1)) --start;] *)
Fixpoint word_start (text : string) (start : nat) : nat :=
  match start with
  | O => O
  | S p => if isWordBoundaryAt text p then start else word_start text p
  end.

(** [while (i < len && cond(i)) ++i;] with [fuel] iterations at most
    ([len] of them are enough, see [scan_while_exit]). *)
Fixpoint scan_while (len : nat) (cond : nat -> bool) (fuel i : nat) : nat :=
  match fuel with
  | O => i
  | S f => if (i <? len)%nat && cond i then scan_while len cond f (S i) else i
  end.

Definition space_at (text : string) (i : nat) : bool :=
  match char_at text i with
  | Some c => isspace c
  | None => false
  end.

(** [findWordBoundaries]. *)
Definition findWordBoundaries (text : string) (charIdx : nat) : nat * nat :=
  let len := String.length text in
  if is_empty text then (0, 0)%nat
  else
    let charIdx := if (len <? charIdx)%nat then len else charIdx in
    let charIdx := if (charIdx =? len)%nat then (len - 1)%nat else charIdx in
    if isWordBoundaryAt text charIdx then (charIdx, (charIdx + 1)%nat)
    else
      let start := word_start text charIdx in
      let end1 := scan_while len (fun e => negb (isWordBoundaryAt text e)) len charIdx in
      let end2 := scan_while len (space_at text) len end1 in
      (start, end2).

End Word.

(** ** Glyph metrics (MSDFFont.hpp) *)

Module Font.
Local Open Scope Q_scope.

Record MSDFGlyph : Type := mkGlyph { advance : Q; valid : bool }.

(** The part of [MSDFAtlas] the metric functions read: the glyph size (a
    positive constant of the generator) and the [glyphs] map. *)
Record MSDFAtlas : Type := mkAtlas {
  glyphSize : Q;
  glyphs : Z -> option MSDFGlyph }.

(** [MSDFFont]: [atlas] is a null pointer until the font is loaded. *)
Record MSDFFont : Type := mkFont { atlas : option MSDFAtlas }.

Definition byte_at (text : string) (i : nat) : Z :=
  match String.get i text with
  | Some c => Z.of_nat (code c)
  | None => 0%Z
  end.

(** [decodeUTF8(text, i)]: the code point (-1 when invalid) and the value
    of [i] on return (the index of the last byte consumed). *)
Definition decodeUTF8 (text : string) (i : nat) : Z * nat :=
  let len := String.length text in
  let c := byte_at text i in
  if (Z.land c 128 =? 0)%Z then (c, i)
  else if (Z.land c 224 =? 192)%Z && (i + 1 <? len)%nat then
    (Z.lor (Z.shiftl (Z.land c 31) 6) (Z.land (byte_at text (i + 1)) 63),
     (i + 1)%nat)
  else if (Z.land c 240 =? 224)%Z && (i + 2 <? len)%nat then
    (Z.lor (Z.lor (Z.shiftl (Z.land c 15) 12)
                  (Z.shiftl (Z.land (byte_at text (i + 1)) 63) 6))
           (Z.land (byte_at text (i + 2)) 63),
     (i + 2)%nat)
  else if (Z.land c 248 =? 240)%Z && (i + 3 <? len)%nat then
    (Z.lor (Z.lor (Z.lor (Z.shiftl (Z.land c 7) 18)
                         (Z.shiftl (Z.land (byte_at text (i + 1)) 63) 12))
                  (Z.shiftl (Z.land (byte_at text (i + 2)) 63) 6))
           (Z.land (byte_at text (i + 3)) 63),
     (i + 3)%nat)
  else ((-1)%Z, i).

(** The advance the loops add for code point [cp]: that of its glyph when
    the atlas has a valid one, nothing otherwise. *)
Definition glyph_advance (a : MSDFAtlas) (scale : Q) (cp : Z) : Q :=
  match glyphs a cp with
  | Some g => if valid g then advance g * scale else 0
  | None => 0
  end.

(** The loop of [getTextWidth], at most [fuel] iterations. *)
Fixpoint width_loop (a : MSDFAtlas) (scale : Q) (text : string)
    (fuel i : nat) (width : Q) : Q :=
  match fuel with
  | O => width
  | S f =>
      if (i <? String.length text)%nat then
        let '(cp, i') := decodeUTF8 text i in
        if (cp <? 32)%Z then width_loop a scale text f (S i') width
        else width_loop a scale text f (S i') (width + glyph_advance a scale cp)
      else width
  end.

(** [MSDFFont::getTextWidth]. *)
Definition getTextWidth (font : MSDFFont) (text : string) (fontSize : Q) : Q :=
  match atlas font with
  | None => 0
  | Some a =>
      width_loop a (fontSize / glyphSize a) text (String.length text) 0 0
  end.

(** The loop of [hitTestText], at most [fuel] iterations. *)
Fixpoint hit_loop (a : MSDFAtlas) (scale : Q) (text : string) (localX : Q)
    (fuel i : nat) (x prevX : Q) : nat :=
  match fuel with
  | O => String.length text
  | S f =>
      if (i <? String.length text)%nat then
        let charStart := i in
        let '(cp, i') := decodeUTF8 text i in
        if (cp <? 32)%Z then hit_loop a scale text localX f (S i') x prevX
        else
          let x := x + glyph_advance a scale cp in
          let midpoint := prevX + (x - prevX) / 2 in
          if fltb localX midpoint then charStart
          else hit_loop a scale text localX f (S i') x x
      else String.length text
  end.

(** [MSDFFont::hitTestText]. *)
Definition hitTestText (font : MSDFFont) (text : string) (localX fontSize : Q) : nat :=
  match atlas font with
  | None => O
  | Some a =>
      if is_empty text || fleb localX 0 then O
      else hit_loop a (fontSize / glyphSize a) text localX (String.length text) 0 0 0
  end.

(** *** The hit test in the words of its description *)

(** The characters of [text] in order: start index and code point. *)
Fixpoint characters (text : string) (fuel i : nat) : list (nat * Z) :=
  match fuel with
  | O => []
  | S f =>
      if (i <? String.length text)%nat then
        let '(cp, i') := decodeUTF8 text i in
        (i, cp) :: characters text f (S i')
      else []
  end.

(** Start index of the first character, among those [counts] selects,
    whose advance midpoint is right of [localX]. *)
Fixpoint first_past_midpoint (counts : Z -> bool) (adv : Z -> Q) (localX : Q)
    (chars : list (nat * Z)) (prevX : Q) : option nat :=
  match chars with
  | [] => None
  | (start, cp) :: rest =>
      if counts cp then
        let x := prevX + adv cp in
        if fltb localX (prevX + (x - prevX) / 2) then Some start
        else first_past_midpoint counts adv localX rest x
      else first_past_midpoint counts adv localX rest prevX
  end.

(** Advance of a code point in a font: nothing without an atlas. *)
Definition font_advance (font : MSDFFont) (fontSize : Q) (cp : Z) : Q :=
  match atlas font with
  | Some a => glyph_advance a (fontSize / glyphSize a) cp
  | None => 0
  end.

(** The hit test as described: 0 on an empty text or [localX <= 0],
    otherwise the first character whose midpoint exceeds [localX], the
    length of the text when there is none.  [counts] says which code
    points take part. *)
Definition hit_described (counts : Z -> bool) (font : MSDFFont) (text : string)
    (localX fontSize : Q) : nat :=
  if is_empty text || fleb localX 0 then O
  else
    match first_past_midpoint counts (font_advance font fontSize) localX
            (characters text (String.length text) 0) 0 with
    | Some start => start
    | None => String.length text
    end.

(** Code points the loops do not skip. *)
Definition printable (cp : Z) : bool := negb (cp <? 32)%Z.

End Font.

(** ** Computed style (StyleSheet.hpp) *)

Module Style.
Import Css.
Local Open Scope Q_scope.

Inductive FontWeight : Type :=
  FontWeight_Normal | Bold | Lighter | Bolder.
Inductive FontStyle : Type := FontStyle_Normal | Italic | Oblique.
Inductive DisplayType : Type :=
  Block | Inline | InlineBlock | Flex | Grid | Hidden | Table
| TableRowGroup | TableRow | TableCell.
Inductive TextAlign : Type := Left | Center | Right | Justify.
Inductive TextDecoration : Type :=
  TextDecoration_None | Underline | Overline | LineThrough.
Inductive Overflow : Type :=
  Visible | Overflow_Hidden | Scroll | Overflow_Auto.
Inductive Position : Type := Static | Relative | Absolute | Fixed | Sticky.
Inductive BoxSizing : Type := ContentBox | BorderBox.

Record EdgeValues : Type := mkEdges {
  e_top : CssValue; e_right : CssValue; e_bottom : CssValue; e_left : CssValue }.

(** [EdgeValues() = default]: four default [CssValue]s, 0 px. *)
Definition edges_zero : EdgeValues :=
  let z := mkCssValue 0 Px in mkEdges z z z z.

(** [StyleSheet::ComputedStyle] without its colour and list fields. *)
Record ComputedStyle : Type := mkComputedStyle {
  padding : EdgeValues;
  margin : EdgeValues;
  borderWidth : EdgeValues;
  width : CssValue;
  height : CssValue;
  minWidth : CssValue;
  minHeight : CssValue;
  maxWidth : CssValue;
  maxHeight : CssValue;
  fontSize : Q;
  lineHeight : Q;
  fontWeight : FontWeight;
  fontStyle : FontStyle;
  textDecoration : TextDecoration;
  textAlign : TextAlign;
  fontFamily : string;
  display : DisplayType;
  position : Position;
  boxSizing : BoxSizing;
  overflow : Overflow;
  top : CssValue;
  right_ : CssValue;
  bottom : CssValue;
  left : CssValue;
  zIndex : Z;
  borderRadius : Q;
  borderTopLeftRadius : Q;
  borderTopRightRadius : Q;
  borderBottomLeftRadius : Q;
  borderBottomRightRadius : Q;
  opacity : Q;
  flexDirection : string;
  flexWrap : string;
  justifyContent : string;
  alignItems : string;
  flexGrow : Q;
  flexShrink : Q;
  flexBasis : CssValue;
  gap : Q;
  userSelect : string;
  objectFit : string;
  objectPosition : string;
  imageRendering : string;
  verticalAlign : string }.

(** The default member initialisers. *)
Definition default_style : ComputedStyle :=
  mkComputedStyle
    (edges_zero)
    (edges_zero)
    (edges_zero)
    (mkCssValue (-1) Auto)
    (mkCssValue (-1) Auto)
    (mkCssValue 0 Px)
    (mkCssValue 0 Px)
    (mkCssValue (-1) Auto)
    (mkCssValue (-1) Auto)
    (16)
    (1.2)
    (FontWeight_Normal)
    (FontStyle_Normal)
    (TextDecoration_None)
    (Left)
    ("serif")
    (Block)
    (Static)
    (ContentBox)
    (Visible)
    (mkCssValue 0 Auto)
    (mkCssValue 0 Auto)
    (mkCssValue 0 Auto)
    (mkCssValue 0 Auto)
    (0%Z)
    (0)
    (0)
    (0)
    (0)
    (0)
    (1)
    ("row")
    ("nowrap")
    ("flex-start")
    ("stretch")
    (0)
    (1)
    (mkCssValue (-1) Auto)
    (0)
    ("auto")
    ("fill")
    ("50% 50%")
    ("auto")
    ("baseline").

(** Assignments to one field. *)
Definition set_padding (v : EdgeValues) (s : ComputedStyle) : ComputedStyle :=
  mkComputedStyle v (margin s) (borderWidth s) (width s) (height s) (minWidth s)
    (minHeight s) (maxWidth s) (maxHeight s) (fontSize s) (lineHeight s) (fontWeight s)
    (fontStyle s) (textDecoration s) (textAlign s) (fontFamily s) (display s) (position
    s) (boxSizing s) (overflow s) (top s) (right_ s) (bottom s) (left s) (zIndex s)
    (borderRadius s) (borderTopLeftRadius s) (borderTopRightRadius s)
    (borderBottomLeftRadius s) (borderBottomRightRadius s) (opacity s) (flexDirection s)
    (flexWrap s) (justifyContent s) (alignItems s) (flexGrow s) (flexShrink s)
    (flexBasis s) (gap s) (userSelect s) (objectFit s) (objectPosition s)
    (imageRendering s) (verticalAlign s).
Definition set_margin (v : EdgeValues) (s : ComputedStyle) : ComputedStyle :=
  mkComputedStyle (padding s) v (borderWidth s) (width s) (height s) (minWidth s)
    (minHeight s) (maxWidth s) (maxHeight s) (fontSize s) (lineHeight s) (fontWeight s)
    (fontStyle s) (textDecoration s) (textAlign s) (fontFamily s) (display s) (position
    s) (boxSizing s) (overflow s) (top s) (right_ s) (bottom s) (left s) (zIndex s)
    (borderRadius s) (borderTopLeftRadius s) (borderTopRightRadius s)
    (borderBottomLeftRadius s) (borderBottomRightRadius s) (opacity s) (flexDirection s)
    (flexWrap s) (justifyContent s) (alignItems s) (flexGrow s) (flexShrink s)
    (flexBasis s) (gap s) (userSelect s) (objectFit s) (objectPosition s)
    (imageRendering s) (verticalAlign s).
Definition set_borderWidth (v : EdgeValues) (s : ComputedStyle) : ComputedStyle :=
  mkComputedStyle (padding s) (margin s) v (width s) (height s) (minWidth s)
    (minHeight s) (maxWidth s) (maxHeight s) (fontSize s) (lineHeight s) (fontWeight s)
    (fontStyle s) (textDecoration s) (textAlign s) (fontFamily s) (display s) (position
    s) (boxSizing s) (overflow s) (top s) (right_ s) (bottom s) (left s) (zIndex s)
    (borderRadius s) (borderTopLeftRadius s) (borderTopRightRadius s)
    (borderBottomLeftRadius s) (borderBottomRightRadius s) (opacity s) (flexDirection s)
    (flexWrap s) (justifyContent s) (alignItems s) (flexGrow s) (flexShrink s)
    (flexBasis s) (gap s) (userSelect s) (objectFit s) (objectPosition s)
    (imageRendering s) (verticalAlign s).
Definition set_width (v : CssValue) (s : ComputedStyle) : ComputedStyle :=
  mkComputedStyle (padding s) (margin s) (borderWidth s) v (height s) (minWidth s)
    (minHeight s) (maxWidth s) (maxHeight s) (fontSize s) (lineHeight s) (fontWeight s)
    (fontStyle s) (textDecoration s) (textAlign s) (fontFamily s) (display s) (position
    s) (boxSizing s) (overflow s) (top s) (right_ s) (bottom s) (left s) (zIndex s)
    (borderRadius s) (borderTopLeftRadius s) (borderTopRightRadius s)
    (borderBottomLeftRadius s) (borderBottomRightRadius s) (opacity s) (flexDirection s)
    (flexWrap s) (justifyContent s) (alignItems s) (flexGrow s) (flexShrink s)
    (flexBasis s) (gap s) (userSelect s) (objectFit s) (objectPosition s)
    (imageRendering s) (verticalAlign s).
Definition set_height (v : CssValue) (s : ComputedStyle) : ComputedStyle :=
  mkComputedStyle (padding s) (margin s) (borderWidth s) (width s) v (minWidth s)
    (minHeight s) (maxWidth s) (maxHeight s) (fontSize s) (lineHeight s) (fontWeight s)
    (fontStyle s) (textDecoration s) (textAlign s) (fontFamily s) (display s) (position
    s) (boxSizing s) (overflow s) (top s) (right_ s) (bottom s) (left s) (zIndex s)
    (borderRadius s) (borderTopLeftRadius s) (borderTopRightRadius s)
    (borderBottomLeftRadius s) (borderBottomRightRadius s) (opacity s) (flexDirection s)
    (flexWrap s) (justifyContent s) (alignItems s) (flexGrow s) (flexShrink s)
    (flexBasis s) (gap s) (userSelect s) (objectFit s) (objectPosition s)
    (imageRendering s) (verticalAlign s).
Definition set_minWidth (v : CssValue) (s : ComputedStyle) : ComputedStyle :=
  mkComputedStyle (padding s) (margin s) (borderWidth s) (width s) (height s) v
    (minHeight s) (maxWidth s) (maxHeight s) (fontSize s) (lineHeight s) (fontWeight s)
    (fontStyle s) (textDecoration s) (textAlign s) (fontFamily s) (display s) (position
    s) (boxSizing s) (overflow s) (top s) (right_ s) (bottom s) (left s) (zIndex s)
    (borderRadius s) (borderTopLeftRadius s) (borderTopRightRadius s)
    (borderBottomLeftRadius s) (borderBottomRightRadius s) (opacity s) (flexDirection s)
    (flexWrap s) (justifyContent s) (alignItems s) (flexGrow s) (flexShrink s)
    (flexBasis s) (gap s) (userSelect s) (objectFit s) (objectPosition s)
    (imageRendering s) (verticalAlign s).
Definition set_minHeight (v : CssValue) (s : ComputedStyle) : ComputedStyle :=
  mkComputedStyle (padding s) (margin s) (borderWidth s) (width s) (height s)
    (minWidth s) v (maxWidth s) (maxHeight s) (fontSize s) (lineHeight s) (fontWeight s)
    (fontStyle s) (textDecoration s) (textAlign s) (fontFamily s) (display s) (position
    s) (boxSizing s) (overflow s) (top s) (right_ s) (bottom s) (left s) (zIndex s)
    (borderRadius s) (borderTopLeftRadius s) (borderTopRightRadius s)
    (borderBottomLeftRadius s) (borderBottomRightRadius s) (opacity s) (flexDirection s)
    (flexWrap s) (justifyContent s) (alignItems s) (flexGrow s) (flexShrink s)
    (flexBasis s) (gap s) (userSelect s) (objectFit s) (objectPosition s)
    (imageRendering s) (verticalAlign s).
Definition set_maxWidth (v : CssValue) (s : ComputedStyle) : ComputedStyle :=
  mkComputedStyle (padding s) (margin s) (borderWidth s) (width s) (height s)
    (minWidth s) (minHeight s) v (maxHeight s) (fontSize s) (lineHeight s) (fontWeight
    s) (fontStyle s) (textDecoration s) (textAlign s) (fontFamily s) (display s)
    (position s) (boxSizing s) (overflow s) (top s) (right_ s) (bottom s) (left s)
    (zIndex s) (borderRadius s) (borderTopLeftRadius s) (borderTopRightRadius s)
    (borderBottomLeftRadius s) (borderBottomRightRadius s) (opacity s) (flexDirection s)
    (flexWrap s) (justifyContent s) (alignItems s) (flexGrow s) (flexShrink s)
    (flexBasis s) (gap s) (userSelect s) (objectFit s) (objectPosition s)
    (imageRendering s) (verticalAlign s).
Definition set_maxHeight (v : CssValue) (s : ComputedStyle) : ComputedStyle :=
  mkComputedStyle (padding s) (margin s) (borderWidth s) (width s) (height s)
    (minWidth s) (minHeight s) (maxWidth s) v (fontSize s) (lineHeight s) (fontWeight s)
    (fontStyle s) (textDecoration s) (textAlign s) (fontFamily s) (display s) (position
    s) (boxSizing s) (overflow s) (top s) (right_ s) (bottom s) (left s) (zIndex s)
    (borderRadius s) (borderTopLeftRadius s) (borderTopRightRadius s)
    (borderBottomLeftRadius s) (borderBottomRightRadius s) (opacity s) (flexDirection s)
    (flexWrap s) (justifyContent s) (alignItems s) (flexGrow s) (flexShrink s)
    (flexBasis s) (gap s) (userSelect s) (objectFit s) (objectPosition s)
    (imageRendering s) (verticalAlign s).
Definition set_fontSize (v : Q) (s : ComputedStyle) : ComputedStyle :=
  mkComputedStyle (padding s) (margin s) (borderWidth s) (width s) (height s)
    (minWidth s) (minHeight s) (maxWidth s) (maxHeight s) v (lineHeight s) (fontWeight
    s) (fontStyle s) (textDecoration s) (textAlign s) (fontFamily s) (display s)
    (position s) (boxSizing s) (overflow s) (top s) (right_ s) (bottom s) (left s)
    (zIndex s) (borderRadius s) (borderTopLeftRadius s) (borderTopRightRadius s)
    (borderBottomLeftRadius s) (borderBottomRightRadius s) (opacity s) (flexDirection s)
    (flexWrap s) (justifyContent s) (alignItems s) (flexGrow s) (flexShrink s)
    (flexBasis s) (gap s) (userSelect s) (objectFit s) (objectPosition s)
    (imageRendering s) (verticalAlign s).
Definition set_lineHeight (v : Q) (s : ComputedStyle) : ComputedStyle :=
  mkComputedStyle (padding s) (margin s) (borderWidth s) (width s) (height s)
    (minWidth s) (minHeight s) (maxWidth s) (maxHeight s) (fontSize s) v (fontWeight s)
    (fontStyle s) (textDecoration s) (textAlign s) (fontFamily s) (display s) (position
    s) (boxSizing s) (overflow s) (top s) (right_ s) (bottom s) (left s) (zIndex s)
    (borderRadius s) (borderTopLeftRadius s) (borderTopRightRadius s)
    (borderBottomLeftRadius s) (borderBottomRightRadius s) (opacity s) (flexDirection s)
    (flexWrap s) (justifyContent s) (alignItems s) (flexGrow s) (flexShrink s)
    (flexBasis s) (gap s) (userSelect s) (objectFit s) (objectPosition s)
    (imageRendering s) (verticalAlign s).
Definition set_fontWeight (v : FontWeight) (s : ComputedStyle) : ComputedStyle :=
  mkComputedStyle (padding s) (margin s) (borderWidth s) (width s) (height s)
    (minWidth s) (minHeight s) (maxWidth s) (maxHeight s) (fontSize s) (lineHeight s) v
    (fontStyle s) (textDecoration s) (textAlign s) (fontFamily s) (display s) (position
    s) (boxSizing s) (overflow s) (top s) (right_ s) (bottom s) (left s) (zIndex s)
    (borderRadius s) (borderTopLeftRadius s) (borderTopRightRadius s)
    (borderBottomLeftRadius s) (borderBottomRightRadius s) (opacity s) (flexDirection s)
    (flexWrap s) (justifyContent s) (alignItems s) (flexGrow s) (flexShrink s)
    (flexBasis s) (gap s) (userSelect s) (objectFit s) (objectPosition s)
    (imageRendering s) (verticalAlign s).
Definition set_fontStyle (v : FontStyle) (s : ComputedStyle) : ComputedStyle :=
  mkComputedStyle (padding s) (margin s) (borderWidth s) (width s) (height s)
    (minWidth s) (minHeight s) (maxWidth s) (maxHeight s) (fontSize s) (lineHeight s)
    (fontWeight s) v (textDecoration s) (textAlign s) (fontFamily s) (display s)
    (position s) (boxSizing s) (overflow s) (top s) (right_ s) (bottom s) (left s)
    (zIndex s) (borderRadius s) (borderTopLeftRadius s) (borderTopRightRadius s)
    (borderBottomLeftRadius s) (borderBottomRightRadius s) (opacity s) (flexDirection s)
    (flexWrap s) (justifyContent s) (alignItems s) (flexGrow s) (flexShrink s)
    (flexBasis s) (gap s) (userSelect s) (objectFit s) (objectPosition s)
    (imageRendering s) (verticalAlign s).
Definition set_textDecoration (v : TextDecoration) (s : ComputedStyle) : ComputedStyle :=
  mkComputedStyle (padding s) (margin s) (borderWidth s) (width s) (height s)
    (minWidth s) (minHeight s) (maxWidth s) (maxHeight s) (fontSize s) (lineHeight s)
    (fontWeight s) (fontStyle s) v (textAlign s) (fontFamily s) (display s) (position s)
    (boxSizing s) (overflow s) (top s) (right_ s) (bottom s) (left s) (zIndex s)
    (borderRadius s) (borderTopLeftRadius s) (borderTopRightRadius s)
    (borderBottomLeftRadius s) (borderBottomRightRadius s) (opacity s) (flexDirection s)
    (flexWrap s) (justifyContent s) (alignItems s) (flexGrow s) (flexShrink s)
    (flexBasis s) (gap s) (userSelect s) (objectFit s) (objectPosition s)
    (imageRendering s) (verticalAlign s).
Definition set_textAlign (v : TextAlign) (s : ComputedStyle) : ComputedStyle :=
  mkComputedStyle (padding s) (margin s) (borderWidth s) (width s) (height s)
    (minWidth s) (minHeight s) (maxWidth s) (maxHeight s) (fontSize s) (lineHeight s)
    (fontWeight s) (fontStyle s) (textDecoration s) v (fontFamily s) (display s)
    (position s) (boxSizing s) (overflow s) (top s) (right_ s) (bottom s) (left s)
    (zIndex s) (borderRadius s) (borderTopLeftRadius s) (borderTopRightRadius s)
    (borderBottomLeftRadius s) (borderBottomRightRadius s) (opacity s) (flexDirection s)
    (flexWrap s) (justifyContent s) (alignItems s) (flexGrow s) (flexShrink s)
    (flexBasis s) (gap s) (userSelect s) (objectFit s) (objectPosition s)
    (imageRendering s) (verticalAlign s).
Definition set_fontFamily (v : string) (s : ComputedStyle) : ComputedStyle :=
  mkComputedStyle (padding s) (margin s) (borderWidth s) (width s) (height s)
    (minWidth s) (minHeight s) (maxWidth s) (maxHeight s) (fontSize s) (lineHeight s)
    (fontWeight s) (fontStyle s) (textDecoration s) (textAlign s) v (display s)
    (position s) (boxSizing s) (overflow s) (top s) (right_ s) (bottom s) (left s)
    (zIndex s) (borderRadius s) (borderTopLeftRadius s) (borderTopRightRadius s)
    (borderBottomLeftRadius s) (borderBottomRightRadius s) (opacity s) (flexDirection s)
    (flexWrap s) (justifyContent s) (alignItems s) (flexGrow s) (flexShrink s)
    (flexBasis s) (gap s) (userSelect s) (objectFit s) (objectPosition s)
    (imageRendering s) (verticalAlign s).
Definition set_display (v : DisplayType) (s : ComputedStyle) : ComputedStyle :=
  mkComputedStyle (padding s) (margin s) (borderWidth s) (width s) (height s)
    (minWidth s) (minHeight s) (maxWidth s) (maxHeight s) (fontSize s) (lineHeight s)
    (fontWeight s) (fontStyle s) (textDecoration s) (textAlign s) (fontFamily s) v
    (position s) (boxSizing s) (overflow s) (top s) (right_ s) (bottom s) (left s)
    (zIndex s) (borderRadius s) (borderTopLeftRadius s) (borderTopRightRadius s)
    (borderBottomLeftRadius s) (borderBottomRightRadius s) (opacity s) (flexDirection s)
    (flexWrap s) (justifyContent s) (alignItems s) (flexGrow s) (flexShrink s)
    (flexBasis s) (gap s) (userSelect s) (objectFit s) (objectPosition s)
    (imageRendering s) (verticalAlign s).
Definition set_position (v : Position) (s : ComputedStyle) : ComputedStyle :=
  mkComputedStyle (padding s) (margin s) (borderWidth s) (width s) (height s)
    (minWidth s) (minHeight s) (maxWidth s) (maxHeight s) (fontSize s) (lineHeight s)
    (fontWeight s) (fontStyle s) (textDecoration s) (textAlign s) (fontFamily s)
    (display s) v (boxSizing s) (overflow s) (top s) (right_ s) (bottom s) (left s)
    (zIndex s) (borderRadius s) (borderTopLeftRadius s) (borderTopRightRadius s)
    (borderBottomLeftRadius s) (borderBottomRightRadius s) (opacity s) (flexDirection s)
    (flexWrap s) (justifyContent s) (alignItems s) (flexGrow s) (flexShrink s)
    (flexBasis s) (gap s) (userSelect s) (objectFit s) (objectPosition s)
    (imageRendering s) (verticalAlign s).
Definition set_boxSizing (v : BoxSizing) (s : ComputedStyle) : ComputedStyle :=
  mkComputedStyle (padding s) (margin s) (borderWidth s) (width s) (height s)
    (minWidth s) (minHeight s) (maxWidth s) (maxHeight s) (fontSize s) (lineHeight s)
    (fontWeight s) (fontStyle s) (textDecoration s) (textAlign s) (fontFamily s)
    (display s) (position s) v (overflow s) (top s) (right_ s) (bottom s) (left s)
    (zIndex s) (borderRadius s) (borderTopLeftRadius s) (borderTopRightRadius s)
    (borderBottomLeftRadius s) (borderBottomRightRadius s) (opacity s) (flexDirection s)
    (flexWrap s) (justifyContent s) (alignItems s) (flexGrow s) (flexShrink s)
    (flexBasis s) (gap s) (userSelect s) (objectFit s) (objectPosition s)
    (imageRendering s) (verticalAlign s).
Definition set_overflow (v : Overflow) (s : ComputedStyle) : ComputedStyle :=
  mkComputedStyle (padding s) (margin s) (borderWidth s) (width s) (height s)
    (minWidth s) (minHeight s) (maxWidth s) (maxHeight s) (fontSize s) (lineHeight s)
    (fontWeight s) (fontStyle s) (textDecoration s) (textAlign s) (fontFamily s)
    (display s) (position s) (boxSizing s) v (top s) (right_ s) (bottom s) (left s)
    (zIndex s) (borderRadius s) (borderTopLeftRadius s) (borderTopRightRadius s)
    (borderBottomLeftRadius s) (borderBottomRightRadius s) (opacity s) (flexDirection s)
    (flexWrap s) (justifyContent s) (alignItems s) (flexGrow s) (flexShrink s)
    (flexBasis s) (gap s) (userSelect s) (objectFit s) (objectPosition s)
    (imageRendering s) (verticalAlign s).
Definition set_top (v : CssValue) (s : ComputedStyle) : ComputedStyle :=
  mkComputedStyle (padding s) (margin s) (borderWidth s) (width s) (height s)
    (minWidth s) (minHeight s) (maxWidth s) (maxHeight s) (fontSize s) (lineHeight s)
    (fontWeight s) (fontStyle s) (textDecoration s) (textAlign s) (fontFamily s)
    (display s) (position s) (boxSizing s) (overflow s) v (right_ s) (bottom s) (left s)
    (zIndex s) (borderRadius s) (borderTopLeftRadius s) (borderTopRightRadius s)
    (borderBottomLeftRadius s) (borderBottomRightRadius s) (opacity s) (flexDirection s)
    (flexWrap s) (justifyContent s) (alignItems s) (flexGrow s) (flexShrink s)
    (flexBasis s) (gap s) (userSelect s) (objectFit s) (objectPosition s)
    (imageRendering s) (verticalAlign s).
Definition set_right_ (v : CssValue) (s : ComputedStyle) : ComputedStyle :=
  mkComputedStyle (padding s) (margin s) (borderWidth s) (width s) (height s)
    (minWidth s) (minHeight s) (maxWidth s) (maxHeight s) (fontSize s) (lineHeight s)
    (fontWeight s) (fontStyle s) (textDecoration s) (textAlign s) (fontFamily s)
    (display s) (position s) (boxSizing s) (overflow s) (top s) v (bottom s) (left s)
    (zIndex s) (borderRadius s) (borderTopLeftRadius s) (borderTopRightRadius s)
    (borderBottomLeftRadius s) (borderBottomRightRadius s) (opacity s) (flexDirection s)
    (flexWrap s) (justifyContent s) (alignItems s) (flexGrow s) (flexShrink s)
    (flexBasis s) (gap s) (userSelect s) (objectFit s) (objectPosition s)
    (imageRendering s) (verticalAlign s).
Definition set_bottom (v : CssValue) (s : ComputedStyle) : ComputedStyle :=
  mkComputedStyle (padding s) (margin s) (borderWidth s) (width s) (height s)
    (minWidth s) (minHeight s) (maxWidth s) (maxHeight s) (fontSize s) (lineHeight s)
    (fontWeight s) (fontStyle s) (textDecoration s) (textAlign s) (fontFamily s)
    (display s) (position s) (boxSizing s) (overflow s) (top s) (right_ s) v (left s)
    (zIndex s) (borderRadius s) (borderTopLeftRadius s) (borderTopRightRadius s)
    (borderBottomLeftRadius s) (borderBottomRightRadius s) (opacity s) (flexDirection s)
    (flexWrap s) (justifyContent s) (alignItems s) (flexGrow s) (flexShrink s)
    (flexBasis s) (gap s) (userSelect s) (objectFit s) (objectPosition s)
    (imageRendering s) (verticalAlign s).
Definition set_left (v : CssValue) (s : ComputedStyle) : ComputedStyle :=
  mkComputedStyle (padding s) (margin s) (borderWidth s) (width s) (height s)
    (minWidth s) (minHeight s) (maxWidth s) (maxHeight s) (fontSize s) (lineHeight s)
    (fontWeight s) (fontStyle s) (textDecoration s) (textAlign s) (fontFamily s)
    (display s) (position s) (boxSizing s) (overflow s) (top s) (right_ s) (bottom s) v
    (zIndex s) (borderRadius s) (borderTopLeftRadius s) (borderTopRightRadius s)
    (borderBottomLeftRadius s) (borderBottomRightRadius s) (opacity s) (flexDirection s)
    (flexWrap s) (justifyContent s) (alignItems s) (flexGrow s) (flexShrink s)
    (flexBasis s) (gap s) (userSelect s) (objectFit s) (objectPosition s)
    (imageRendering s) (verticalAlign s).
Definition set_zIndex (v : Z) (s : ComputedStyle) : ComputedStyle :=
  mkComputedStyle (padding s) (margin s) (borderWidth s) (width s) (height s)
    (minWidth s) (minHeight s) (maxWidth s) (maxHeight s) (fontSize s) (lineHeight s)
    (fontWeight s) (fontStyle s) (textDecoration s) (textAlign s) (fontFamily s)
    (display s) (position s) (boxSizing s) (overflow s) (top s) (right_ s) (bottom s)
    (left s) v (borderRadius s) (borderTopLeftRadius s) (borderTopRightRadius s)
    (borderBottomLeftRadius s) (borderBottomRightRadius s) (opacity s) (flexDirection s)
    (flexWrap s) (justifyContent s) (alignItems s) (flexGrow s) (flexShrink s)
    (flexBasis s) (gap s) (userSelect s) (objectFit s) (objectPosition s)
    (imageRendering s) (verticalAlign s).
Definition set_borderRadius (v : Q) (s : ComputedStyle) : ComputedStyle :=
  mkComputedStyle (padding s) (margin s) (borderWidth s) (width s) (height s)
    (minWidth s) (minHeight s) (maxWidth s) (maxHeight s) (fontSize s) (lineHeight s)
    (fontWeight s) (fontStyle s) (textDecoration s) (textAlign s) (fontFamily s)
    (display s) (position s) (boxSizing s) (overflow s) (top s) (right_ s) (bottom s)
    (left s) (zIndex s) v (borderTopLeftRadius s) (borderTopRightRadius s)
    (borderBottomLeftRadius s) (borderBottomRightRadius s) (opacity s) (flexDirection s)
    (flexWrap s) (justifyContent s) (alignItems s) (flexGrow s) (flexShrink s)
    (flexBasis s) (gap s) (userSelect s) (objectFit s) (objectPosition s)
    (imageRendering s) (verticalAlign s).
Definition set_borderTopLeftRadius (v : Q) (s : ComputedStyle) : ComputedStyle :=
  mkComputedStyle (padding s) (margin s) (borderWidth s) (width s) (height s)
    (minWidth s) (minHeight s) (maxWidth s) (maxHeight s) (fontSize s) (lineHeight s)
    (fontWeight s) (fontStyle s) (textDecoration s) (textAlign s) (fontFamily s)
    (display s) (position s) (boxSizing s) (overflow s) (top s) (right_ s) (bottom s)
    (left s) (zIndex s) (borderRadius s) v (borderTopRightRadius s)
    (borderBottomLeftRadius s) (borderBottomRightRadius s) (opacity s) (flexDirection s)
    (flexWrap s) (justifyContent s) (alignItems s) (flexGrow s) (flexShrink s)
    (flexBasis s) (gap s) (userSelect s) (objectFit s) (objectPosition s)
    (imageRendering s) (verticalAlign s).
Definition set_borderTopRightRadius (v : Q) (s : ComputedStyle) : ComputedStyle :=
  mkComputedStyle (padding s) (margin s) (borderWidth s) (width s) (height s)
    (minWidth s) (minHeight s) (maxWidth s) (maxHeight s) (fontSize s) (lineHeight s)
    (fontWeight s) (fontStyle s) (textDecoration s) (textAlign s) (fontFamily s)
    (display s) (position s) (boxSizing s) (overflow s) (top s) (right_ s) (bottom s)
    (left s) (zIndex s) (borderRadius s) (borderTopLeftRadius s) v
    (borderBottomLeftRadius s) (borderBottomRightRadius s) (opacity s) (flexDirection s)
    (flexWrap s) (justifyContent s) (alignItems s) (flexGrow s) (flexShrink s)
    (flexBasis s) (gap s) (userSelect s) (objectFit s) (objectPosition s)
    (imageRendering s) (verticalAlign s).
Definition set_borderBottomLeftRadius (v : Q) (s : ComputedStyle) : ComputedStyle :=
  mkComputedStyle (padding s) (margin s) (borderWidth s) (width s) (height s)
    (minWidth s) (minHeight s) (maxWidth s) (maxHeight s) (fontSize s) (lineHeight s)
    (fontWeight s) (fontStyle s) (textDecoration s) (textAlign s) (fontFamily s)
    (display s) (position s) (boxSizing s) (overflow s) (top s) (right_ s) (bottom s)
    (left s) (zIndex s) (borderRadius s) (borderTopLeftRadius s) (borderTopRightRadius
    s) v (borderBottomRightRadius s) (opacity s) (flexDirection s) (flexWrap s)
    (justifyContent s) (alignItems s) (flexGrow s) (flexShrink s) (flexBasis s) (gap s)
    (userSelect s) (objectFit s) (objectPosition s) (imageRendering s) (verticalAlign s).
Definition set_borderBottomRightRadius (v : Q) (s : ComputedStyle) : ComputedStyle :=
  mkComputedStyle (padding s) (margin s) (borderWidth s) (width s) (height s)
    (minWidth s) (minHeight s) (maxWidth s) (maxHeight s) (fontSize s) (lineHeight s)
    (fontWeight s) (fontStyle s) (textDecoration s) (textAlign s) (fontFamily s)
    (display s) (position s) (boxSizing s) (overflow s) (top s) (right_ s) (bottom s)
    (left s) (zIndex s) (borderRadius s) (borderTopLeftRadius s) (borderTopRightRadius
    s) (borderBottomLeftRadius s) v (opacity s) (flexDirection s) (flexWrap s)
    (justifyContent s) (alignItems s) (flexGrow s) (flexShrink s) (flexBasis s) (gap s)
    (userSelect s) (objectFit s) (objectPosition s) (imageRendering s) (verticalAlign s).
Definition set_opacity (v : Q) (s : ComputedStyle) : ComputedStyle :=
  mkComputedStyle (padding s) (margin s) (borderWidth s) (width s) (height s)
    (minWidth s) (minHeight s) (maxWidth s) (maxHeight s) (fontSize s) (lineHeight s)
    (fontWeight s) (fontStyle s) (textDecoration s) (textAlign s) (fontFamily s)
    (display s) (position s) (boxSizing s) (overflow s) (top s) (right_ s) (bottom s)
    (left s) (zIndex s) (borderRadius s) (borderTopLeftRadius s) (borderTopRightRadius
    s) (borderBottomLeftRadius s) (borderBottomRightRadius s) v (flexDirection s)
    (flexWrap s) (justifyContent s) (alignItems s) (flexGrow s) (flexShrink s)
    (flexBasis s) (gap s) (userSelect s) (objectFit s) (objectPosition s)
    (imageRendering s) (verticalAlign s).
Definition set_flexDirection (v : string) (s : ComputedStyle) : ComputedStyle :=
  mkComputedStyle (padding s) (margin s) (borderWidth s) (width s) (height s)
    (minWidth s) (minHeight s) (maxWidth s) (maxHeight s) (fontSize s) (lineHeight s)
    (fontWeight s) (fontStyle s) (textDecoration s) (textAlign s) (fontFamily s)
    (display s) (position s) (boxSizing s) (overflow s) (top s) (right_ s) (bottom s)
    (left s) (zIndex s) (borderRadius s) (borderTopLeftRadius s) (borderTopRightRadius
    s) (borderBottomLeftRadius s) (borderBottomRightRadius s) (opacity s) v (flexWrap s)
    (justifyContent s) (alignItems s) (flexGrow s) (flexShrink s) (flexBasis s) (gap s)
    (userSelect s) (objectFit s) (objectPosition s) (imageRendering s) (verticalAlign s).
Definition set_flexWrap (v : string) (s : ComputedStyle) : ComputedStyle :=
  mkComputedStyle (padding s) (margin s) (borderWidth s) (width s) (height s)
    (minWidth s) (minHeight s) (maxWidth s) (maxHeight s) (fontSize s) (lineHeight s)
    (fontWeight s) (fontStyle s) (textDecoration s) (textAlign s) (fontFamily s)
    (display s) (position s) (boxSizing s) (overflow s) (top s) (right_ s) (bottom s)
    (left s) (zIndex s) (borderRadius s) (borderTopLeftRadius s) (borderTopRightRadius
    s) (borderBottomLeftRadius s) (borderBottomRightRadius s) (opacity s) (flexDirection
    s) v (justifyContent s) (alignItems s) (flexGrow s) (flexShrink s) (flexBasis s)
    (gap s) (userSelect s) (objectFit s) (objectPosition s) (imageRendering s)
    (verticalAlign s).
Definition set_justifyContent (v : string) (s : ComputedStyle) : ComputedStyle :=
  mkComputedStyle (padding s) (margin s) (borderWidth s) (width s) (height s)
    (minWidth s) (minHeight s) (maxWidth s) (maxHeight s) (fontSize s) (lineHeight s)
    (fontWeight s) (fontStyle s) (textDecoration s) (textAlign s) (fontFamily s)
    (display s) (position s) (boxSizing s) (overflow s) (top s) (right_ s) (bottom s)
    (left s) (zIndex s) (borderRadius s) (borderTopLeftRadius s) (borderTopRightRadius
    s) (borderBottomLeftRadius s) (borderBottomRightRadius s) (opacity s) (flexDirection
    s) (flexWrap s) v (alignItems s) (flexGrow s) (flexShrink s) (flexBasis s) (gap s)
    (userSelect s) (objectFit s) (objectPosition s) (imageRendering s) (verticalAlign s).
Definition set_alignItems (v : string) (s : ComputedStyle) : ComputedStyle :=
  mkComputedStyle (padding s) (margin s) (borderWidth s) (width s) (height s)
    (minWidth s) (minHeight s) (maxWidth s) (maxHeight s) (fontSize s) (lineHeight s)
    (fontWeight s) (fontStyle s) (textDecoration s) (textAlign s) (fontFamily s)
    (display s) (position s) (boxSizing s) (overflow s) (top s) (right_ s) (bottom s)
    (left s) (zIndex s) (borderRadius s) (borderTopLeftRadius s) (borderTopRightRadius
    s) (borderBottomLeftRadius s) (borderBottomRightRadius s) (opacity s) (flexDirection
    s) (flexWrap s) (justifyContent s) v (flexGrow s) (flexShrink s) (flexBasis s) (gap
    s) (userSelect s) (objectFit s) (objectPosition s) (imageRendering s) (verticalAlign
    s).
Definition set_flexGrow (v : Q) (s : ComputedStyle) : ComputedStyle :=
  mkComputedStyle (padding s) (margin s) (borderWidth s) (width s) (height s)
    (minWidth s) (minHeight s) (maxWidth s) (maxHeight s) (fontSize s) (lineHeight s)
    (fontWeight s) (fontStyle s) (textDecoration s) (textAlign s) (fontFamily s)
    (display s) (position s) (boxSizing s) (overflow s) (top s) (right_ s) (bottom s)
    (left s) (zIndex s) (borderRadius s) (borderTopLeftRadius s) (borderTopRightRadius
    s) (borderBottomLeftRadius s) (borderBottomRightRadius s) (opacity s) (flexDirection
    s) (flexWrap s) (justifyContent s) (alignItems s) v (flexShrink s) (flexBasis s)
    (gap s) (userSelect s) (objectFit s) (objectPosition s) (imageRendering s)
    (verticalAlign s).
Definition set_flexShrink (v : Q) (s : ComputedStyle) : ComputedStyle :=
  mkComputedStyle (padding s) (margin s) (borderWidth s) (width s) (height s)
    (minWidth s) (minHeight s) (maxWidth s) (maxHeight s) (fontSize s) (lineHeight s)
    (fontWeight s) (fontStyle s) (textDecoration s) (textAlign s) (fontFamily s)
    (display s) (position s) (boxSizing s) (overflow s) (top s) (right_ s) (bottom s)
    (left s) (zIndex s) (borderRadius s) (borderTopLeftRadius s) (borderTopRightRadius
    s) (borderBottomLeftRadius s) (borderBottomRightRadius s) (opacity s) (flexDirection
    s) (flexWrap s) (justifyContent s) (alignItems s) (flexGrow s) v (flexBasis s) (gap
    s) (userSelect s) (objectFit s) (objectPosition s) (imageRendering s) (verticalAlign
    s).
Definition set_flexBasis (v : CssValue) (s : ComputedStyle) : ComputedStyle :=
  mkComputedStyle (padding s) (margin s) (borderWidth s) (width s) (height s)
    (minWidth s) (minHeight s) (maxWidth s) (maxHeight s) (fontSize s) (lineHeight s)
    (fontWeight s) (fontStyle s) (textDecoration s) (textAlign s) (fontFamily s)
    (display s) (position s) (boxSizing s) (overflow s) (top s) (right_ s) (bottom s)
    (left s) (zIndex s) (borderRadius s) (borderTopLeftRadius s) (borderTopRightRadius
    s) (borderBottomLeftRadius s) (borderBottomRightRadius s) (opacity s) (flexDirection
    s) (flexWrap s) (justifyContent s) (alignItems s) (flexGrow s) (flexShrink s) v (gap
    s) (userSelect s) (objectFit s) (objectPosition s) (imageRendering s) (verticalAlign
    s).
Definition set_gap (v : Q) (s : ComputedStyle) : ComputedStyle :=
  mkComputedStyle (padding s) (margin s) (borderWidth s) (width s) (height s)
    (minWidth s) (minHeight s) (maxWidth s) (maxHeight s) (fontSize s) (lineHeight s)
    (fontWeight s) (fontStyle s) (textDecoration s) (textAlign s) (fontFamily s)
    (display s) (position s) (boxSizing s) (overflow s) (top s) (right_ s) (bottom s)
    (left s) (zIndex s) (borderRadius s) (borderTopLeftRadius s) (borderTopRightRadius
    s) (borderBottomLeftRadius s) (borderBottomRightRadius s) (opacity s) (flexDirection
    s) (flexWrap s) (justifyContent s) (alignItems s) (flexGrow s) (flexShrink s)
    (flexBasis s) v (userSelect s) (objectFit s) (objectPosition s) (imageRendering s)
    (verticalAlign s).
Definition set_userSelect (v : string) (s : ComputedStyle) : ComputedStyle :=
  mkComputedStyle (padding s) (margin s) (borderWidth s) (width s) (height s)
    (minWidth s) (minHeight s) (maxWidth s) (maxHeight s) (fontSize s) (lineHeight s)
    (fontWeight s) (fontStyle s) (textDecoration s) (textAlign s) (fontFamily s)
    (display s) (position s) (boxSizing s) (overflow s) (top s) (right_ s) (bottom s)
    (left s) (zIndex s) (borderRadius s) (borderTopLeftRadius s) (borderTopRightRadius
    s) (borderBottomLeftRadius s) (borderBottomRightRadius s) (opacity s) (flexDirection
    s) (flexWrap s) (justifyContent s) (alignItems s) (flexGrow s) (flexShrink s)
    (flexBasis s) (gap s) v (objectFit s) (objectPosition s) (imageRendering s)
    (verticalAlign s).
Definition set_objectFit (v : string) (s : ComputedStyle) : ComputedStyle :=
  mkComputedStyle (padding s) (margin s) (borderWidth s) (width s) (height s)
    (minWidth s) (minHeight s) (maxWidth s) (maxHeight s) (fontSize s) (lineHeight s)
    (fontWeight s) (fontStyle s) (textDecoration s) (textAlign s) (fontFamily s)
    (display s) (position s) (boxSizing s) (overflow s) (top s) (right_ s) (bottom s)
    (left s) (zIndex s) (borderRadius s) (borderTopLeftRadius s) (borderTopRightRadius
    s) (borderBottomLeftRadius s) (borderBottomRightRadius s) (opacity s) (flexDirection
    s) (flexWrap s) (justifyContent s) (alignItems s) (flexGrow s) (flexShrink s)
    (flexBasis s) (gap s) (userSelect s) v (objectPosition s) (imageRendering s)
    (verticalAlign s).
Definition set_objectPosition (v : string) (s : ComputedStyle) : ComputedStyle :=
  mkComputedStyle (padding s) (margin s) (borderWidth s) (width s) (height s)
    (minWidth s) (minHeight s) (maxWidth s) (maxHeight s) (fontSize s) (lineHeight s)
    (fontWeight s) (fontStyle s) (textDecoration s) (textAlign s) (fontFamily s)
    (display s) (position s) (boxSizing s) (overflow s) (top s) (right_ s) (bottom s)
    (left s) (zIndex s) (borderRadius s) (borderTopLeftRadius s) (borderTopRightRadius
    s) (borderBottomLeftRadius s) (borderBottomRightRadius s) (opacity s) (flexDirection
    s) (flexWrap s) (justifyContent s) (alignItems s) (flexGrow s) (flexShrink s)
    (flexBasis s) (gap s) (userSelect s) (objectFit s) v (imageRendering s)
    (verticalAlign s).
Definition set_imageRendering (v : string) (s : ComputedStyle) : ComputedStyle :=
  mkComputedStyle (padding s) (margin s) (borderWidth s) (width s) (height s)
    (minWidth s) (minHeight s) (maxWidth s) (maxHeight s) (fontSize s) (lineHeight s)
    (fontWeight s) (fontStyle s) (textDecoration s) (textAlign s) (fontFamily s)
    (display s) (position s) (boxSizing s) (overflow s) (top s) (right_ s) (bottom s)
    (left s) (zIndex s) (borderRadius s) (borderTopLeftRadius s) (borderTopRightRadius
    s) (borderBottomLeftRadius s) (borderBottomRightRadius s) (opacity s) (flexDirection
    s) (flexWrap s) (justifyContent s) (alignItems s) (flexGrow s) (flexShrink s)
    (flexBasis s) (gap s) (userSelect s) (objectFit s) (objectPosition s) v
    (verticalAlign s).
Definition set_verticalAlign (v : string) (s : ComputedStyle) : ComputedStyle :=
  mkComputedStyle (padding s) (margin s) (borderWidth s) (width s) (height s)
    (minWidth s) (minHeight s) (maxWidth s) (maxHeight s) (fontSize s) (lineHeight s)
    (fontWeight s) (fontStyle s) (textDecoration s) (textAlign s) (fontFamily s)
    (display s) (position s) (boxSizing s) (overflow s) (top s) (right_ s) (bottom s)
    (left s) (zIndex s) (borderRadius s) (borderTopLeftRadius s) (borderTopRightRadius
    s) (borderBottomLeftRadius s) (borderBottomRightRadius s) (opacity s) (flexDirection
    s) (flexWrap s) (justifyContent s) (alignItems s) (flexGrow s) (flexShrink s)
    (flexBasis s) (gap s) (userSelect s) (objectFit s) (objectPosition s)
    (imageRendering s) v.

(** [iss >> token]: the maximal runs of characters that are not white
    space, in order ([CssParser::splitValues] and the token loops). *)
Fixpoint split_ws_from (s cur : string) : list string :=
  match s with
  | EmptyString => if is_empty cur then [] else [rev_string cur]
  | String c s' =>
      if isspace c
      then if is_empty cur then split_ws_from s' EmptyString
           else rev_string cur :: split_ws_from s' EmptyString
      else split_ws_from s' (String c cur)
  end.
Definition splitValues (s : string) : list string := split_ws_from s EmptyString.

Fixpoint is_prefix (pat s : string) : bool :=
  match pat, s with
  | EmptyString, _ => true
  | String _ _, EmptyString => false
  | String a pat', String c s' => Ascii.eqb a c && is_prefix pat' s'
  end.

(** [s.find(pat) != std::string::npos]. *)
Fixpoint contains (pat s : string) : bool :=
  is_prefix pat s ||
  match s with
  | EmptyString => false
  | String _ s' => contains pat s'
  end.

(** [CssParser::parse2ValueShorthand]: the two values assigned. *)
Definition parse2ValueShorthand (valueStr : string) : res (CssValue * CssValue) :=
  match splitValues valueStr with
  | [] => Ok (mkCssValue 0 Px, mkCssValue 0 Px)
  | [p0] => v <- parseValue p0 ;; Ok (v, v)
  | p0 :: p1 :: _ => a <- parseValue p0 ;; b <- parseValue p1 ;; Ok (a, b)
  end.

(** [CssParser::parse4ValueShorthand]: the four edges assigned. *)
Definition parse4ValueShorthand (valueStr : string) : res EdgeValues :=
  match splitValues valueStr with
  | [] => Ok edges_zero
  | [p0] => v <- parseValue p0 ;; Ok (mkEdges v v v v)
  | [p0; p1] => tb <- parseValue p0 ;; rl <- parseValue p1 ;; Ok (mkEdges tb rl tb rl)
  | [p0; p1; p2] =>
      t <- parseValue p0 ;; rl <- parseValue p1 ;; b <- parseValue p2 ;;
      Ok (mkEdges t rl b rl)
  | p0 :: p1 :: p2 :: p3 :: _ =>
      t <- parseValue p0 ;; r <- parseValue p1 ;; b <- parseValue p2 ;;
      l <- parseValue p3 ;; Ok (mkEdges t r b l)
  end.

Definition set_top_edge (v : CssValue) (e : EdgeValues) : EdgeValues :=
  mkEdges v (e_right e) (e_bottom e) (e_left e).
Definition set_right_edge (v : CssValue) (e : EdgeValues) : EdgeValues :=
  mkEdges (e_top e) v (e_bottom e) (e_left e).
Definition set_bottom_edge (v : CssValue) (e : EdgeValues) : EdgeValues :=
  mkEdges (e_top e) (e_right e) v (e_left e).
Definition set_left_edge (v : CssValue) (e : EdgeValues) : EdgeValues :=
  mkEdges (e_top e) (e_right e) (e_bottom e) v.

Definition one_of (v : string) (l : list string) : bool :=
  existsb (String.eqb v) l.

(** The token loop of the [flex] shorthand.  [try] around the conversion
    of each token; the handler reads the first token as a flex-basis and
    leaves the loop, and drops any later token that does not convert. *)
Fixpoint flex_tokens (tokens : list string) (tokenCount : nat)
    (s : ComputedStyle) : res (nat * ComputedStyle) :=
  match tokens with
  | [] => Ok (tokenCount, s)
  | token :: rest =>
      if (3 <=? tokenCount)%nat then Ok (tokenCount, s)
      else
        match tokenCount with
        | O =>
            match stof token with
            | Ok g => flex_tokens rest 1 (set_flexGrow g s)
            | Throw _ => b <- parseValue token ;; Ok (O, set_flexBasis b s)
            | Unmodelled => Unmodelled
            end
        | S O =>
            match stof token with
            | Ok k => flex_tokens rest 2 (set_flexShrink k s)
            | Throw _ => flex_tokens rest 1 s
            | Unmodelled => Unmodelled
            end
        | _ =>
            match parseValue token with
            | Ok b => flex_tokens rest 3 (set_flexBasis b s)
            | Throw _ => flex_tokens rest 2 s
            | Unmodelled => Unmodelled
            end
        end
  end.

(** Properties whose branch parses a colour ([parseColor],
    [parseBorderShorthand], [parseBorderSideShorthand]); colours are not
    part of this embedding. *)
Definition colour_properties : list string :=
  ["border"; "border-top"; "border-right"; "border-bottom"; "border-left";
   "border-color"; "border-top-color"; "border-right-color";
   "border-bottom-color"; "border-left-color"; "color"; "background-color";
   "background"].

(** [StyleSheet::applyProperty]. *)
Definition applyProperty (property value : string) (s : ComputedStyle)
    : res ComputedStyle :=
  let named p := String.eqb property p in
  let edge (get : ComputedStyle -> EdgeValues)
           (put : EdgeValues -> ComputedStyle -> ComputedStyle)
           (side : CssValue -> EdgeValues -> EdgeValues) :=
    v <- parseValue value ;; Ok (put (side v (get s)) s) in
  let block_pair (get : ComputedStyle -> EdgeValues)
            (put : EdgeValues -> ComputedStyle -> ComputedStyle) :=
    p <- parse2ValueShorthand value ;;
    Ok (put (set_bottom_edge (snd p) (set_top_edge (fst p) (get s))) s) in
  let inline_pair (get : ComputedStyle -> EdgeValues)
             (put : EdgeValues -> ComputedStyle -> ComputedStyle) :=
    p <- parse2ValueShorthand value ;;
    Ok (put (set_right_edge (snd p) (set_left_edge (fst p) (get s))) s) in
  let len_value (put : CssValue -> ComputedStyle -> ComputedStyle) :=
    v <- parseValue value ;; Ok (put v s) in
  let radius (put : Q -> ComputedStyle -> ComputedStyle) :=
    v <- parseValue value ;; Ok (put (toPx v default_context) s) in
  let v := trim value in
  (* Padding *)
  if named "padding" then e <- parse4ValueShorthand value ;; Ok (set_padding e s)
  else if named "padding-top" then edge padding set_padding set_top_edge
  else if named "padding-right" then edge padding set_padding set_right_edge
  else if named "padding-bottom" then edge padding set_padding set_bottom_edge
  else if named "padding-left" then edge padding set_padding set_left_edge
  else if named "padding-block-start" then edge padding set_padding set_top_edge
  else if named "padding-block-end" then edge padding set_padding set_bottom_edge
  else if named "padding-inline-start" then edge padding set_padding set_left_edge
  else if named "padding-inline-end" then edge padding set_padding set_right_edge
  else if named "padding-block" then block_pair padding set_padding
  else if named "padding-inline" then inline_pair padding set_padding
  (* Margin *)
  else if named "margin" then e <- parse4ValueShorthand value ;; Ok (set_margin e s)
  else if named "margin-top" then edge margin set_margin set_top_edge
  else if named "margin-right" then edge margin set_margin set_right_edge
  else if named "margin-bottom" then edge margin set_margin set_bottom_edge
  else if named "margin-left" then edge margin set_margin set_left_edge
  else if named "margin-block-start" then edge margin set_margin set_top_edge
  else if named "margin-block-end" then edge margin set_margin set_bottom_edge
  else if named "margin-inline-start" then edge margin set_margin set_left_edge
  else if named "margin-inline-end" then edge margin set_margin set_right_edge
  else if named "margin-block" then block_pair margin set_margin
  else if named "margin-inline" then inline_pair margin set_margin
  (* Border width *)
  else if named "border-width" then
    e <- parse4ValueShorthand value ;; Ok (set_borderWidth e s)
  else if named "border-top-width" then edge borderWidth set_borderWidth set_top_edge
  else if named "border-right-width" then edge borderWidth set_borderWidth set_right_edge
  else if named "border-bottom-width" then edge borderWidth set_borderWidth set_bottom_edge
  else if named "border-left-width" then edge borderWidth set_borderWidth set_left_edge
  (* Border shorthands and colours *)
  else if one_of property colour_properties then Unmodelled
  (* Border radius *)
  else if named "border-radius" then
    r <- parseValue value ;;
    let px := toPx r default_context in
    Ok (set_borderBottomRightRadius px (set_borderBottomLeftRadius px
         (set_borderTopRightRadius px (set_borderTopLeftRadius px
           (set_borderRadius px s)))))
  else if named "border-top-left-radius" then radius set_borderTopLeftRadius
  else if named "border-top-right-radius" then radius set_borderTopRightRadius
  else if named "border-bottom-left-radius" then radius set_borderBottomLeftRadius
  else if named "border-bottom-right-radius" then radius set_borderBottomRightRadius
  (* Dimensions *)
  else if named "width" then len_value set_width
  else if named "height" then len_value set_height
  else if named "min-width" then len_value set_minWidth
  else if named "max-width" then len_value set_maxWidth
  else if named "min-height" then len_value set_minHeight
  else if named "max-height" then len_value set_maxHeight
  (* Typography *)
  else if named "font-size" then
    f <- parseValue value ;; Ok (set_fontSize (toPx2 f 0 16) s)
  else if named "line-height" then
    if contains "px" v || contains "em" v then
      l <- parseValue v ;;
      Ok (set_lineHeight (toPx2 l 0 (fontSize s) / fontSize s) s)
    else
      l <- stof v ;; Ok (set_lineHeight l s)
  else if named "font-weight" then
    Ok (set_fontWeight
          (if one_of v ["bold"; "700"; "800"; "900"] then Bold
           else if String.eqb v "lighter" then Lighter
           else if String.eqb v "bolder" then Bolder
           else FontWeight_Normal) s)
  else if named "font-style" then
    Ok (set_fontStyle
          (if String.eqb v "italic" then Italic
           else if String.eqb v "oblique" then Oblique
           else FontStyle_Normal) s)
  else if named "text-decoration" then
    Ok (set_textDecoration
          (if String.eqb v "underline" then Underline
           else if String.eqb v "overline" then Overline
           else if String.eqb v "line-through" then LineThrough
           else TextDecoration_None) s)
  else if named "text-align" then
    Ok (set_textAlign
          (if String.eqb v "center" then Center
           else if String.eqb v "right" then Right
           else if String.eqb v "justify" then Justify
           else Left) s)
  else if named "font-family" then
    let s1 := set_fontFamily v s in
    Ok (if contains "monospace" v && Qeq_bool (fontSize s1) 16
        then set_fontSize 13 s1 else s1)
  (* Layout *)
  else if named "display" then
    Ok (if String.eqb v "block" then set_display Block s
        else if String.eqb v "inline" then set_display Inline s
        else if String.eqb v "inline-block" then set_display InlineBlock s
        else if String.eqb v "flex" then set_display Flex s
        else if String.eqb v "grid" then set_display Grid s
        else if String.eqb v "table" then set_display Table s
        else if String.eqb v "table-row-group" then set_display TableRowGroup s
        else if String.eqb v "table-row" then set_display TableRow s
        else if String.eqb v "table-cell" then set_display TableCell s
        else if String.eqb v "none" then set_display Hidden s
        else s)
  else if named "position" then
    Ok (set_position
          (if String.eqb v "relative" then Relative
           else if String.eqb v "absolute" then Absolute
           else if String.eqb v "fixed" then Fixed
           else if String.eqb v "sticky" then Sticky
           else Static) s)
  else if named "box-sizing" then
    Ok (set_boxSizing (if String.eqb v "border-box" then BorderBox else ContentBox) s)
  else if named "overflow" then
    Ok (set_overflow
          (if String.eqb v "hidden" then Overflow_Hidden
           else if String.eqb v "scroll" then Scroll
           else if String.eqb v "auto" then Overflow_Auto
           else Visible) s)
  (* Positioning *)
  else if named "top" then len_value set_top
  else if named "right" then len_value set_right_
  else if named "bottom" then len_value set_bottom
  else if named "left" then len_value set_left
  else if named "z-index" then z <- stoi v ;; Ok (set_zIndex z s)
  (* Opacity *)
  else if named "opacity" then o <- stof v ;; Ok (set_opacity o s)
  (* Flexbox *)
  else if named "flex-direction" then Ok (set_flexDirection v s)
  else if named "flex-wrap" then Ok (set_flexWrap v s)
  else if named "justify-content" then Ok (set_justifyContent v s)
  else if named "align-items" then Ok (set_alignItems v s)
  else if named "flex-grow" then g <- stof v ;; Ok (set_flexGrow g s)
  else if named "flex-shrink" then k <- stof v ;; Ok (set_flexShrink k s)
  else if named "flex-basis" then len_value set_flexBasis
  else if named "flex" then
    if String.eqb v "auto" then
      b <- parseValue "auto" ;;
      Ok (set_flexBasis b (set_flexShrink 1 (set_flexGrow 1 s)))
    else if String.eqb v "none" then
      b <- parseValue "auto" ;;
      Ok (set_flexBasis b (set_flexShrink 0 (set_flexGrow 0 s)))
    else
      r <- flex_tokens (splitValues v) 0 s ;;
      let '(tokenCount, s1) := r in
      if (tokenCount =? 1)%nat && fltb 0 (flexGrow s1) then
        b <- parseValue "0%" ;; Ok (set_flexBasis b (set_flexShrink 1 s1))
      else Ok s1
  else if named "gap" then
    g <- parseValue value ;; Ok (set_gap (toPx g default_context) s)
  else if one_of property
            ["user-select"; "-webkit-user-select"; "-moz-user-select"; "-ms-user-select"]
  then Ok (if one_of v ["none"; "auto"; "text"; "all"] then set_userSelect v s else s)
  else if named "object-fit" then
    Ok (if one_of v ["fill"; "contain"; "cover"; "none"; "scale-down"]
        then set_objectFit v s else s)
  else if named "object-position" then Ok (set_objectPosition v s)
  else if named "image-rendering" then
    Ok (if one_of v ["auto"; "pixelated"; "crisp-edges"; "-webkit-optimize-contrast"]
        then set_imageRendering v s else s)
  else if named "vertical-align" then
    Ok (if one_of v ["baseline"; "top"; "middle"; "bottom"; "text-top";
                     "text-bottom"; "sub"; "super"]
        then set_verticalAlign v s else s)
  else Ok s.

(** [StyleSheet::applyDeclarations].  [declarations] lists the entries of
    the [std::map] in the order its iteration visits them (by key); an
    exception leaves the loop and the function. *)
Fixpoint applyDeclarations (declarations : list (string * string))
    (s : ComputedStyle) : res ComputedStyle :=
  match declarations with
  | [] => Ok s
  | (property, value) :: rest =>
      s1 <- applyProperty property value s ;; applyDeclarations rest s1
  end.

(** The accessors with their default arguments made explicit. *)
Definition getPaddingTop (s : ComputedStyle) (parentWidth fs : Q) : Q :=
  toPx2 (e_top (padding s)) parentWidth fs.
Definition getPaddingRight (s : ComputedStyle) (parentWidth fs : Q) : Q :=
  toPx2 (e_right (padding s)) parentWidth fs.
Definition getPaddingBottom (s : ComputedStyle) (parentWidth fs : Q) : Q :=
  toPx2 (e_bottom (padding s)) parentWidth fs.
Definition getPaddingLeft (s : ComputedStyle) (parentWidth fs : Q) : Q :=
  toPx2 (e_left (padding s)) parentWidth fs.
Definition getMarginTop (s : ComputedStyle) (parentWidth fs : Q) : Q :=
  toPx2 (e_top (margin s)) parentWidth fs.
Definition getMarginRight (s : ComputedStyle) (parentWidth fs : Q) : Q :=
  toPx2 (e_right (margin s)) parentWidth fs.
Definition getMarginBottom (s : ComputedStyle) (parentWidth fs : Q) : Q :=
  toPx2 (e_bottom (margin s)) parentWidth fs.
Definition getMarginLeft (s : ComputedStyle) (parentWidth fs : Q) : Q :=
  toPx2 (e_left (margin s)) parentWidth fs.
Definition getBorderTopWidth (s : ComputedStyle) : Q :=
  toPx (e_top (borderWidth s)) default_context.
Definition getBorderRightWidth (s : ComputedStyle) : Q :=
  toPx (e_right (borderWidth s)) default_context.
Definition getBorderBottomWidth (s : ComputedStyle) : Q :=
  toPx (e_bottom (borderWidth s)) default_context.
Definition getBorderLeftWidth (s : ComputedStyle) : Q :=
  toPx (e_left (borderWidth s)) default_context.

End Style.

(** ** Render boxes and layout (RenderTree.hpp) *)

Module Layout.
Import Css Style.
Local Open Scope Q_scope.

Record Rect : Type := mkRect { r_x : Q; r_y : Q; r_width : Q; r_height : Q }.

Definition rect_zero : Rect := mkRect 0 0 0 0.
Definition rect_right (r : Rect) : Q := r_x r + r_width r.
Definition rect_bottom (r : Rect) : Q := r_y r + r_height r.

Record BoxDimensions : Type := mkBox {
  content : Rect; box_padding : EdgeValues; box_border : EdgeValues;
  box_margin : EdgeValues }.

(** [toPx()] with every argument defaulted. *)
Definition px0 (v : CssValue) : Q := toPx v default_context.

(** [BoxDimensions::borderBox]. *)
Definition borderBox (b : BoxDimensions) : Rect :=
  mkRect
    (r_x (content b) - px0 (e_left (box_padding b)) - px0 (e_left (box_border b)))
    (r_y (content b) - px0 (e_top (box_padding b)) - px0 (e_top (box_border b)))
    (r_width (content b) + px0 (e_left (box_padding b)) + px0 (e_right (box_padding b))
     + px0 (e_left (box_border b)) + px0 (e_right (box_border b)))
    (r_height (content b) + px0 (e_top (box_padding b)) + px0 (e_bottom (box_padding b))
     + px0 (e_top (box_border b)) + px0 (e_bottom (box_border b))).

(** The geometry and scroll fields of [RenderBox]. *)
Record RenderBox : Type := mkRenderBox {
  computedStyle : ComputedStyle;
  frame : Rect;
  box : BoxDimensions;
  scrollX : Q;
  scrollY : Q;
  scrollableWidth : Q;
  scrollableHeight : Q }.

(** A box as [RenderTree::build] makes it. *)
Definition new_box : RenderBox :=
  mkRenderBox default_style rect_zero
    (mkBox rect_zero edges_zero edges_zero edges_zero) 0 0 0 0.

Definition scrolls (o : Overflow) : bool :=
  match o with Scroll | Overflow_Auto => true | _ => false end.


Definition maxScrollX (b : RenderBox) : Q := std_max 0 (scrollableWidth b).
Definition maxScrollY (b : RenderBox) : Q := std_max 0 (scrollableHeight b).

(** [RenderBox::clampScroll]. *)
Definition clampScroll (b : RenderBox) : RenderBox :=
  mkRenderBox (computedStyle b) (frame b) (box b)
    (std_max 0 (std_min (scrollX b) (maxScrollX b)))
    (std_max 0 (std_min (scrollY b) (maxScrollY b)))
    (scrollableWidth b) (scrollableHeight b).

Inductive NodeType : Type := Element | Text | Document.

(** What [layout] reads from the node of a box and from the calls it makes
    into code that is not embedded here: [node_style] is the result of
    [styleSheet.computeStyle] on the node, [inline_style] the [style] attribute
    (empty when absent), [intrinsic_width] and [table_intrinsic_width] the
    results of [measureIntrinsicWidth] and [measureTableIntrinsicWidth] with
    the font and size of the box, [default_font_intrinsic_width] the result
    of [measureIntrinsicWidth] as [layoutFlexChildren] calls it (default
    font, font size of the last computed style), and
    [content_height x y width] the height the layout of the text or of the
    children returns at that origin and width. *)
Record NodeInfo : Type := mkNodeInfo {
  node_type : NodeType;
  inline_style : string;
  node_style : ComputedStyle;
  intrinsic_width : Q;
  table_intrinsic_width : Q;
  default_font_intrinsic_width : Q;
  content_height : Q -> Q -> Q -> Q }.

(** The inheritance step at the head of [layout] ([parent] is the computed
    style of the parent box, if there is one). *)
Definition inherit (parent : option ComputedStyle) (n : NodeInfo) : ComputedStyle :=
  let s := node_style n in
  match parent with
  | None => s
  | Some p =>
      match node_type n with
      | Text =>
          set_lineHeight (lineHeight p) (set_textAlign (textAlign p)
            (set_textDecoration (textDecoration p) (set_fontFamily (fontFamily p)
              (set_fontStyle (fontStyle p) (set_fontWeight (fontWeight p)
                (set_fontSize (fontSize p) s))))))
      | Element =>
          let s1 := if contains "text-align" (inline_style n) then s
                    else set_textAlign (textAlign p) s in
          let s2 := if contains "font-family" (inline_style n) then s1
                    else set_fontFamily (fontFamily p) s1 in
          if contains "line-height" (inline_style n) then s2
          else set_lineHeight (lineHeight p) s2
      | Document => s
      end
  end.

Definition is_display (d e : DisplayType) : bool :=
  match d, e with
  | Block, Block | Inline, Inline | InlineBlock, InlineBlock | Flex, Flex
  | Grid, Grid | Hidden, Hidden | Table, Table | TableRowGroup, TableRowGroup
  | TableRow, TableRow | TableCell, TableCell => true
  | _, _ => false
  end.

Definition is_text (n : NodeInfo) : bool :=
  match node_type n with Text => true | _ => false end.

(** [RenderBox::layout(x, y, availableWidth, ..., inInlineFlow)] for a box
    whose node is not an [input], [textarea], [select] or [img] element
    (those branches resize the box afterwards). *)
Definition layout (n : NodeInfo) (parent : option ComputedStyle)
    (x y availableWidth vw vh : Q) (inInlineFlow : bool) (b : RenderBox)
    : RenderBox :=
  let style := inherit parent n in
  if is_display (display style) Hidden then
    mkRenderBox style (mkRect x y 0 0) (box b)
      (scrollX b) (scrollY b) (scrollableWidth b) (scrollableHeight b)
  else
    let fs := fontSize style in
    let parentWidth := availableWidth in
    let ctx := mkPxContext parentWidth fs vw vh in
    let marginTop := getMarginTop style parentWidth fs in
    let marginRight := getMarginRight style parentWidth fs in
    let marginLeft := getMarginLeft style parentWidth fs in
    let paddingTop := getPaddingTop style parentWidth fs in
    let paddingRight := getPaddingRight style parentWidth fs in
    let paddingBottom := getPaddingBottom style parentWidth fs in
    let paddingLeft := getPaddingLeft style parentWidth fs in
    let borderTop := getBorderTopWidth style in
    let borderRight := getBorderRightWidth style in
    let borderBottom := getBorderBottomWidth style in
    let borderLeft := getBorderLeftWidth style in
    let contentStartX := x + marginLeft + borderLeft + paddingLeft in
    let contentStartY := y + marginTop + borderTop + paddingTop in
    let totalHorizontalSpace :=
      marginLeft + borderLeft + paddingLeft + paddingRight + borderRight + marginRight in
    let w0 :=
      if negb (isAuto (width style)) && fleb 0 (value (width style)) then
        let w := toPx (width style) ctx in
        match boxSizing style with
        | BorderBox => w - (paddingLeft + paddingRight + borderLeft + borderRight)
        | ContentBox => w
        end
      else if is_display (display style) Inline || is_display (display style) InlineBlock
              || is_display (display style) Table then
        if is_display (display style) Table then
          table_intrinsic_width n - (paddingLeft + paddingRight + borderLeft + borderRight)
        else intrinsic_width n
      else if is_text n && inInlineFlow then intrinsic_width n
      else availableWidth - totalHorizontalSpace in
    let w1 := if fltb w0 0 then 0 else w0 in
    let w2 := if negb (isAuto (minWidth style)) && fltb 0 (value (minWidth style))
              then std_max w1 (toPx (minWidth style) ctx) else w1 in
    let contentWidth :=
      if negb (isAuto (maxWidth style)) && fltb 0 (value (maxWidth style))
      then std_min w2 (toPx (maxWidth style) ctx) else w2 in
    let d := display style in
    let layoutWidth :=
      if is_text n || is_display d Flex || is_display d Table || is_display d Block
         || is_display d TableRowGroup || is_display d TableRow || is_display d TableCell
      then contentWidth
      else if is_display d Inline && isAuto (width style) then 100000
      else contentWidth in
    let h0 := content_height n contentStartX contentStartY layoutWidth in
    let naturalContentHeight := h0 in
    let h1 :=
      if negb (isAuto (height style)) && fleb 0 (value (height style)) then
        let h := toPx (height style) ctx in
        match boxSizing style with
        | BorderBox => h - (paddingTop + paddingBottom + borderTop + borderBottom)
        | ContentBox => h
        end
      else h0 in
    let h2 := if negb (isAuto (minHeight style)) && fltb 0 (value (minHeight style))
              then std_max h1 (toPx (minHeight style) ctx) else h1 in
    let contentHeight :=
      if negb (isAuto (maxHeight style)) && fltb 0 (value (maxHeight style))
      then (let maxH := toPx (maxHeight style) ctx in
            if fltb maxH h2 then maxH else h2)
      else h2 in
    let bx := mkBox (mkRect contentStartX contentStartY contentWidth contentHeight)
                (padding style) (borderWidth style) (margin style) in
    let b1 :=
      if scrolls (overflow style) then
        clampScroll
          (mkRenderBox style (frame b) bx (scrollX b) (scrollY b)
             0 (std_max 0 (naturalContentHeight - contentHeight)))
      else
        mkRenderBox style (frame b) bx (scrollX b) (scrollY b) 0 0 in
    mkRenderBox (computedStyle b1) (borderBox bx) (box b1)
      (scrollX b1) (scrollY b1) (scrollableWidth b1) (scrollableHeight b1).

(** *** Scrolling *)

Definition set_scrollY (v : Q) (b : RenderBox) : RenderBox :=
  mkRenderBox (computedStyle b) (frame b) (box b) (scrollX b) v
    (scrollableWidth b) (scrollableHeight b).

(** One box of the scrollable chain in the mouse-wheel handler:
    [box->scrollY -= scrollDelta; box->clampScroll();]. *)
Definition wheel_box (scrollDelta : Q) (b : RenderBox) : RenderBox :=
  clampScroll (set_scrollY (scrollY b - scrollDelta) b).

(** The loop over the chain, innermost box first: the boxes after the
    event and the delta left for the page ([None] once a box has consumed
    the event). *)
Fixpoint wheel_chain (chain : list RenderBox) (scrollDelta : Q)
    : list RenderBox * option Q :=
  match chain with
  | [] => ([], Some scrollDelta)
  | b :: rest =>
      let oldScrollY := scrollY b in
      let b' := wheel_box scrollDelta b in
      let actualScroll := oldScrollY - scrollY b' in
      if fltb (std_abs (actualScroll - scrollDelta)) 0.01 then (b' :: rest, None)
      else
        let '(rest', left) := wheel_chain rest (scrollDelta - actualScroll) in
        (b' :: rest', left)
  end.

(** *** The inline routines *)

(** [layoutInlineGroup] and [layoutInlineChildren] pass a complex inline
    child to [layout]; a text node and an inline element whose only child
    is a text node they lay out themselves: they assign [computedStyle],
    [frame] and [box] of the child and do not run the scroll step of
    [layout]. *)









(** *** Block formatting context *)

Definition Child : Type := (NodeInfo * RenderBox)%type.

Definition inline_element (n : NodeInfo) : bool :=
  is_display (display (node_style n)) Inline ||
  is_display (display (node_style n)) InlineBlock.

Definition inline_level (n : NodeInfo) : bool := inline_element n || is_text n.

Section BlockChildren.

(** The inline layout routines, which return the height they consume.
    They are not embedded; the boxes of inline children are left as they
    are. *)
Variable layoutInlineChildren : Q -> Q -> Q -> Q.
Variable layoutInlineGroup : list nat -> Q -> Q -> Q -> Q.

(** The position and style of the container and the viewport. *)
Variable self_style : ComputedStyle.
Variables x y width vw vh : Q.

(** [currentY] and [prevMarginBottom] after the pending inline group, if
    any, has been laid out. *)
Definition flush_group (group : list nat) (currentY prevMarginBottom : Q) : Q * Q :=
  match group with
  | [] => (currentY, prevMarginBottom)
  | _ => (currentY + layoutInlineGroup (rev group) x currentY width, 0)
  end.

(** The [while (i < children.size())] loop of [layoutBlockChildren]:
    [group] holds, latest first, the indices of the run of inline-level
    children being collected. *)
Fixpoint block_loop (children : list Child) (i : nat) (group : list nat)
    (currentY prevMarginBottom : Q) : list RenderBox * Q :=
  match children with
  | [] => ([], fst (flush_group group currentY prevMarginBottom))
  | (n, b) :: rest =>
      if inline_level n then
        let '(bs, endY) := block_loop rest (S i) (i :: group) currentY prevMarginBottom in
        (b :: bs, endY)
      else
        let '(currentY, prevMarginBottom) := flush_group group currentY prevMarginBottom in
        let childStyle := node_style n in
        let childMarginTop := getMarginTop childStyle width (fontSize childStyle) in
        let childMarginBottom := getMarginBottom childStyle width (fontSize childStyle) in
        let collapsedMargin := std_max prevMarginBottom childMarginTop in
        let marginBoxY := currentY - prevMarginBottom + collapsedMargin - childMarginTop in
        let b' := layout n (Some self_style) x marginBoxY width vw vh false b in
        let currentY := rect_bottom (borderBox (box b')) + childMarginBottom in
        let '(bs, endY) := block_loop rest (S i) [] currentY childMarginBottom in
        (b' :: bs, endY)
  end.

(** [RenderBox::layoutBlockChildren]: the boxes of the children after the
    call and the height returned. *)
Definition layoutBlockChildren (children : list Child) : list RenderBox * Q :=
  let allInline := forallb (fun c => inline_level (fst c)) children in
  let hasInlineElements := existsb (fun c => inline_element (fst c)) children in
  if allInline && negb (Nat.eqb (List.length children) 0) && hasInlineElements then
    (map snd children, layoutInlineChildren x y width)
  else
    let '(bs, endY) := block_loop children 0 [] y 0 in
    (bs, endY - y).

End BlockChildren.

(** *** Flex formatting context *)

Record FlexLine : Type := mkFlexLine {
  childIndices : list nat; totalSize : Q; totalFlexGrow : Q }.

(** A child after [layoutFlexChildren]: its box and the available width
    its [layout] call was given. *)
Record FlexItem : Type := mkFlexItem { item_box : RenderBox; item_available : Q }.

Definition dummy_child : Child :=
  (mkNodeInfo Document "" default_style 0 0 0 (fun _ _ _ => 0), new_box).

Section FlexChildren.

(** The computed style of the flex container, its content origin and
    width, and the viewport. *)
Variable style : ComputedStyle.
Variables x y width vw vh : Q.
Variable children : list Child.

Definition isRow : bool :=
  String.eqb (flexDirection style) "row" || String.eqb (flexDirection style) "row-reverse".
Definition canWrap : bool :=
  String.eqb (flexWrap style) "wrap" || String.eqb (flexWrap style) "wrap-reverse".

(** The flex-grow the container reads: that of the style the child box
    holds when the container is laid out. *)
Definition child_grow (c : Child) : Q := flexGrow (computedStyle (snd c)).

(** First pass: the intrinsic main-axis size of a child. *)
Definition intrinsicSize (c : Child) : Q :=
  if isRow then
    if fltb 0 (child_grow c) then
      let childStyle := computedStyle (snd c) in
      let padding := getPaddingLeft childStyle 0 16 + getPaddingRight childStyle 0 16 in
      let border := getBorderLeftWidth childStyle + getBorderRightWidth childStyle in
      padding + border
    else default_font_intrinsic_width (fst c)
  else 0.

Definition intrinsicSizes : list Q := map intrinsicSize children.

Definition sum_grow : Q :=
  fold_left (fun acc c => acc + child_grow c) children 0.

(** The wrapping branch: children are packed into lines while they fit
    ([cur] is the line being filled, latest index first). *)
Fixpoint wrap_lines (sizes : list Q) (grows : list Q) (i : nat)
    (cur : list nat) (curGrow lineSize : Q) : list FlexLine :=
  match sizes, grows with
  | childSize :: sizes', g :: grows' =>
      let sizeWithGap := childSize + (match cur with [] => 0 | _ => gap style end) in
      match cur with
      | _ :: _ =>
          if fltb width (lineSize + sizeWithGap) then
            mkFlexLine (rev cur) lineSize curGrow ::
            wrap_lines sizes' grows' (S i) [i] (0 + g) (0 + childSize)
          else wrap_lines sizes' grows' (S i) (i :: cur) (curGrow + g) (lineSize + sizeWithGap)
      | [] => wrap_lines sizes' grows' (S i) (i :: cur) (curGrow + g) (lineSize + sizeWithGap)
      end
  | _, _ =>
      match cur with
      | [] => []
      | _ => [mkFlexLine (rev cur) lineSize curGrow]
      end
  end.

(** The single line of the branch without wrapping. *)
Fixpoint single_total (sizes : list Q) (i : nat) (total : Q) : Q :=
  match sizes with
  | [] => total
  | sz :: sizes' =>
      single_total sizes' (S i)
        (total + (sz + (match i with O => 0 | S _ => gap style end)))
  end.

Definition flex_lines : list FlexLine :=
  if canWrap && isRow then
    wrap_lines intrinsicSizes (map child_grow children) 0 [] 0 0
  else
    [mkFlexLine (seq 0 (List.length children)) (single_total intrinsicSizes 0 0) sum_grow].

Definition size_to_float (n : nat) : Q := inject_Z (Z.of_nat n).

(** The children of one line: [currentPos] and [maxCrossSize] are
    threaded, the laid out children collected. *)
Fixpoint line_children (line : FlexLine) (freeSpace g currentY_line : Q)
    (indices : list nat) (currentPos maxCrossSize : Q)
    : list FlexItem * Q * Q :=
  match indices with
  | [] => ([], currentPos, maxCrossSize)
  | idx :: rest =>
      let child := nth idx children dummy_child in
      let extraSize :=
        if fltb 0 (totalFlexGrow line)
        then (freeSpace * child_grow child) / totalFlexGrow line else 0 in
      if isRow then
        let childWidth := nth idx intrinsicSizes 0 + extraSize in
        let b := layout (fst child) (Some style) (x + currentPos) currentY_line
                   childWidth vw vh false (snd child) in
        let '(items, pos, cross) :=
          line_children line freeSpace g currentY_line rest
            (currentPos + (r_width (frame b) + g))
            (std_max maxCrossSize (r_height (frame b))) in
        (mkFlexItem b childWidth :: items, pos, cross)
      else
        let b := layout (fst child) (Some style) x (currentY_line + currentPos)
                   width vw vh false (snd child) in
        let '(items, pos, cross) :=
          line_children line freeSpace g currentY_line rest
            (currentPos + (r_height (frame b) + g))
            (std_max maxCrossSize (r_width (frame b))) in
        (mkFlexItem b width :: items, pos, cross)
  end.

(** The [for (auto &line : lines)] loop; [g] is the local variable [gap],
    which [justify-content] may overwrite for the lines that follow.
    Returns the items, [currentY_line], the final [gap] and the cross size
    stored in each line. *)
Fixpoint layout_lines (lines : list FlexLine) (g currentY_line : Q)
    : list FlexItem * Q * Q * list Q :=
  match lines with
  | [] => ([], currentY_line, g, [])
  | line :: rest =>
      let f := width - totalSize line in
      let freeSpace := if fltb f 0 then 0 else f in
      let n := List.length (childIndices line) in
      let jc := justifyContent style in
      let '(currentPos, g) :=
        if String.eqb jc "center" then (freeSpace / 2, g)
        else if String.eqb jc "flex-end" then (freeSpace, g)
        else if String.eqb jc "space-between" && (1 <? n)%nat
        then (0, freeSpace / size_to_float (n - 1))
        else if String.eqb jc "space-around" && negb (n =? 0)%nat
        then (let spacing := freeSpace / size_to_float n in
              (spacing / 2, gap style + spacing))
        else (0, g) in
      let '(items, _, maxCrossSize) :=
        line_children line freeSpace g currentY_line (childIndices line) currentPos 0 in
      let currentY_line := if isRow then currentY_line + (maxCrossSize + g)
                           else currentY_line in
      let '(items', endY, g', crossSizes) := layout_lines rest g currentY_line in
      ((items ++ items')%list, endY, g', maxCrossSize :: crossSizes)
  end.

(** [RenderBox::layoutFlexChildren]: the children after the call, each
    with the width its [layout] was given, and the value returned. *)
Definition layoutFlexChildren : list FlexItem * Q :=
  let lines := flex_lines in
  let '(items, endY, g, crossSizes) := layout_lines lines (gap style) y in
  if isRow then
    let totalHeight := endY - y in
    (items, match lines with [] => totalHeight | _ => totalHeight - g end)
  else (items, hd 0 crossSizes).

End FlexChildren.

End Layout.

(** ** Text line boxes (RenderTree.hpp) *)

Module TextLayout.
Import Style Font.
Local Open Scope Q_scope.

(** [RenderBox::TextLine]. *)
Record TextLine : Type := mkTextLine {
  text : string; x : Q; y : Q; width : Q; height : Q; startIndex : nat }.

Definition space : ascii := " "%char.

(** [while (!s.empty() && s.back() == ' ') s.pop_back();] *)
Definition pop_spaces (s : string) : string :=
  rev_string (drop_while (Ascii.eqb space) (rev_string s)).

Definition push_char (s : string) (c : ascii) : string := s ++ String c "".

(** The parameters of one text layout call: origin, width, the font the
    manager returned (a null pointer is [None]) and the style. *)
Record TextParams : Type := mkTextParams {
  p_x : Q; p_y : Q; p_width : Q; p_font : option MSDFFont; p_style : ComputedStyle }.

(** The lambda [getLineX] of [layoutText]. *)
Definition getLineX (align : TextAlign) (x0 lineWidth availWidth : Q) : Q :=
  match align with
  | Center => x0 + (availWidth - lineWidth) / 2
  | Right => x0 + availWidth - lineWidth
  | Left | Justify => x0
  end.

(** The words of [layoutText]: runs without spaces, each space a token. *)
Fixpoint split_words (s currentWord : string) : list string :=
  match s with
  | EmptyString => if is_empty currentWord then [] else [currentWord]
  | String c s' =>
      if Ascii.eqb c space then
        (if is_empty currentWord then [] else [currentWord]) ++ " " :: split_words s' ""
      else split_words s' (push_char currentWord c)
  end%list.

Section BlockText.
Variable font : MSDFFont.
Variable fs lineHeight maxWidth x0 : Q.
Variable align : TextAlign.

Definition line_of (s : string) (w cy : Q) : TextLine :=
  mkTextLine s (getLineX align x0 w maxWidth) cy w lineHeight 0.

(** The word loop and the final flush of [layoutText]. *)
Fixpoint wrap_words (words : list string) (currentLine : string)
    (currentLineWidth currentY : Q) : list TextLine * Q :=
  match words with
  | [] =>
      let currentLine := pop_spaces currentLine in
      if is_empty currentLine then ([], currentY)
      else ([line_of currentLine (getTextWidth font currentLine fs) currentY],
            currentY + lineHeight)
  | word :: rest =>
      let wordWidth := getTextWidth font word fs in
      let testWidth := currentLineWidth + wordWidth in
      if fleb testWidth maxWidth || is_empty currentLine then
        wrap_words rest (currentLine ++ word) (currentLineWidth + wordWidth) currentY
      else
        let trimmed := pop_spaces currentLine in
        let w := if String.eqb trimmed currentLine then currentLineWidth
                 else getTextWidth font trimmed fs in
        let '(emitted, currentY) :=
          if is_empty trimmed then ([], currentY)
          else ([line_of trimmed w currentY], currentY + lineHeight) in
        let '(ls, endY) :=
          if String.eqb word " " then wrap_words rest "" 0 currentY
          else wrap_words rest word wordWidth currentY in
        ((emitted ++ ls)%list, endY)
  end.

End BlockText.

(** [RenderBox::layoutText] on a text node of content [textContent]: the
    new [textLines] and the height returned. *)
Definition layoutText (p : TextParams) (textContent : string) : list TextLine * Q :=
  match p_font p with
  | None => ([], 0)
  | Some font =>
      if is_empty textContent then ([], 0)
      else
        let maxWidth := if fleb (p_width p) 0 then 10000 else p_width p in
        let fs := fontSize (p_style p) in
        let lineHeight := fs * Style.lineHeight (p_style p) in
        let align := textAlign (p_style p) in
        let totalWidth := getTextWidth font textContent fs in
        if fleb totalWidth maxWidth then
          ([line_of lineHeight maxWidth (p_x p) align textContent totalWidth (p_y p)],
           lineHeight)
        else
          match split_words textContent "" with
          | [] => ([], 0)
          | words =>
              let '(ls, endY) :=
                wrap_words font fs lineHeight maxWidth (p_x p) align words "" 0 (p_y p) in
              (ls, endY - p_y p)
          end
  end.

(** [tokenizeForInlineLayout]. *)
Fixpoint tokenize (s currentToken : string) : list string :=
  match s with
  | EmptyString => if is_empty currentToken then [] else [currentToken]
  | String c s' =>
      if Ascii.eqb c space then
        (if is_empty currentToken then [] else [currentToken]) ++ " " :: tokenize s' ""
      else if Ascii.eqb c "," then
        if is_empty s' then tokenize s' (push_char currentToken c)
        else push_char currentToken c :: tokenize s' ""
      else if Ascii.eqb c "-" then
        if negb (is_empty currentToken) && negb (is_empty s') &&
           negb (match s' with String d _ => Ascii.eqb d space | EmptyString => false end)
        then push_char currentToken c :: tokenize s' ""
        else tokenize s' (push_char currentToken c)
      else tokenize s' (push_char currentToken c)
  end%list.
Definition tokenizeForInlineLayout (s : string) : list string := tokenize s "".

Fixpoint all_of (p : ascii -> bool) (s : string) : bool :=
  match s with
  | EmptyString => true
  | String c s' => p c && all_of p s'
  end.

Definition double_quote : ascii := ascii_of_nat 34.

(** [isPunctuationOnly]. *)
Definition isPunctuationOnly (s : string) : bool :=
  negb (is_empty s) &&
  all_of (fun c => existsb (Ascii.eqb c)
            [","; "."; ";"; ":"; "!"; "?"; ")"; "]"; "}"; double_quote; "'"; "-"]%char) s.

(** The pen of the inline formatting context. *)
Record Pen : Type := mkPen { currentX : Q; currentY : Q; maxLineHeight : Q }.

Section InlineText.
Variable font : MSDFFont.
Variable fs textLineHeight x0 width0 : Q.
Variable align : TextAlign.

Definition inline_line (s : string) (lineStartX cy : Q) : TextLine :=
  let lineWidth := getTextWidth font s fs in
  let lineX := match align with
               | Center => x0 + (width0 - lineWidth) / 2
               | Right => x0 + width0 - lineWidth
               | _ => lineStartX
               end in
  mkTextLine s lineX cy lineWidth textLineHeight 0.

(** The token loop and the final flush of [layoutTextTokensInline]. *)
Fixpoint place_tokens (tokens : list string) (pen : Pen)
    (currentLineText : string) (lineStartX : Q) : list TextLine * Pen :=
  match tokens with
  | [] =>
      let t := pop_spaces currentLineText in
      (if is_empty t then [] else [inline_line t lineStartX (currentY pen)], pen)
  | token :: rest =>
      let tokenWidth := getTextWidth font token fs in
      let shouldWrap :=
        fltb (x0 + width0) (currentX pen + tokenWidth) && fltb x0 (currentX pen)
        && negb (isPunctuationOnly token) in
      if shouldWrap then
        let t := pop_spaces currentLineText in
        let emitted := if is_empty t then []
                       else [inline_line t lineStartX (currentY pen)] in
        let pen1 := mkPen x0 (currentY pen + maxLineHeight pen) textLineHeight in
        let '(ls, pen') :=
          if String.eqb token " " then place_tokens rest pen1 "" x0
          else place_tokens rest
                 (mkPen (x0 + tokenWidth) (currentY pen1)
                    (std_max (maxLineHeight pen1) textLineHeight))
                 ("" ++ token) x0 in
        ((emitted ++ ls)%list, pen')
      else
        place_tokens rest
          (mkPen (currentX pen + tokenWidth) (currentY pen)
             (std_max (maxLineHeight pen) textLineHeight))
          (currentLineText ++ token) lineStartX
  end.

End InlineText.

(** [layoutTextTokensInline] with a non-null font: the new [textLines] of
    the child and the pen it leaves. *)
Definition layoutTextTokensInline (font : MSDFFont) (st : ComputedStyle)
    (x0 width0 : Q) (pen : Pen) (textContent : string) : list TextLine * Pen :=
  let fs := fontSize st in
  place_tokens font fs (fs * Style.lineHeight st) x0 width0 (textAlign st)
    (tokenizeForInlineLayout textContent) pen "" (currentX pen).

End TextLayout.

(** ** The DOM and the render tree (Node.hpp, RenderTree.hpp) *)

Module Tree.
Import TextLayout.

Inductive NodeType : Type := Element | Text | Document.

(** [Node]: type, tag name, text content and children (the attribute map
    and the parent link are left out). *)
Inductive Node : Type :=
| mkNode (type : NodeType) (tagName textContent : string) (children : list Node).

Definition node_type (n : Node) : NodeType := let 'mkNode t _ _ _ := n in t.
Definition textContent (n : Node) : string := let 'mkNode _ _ s _ := n in s.
Definition node_children (n : Node) : list Node := let 'mkNode _ _ _ c := n in c.

(** The address of a render box: what a [shared_ptr<RenderBox>] holds and
    what [==] on two of them compares. *)
Definition Ptr : Type := nat.

(** [RenderBox] as the selection code sees it: its address, its node, its
    text line boxes and its children. *)
Inductive RenderBox : Type :=
| mkRenderBox (ptr : Ptr) (node : Node) (textLines : list TextLine)
    (children : list RenderBox).

Definition ptr (b : RenderBox) : Ptr := let 'mkRenderBox p _ _ _ := b in p.
Definition node (b : RenderBox) : Node := let 'mkRenderBox _ n _ _ := b in n.
Definition textLines (b : RenderBox) : list TextLine := let 'mkRenderBox _ _ l _ := b in l.
Definition children (b : RenderBox) : list RenderBox := let 'mkRenderBox _ _ _ c := b in c.

(** [RenderTree::build]: one box per node, in the order of the children;
    [next] is the first free address, the result carries the next one. *)
Fixpoint build (n : Node) (next : Ptr) : RenderBox * Ptr :=
  let 'mkNode _ _ _ cs := n in
  let '(boxes, next') :=
    (fix build_children (l : list Node) (nx : Ptr) : list RenderBox * Ptr :=
       match l with
       | [] => ([], nx)
       | c :: l' =>
           let '(b, nx1) := build c nx in
           let '(bs, nx2) := build_children l' nx1 in
           (b :: bs, nx2)
       end) cs (S next) in
  (mkRenderBox next n [] boxes, next').

Definition is_text (n : Node) : bool :=
  match node_type n with Text => true | _ => false end.

Definition has_lines (b : RenderBox) : bool :=
  match textLines b with [] => false | _ => true end.

(** [collectTextBoxes(box, textBoxes)]: appends to [textBoxes]. *)
Fixpoint collectTextBoxes (box : RenderBox) (textBoxes : list RenderBox)
    : list RenderBox :=
  let 'mkRenderBox _ n lines cs := box in
  let textBoxes :=
    if is_text n && has_lines box then (textBoxes ++ [box])%list else textBoxes in
  fold_left (fun acc child => collectTextBoxes child acc) cs textBoxes.

(** The rebuild in the main loop, after [relayout]:
    [allTextBoxes.clear(); collectTextBoxes(root, allTextBoxes)]. *)
Definition rebuild_text_boxes (root : RenderBox) : list RenderBox :=
  collectTextBoxes root [].

(** *** Document order *)

(** Pre-order depth-first enumeration of the render tree and of the DOM. *)
Fixpoint preorder (b : RenderBox) : list RenderBox :=
  b :: flat_map preorder (children b).

Fixpoint dom_preorder (n : Node) : list Node :=
  n :: flat_map dom_preorder (node_children n).

(** The render tree has the shape of the DOM below [n]: each box holds the
    node at its place. *)
Fixpoint mirrors (n : Node) (b : RenderBox) : Prop :=
  node b = n /\
  (fix all2 (ns : list Node) (bs : list RenderBox) : Prop :=
     match ns, bs with
     | [], [] => True
     | n' :: ns', b' :: bs' => mirrors n' b' /\ all2 ns' bs'
     | _, _ => False
     end) (node_children n) (children b).

(** [l1] is [l2] with some elements left out: same relative order. *)
Inductive subsequence {A : Type} : list A -> list A -> Prop :=
| sub_nil : subsequence [] []
| sub_skip (a : A) (l1 l2 : list A) : subsequence l1 l2 -> subsequence l1 (a :: l2)
| sub_keep (a : A) (l1 l2 : list A) : subsequence l1 l2 -> subsequence (a :: l1) (a :: l2).

(** [textLine.y += yDelta], as [applyVerticalAlign] does to every line of
    a box it moves. *)
Definition shift_line (yDelta : Q) (l : TextLine) : TextLine :=
  mkTextLine (text l) (x l) (y l + yDelta)%Q (width l) (height l) (startIndex l).

(** The text line boxes a box can hold: none (as built, or cleared), or
    the result of one of the two routines that fill [textLines], run on the
    text content of its node, possibly moved by [applyVerticalAlign]. *)
Inductive produced (content : string) : list TextLine -> Prop :=
| produced_none : produced content []
| produced_block (p : TextParams) : produced content (fst (layoutText p content))
| produced_inline (font : Font.MSDFFont) (st : Style.ComputedStyle)
    (x0 width0 : Q) (pen : Pen) :
    produced content (fst (layoutTextTokensInline font st x0 width0 pen content))
| produced_shift (ls : list TextLine) (yDelta : Q) :
    produced content ls -> produced content (map (shift_line yDelta) ls).

(** A tree as layout leaves it: text boxes hold lines produced from their
    content, the other boxes hold none. *)
Fixpoint laid_out (b : RenderBox) : Prop :=
  (if is_text (node b) then produced (textContent (node b)) (textLines b)
   else textLines b = []) /\
  (fix all (bs : list RenderBox) : Prop :=
     match bs with
     | [] => True
     | b' :: bs' => laid_out b' /\ all bs'
     end) (children b).

Definition nonempty_text (n : Node) : bool :=
  is_text n && negb (is_empty (textContent n)).

End Tree.

(** ** Text selection (RenderTree.hpp, HtmlParser.hpp) *)

Module Selection.
Import TextLayout.
Import Tree (Ptr).

(** What the selection code reads through a pointer to a text box: its
    text lines and the font size of its computed style. *)
Record BoxData : Type := mkBoxData { lines : list TextLine; fontSize : Q }.

(** The boxes the pointers designate, as they are when the code runs. *)
Definition Heap : Type := Ptr -> BoxData.

(** [TextSelection]; a null [shared_ptr] is [None]. *)
Record TextSelection : Type := mkTextSelection {
  anchorBox : option Ptr;
  anchorLineIndex : nat;
  anchorCharIndex : nat;
  focusBox : option Ptr;
  focusLineIndex : nat;
  focusCharIndex : nat;
  isSelecting : bool;
  hasSelection : bool;
  goalX : Q;
  allTextBoxes : list Ptr }.

Fixpoint index_of (p : Ptr) (l : list Ptr) (i : Z) : Z :=
  match l with
  | [] => (-1)%Z
  | q :: l' => if Nat.eqb q p then i else index_of p l' (i + 1)%Z
  end.

(** [getBoxIndex]: -1 when the box is not in [allTextBoxes] (which holds no
    null pointer). *)
Definition getBoxIndex (sel : TextSelection) (box : option Ptr) : Z :=
  match box with
  | Some p => index_of p (allTextBoxes sel) 0
  | None => (-1)%Z
  end.

Definition is_null (box : option Ptr) : bool :=
  match box with None => true | Some _ => false end.

(** [getBoxSelectionState]. *)
Definition getBoxSelectionState (sel : TextSelection) (box : option Ptr) : Z :=
  if negb (hasSelection sel) || is_null (anchorBox sel) || is_null (focusBox sel)
  then (-1)%Z
  else
    let boxIdx := getBoxIndex sel box in
    let anchorIdx := getBoxIndex sel (anchorBox sel) in
    let focusIdx := getBoxIndex sel (focusBox sel) in
    if (boxIdx <? 0)%Z || (anchorIdx <? 0)%Z || (focusIdx <? 0)%Z then (-1)%Z
    else
      let startIdx := Z.min anchorIdx focusIdx in
      let endIdx := Z.max anchorIdx focusIdx in
      if (boxIdx <? startIdx)%Z then (-1)%Z
      else if (endIdx <? boxIdx)%Z then 1%Z
      else 0%Z.

(** [isStartBox]. *)
Definition isStartBox (sel : TextSelection) (box : option Ptr) : bool :=
  if negb (hasSelection sel) then false
  else
    let anchorIdx := getBoxIndex sel (anchorBox sel) in
    let focusIdx := getBoxIndex sel (focusBox sel) in
    let boxIdx := getBoxIndex sel box in
    if (anchorIdx <=? focusIdx)%Z then (boxIdx =? anchorIdx)%Z
    else (boxIdx =? focusIdx)%Z.

(** [isEndBox]. *)
Definition isEndBox (sel : TextSelection) (box : option Ptr) : bool :=
  if negb (hasSelection sel) then false
  else
    let anchorIdx := getBoxIndex sel (anchorBox sel) in
    let focusIdx := getBoxIndex sel (focusBox sel) in
    let boxIdx := getBoxIndex sel box in
    if (anchorIdx <=? focusIdx)%Z then (boxIdx =? focusIdx)%Z
    else (boxIdx =? anchorIdx)%Z.

(** [getSelectionRangeForLine]. *)
Definition getSelectionRangeForLine (sel : TextSelection) (box : option Ptr)
    (lineIdx lineLength : nat) : nat * nat :=
  if negb (getBoxSelectionState sel box =? 0)%Z then (0, 0)%nat
  else
    let isStart := isStartBox sel box in
    let isEnd := isEndBox sel box in
    let anchorIdx := getBoxIndex sel (anchorBox sel) in
    let focusIdx := getBoxIndex sel (focusBox sel) in
    let anchorFirst := (anchorIdx <=? focusIdx)%Z in
    let '(startLine, startChar, endLine, endChar) :=
      if anchorFirst
      then (anchorLineIndex sel, anchorCharIndex sel, focusLineIndex sel, focusCharIndex sel)
      else (focusLineIndex sel, focusCharIndex sel, anchorLineIndex sel, anchorCharIndex sel) in
    if isStart && isEnd then
      let '(startLine, startChar, endLine, endChar) :=
        if (endLine <? startLine)%nat || ((startLine =? endLine)%nat && (endChar <? startChar)%nat)
        then (endLine, endChar, startLine, startChar)
        else (startLine, startChar, endLine, endChar) in
      if (lineIdx <? startLine)%nat || (endLine <? lineIdx)%nat then (0, 0)%nat
      else
        ((if (lineIdx =? startLine)%nat then startChar else 0%nat),
         (if (lineIdx =? endLine)%nat then endChar else lineLength))
    else if isStart then
      if (lineIdx <? startLine)%nat then (0, 0)%nat
      else ((if (lineIdx =? startLine)%nat then startChar else 0%nat), lineLength)
    else if isEnd then
      if (endLine <? lineIdx)%nat then (0, 0)%nat
      else (0%nat, (if (lineIdx =? endLine)%nat then endChar else lineLength))
    else (0%nat, lineLength).

Definition newline : ascii := ascii_of_nat 10.

Definition ends_with_newline (s : string) : bool :=
  match last_char s with
  | Some c => Ascii.eqb c newline
  | None => false
  end.

(** The loop over the lines of one box in [getSelectedText]. *)
Fixpoint copy_lines (sel : TextSelection) (box : Ptr) (ls : list TextLine)
    (lineIdx : nat) (result : string) : string :=
  match ls with
  | [] => result
  | line :: rest =>
      let len := String.length (text line) in
      let '(selStart, selEnd) := getSelectionRangeForLine sel (Some box) lineIdx len in
      let result :=
        if (selStart <? selEnd)%nat && (selStart <? len)%nat then
          (if (0 <? lineIdx)%nat && negb (is_empty result) && negb (ends_with_newline result)
           then result ++ " " else result)
          ++ substring selStart (selEnd - selStart) (text line)
        else result in
      copy_lines sel box rest (S lineIdx) result
  end.

(** The loop over the boxes: [count] boxes remain, [boxIdx] is the next. *)
Fixpoint copy_boxes (heap : Heap) (sel : TextSelection) (startIdx : nat)
    (count boxIdx : nat) (result : string) : string :=
  match count with
  | O => result
  | S count' =>
      let box := nth boxIdx (allTextBoxes sel) O in
      let result :=
        match lines (heap box) with
        | [] => result
        | ls =>
            let result := if (startIdx <? boxIdx)%nat && negb (is_empty result)
                          then result ++ String newline "" else result in
            copy_lines sel box ls 0 result
        end in
      copy_boxes heap sel startIdx count' (S boxIdx) result
  end.

(** [getSelectedText]. *)
Definition getSelectedText (heap : Heap) (sel : TextSelection) : string :=
  if negb (hasSelection sel) || is_null (anchorBox sel) || is_null (focusBox sel) then ""
  else
    let anchorIdx := getBoxIndex sel (anchorBox sel) in
    let focusIdx := getBoxIndex sel (focusBox sel) in
    if (anchorIdx <? 0)%Z || (focusIdx <? 0)%Z then ""
    else
      let startIdx := Z.to_nat (Z.min anchorIdx focusIdx) in
      let endIdx := Z.to_nat (Z.max anchorIdx focusIdx) in
      copy_boxes heap sel startIdx (endIdx - startIdx + 1) startIdx "".

(** *** The serialization in the words of its description *)

(** The selected part of each line of a box that has one. *)
Fixpoint selected_parts (sel : TextSelection) (box : Ptr) (ls : list TextLine)
    (lineIdx : nat) : list string :=
  match ls with
  | [] => []
  | line :: rest =>
      let len := String.length (text line) in
      let '(selStart, selEnd) := getSelectionRangeForLine sel (Some box) lineIdx len in
      (if (selStart <? selEnd)%nat && (selStart <? len)%nat
       then [substring selStart (selEnd - selStart) (text line)] else [])
      ++ selected_parts sel box rest (S lineIdx)
  end%list.

(** Wrapped lines of one box: each part after the first is joined to what
    precedes it with one space, unless that ends in a newline. *)
Definition join_lines (parts : list string) : string :=
  match parts with
  | [] => ""
  | first :: rest =>
      fold_left (fun acc part => if ends_with_newline acc then acc ++ part
                                 else acc ++ " " ++ part) rest first
  end.

(** Boxes: each piece is joined to the text before it, if there is any,
    with one newline. *)
Definition join_boxes (pieces : list string) : string :=
  fold_left (fun acc piece => if is_empty acc then piece
                              else acc ++ String newline "" ++ piece) pieces "".

(** The boxes from [min(anchor, focus)] to [max(anchor, focus)]. *)
Definition boxes_in_range (sel : TextSelection) : list Ptr :=
  let anchorIdx := getBoxIndex sel (anchorBox sel) in
  let focusIdx := getBoxIndex sel (focusBox sel) in
  let startIdx := Z.to_nat (Z.min anchorIdx focusIdx) in
  let endIdx := Z.to_nat (Z.max anchorIdx focusIdx) in
  firstn (endIdx - startIdx + 1) (skipn startIdx (allTextBoxes sel)).

Definition has_text_lines (heap : Heap) (box : Ptr) : bool :=
  match lines (heap box) with [] => false | _ => true end.

(** The serialization as described: nothing for an empty selection;
    otherwise the pieces of the boxes in range, in document order. *)
Definition serialization (heap : Heap) (sel : TextSelection) : string :=
  if negb (hasSelection sel) || is_null (anchorBox sel) || is_null (focusBox sel) then ""
  else if (getBoxIndex sel (anchorBox sel) <? 0)%Z || (getBoxIndex sel (focusBox sel) <? 0)%Z
  then ""
  else
    join_boxes
      (map (fun box => join_lines (selected_parts sel box (lines (heap box)) 0))
         (filter (has_text_lines heap) (boxes_in_range sel))).

(** The whole text of a box: its lines joined as wrapped lines are. *)
Definition full_text (heap : Heap) (box : Ptr) : string :=
  join_lines (map text (lines (heap box))).

End Selection.

(** ** Keyboard caret (HtmlParser.hpp, the SDL_KEYDOWN handler) *)

Module Caret.
Import TextLayout.
Import Selection.
Import Tree (Ptr).
Local Open Scope Q_scope.

(** [FLT_MAX], the largest finite [float]: 2^128 - 2^104. *)
Definition FLT_MAX : Q := 340282346638528859811704183484516925440.

(** *** Methods of [TextSelection] *)

Definition set_focus (sel : TextSelection) (box : option Ptr) (lineIdx charIdx : nat)
    : TextSelection :=
  mkTextSelection (anchorBox sel) (anchorLineIndex sel) (anchorCharIndex sel)
    box lineIdx charIdx (isSelecting sel) (hasSelection sel) (goalX sel) (allTextBoxes sel).

Definition set_focusCharIndex (sel : TextSelection) (charIdx : nat) : TextSelection :=
  set_focus sel (focusBox sel) (focusLineIndex sel) charIdx.

Definition set_goalX (sel : TextSelection) (g : Q) : TextSelection :=
  mkTextSelection (anchorBox sel) (anchorLineIndex sel) (anchorCharIndex sel)
    (focusBox sel) (focusLineIndex sel) (focusCharIndex sel)
    (isSelecting sel) (hasSelection sel) g (allTextBoxes sel).

(** [clear]. *)
Definition clear (sel : TextSelection) : TextSelection :=
  mkTextSelection None 0 0 None 0 0 false false (-1) (allTextBoxes sel).

(** [startSelection], called on a single mouse press over text. *)
Definition startSelection (sel : TextSelection) (box : option Ptr) (lineIdx charIdx : nat)
    : TextSelection :=
  mkTextSelection box lineIdx charIdx box lineIdx charIdx true false (-1) (allTextBoxes sel).

(** [updateSelection], called while dragging in character mode. *)
Definition updateSelection (sel : TextSelection) (box : option Ptr) (lineIdx charIdx : nat)
    : TextSelection :=
  let differs :=
    negb (match anchorBox sel, box with
          | Some a, Some b => Nat.eqb a b
          | None, None => true
          | _, _ => false
          end)
    || negb (anchorLineIndex sel =? lineIdx)%nat
    || negb (anchorCharIndex sel =? charIdx)%nat in
  mkTextSelection (anchorBox sel) (anchorLineIndex sel) (anchorCharIndex sel)
    box lineIdx charIdx (isSelecting sel) differs (goalX sel) (allTextBoxes sel).

(** [resetGoalX]. *)
Definition resetGoalX (sel : TextSelection) : TextSelection := set_goalX sel (-1).

(** Shift+click over text while a selection exists: the focus moves to the
    clicked position. *)
Definition shiftClick (sel : TextSelection) (box : Ptr) (lineIdx charIdx : nat)
    : TextSelection :=
  mkTextSelection (anchorBox sel) (anchorLineIndex sel) (anchorCharIndex sel)
    (Some box) lineIdx charIdx false true (goalX sel) (allTextBoxes sel).

(** Ctrl+A: from the start of the first text box to the end of the last. *)
Definition selectAll (heap : Heap) (sel : TextSelection) : TextSelection :=
  match allTextBoxes sel with
  | [] => sel
  | firstBox :: _ =>
      let lastBox := List.last (allTextBoxes sel) firstBox in
      match lines (heap firstBox), rev (lines (heap lastBox)) with
      | _ :: _, back :: _ =>
          mkTextSelection (Some firstBox) 0 0
            (Some lastBox) (List.length (lines (heap lastBox)) - 1)
            (String.length (text back))
            (isSelecting sel) true (goalX sel) (allTextBoxes sel)
      | _, _ => sel
      end
  end.

(** *** Shift+Left and Shift+Right *)

Definition blank_at (s : string) (i : nat) : bool :=
  match String.get i s with
  | Some c => Ascii.eqb c " "%char || Ascii.eqb c (ascii_of_nat 9)
  | None => false
  end.

(** [while (i > 0 && cond(i - 1)) --i;] *)
Fixpoint back_while (cond : nat -> bool) (i : nat) : nat :=
  match i with
  | O => O
  | S p => if cond p then back_while cond p else i
  end.

(** [while (pos > 0 && isWordBoundaryAt(text, pos)) --pos;] *)
Fixpoint back_boundary (s : string) (pos : nat) : nat :=
  match pos with
  | O => O
  | S p => if Word.isWordBoundaryAt s pos then back_boundary s p else pos
  end.

(** The box after (before) the focus box in [allTextBoxes], found by the
    linear search for the focus pointer. *)
Definition currentIdx (sel : TextSelection) : Z := getBoxIndex sel (focusBox sel).

Definition shiftRight (heap : Heap) (ctrlHeld : bool) (sel : TextSelection)
    (line : TextLine) : TextSelection :=
  let len := String.length (text line) in
  if ctrlHeld then
    let '(_, wordEnd) := Word.findWordBoundaries (text line) (focusCharIndex sel) in
    if (wordEnd <? len)%nat then
      let nextStart :=
        Word.scan_while len (Word.isWordBoundaryAt (text line)) len wordEnd in
      if (nextStart <? len)%nat then
        let '(_, nextWordEnd) := Word.findWordBoundaries (text line) nextStart in
        set_focusCharIndex sel nextWordEnd
      else set_focusCharIndex sel len
    else set_focusCharIndex sel len
  else if (focusCharIndex sel <? len)%nat then
    set_focusCharIndex sel (S (focusCharIndex sel))
  else
    let idx := currentIdx sel in
    if (0 <=? idx)%Z && (idx + 1 <? Z.of_nat (List.length (allTextBoxes sel)))%Z then
      match nth_error (allTextBoxes sel) (Z.to_nat (idx + 1)) with
      | Some next =>
          match lines (heap next) with
          | [] => set_focus sel (Some next) 0 0
          | newLine :: _ =>
              let n := String.length (text newLine) in
              set_focus sel (Some next) 0
                (Word.scan_while n (blank_at (text newLine)) n 0)
          end
      | None => sel
      end
    else sel.

Definition shiftLeft (heap : Heap) (ctrlHeld : bool) (sel : TextSelection)
    (line : TextLine) : TextSelection :=
  if ctrlHeld then
    match focusCharIndex sel with
    | O => sel
    | S p =>
        let pos := back_boundary (text line) p in
        let '(wordStart, _) := Word.findWordBoundaries (text line) pos in
        set_focusCharIndex sel wordStart
    end
  else
    match focusCharIndex sel with
    | S p => set_focusCharIndex sel p
    | O =>
        let idx := currentIdx sel in
        if (0 <? idx)%Z then
          match nth_error (allTextBoxes sel) (Z.to_nat (idx - 1)) with
          | Some prev =>
              match lines (heap prev) with
              | [] => set_focus sel (Some prev) 0 0
              | newLine :: _ =>
                  set_focus sel (Some prev) 0
                    (back_while (blank_at (text newLine)) (String.length (text newLine)))
              end
          | None => sel
          end
        else sel
    end.

(** *** Shift+Up and Shift+Down *)

(** The local [struct VisualLine]. *)
Record VisualLine : Type := mkVisualLine {
  vl_box : Ptr; vl_lineIndex : nat; vl_y : Q; vl_x : Q; vl_width : Q }.

Fixpoint box_lines (box : Ptr) (ls : list TextLine) (li : nat) : list VisualLine :=
  match ls with
  | [] => []
  | tl :: rest => mkVisualLine box li (y tl) (x tl) (width tl) :: box_lines box rest (S li)
  end.

(** The lines of all text boxes, as pushed onto [allLines]. *)
Definition collect (heap : Heap) (boxes : list Ptr) : list VisualLine :=
  flat_map (fun box => box_lines box (lines (heap box)) 0) boxes.

(** The comparator given to [std::sort]. *)
Definition before (a b : VisualLine) : bool :=
  if fltb (std_abs (vl_y a - vl_y b)) 1 then fltb (vl_x a) (vl_x b)
  else fltb (vl_y a) (vl_y b).

(** [std::sort] with [before], as an insertion sort.  The standard leaves
    the order of equivalent elements open, and the result undefined when
    the comparator is no strict weak order on the lines; the model has the
    insertion sort's list there.  Where the lines are on bands of their
    own every sort gives the same list (see [sorted_unique] below); what
    is stated about the line a move reaches stays within that case. *)
Fixpoint insert_line (a : VisualLine) (l : list VisualLine) : list VisualLine :=
  match l with
  | [] => [a]
  | b :: l' => if before a b then a :: l else b :: insert_line a l'
  end.

Fixpoint std_sort (l : list VisualLine) : list VisualLine :=
  match l with
  | [] => []
  | a :: l' => insert_line a (std_sort l')
  end.

(** The search for [currentLineIdx]: the first line of the focus box with
    the focus line index; [None] is the -1 of the source. *)
Fixpoint find_current (box : Ptr) (lineIdx : nat) (l : list VisualLine) (i : nat)
    : option nat :=
  match l with
  | [] => None
  | a :: l' =>
      if Nat.eqb (vl_box a) box && Nat.eqb (vl_lineIndex a) lineIdx then Some i
      else find_current box lineIdx l' (S i)
  end.

(** The inner loop over one band of lines, [rest] in the order the loop
    visits them.  [target] is the line at [targetLineIdx] ([None] for -1):
    the index is only used to read [allLines[targetLineIdx]]. *)
Fixpoint scan_band (in_band : VisualLine -> bool) (targetX : Q)
    (rest : list VisualLine) (target : option VisualLine) (bestDist : Q)
    : option VisualLine :=
  match rest with
  | [] => target
  | l :: rest' =>
      if in_band l then
        if fleb (vl_x l) targetX && fleb targetX (vl_x l + vl_width l) then
          scan_band in_band targetX rest' (Some l) (-1)
        else if fleb 0 bestDist then
          let dist := std_min (std_abs (vl_x l - targetX))
                              (std_abs (vl_x l + vl_width l - targetX)) in
          if fltb dist bestDist then scan_band in_band targetX rest' (Some l) dist
          else scan_band in_band targetX rest' target bestDist
        else scan_band in_band targetX rest' target bestDist
      else target
  end.

(** The outer loop: the first line beyond the current band starts the
    scan of its band, and the loop breaks. *)
Fixpoint find_line (beyond : VisualLine -> bool) (in_band : Q -> VisualLine -> bool)
    (targetX : Q) (rest : list VisualLine) : option VisualLine :=
  match rest with
  | [] => None
  | l :: rest' =>
      if beyond l then scan_band (in_band (vl_y l)) targetX rest None FLT_MAX
      else find_line beyond in_band targetX rest'
  end.

(** Down: lines after the current one, [y > currentY + 1], band
    [y <= targetY + 1]. *)
Definition find_below (currentY targetX : Q) (after : list VisualLine)
    : option VisualLine :=
  find_line (fun l => fltb (currentY + 1) (vl_y l))
            (fun targetY l => fleb (vl_y l) (targetY + 1)) targetX after.

(** Up: lines before the current one, nearest first, [y < currentY - 1],
    band [y >= targetY - 1]. *)
Definition find_above (currentY targetX : Q) (before_rev : list VisualLine)
    : option VisualLine :=
  find_line (fun l => fltb (vl_y l) (currentY - 1))
            (fun targetY l => fleb (targetY - 1) (vl_y l)) targetX before_rev.

(** The loop that walks the characters of the target line. *)
Fixpoint char_loop (font : Font.MSDFFont) (fontSize targetX : Q) (s : string)
    (remaining i : nat) (x : Q) (charIdx : nat) : nat :=
  match remaining with
  | O => charIdx
  | S r =>
      let charW := Font.getTextWidth font (substring i 1 s) fontSize in
      if fltb targetX (x + charW / 2) then charIdx
      else char_loop font fontSize targetX s r (S i) (x + charW) (S i)
  end.

(** The character index at [targetX] in line [tl]. *)
Definition charIndexAt (font : Font.MSDFFont) (tl : TextLine) (fontSize targetX : Q)
    : nat :=
  if fleb targetX (x tl) then 0%nat
  else if fleb (x tl + width tl) targetX then String.length (text tl)
  else char_loop font fontSize targetX (text tl) (String.length (text tl)) 0 (x tl) 0.

(** [box->textLines[li]]; an index outside the vector is undefined
    behaviour, which the model leaves out. *)
Definition line_at (heap : Heap) (box : Ptr) (li : nat) : res TextLine :=
  match nth_error (lines (heap box)) li with
  | Some tl => Ok tl
  | None => Unmodelled
  end.

(** The block under [if (targetLineIdx >= 0)]. *)
Definition place (font : Font.MSDFFont) (heap : Heap) (sel : TextSelection)
    (targetLine : VisualLine) (targetX : Q) : res TextSelection :=
  tl <- line_at heap (vl_box targetLine) (vl_lineIndex targetLine) ;;
  Ok (set_focus sel (Some (vl_box targetLine)) (vl_lineIndex targetLine)
        (charIndexAt font tl (fontSize (heap (vl_box targetLine))) targetX)).

(** The absolute X of the caret at [charIdx] of [line], measured with the
    default font. *)
Definition caretX (font : Font.MSDFFont) (heap : Heap) (box : Ptr) (line : TextLine)
    (charIdx : nat) : Q :=
  if (0 <? charIdx)%nat
  then x line + Font.getTextWidth font (substring 0 charIdx (text line)) (fontSize (heap box))
  else x line.

Definition shiftVertical (font : Font.MSDFFont) (heap : Heap) (down : bool)
    (sel : TextSelection) (box : Ptr) (line : TextLine) : res TextSelection :=
  let cursorX := caretX font heap box line (focusCharIndex sel) in
  let sel := if fltb (goalX sel) 0 then set_goalX sel cursorX else sel in
  let targetX := goalX sel in
  let currentY := y line in
  let allLines := std_sort (collect heap (allTextBoxes sel)) in
  match find_current box (focusLineIndex sel) allLines 0 with
  | None => Ok sel
  | Some currentLineIdx =>
      if down then
        match find_below currentY targetX (skipn (S currentLineIdx) allLines) with
        | Some targetLine => place font heap sel targetLine targetX
        | None =>
            match rev allLines with
            | [] => Ok sel
            | lastLine :: _ =>
                tl <- line_at heap (vl_box lastLine) (vl_lineIndex lastLine) ;;
                Ok (set_focus sel (Some (vl_box lastLine)) (vl_lineIndex lastLine)
                      (String.length (text tl)))
            end
        end
      else
        match find_above currentY targetX (rev (firstn currentLineIdx allLines)) with
        | Some targetLine => place font heap sel targetLine targetX
        | None =>
            match allLines with
            | [] => Ok sel
            | firstLine :: _ =>
                place font heap
                  (set_focus sel (Some (vl_box firstLine)) (vl_lineIndex firstLine) 0)
                  firstLine targetX
            end
        end
  end.

(** *** The handler for Shift with an arrow key *)

Inductive Arrow : Type := Key_Left | Key_Right | Key_Up | Key_Down.

(** [if (!hasSelection && focusBox)]: the selection starts at the caret. *)
Definition init_selection (sel : TextSelection) : TextSelection :=
  if negb (hasSelection sel) && negb (is_null (focusBox sel)) then
    mkTextSelection (focusBox sel) (focusLineIndex sel) (focusCharIndex sel)
      (focusBox sel) (focusLineIndex sel) (focusCharIndex sel)
      (isSelecting sel) true (goalX sel) (allTextBoxes sel)
  else sel.

(** [font] is [fontManager.getDefaultFont()]. *)
Definition shiftArrow (font : Font.MSDFFont) (heap : Heap) (key : Arrow)
    (ctrlHeld : bool) (sel : TextSelection) : res TextSelection :=
  let sel := init_selection sel in
  match focusBox sel with
  | None => Ok sel
  | Some box =>
      match lines (heap box) with
      | [] => Ok sel
      | _ :: _ =>
          line <- line_at heap box (focusLineIndex sel) ;;
          match key with
          | Key_Right => Ok (resetGoalX (shiftRight heap ctrlHeld sel line))
          | Key_Left => Ok (resetGoalX (shiftLeft heap ctrlHeld sel line))
          | Key_Up => shiftVertical font heap false sel box line
          | Key_Down => shiftVertical font heap true sel box line
          end
      end
  end.

End Caret.

(** ** UTF-8 encoding of code points (HtmlParser.hpp) *)

Module Utf8.

(** [static_cast<char>(v)]: the low eight bits of [v]. *)
Definition to_char (v : Z) : ascii := ascii_of_nat (Z.to_nat (v mod 256)).

(** [HtmlParser::codePointToUtf8], on an [int] code point; the static
    [HtmlParser::utf8Char] that fills the entity table has the same body. *)
Definition codePointToUtf8 (cp : Z) : string :=
  if (cp <? 128)%Z then String (to_char cp) ""
  else if (cp <? 2048)%Z then
    String (to_char (Z.lor 192 (Z.shiftr cp 6)))
      (String (to_char (Z.lor 128 (Z.land cp 63))) "")
  else if (cp <? 65536)%Z then
    String (to_char (Z.lor 224 (Z.shiftr cp 12)))
      (String (to_char (Z.lor 128 (Z.land (Z.shiftr cp 6) 63)))
         (String (to_char (Z.lor 128 (Z.land cp 63))) ""))
  else if (cp <? 1114112)%Z then
    String (to_char (Z.lor 240 (Z.shiftr cp 18)))
      (String (to_char (Z.lor 128 (Z.land (Z.shiftr cp 12) 63)))
         (String (to_char (Z.lor 128 (Z.land (Z.shiftr cp 6) 63)))
            (String (to_char (Z.lor 128 (Z.land cp 63))) "")))
  else "".

Definition utf8Char (cp : Z) : string := codePointToUtf8 cp.

End Utf8.

(** ** Positions along a text (MSDFFont.hpp) *)

Module Metrics.
Import Font.
Local Open Scope Q_scope.

(** The loop of [getPositionAtIndex]; [charIndex] counts the characters
    passed, control characters included. *)
Fixpoint position_loop (a : MSDFAtlas) (scale : Q) (text : string) (index : nat)
    (fuel i charIndex : nat) (x : Q) : Q :=
  match fuel with
  | O => x
  | S f =>
      if (i <? String.length text)%nat && (charIndex <? index)%nat then
        let '(cp, i') := decodeUTF8 text i in
        if (cp <? 32)%Z then position_loop a scale text index f (S i') (S charIndex) x
        else position_loop a scale text index f (S i') (S charIndex)
               (x + glyph_advance a scale cp)
      else x
  end.

(** [MSDFFont::getPositionAtIndex]. *)
Definition getPositionAtIndex (font : MSDFFont) (text : string) (index : nat)
    (fontSize : Q) : Q :=
  match atlas font with
  | None => 0
  | Some a =>
      if is_empty text || (index =? 0)%nat then 0
      else position_loop a (fontSize / glyphSize a) text index (String.length text) 0 0 0
  end.

(** The loop of [getSubstringWidth]; the result is [x - startX]. *)
Fixpoint substring_loop (a : MSDFAtlas) (scale : Q) (text : string) (start end_ : nat)
    (fuel i charIndex : nat) (x startX : Q) : Q :=
  match fuel with
  | O => x - startX
  | S f =>
      if (i <? String.length text)%nat && (charIndex <? end_)%nat then
        let '(cp, i') := decodeUTF8 text i in
        if (cp <? 32)%Z then
          substring_loop a scale text start end_ f (S i') (S charIndex) x startX
        else
          let startX := if (charIndex =? start)%nat then x else startX in
          substring_loop a scale text start end_ f (S i') (S charIndex)
            (x + glyph_advance a scale cp) startX
      else x - startX
  end.

(** [MSDFFont::getSubstringWidth]. *)
Definition getSubstringWidth (font : MSDFFont) (text : string) (start end_ : nat)
    (fontSize : Q) : Q :=
  match atlas font with
  | None => 0
  | Some a =>
      if (end_ <=? start)%nat || (String.length text <=? start)%nat then 0
      else substring_loop a (fontSize / glyphSize a) text start end_
             (String.length text) 0 0 0 0
  end.

(** The loop of [getCharacterPositions]: the positions pushed. *)
Fixpoint positions_loop (a : MSDFAtlas) (scale : Q) (text : string)
    (fuel i : nat) (x : Q) : list Q :=
  match fuel with
  | O => []
  | S f =>
      if (i <? String.length text)%nat then
        let '(cp, i') := decodeUTF8 text i in
        if (cp <? 32)%Z then x :: positions_loop a scale text f (S i') x
        else
          let x := x + glyph_advance a scale cp in
          x :: positions_loop a scale text f (S i') x
      else []
  end.

(** [MSDFFont::getCharacterPositions]. *)
Definition getCharacterPositions (font : MSDFFont) (text : string) (fontSize : Q)
    : list Q :=
  match atlas font with
  | None => []
  | Some a => 0 :: positions_loop a (fontSize / glyphSize a) text (String.length text) 0 0
  end.

End Metrics.

(** ** Selectors (CssParser.hpp, StyleSheet.hpp, Node.hpp) *)

Module Selector.

(** [CssParser::SimpleSelector]. *)
Record SimpleSelector : Type := mkSimpleSelector {
  tag : string; id : string; classes : list string }.

Definition empty_selector : SimpleSelector := mkSimpleSelector "" "" [].

(** [SimpleSelector::specificity]: (ids, classes, tags). *)
Definition specificity (sel : SimpleSelector) : Z * Z * Z :=
  ((if is_empty (id sel) then 0 else 1)%Z,
   Z.of_nat (List.length (classes sel)),
   (if is_empty (tag sel) || String.eqb (tag sel) "*" then 0 else 1)%Z).

(** [CompoundSelector::specificity]: the sums over the parts. *)
Definition compound_specificity (parts : list SimpleSelector) : Z * Z * Z :=
  fold_left (fun acc part =>
               let '(ids, cls, tags) := acc in
               let '(i, c, t) := specificity part in
               (ids + i, cls + c, tags + t)%Z) parts (0, 0, 0)%Z.

Definition dot : ascii := "."%char.
Definition hash : ascii := "#"%char.
Definition nul : ascii := ascii_of_nat 0.

(** The "save current token" step of [parseSimpleSelector]; [mode] is
    ['t'] for a tag, ['.'] for a class, ['#'] for an id. *)
Definition save_token (mode : ascii) (current : string) (sel : SimpleSelector)
    : SimpleSelector :=
  if is_empty current then sel
  else if Ascii.eqb mode "t" then mkSimpleSelector current (id sel) (classes sel)
  else if Ascii.eqb mode dot then mkSimpleSelector (tag sel) (id sel) (classes sel ++ [current])
  else if Ascii.eqb mode hash then mkSimpleSelector (tag sel) current (classes sel)
  else sel.

(** The loop of [parseSimpleSelector] over the characters left; the pass
    with [i = str.length()], where [c] is the NUL character, is the empty
    case. *)
Fixpoint selector_loop (str current : string) (mode : ascii) (sel : SimpleSelector)
    : SimpleSelector :=
  match str with
  | EmptyString => save_token mode current sel
  | String c rest =>
      if Ascii.eqb c dot || Ascii.eqb c hash || Ascii.eqb c nul
      then selector_loop rest "" c (save_token mode current sel)
      else selector_loop rest (current ++ String c "") mode sel
  end.

(** [CssParser::parseSimpleSelector]. *)
Definition parseSimpleSelector (selectorStr : string) : SimpleSelector :=
  selector_loop (Css.trim selectorStr) "" "t" empty_selector.

Definition is_combinator (part : string) : bool :=
  String.eqb part ">" || String.eqb part "+" || String.eqb part "~".

(** [CssParser::parseCompoundSelector]: the parts from ancestor to
    target. *)
Definition parseCompoundSelector (selectorStr : string) : list SimpleSelector :=
  map parseSimpleSelector
    (filter (fun part => negb (is_combinator part))
       (Style.splitValues (Css.trim selectorStr))).

(** What the matching reads of a [Node]: its type, its tag name and its
    attribute map, the latter by its lookup. *)
Record Element : Type := mkElement {
  e_type : Tree.NodeType;
  e_tagName : string;
  e_attributes : string -> option string }.

(** [Node::getId]. *)
Definition getId (n : Element) : string :=
  match e_attributes n "id" with
  | Some v => v
  | None => ""
  end.

(** [Node::getClassList]. *)
Definition getClassList (n : Element) : list string :=
  match e_attributes n "class" with
  | Some v => Style.splitValues v
  | None => []
  end.

(** [Node::hasClass]. *)
Definition hasClass (n : Element) (className : string) : bool :=
  existsb (String.eqb className) (getClassList n).

(** [StyleSheet::selectorMatches]. *)
Definition selectorMatches (sel : SimpleSelector) (n : Element) : bool :=
  match e_type n with
  | Tree.Element =>
      if negb (is_empty (tag sel)) && negb (String.eqb (tag sel) "*")
         && negb (String.eqb (tag sel) (e_tagName n)) then false
      else if negb (is_empty (id sel)) && negb (String.eqb (id sel) (getId n)) then false
      else forallb (hasClass n) (classes sel)
  | _ => false
  end.

(** The loop of [compoundSelectorMatches]: [ancestors] from the parent
    upwards, [parts] from the one before the target backwards; the result
    is [partIdx < 0]. *)
Fixpoint match_ancestors (ancestors : list Element) (parts : list SimpleSelector)
    : bool :=
  match ancestors with
  | [] => match parts with [] => true | _ :: _ => false end
  | n :: ancestors' =>
      match parts with
      | [] => true
      | p :: parts' =>
          if selectorMatches p n then match_ancestors ancestors' parts'
          else match_ancestors ancestors' parts
      end
  end.

(** [StyleSheet::compoundSelectorMatches]; [ancestors] from the root to
    the parent. *)
Definition compoundSelectorMatches (parts : list SimpleSelector) (n : Element)
    (ancestors : list Element) : bool :=
  match rev parts with
  | [] => false
  | target :: before =>
      if negb (selectorMatches target n) then false
      else if (List.length parts =? 1)%nat then true
      else match_ancestors (rev ancestors) before
  end.

End Selector.

(** ** The selection read backwards *)

Module Direction.
Import Selection.

(** The selection with its two ends exchanged: what a drag from the other
    end leaves in [TextSelection]. *)
Definition swap_ends (sel : TextSelection) : TextSelection :=
  mkTextSelection (focusBox sel) (focusLineIndex sel) (focusCharIndex sel)
    (anchorBox sel) (anchorLineIndex sel) (anchorCharIndex sel)
    (isSelecting sel) (hasSelection sel) (goalX sel) (allTextBoxes sel).

End Direction.

(** ** Text nodes (HtmlParser.hpp) *)

Module HtmlText.

Definition is_blank_char (c : ascii) : bool := Ascii.eqb c " ".

(** The loop of [addTextNode] that collapses each run of white space to
    one space: the characters appended to [collapsed] for the text left,
    [lastWasSpace] being the state of the loop. *)
Fixpoint collapse (s : string) (lastWasSpace : bool) : string :=
  match s with
  | EmptyString => EmptyString
  | String c s' =>
      if isspace c then
        if lastWasSpace then collapse s' true else String " " (collapse s' true)
      else String c (collapse s' false)
  end.

(** [while (end > start && s[end - 1] == ' ') end--;]: the text without
    its trailing spaces. *)
Fixpoint drop_trailing (s : string) : string :=
  match s with
  | EmptyString => EmptyString
  | String c s' =>
      match drop_trailing s' with
      | EmptyString => if is_blank_char c then EmptyString else String c EmptyString
      | r => String c r
      end
  end.

Definition starts_with_space (s : string) : bool :=
  match s with
  | String c _ => isspace c
  | EmptyString => false
  end.

Definition ends_with_space (s : string) : bool :=
  match last_char s with
  | Some c => isspace c
  | None => false
  end.

(** [HtmlParser::addTextNode] from the decoded text on: the content of the
    text node appended to the element on top of the stack, [None] when no
    node is made.  (The stack always holds the document node.) *)
Definition text_node_content (processed : string) : option string :=
  let hadLeadingSpace := starts_with_space processed in
  let hadTrailingSpace := ends_with_space processed in
  let collapsed := collapse processed false in
  let trimmed := drop_trailing (drop_while is_blank_char collapsed) in
  if is_empty trimmed then None
  else
    let result :=
      (if hadLeadingSpace then " " else "") ++ trimmed ++
      (if hadTrailingSpace && negb hadLeadingSpace then " "
       else if hadTrailingSpace && hadLeadingSpace
               && match last_char collapsed with
                  | Some c => is_blank_char c
                  | None => false
                  end
            then " " else "") in
    if is_empty result then None else Some result.

End HtmlText.

(** ** Character references (HtmlParser.hpp) *)

Module Entities.

Definition quotation_mark : string := String (ascii_of_nat 34) EmptyString.

(** [HtmlParser::htmlEntities]: the table filled on first use, in the order
    of the assignments (the keys are distinct). *)
Definition htmlEntities : list (string * string) :=
  [ ("amp", "&"); ("lt", "<"); ("gt", ">"); ("quot", quotation_mark);
    ("apos", "'");
    ("nbsp", Utf8.utf8Char 160); ("copy", Utf8.utf8Char 169);
    ("reg", Utf8.utf8Char 174); ("trade", Utf8.utf8Char 8482);
    ("euro", Utf8.utf8Char 8364); ("pound", Utf8.utf8Char 163);
    ("yen", Utf8.utf8Char 165); ("cent", Utf8.utf8Char 162);
    ("deg", Utf8.utf8Char 176); ("plusmn", Utf8.utf8Char 177);
    ("times", Utf8.utf8Char 215); ("divide", Utf8.utf8Char 247);
    ("frac12", Utf8.utf8Char 189); ("frac14", Utf8.utf8Char 188);
    ("frac34", Utf8.utf8Char 190); ("hellip", Utf8.utf8Char 8230);
    ("mdash", Utf8.utf8Char 8212); ("ndash", Utf8.utf8Char 8211);
    ("lsquo", Utf8.utf8Char 8216); ("rsquo", Utf8.utf8Char 8217);
    ("ldquo", Utf8.utf8Char 8220); ("rdquo", Utf8.utf8Char 8221);
    ("bull", Utf8.utf8Char 8226); ("middot", Utf8.utf8Char 183);
    ("para", Utf8.utf8Char 182); ("sect", Utf8.utf8Char 167);
    ("laquo", Utf8.utf8Char 171); ("raquo", Utf8.utf8Char 187);
    ("iexcl", Utf8.utf8Char 161); ("iquest", Utf8.utf8Char 191);
    ("acute", Utf8.utf8Char 180); ("cedil", Utf8.utf8Char 184);
    ("macr", Utf8.utf8Char 175); ("uml", Utf8.utf8Char 168);
    ("ordf", Utf8.utf8Char 170); ("ordm", Utf8.utf8Char 186);
    ("sup1", Utf8.utf8Char 185); ("sup2", Utf8.utf8Char 178);
    ("sup3", Utf8.utf8Char 179); ("not", Utf8.utf8Char 172);
    ("shy", Utf8.utf8Char 173) ].

(** [entities.find(entity)]. *)
Fixpoint find (key : string) (m : list (string * string)) : option string :=
  match m with
  | [] => None
  | (k, v) :: m' => if String.eqb k key then Some v else find key m'
  end.

(** [text.find(c, pos)]: the first index from [pos] on that holds [c]. *)
Fixpoint find_char (c : ascii) (text : string) (pos : nat) : option nat :=
  match text with
  | EmptyString => None
  | String d rest =>
      match pos with
      | O => if Ascii.eqb d c then Some O else option_map S (find_char c rest O)
      | S p => option_map S (find_char c rest p)
      end
  end.

(** [s.substr(n)]. *)
Definition substr_from (n : nat) (s : string) : string :=
  substring n (String.length s - n) s.

Definition hex_val (c : ascii) : Z :=
  if isdigit c then digit_val c else (Z.of_nat (code (tolower c)) - 87)%Z.

Fixpoint hex_digits_val (acc : Z) (s : string) : Z :=
  match s with
  | EmptyString => acc
  | String c s' => hex_digits_val (16 * acc + hex_val c) s'
  end.

(** [std::stoi(s, nullptr, 16)]: white space, optional sign, optional
    [0x] in front of a hexadecimal digit, hexadecimal digits; throws
    [std::invalid_argument] without digits and [std::out_of_range] when the
    value does not fit an [int]. *)
Definition stoi16 (s : string) : res Z :=
  let s1 := drop_while isspace s in
  let '(neg, s2) :=
    match s1 with
    | String c r => if Ascii.eqb c "-" then (true, r)
                    else if Ascii.eqb c "+" then (false, r) else (false, s1)
    | EmptyString => (false, s1)
    end in
  let s3 :=
    match s2 with
    | String z (String x (String d r)) =>
        if Ascii.eqb z "0" && Ascii.eqb (tolower x) "x" && isxdigit d
        then String d r else s2
    | _ => s2
    end in
  match take_while isxdigit s3 with
  | EmptyString => Throw invalid_argument
  | ds =>
      let v := if neg then (- hex_digits_val 0 ds)%Z else hex_digits_val 0 ds in
      if (INT_MIN <=? v)%Z && (v <=? INT_MAX)%Z then Ok v else Throw out_of_range
  end.

(** The code point of a numeric reference, [entity] starting with [#]. *)
Definition numeric (entity : string) : res Z :=
  if (1 <? String.length entity)%nat
     && match String.get 1 entity with
        | Some c => Ascii.eqb c "x" || Ascii.eqb c "X"
        | None => false
        end
  then stoi16 (substr_from 2 entity)
  else stoi (substr_from 1 entity).

Definition starts_with_hash (entity : string) : bool :=
  negb (is_empty entity)
  && match String.get 0 entity with
     | Some c => Ascii.eqb c "#"
     | None => false
     end.

(** The body of the [if (text[pos] == '&')] of [decodeEntities]: the text
    appended and the next position when one of the two [continue]s is
    reached, [None] when control falls through to the literal copy. *)
Definition reference (text : string) (pos : nat) : option (string * nat) :=
  match find_char ";" text pos with
  | Some semicolon =>
      if (semicolon - pos <? 12)%nat then
        let entity := substring (pos + 1) (semicolon - pos - 1) text in
        let named :=
          match find entity htmlEntities with
          | Some v => Some (v, (semicolon + 1)%nat)
          | None => None
          end in
        if starts_with_hash entity then
          match numeric entity with
          | Ok codePoint => Some (Utf8.codePointToUtf8 codePoint, (semicolon + 1)%nat)
          | _ => named
          end
        else named
      else None
  | None => None
  end.

(** The [while (pos < text.length())] loop of [decodeEntities]. *)
Fixpoint decode_loop (text : string) (fuel pos : nat) (result : string) : string :=
  match fuel with
  | O => result
  | S fuel' =>
      match String.get pos text with
      | None => result
      | Some c =>
          match (if Ascii.eqb c "&" then reference text pos else None) with
          | Some (replacement, next) =>
              decode_loop text fuel' next (result ++ replacement)
          | None => decode_loop text fuel' (pos + 1) (result ++ String c EmptyString)
          end
      end
  end.

(** [HtmlParser::decodeEntities]; every turn of the loop advances [pos],
    so the length of the text bounds the number of turns. *)
Definition decodeEntities (text : string) : string :=
  decode_loop text (String.length text) O EmptyString.

End Entities.

(** ** Hexadecimal colours (CssParser.hpp) *)

Module Colour.
Local Open Scope Q_scope.

(** The four arguments [parseHexColor] gives to the constructor of
    [Color]: red, green, blue and alpha. *)
Record Components : Type := mkComponents { red : Q; green : Q; blue : Q; alpha : Q }.

(** [std::string(2, h[i])]. *)
Definition twice (h : string) (i : nat) : string :=
  match String.get i h with
  | Some c => String c (String c EmptyString)
  | None => EmptyString
  end.

(** An [int] channel divided by [255.0f]. *)
Definition channel (v : Z) : Q := inject_Z v / 255.

(** [CssParser::parseHexColor]; [hex] starts with the [#] that the caller
    has seen.  [None] is [std::nullopt]; the exceptions are those of
    [std::stoi], which the function does not catch. *)
Definition parseHexColor (hex : string) : res (option Components) :=
  match hex with
  | EmptyString => Throw out_of_range
  | String _ h =>
      let len := String.length h in
      if (len =? 3)%nat then
        r <- Entities.stoi16 (twice h 0) ;;
        g <- Entities.stoi16 (twice h 1) ;;
        b <- Entities.stoi16 (twice h 2) ;;
        Ok (Some (mkComponents (channel r) (channel g) (channel b) (channel 255)))
      else if (len =? 4)%nat then
        r <- Entities.stoi16 (twice h 0) ;;
        g <- Entities.stoi16 (twice h 1) ;;
        b <- Entities.stoi16 (twice h 2) ;;
        a <- Entities.stoi16 (twice h 3) ;;
        Ok (Some (mkComponents (channel r) (channel g) (channel b) (channel a)))
      else if (len =? 6)%nat then
        r <- Entities.stoi16 (substring 0 2 h) ;;
        g <- Entities.stoi16 (substring 2 2 h) ;;
        b <- Entities.stoi16 (substring 4 2 h) ;;
        Ok (Some (mkComponents (channel r) (channel g) (channel b) (channel 255)))
      else if (len =? 8)%nat then
        r <- Entities.stoi16 (substring 0 2 h) ;;
        g <- Entities.stoi16 (substring 2 2 h) ;;
        b <- Entities.stoi16 (substring 4 2 h) ;;
        a <- Entities.stoi16 (substring 6 2 h) ;;
        Ok (Some (mkComponents (channel r) (channel g) (channel b) (channel a)))
      else Ok None
  end.

End Colour.
(** * Properties *)

(** ** Comparisons on floats *)

Lemma fltb_lt (a b : Q) : fltb a b = true <-> a < b.
Proof.
  unfold fltb. rewrite negb_true_iff. split; intros H.
  - apply Qnot_le_lt. intros Hle. apply Qle_bool_iff in Hle. congruence.
  - destruct (Qle_bool b a) eqn:E; [|reflexivity].
    apply Qle_bool_iff in E. exfalso. apply (Qlt_not_le _ _ H E).
Qed.

Lemma fltb_ge (a b : Q) : fltb a b = false <-> b <= a.
Proof.
  unfold fltb. rewrite negb_false_iff. apply Qle_bool_iff.
Qed.

Lemma fleb_le (a b : Q) : fleb a b = true <-> a <= b.
Proof. apply Qle_bool_iff. Qed.

Lemma fleb_gt (a b : Q) : fleb a b = false <-> b < a.
Proof.
  unfold fleb. split; intros H.
  - apply Qnot_le_lt. intros Hle. apply Qle_bool_iff in Hle. congruence.
  - destruct (Qle_bool a b) eqn:E; [|reflexivity].
    apply Qle_bool_iff in E. exfalso. apply (Qlt_not_le _ _ H E).
Qed.

Lemma std_max_spec (a b : Q) :
  (a < b /\ std_max a b = b) \/ (b <= a /\ std_max a b = a).
Proof.
  unfold std_max. destruct (fltb a b) eqn:E.
  - left. split; [now apply fltb_lt | reflexivity].
  - right. split; [now apply fltb_ge | reflexivity].
Qed.

Lemma std_min_spec (a b : Q) :
  (b < a /\ std_min a b = b) \/ (a <= b /\ std_min a b = a).
Proof.
  unfold std_min. destruct (fltb b a) eqn:E.
  - left. split; [now apply fltb_lt | reflexivity].
  - right. split; [now apply fltb_ge | reflexivity].
Qed.


(** ** Strings *)

Lemma rev_string_onto_twice (s acc b : string) :
  rev_string_onto (rev_string_onto s acc) b = rev_string_onto acc (s ++ b).
Proof.
  revert acc b. induction s as [|c s IH]; intros acc b; simpl.
  - reflexivity.
  - rewrite IH. reflexivity.
Qed.

Lemma append_empty_r (s : string) : s ++ "" = s.
Proof. induction s as [|c s IH]; simpl; [reflexivity | now rewrite IH]. Qed.

Lemma rev_string_involutive (s : string) : rev_string (rev_string s) = s.
Proof.
  unfold rev_string. rewrite rev_string_onto_twice. simpl. apply append_empty_r.
Qed.

Lemma all_chars_rev_onto (q : ascii -> bool) (s acc : string) :
  CssNumber.all_chars q s = true -> CssNumber.all_chars q acc = true ->
  CssNumber.all_chars q (rev_string_onto s acc) = true.
Proof.
  revert acc. induction s as [|c s IH]; intros acc Hs Hacc; simpl in *.
  - exact Hacc.
  - apply andb_true_iff in Hs as [Hc Hs]. apply IH; [exact Hs|].
    simpl. now rewrite Hc.
Qed.

Lemma drop_while_none (p : ascii -> bool) (s : string) :
  CssNumber.all_chars (fun c => negb (p c)) s = true -> drop_while p s = s.
Proof.
  destruct s as [|c s]; simpl; [reflexivity|].
  intros H. apply andb_true_iff in H as [Hc _].
  apply negb_true_iff in Hc. now rewrite Hc.
Qed.

Lemma take_while_all (p : ascii -> bool) (s : string) :
  CssNumber.all_chars p s = true -> take_while p s = s.
Proof.
  induction s as [|c s IH]; simpl; [reflexivity|].
  intros H. apply andb_true_iff in H as [Hc Hs]. rewrite Hc, IH; auto.
Qed.

Lemma drop_while_all (p : ascii -> bool) (s : string) :
  CssNumber.all_chars p s = true -> drop_while p s = "".
Proof.
  induction s as [|c s IH]; simpl; [reflexivity|].
  intros H. apply andb_true_iff in H as [Hc Hs]. rewrite Hc. auto.
Qed.

Lemma all_chars_take_while (p : ascii -> bool) (s : string) :
  CssNumber.all_chars p (take_while p s) = true.
Proof.
  induction s as [|c s IH]; simpl; [reflexivity|].
  destruct (p c) eqn:E; simpl; [now rewrite E | reflexivity].
Qed.

Lemma all_chars_split (q p : ascii -> bool) (s : string) :
  CssNumber.all_chars q (take_while p s) = true ->
  CssNumber.all_chars q (drop_while p s) = true ->
  CssNumber.all_chars q s = true.
Proof.
  induction s as [|c s IH]; simpl; [reflexivity|].
  destruct (p c); simpl; [|tauto].
  intros H1 H2. apply andb_true_iff in H1 as [Hc H1]. rewrite Hc. auto.
Qed.

Lemma all_chars_weaken (p q : ascii -> bool) (s : string) :
  (forall c, p c = true -> q c = true) ->
  CssNumber.all_chars p s = true -> CssNumber.all_chars q s = true.
Proof.
  intros Hpq. induction s as [|c s IH]; simpl; [reflexivity|].
  intros H. apply andb_true_iff in H as [Hc Hs]. rewrite (Hpq _ Hc). auto.
Qed.

Lemma trim_untouched (s : string) :
  CssNumber.all_chars (fun c => negb (Css.is_trim_char c)) s = true ->
  Css.trim s = s.
Proof.
  intros H. unfold Css.trim. rewrite (drop_while_none _ s H).
  rewrite drop_while_none.
  - apply rev_string_involutive.
  - unfold rev_string. now apply all_chars_rev_onto.
Qed.

(** Case analysis on the eight bits of a character. *)
Ltac char_cases c :=
  destruct c as [[] [] [] [] [] [] [] []]; simpl in *;
  try discriminate; try reflexivity.

Lemma digit_is_num_char (c : ascii) : isdigit c = true -> Css.is_num_char c = true.
Proof. unfold Css.is_num_char. now intros ->. Qed.

Lemma num_char_not_trim (c : ascii) :
  Css.is_num_char c = true -> negb (Css.is_trim_char c) = true.
Proof. char_cases c. Qed.

Lemma num_char_not_space (c : ascii) :
  Css.is_num_char c = true -> negb (isspace c) = true.
Proof. char_cases c. Qed.

Lemma num_char_facts (c : ascii) :
  Css.is_num_char c = true ->
  Ascii.eqb c "-" = false /\ Ascii.eqb c "+" = false /\
  Ascii.eqb "i" (tolower c) = false /\ Ascii.eqb "n" (tolower c) = false /\
  Ascii.eqb (tolower c) "x" = false /\ Ascii.eqb c "a" = false /\
  Ascii.eqb c "n" = false.
Proof. char_cases c; intros _; repeat split. Qed.

Lemma minus_facts (c : ascii) :
  Ascii.eqb c "-" = true ->
  negb (Css.is_trim_char c) = true /\ Ascii.eqb c "a" = false /\
  Ascii.eqb c "n" = false.
Proof. char_cases c; intros _; repeat split. Qed.

(** ** CSS values *)

Module CssFacts.
Import Css CssNumber.
Local Open Scope Q_scope.

(** The digits-and-point part of a unit-less number has only numeric
    characters and is not empty. *)
Lemma numeric_body_chars (s : string) :
  unitless_numeric s = true ->
  all_chars is_num_char (unsigned_part s) = true /\ unsigned_part s <> "".
Proof.
  unfold unitless_numeric. set (body := unsigned_part s). intros H. split.
  - apply (all_chars_split _ isdigit).
    + apply (all_chars_weaken isdigit); [exact digit_is_num_char|].
      apply all_chars_take_while.
    + destruct (drop_while isdigit body) as [|c fp]; [reflexivity|].
      apply andb_true_iff in H as [H _]. apply andb_true_iff in H as [Hc Hfp].
      simpl. unfold is_num_char at 1. rewrite Hc, orb_true_r. simpl.
      apply (all_chars_weaken isdigit); [exact digit_is_num_char | exact Hfp].
  - intros E. rewrite E in H. simpl in H. discriminate.
Qed.

(** The number written after the sign. *)
Definition magnitude (s : string) : Q :=
  let body := unsigned_part s in
  let ip := take_while isdigit body in
  let fp := match drop_while isdigit body with
            | String _ fp => fp
            | EmptyString => EmptyString
            end in
  inject_Z (digits_val 0 ip) +
  inject_Z (digits_val 0 fp) / inject_Z (pow10 (String.length fp)).

(** The rationals [std::stof] converts without a range error: zero, and
    those whose magnitude is at least the smallest normal [float] and has
    a finite nearest [float]. *)
Definition float_range (q : Q) : bool :=
  Qeq_bool q 0
  || (Qle_bool FLT_MIN (std_abs q) && negb (Qle_bool FLT_OVERFLOW (std_abs q))).

Lemma float_range_magnitude (q m : Q) :
  float_range q = true -> q == m \/ q == - m ->
  Qle_bool FLT_OVERFLOW m = false /\ fltb 0 m && fltb m FLT_MIN = false.
Proof.
  unfold float_range. intros H Hm.
  assert (Hmin : 0 < FLT_MIN) by reflexivity.
  assert (Hov : FLT_MIN < FLT_OVERFLOW) by reflexivity.
  assert (Habs : std_abs q == q \/ std_abs q == - q)
    by (unfold std_abs; destruct (fltb q 0); [right | left]; reflexivity).
  assert (Hcases : q == 0 \/ (FLT_MIN <= std_abs q /\ std_abs q < FLT_OVERFLOW)).
  { apply orb_true_iff in H as [H|H]; [left; now apply Qeq_bool_iff|right].
    apply andb_true_iff in H as [H1 H2]. apply Qle_bool_iff in H1.
    apply negb_true_iff in H2. split; [exact H1|].
    apply Qnot_le_lt. intros Hle. apply Qle_bool_iff in Hle. congruence. }
  assert (Hneg : std_abs q < 0 -> False).
  { unfold std_abs. destruct (fltb q 0) eqn:E; intros Hlt.
    - apply fltb_lt in E. lra.
    - apply fltb_ge in E. lra. }
  split.
  - destruct (Qle_bool FLT_OVERFLOW m) eqn:E; [|reflexivity]. apply Qle_bool_iff in E.
    exfalso. destruct Hcases as [H0|[H1 H2]], Hm as [Hm|Hm], Habs as [Ha|Ha];
      try lra; apply Hneg; lra.
  - destruct (fltb 0 m) eqn:E1; [|reflexivity]. destruct (fltb m FLT_MIN) eqn:E2; [|reflexivity].
    apply fltb_lt in E1. apply fltb_lt in E2.
    exfalso. destruct Hcases as [H0|[H1 H2]], Hm as [Hm|Hm], Habs as [Ha|Ha];
      try lra; apply Hneg; lra.
Qed.

(** [std::stof] on the digits-and-point part of a unit-less number. *)
Lemma stof_numeric_body (s : string) :
  unitless_numeric s = true -> float_range (numeric_value s) = true ->
  stof (unsigned_part s) =
  Ok (let body := unsigned_part s in
      let ip := take_while isdigit body in
      let fp := match drop_while isdigit body with
                | String _ fp => fp
                | EmptyString => EmptyString
                end in
      inject_Z (digits_val 0 ip) +
      inject_Z (digits_val 0 fp) / inject_Z (pow10 (String.length fp))).
Proof.
  intros H Hrange. destruct (numeric_body_chars s H) as [Hall Hne].
  assert (Hmag : numeric_value s == magnitude s \/ numeric_value s == - magnitude s)
    by (unfold numeric_value, magnitude; cbv zeta; destruct (is_negative s);
        [right | left]; reflexivity).
  destruct (float_range_magnitude _ _ Hrange Hmag) as [Hover Htiny].
  unfold magnitude in Hover, Htiny.
  unfold unitless_numeric in H. cbv zeta in *.
  set (body := unsigned_part s) in *.
  unfold stof.
  rewrite (drop_while_none isspace body)
    by (apply (all_chars_weaken is_num_char); [exact num_char_not_space | exact Hall]).
  destruct body as [|c0 r0] eqn:Ebody; [congruence|].
  pose proof Hall as Hall'. simpl in Hall'.
  apply andb_true_iff in Hall' as [Hc0 Hr0].
  destruct (num_char_facts c0 Hc0) as (Hm & Hp & Hi & Hn & _).
  rewrite Hm, Hp.
  assert (Hpre : has_prefix_ci "inf" (String c0 r0) || has_prefix_ci "nan" (String c0 r0)
                 || is_hex_float (String c0 r0) = false).
  { cbn [has_prefix_ci]. rewrite Hi, Hn. cbn [andb orb].
    destruct r0 as [|x [|d rest]]; try reflexivity.
    cbn [is_hex_float].
    simpl in Hr0. apply andb_true_iff in Hr0 as [Hx _].
    destruct (num_char_facts x Hx) as (_ & _ & _ & _ & Hxx & _).
    rewrite Hxx, andb_false_r. reflexivity. }
  rewrite Hpre.
  destruct (drop_while isdigit (String c0 r0)) as [|c fp] eqn:Edrop.
  - apply negb_true_iff in H. rewrite H. cbn [is_empty andb exponent_of scale10].
    rewrite Hover, Htiny. reflexivity.
  - apply andb_true_iff in H as [H Hnonempty].
    apply andb_true_iff in H as [Hc Hfp]. rewrite Hc.
    rewrite (take_while_all _ _ Hfp), (drop_while_all _ _ Hfp).
    apply orb_true_iff in Hnonempty.
    assert (E : is_empty (take_while isdigit (String c0 r0)) && is_empty fp = false).
    { destruct Hnonempty as [E|E]; apply negb_true_iff in E; rewrite E;
        [reflexivity | apply andb_false_r]. }
    rewrite E. cbn [exponent_of scale10]. rewrite Hover, Htiny. reflexivity.
Qed.

(** [parseValue] on a unit-less number other than "0": pixels. *)
Lemma parseValue_unitless (s : string) :
  unitless_numeric s = true -> s <> "0" -> float_range (numeric_value s) = true ->
  parseValue s = Ok (mkCssValue (numeric_value s) Px).
Proof.
  intros H Hnz Hrange. destruct (numeric_body_chars s H) as [Hall Hne].
  pose proof (stof_numeric_body s H Hrange) as Hstof. cbv zeta in Hstof.
  assert (Hs : exists c r, s = String c r /\
             (Ascii.eqb c "-" = true \/ is_num_char c = true)).
  { destruct s as [|c r]; [now elim Hne|]. exists c, r. split; [reflexivity|].
    destruct (Ascii.eqb c "-") eqn:E; [now left|right].
    cbn [unsigned_part] in Hall. rewrite E in Hall. cbn [all_chars] in Hall.
    now apply andb_true_iff in Hall as [Hc _]. }
  destruct Hs as (c & r & -> & Hc).
  assert (Htrim : all_chars (fun c => negb (is_trim_char c)) (String c r) = true).
  { destruct Hc as [Hc|Hc].
    - cbn [unsigned_part] in Hall. rewrite Hc in Hall.
      cbn [all_chars]. destruct (minus_facts c Hc) as (-> & _). cbn [andb].
      apply (all_chars_weaken is_num_char); [exact num_char_not_trim | exact Hall].
    - destruct (num_char_facts c Hc) as (Hm & _).
      cbn [unsigned_part] in Hall. rewrite Hm in Hall.
      apply (all_chars_weaken is_num_char); [exact num_char_not_trim | exact Hall]. }
  unfold parseValue. rewrite (trim_untouched _ Htrim).
  assert (Hauto : String.eqb (String c r) "auto" = false /\
                  String.eqb (String c r) "none" = false).
  { simpl. destruct Hc as [Hc|Hc].
    - destruct (minus_facts c Hc) as (_ & -> & ->). now split.
    - destruct (num_char_facts c Hc) as (_ & _ & _ & _ & _ & -> & ->). now split. }
  destruct Hauto as [-> ->].
  apply String.eqb_neq in Hnz. rewrite Hnz. simpl orb. cbv iota.
  change (is_empty (String c r)) with false. cbv iota.
  unfold numeric_value. cbv zeta.
  replace (if Ascii.eqb c "-" then (true, r) else (false, String c r))
    with (is_negative (String c r), unsigned_part (String c r))
    by (simpl; now destruct (Ascii.eqb c "-")).
  cbv beta iota.
  set (body := unsigned_part (String c r)) in *.
  rewrite (take_while_all _ _ Hall), (drop_while_all _ _ Hall).
  destruct body as [|b0 b1] eqn:Eb; [congruence|].
  change (is_empty (String b0 b1)) with false. cbv iota.
  rewrite Hstof. simpl bind. reflexivity.
Qed.

(** C9.  The declaration value "0" parses to a value of unit [None_], and
    that value resolves to the sentinel -1 in every context, exactly as the
    values of "auto" and "none" do; every other unit-less number that a
    [float] can hold (zero, or a magnitude from the smallest normal
    [float] up to the largest) parses to pixels and resolves to the number
    it denotes. *)
Theorem parseValue_zero_is_sentinel :
  parseValue "0" = Ok (mkCssValue 0 None_) /\
  parseValue "auto" = Ok (mkCssValue 0 Auto) /\
  parseValue "none" = Ok (mkCssValue 0 None_) /\
  (forall ctx, toPx (mkCssValue 0 None_) ctx = -1 /\
               toPx (mkCssValue 0 Auto) ctx = -1) /\
  (forall s, unitless_numeric s = true -> s <> "0" ->
     float_range (numeric_value s) = true ->
     parseValue s = Ok (mkCssValue (numeric_value s) Px) /\
     forall ctx, toPx (mkCssValue (numeric_value s) Px) ctx = numeric_value s).
Proof.
  repeat split; try reflexivity.
  now apply parseValue_unitless.
Qed.

(** The theorem at the unit-less numbers "10" and "-2.5". *)
Lemma parseValue_zero_is_sentinel_witness :
  (unitless_numeric "10" = true /\ "10" <> "0" /\
   float_range (numeric_value "10") = true /\
   parseValue "10" = Ok (mkCssValue (numeric_value "10") Px)) /\
  (unitless_numeric "-2.5" = true /\ "-2.5" <> "0" /\
   float_range (numeric_value "-2.5") = true /\
   toPx (mkCssValue (numeric_value "-2.5") Px) default_context = numeric_value "-2.5").
Proof.
  destruct parseValue_zero_is_sentinel as (_ & _ & _ & _ & H).
  split.
  - split; [reflexivity|]. split; [discriminate|]. split; [reflexivity|].
    apply (H "10"); [reflexivity | discriminate | reflexivity].
  - split; [reflexivity|]. split; [discriminate|]. split; [reflexivity|].
    apply (H "-2.5"); [reflexivity | discriminate | reflexivity].
Defined.

(** A one followed by thirty-nine zeros, and a one behind a point and
    forty-five zeros. *)
Definition forty_digits : string := "1000000000000000000000000000000000000000".
Definition tiny_fraction : string := ".0000000000000000000000000000000000000000000001".

(** C9 as stated fails outside the range of [float]: these two unit-less
    numbers are not "0", and [parseValue] leaves by the
    [std::out_of_range] of [std::stof], which it does not catch, instead
    of returning a length in pixels. *)
Lemma parseValue_range_counterexample :
  unitless_numeric forty_digits = true /\ forty_digits <> "0" /\
  parseValue forty_digits = Throw out_of_range /\
  unitless_numeric tiny_fraction = true /\ tiny_fraction <> "0" /\
  parseValue tiny_fraction = Throw out_of_range /\
  forall v, parseValue forty_digits <> Ok v.
Proof.
  assert (E : parseValue forty_digits = Throw out_of_range) by (vm_compute; reflexivity).
  split; [reflexivity|]. split; [discriminate|]. split; [exact E|].
  split; [reflexivity|]. split; [discriminate|]. split; [vm_compute; reflexivity|].
  intros v. rewrite E. discriminate.
Qed.

End CssFacts.

(** ** Word boundaries *)

Module WordFacts.
Import Word.

(** "don" ++ E2 80 99 ++ "t": the word with a typographic apostrophe. *)
Definition dont_utf8 : string :=
  "don" ++ String xe2 (String (ascii_of_nat 128) (String (ascii_of_nat 153) "t")).

Example findWordBoundaries_I_dont_know :
  findWordBoundaries "I don't know" 4 = (2, 8)%nat /\
  findWordBoundaries "I don't know" 1 = (1, 2)%nat /\
  findWordBoundaries "a, b" 1 = (1, 2)%nat /\
  findWordBoundaries "'tis" 0 = (0, 1)%nat /\
  findWordBoundaries dont_utf8 1 = (0, 7)%nat.
Proof. repeat split. Qed.

Lemma word_start_le (text : string) (i : nat) : (word_start text i <= i)%nat.
Proof.
  induction i as [|i IH]; simpl; [lia|].
  destruct (isWordBoundaryAt text i); lia.
Qed.

Lemma scan_while_ge (len : nat) (cond : nat -> bool) (fuel i : nat) :
  (i <= scan_while len cond fuel i)%nat.
Proof.
  revert i. induction fuel as [|f IH]; intros i; simpl; [lia|].
  destruct ((i <? len)%nat && cond i); [|lia].
  specialize (IH (S i)). lia.
Qed.

Lemma scan_while_le (len : nat) (cond : nat -> bool) (fuel i : nat) :
  (i <= len)%nat -> (scan_while len cond fuel i <= len)%nat.
Proof.
  revert i. induction fuel as [|f IH]; intros i Hi; simpl; [lia|].
  destruct (i <? len)%nat eqn:E; simpl; [|lia].
  apply Nat.ltb_lt in E. destruct (cond i); [apply IH; lia | lia].
Qed.

(** With [len - i] iterations or more the loop leaves by its own test. *)
Lemma scan_while_exit (len : nat) (cond : nat -> bool) (fuel i : nat) :
  (len - i <= fuel)%nat ->
  let r := scan_while len cond fuel i in
  ((r <? len)%nat && cond r) = false.
Proof.
  revert i. induction fuel as [|f IH]; intros i Hf; simpl.
  - replace (i <? len)%nat with false; [reflexivity|].
    symmetry. apply Nat.ltb_ge. lia.
  - destruct ((i <? len)%nat && cond i) eqn:E; [|exact E].
    apply IH. lia.
Qed.

Lemma char_at_in_range (text : string) (i : nat) :
  (i < String.length text)%nat -> exists c, char_at text i = Some c.
Proof.
  revert i. induction text as [|c text IH]; intros i Hi; simpl in Hi; [lia|].
  destruct i as [|i]; simpl; [now exists c|]. apply IH. lia.
Qed.

(** C4.  For a non-empty text and an index inside it, [findWordBoundaries]
    returns [(s, e)] with [s <= i < e]; on a white-space or punctuation
    character that is not a word-internal apostrophe it returns
    [(i, i + 1)]; a straight apostrophe between two ASCII letters is not a
    boundary, nor is any byte of the UTF-8 right single quotation mark; and
    ["don't"] at index 2 gives [(0, 5)]. *)
Theorem findWordBoundaries_spec (text : string) (i : nat) :
  text <> "" -> (i < String.length text)%nat ->
  (let '(s, e) := findWordBoundaries text i in
   (s <= i)%nat /\ (i < e)%nat /\ (e <= String.length text)%nat) /\
  (forall c, char_at text i = Some c ->
             isspace c || ispunct c = true ->
             word_internal_apostrophe text i = false ->
             findWordBoundaries text i = (i, i + 1)%nat) /\
  (char_at text i = Some apostrophe ->
   alpha_at text (i - 1) = true -> (0 < i)%nat -> alpha_at text (S i) = true ->
   isWordBoundaryAt text i = false) /\
  (forall c, char_at text i = Some c ->
             In (code c) [226; 128; 153]%nat ->
             isWordBoundaryAt text i = false) /\
  findWordBoundaries "don't" 2 = (0, 5)%nat.
Proof.
  intros Hne Hi.
  assert (Hfw : findWordBoundaries text i =
                if isWordBoundaryAt text i then (i, i + 1)%nat
                else (word_start text i,
                      scan_while (String.length text) (space_at text) (String.length text)
                        (scan_while (String.length text)
                           (fun e => negb (isWordBoundaryAt text e))
                           (String.length text) i))).
  { unfold findWordBoundaries. destruct text as [|c0 t0]; [congruence|].
    change (is_empty (String c0 t0)) with false. cbv iota zeta.
    replace (String.length (String c0 t0) <? i)%nat with false
      by (symmetry; apply Nat.ltb_ge; lia).
    replace (i =? String.length (String c0 t0))%nat with false
      by (symmetry; apply Nat.eqb_neq; lia).
    reflexivity. }
  repeat split.
  - rewrite Hfw. destruct (isWordBoundaryAt text i) eqn:Eb.
    + repeat split; lia.
    + repeat split.
      * apply word_start_le.
      * set (len := String.length text).
        assert (H1 : (S i <= scan_while len (fun e => negb (isWordBoundaryAt text e)) len i)%nat).
        { destruct len as [|len'] eqn:El; [lia|]. simpl.
          replace (i <? S len')%nat with true by (symmetry; apply Nat.ltb_lt; lia).
          rewrite Eb. simpl. apply scan_while_ge. }
        pose proof (scan_while_ge len (space_at text) len
          (scan_while len (fun e => negb (isWordBoundaryAt text e)) len i)).
        lia.
      * apply scan_while_le. apply scan_while_le. lia.
  - intros c Hc Hbc Hwia. rewrite Hfw.
    replace (isWordBoundaryAt text i) with true; [reflexivity|].
    symmetry. unfold isWordBoundaryAt. rewrite Hc.
    unfold word_internal_apostrophe in Hwia. rewrite Hc in Hwia.
    destruct (isspace c); [reflexivity|]. simpl in Hbc.
    rewrite Hwia. exact Hbc.
  - intros Hc Hb Hpos Ha. unfold isWordBoundaryAt. rewrite Hc.
    destruct i as [|p]; [lia|]. simpl in Hb. rewrite Nat.sub_0_r in Hb.
    rewrite Hb, Ha. reflexivity.
  - intros c Hc Hin. unfold isWordBoundaryAt. rewrite Hc.
    assert (Hc' : c = xe2 \/ c = ascii_of_nat 128 \/ c = ascii_of_nat 153).
    { unfold code in Hin. simpl in Hin.
      destruct Hin as [H|[H|[H|H]]]; try contradiction;
        apply (f_equal ascii_of_nat) in H; rewrite ascii_nat_embedding in H; subst; auto. }
    destruct Hc' as [ -> | [ -> | -> ] ].
    + change (isspace xe2) with false. cbv iota.
      now destruct ((Ascii.eqb xe2 apostrophe || Ascii.eqb xe2 xe2) && _ && _).
    + reflexivity.
    + reflexivity.
Qed.

(** The theorem at the word "don't", index 3 (the apostrophe). *)
Lemma findWordBoundaries_spec_witness :
  "don't" <> "" /\ (3 < String.length "don't")%nat /\
  isWordBoundaryAt "don't" 3 = false.
Proof.
  assert (Hne : "don't" <> "") by discriminate.
  assert (Hi : (3 < String.length "don't")%nat) by (simpl; lia).
  split; [exact Hne|]. split; [exact Hi|].
  destruct (findWordBoundaries_spec "don't" 3 Hne Hi) as (_ & _ & H & _).
  apply H; [reflexivity | reflexivity | lia | reflexivity].
Defined.

End WordFacts.

(** ** Glyph hit test *)

Module FontFacts.
Import Font.
Local Open Scope Q_scope.

(** A font whose glyphs all advance by 10 units at glyph size 10. *)
Definition mono10 : MSDFFont :=
  mkFont (Some (mkAtlas 10 (fun cp => if (32 <=? cp)%Z then Some (mkGlyph 10 true) else None))).

Definition unloaded : MSDFFont := mkFont None.

Example hitTestText_mono10 :
  hitTestText mono10 "abc" 4 10 = 0%nat /\
  hitTestText mono10 "abc" 6 10 = 1%nat /\
  hitTestText mono10 "abc" 24 10 = 2%nat /\
  hitTestText mono10 "abc" 26 10 = 3%nat /\
  hitTestText mono10 "abc" (-1) 10 = 0%nat /\
  hitTestText mono10 "" 26 10 = 0%nat.
Proof. repeat split. Qed.

Lemma decodeUTF8_index (text : string) (i : nat) :
  (i <= snd (decodeUTF8 text i))%nat.
Proof.
  unfold decodeUTF8.
  repeat match goal with
         | |- context [if ?b then _ else _] => destruct b
         end; simpl; lia.
Qed.

(** The loop does not depend on the iteration bound once it is at least
    the number of bytes left: it then leaves by its own test. *)
Lemma hit_loop_fuel (a : MSDFAtlas) (scale : Q) (text : string) (localX : Q)
    (f1 f2 i : nat) (x prevX : Q) :
  (String.length text - i <= f1)%nat -> (String.length text - i <= f2)%nat ->
  hit_loop a scale text localX f1 i x prevX = hit_loop a scale text localX f2 i x prevX.
Proof.
  revert f2 i x prevX. induction f1 as [|f1 IH]; intros f2 i x prevX H1 H2.
  - destruct f2 as [|f2]; [reflexivity|]. simpl.
    replace (i <? String.length text)%nat with false; [reflexivity|].
    symmetry. apply Nat.ltb_ge. lia.
  - simpl. destruct (i <? String.length text)%nat eqn:Ei.
    + apply Nat.ltb_lt in Ei. destruct f2 as [|f2]; [lia|]. simpl.
      apply Nat.ltb_lt in Ei. rewrite Ei. apply Nat.ltb_lt in Ei.
      pose proof (decodeUTF8_index text i) as Hd.
      destruct (decodeUTF8 text i) as [cp i']. simpl in Hd.
      destruct (cp <? 32)%Z; [apply IH; lia|].
      destruct (fltb localX _); [reflexivity | apply IH; lia].
    + destruct f2 as [|f2]; [reflexivity|]. simpl. now rewrite Ei.
Qed.

Lemma hit_loop_le (a : MSDFAtlas) (scale : Q) (text : string) (localX : Q)
    (fuel i : nat) (x prevX : Q) :
  (hit_loop a scale text localX fuel i x prevX <= String.length text)%nat.
Proof.
  revert i x prevX. induction fuel as [|f IH]; intros i x prevX; simpl; [lia|].
  destruct (i <? String.length text)%nat eqn:Ei; [|lia].
  apply Nat.ltb_lt in Ei. destruct (decodeUTF8 text i) as [cp i'].
  destruct (cp <? 32)%Z; [apply IH|].
  destruct (fltb localX _); [lia | apply IH].
Qed.

(** The loop finds the first printable character whose midpoint is right
    of [localX]. *)
Lemma hit_loop_first_past (a : MSDFAtlas) (scale : Q) (text : string) (localX : Q)
    (fuel i : nat) (p : Q) :
  hit_loop a scale text localX fuel i p p =
  match first_past_midpoint printable (glyph_advance a scale) localX
          (characters text fuel i) p with
  | Some start => start
  | None => String.length text
  end.
Proof.
  revert i p. induction fuel as [|f IH]; intros i p; simpl; [reflexivity|].
  destruct (i <? String.length text)%nat; [|reflexivity].
  destruct (decodeUTF8 text i) as [cp i']. simpl. unfold printable at 1.
  destruct (cp <? 32)%Z; simpl; [apply IH|].
  destruct (fltb localX _); [reflexivity | apply IH].
Qed.

(** C10, as the code has it.  The hit test is total and its result is a
    byte index between 0 and the length of the text.  Without an atlas it
    returns 0.  With an atlas it returns 0 when the text is empty or
    [localX <= 0], otherwise the start index of the first character of code
    point 32 or more whose advance midpoint exceeds [localX], and the length
    of the text when there is none; control characters and undecodable
    bytes are passed over.  The iteration bound of the model is never what
    ends the loop. *)
Theorem hitTestText_spec (font : MSDFFont) (text : string) (localX fontSize : Q) :
  (hitTestText font text localX fontSize <= String.length text)%nat /\
  (atlas font = None -> hitTestText font text localX fontSize = 0%nat) /\
  (atlas font <> None ->
   hitTestText font text localX fontSize =
   hit_described printable font text localX fontSize) /\
  (forall a fuel, atlas font = Some a -> (String.length text <= fuel)%nat ->
     is_empty text || fleb localX 0 = false ->
     hit_loop a (fontSize / glyphSize a) text localX fuel 0 0 0 =
     hitTestText font text localX fontSize).
Proof.
  destruct font as [[a|]]; unfold hitTestText, hit_described; simpl.
  - repeat split.
    + destruct (is_empty text || fleb localX 0); [lia | apply hit_loop_le].
    + discriminate.
    + intros _. destruct (is_empty text || fleb localX 0); [reflexivity|].
      apply hit_loop_first_past.
    + intros a' fuel Ha Hfuel Hguard. injection Ha as <-. rewrite Hguard.
      apply hit_loop_fuel; lia.
  - repeat split; try lia; congruence.
Qed.

(** The theorem at a loaded font and at an unloaded one. *)
Lemma hitTestText_spec_witness :
  (atlas mono10 <> None /\
   hitTestText mono10 "abc" 24 10 = hit_described printable mono10 "abc" 24 10) /\
  (atlas unloaded = None /\ hitTestText unloaded "abc" 24 10 = 0%nat).
Proof.
  split.
  - split; [discriminate|].
    destruct (hitTestText_spec mono10 "abc" 24 10) as (_ & _ & H & _).
    apply H. discriminate.
  - split; [reflexivity|].
    destruct (hitTestText_spec unloaded "abc" 24 10) as (_ & H & _).
    apply H. reflexivity.
Defined.

(** C10 as stated fails on a font that has no atlas: with the text "a" and
    [localX = 5] no character has a midpoint right of [localX] (there are
    no advances), so the description gives the length of the text, 1; the
    guard on the atlas makes the code return 0. *)
Lemma hitTestText_unloaded_counterexample :
  is_empty "a" = false /\ fleb 5 0 = false /\
  hit_described (fun _ => true) unloaded "a" 5 10 = 1%nat /\
  hitTestText unloaded "a" 5 10 = 0%nat /\
  hitTestText unloaded "a" 5 10 <> hit_described (fun _ => true) unloaded "a" 5 10.
Proof. repeat split. discriminate. Qed.

(** A control character is passed over even when a later test would have
    chosen it: after "a" (midpoint 5, end 10) the tab at index 1 has its
    zero-width midpoint at 10, right of [localX = 7], yet the code answers
    2, the start of "b". *)
Example hitTestText_skips_control :
  let text := String "a" (String (ascii_of_nat 9) "b") in
  hitTestText mono10 text 7 10 = 2%nat /\
  hit_described (fun _ => true) mono10 text 7 10 = 1%nat.
Proof. split; reflexivity. Qed.

End FontFacts.

(** ** Flex formatting context *)

Module FlexFacts.
Import Css Style Layout.
Local Open Scope Q_scope.

Section Sizes.
Variable style : ComputedStyle.
Variables x y width vw vh : Q.
Variable children : list Child.

(** The share of the free space of [line] that goes to child [idx]. *)
Definition extra (line : FlexLine) (idx : nat) : Q :=
  let f := width - totalSize line in
  let freeSpace := if fltb f 0 then 0 else f in
  if fltb 0 (totalFlexGrow line)
  then (freeSpace * child_grow (nth idx children dummy_child)) / totalFlexGrow line
  else 0.

Definition main_size (line : FlexLine) (idx : nat) : Q :=
  nth idx (intrinsicSizes style children) 0 + extra line idx.

(** In a row, each child of a line is laid out at its intrinsic size plus
    its share of the free space, whatever the position and gap. *)
Lemma line_children_available (line : FlexLine) (g cy : Q) (indices : list nat)
    (pos cross : Q) :
  isRow style = true ->
  map item_available
    (fst (fst (line_children style x width vw vh children line
                 (let f := width - totalSize line in if fltb f 0 then 0 else f)
                 g cy indices pos cross))) =
  map (main_size line) indices.
Proof.
  intros Hrow. revert pos cross.
  induction indices as [|idx rest IH]; intros pos cross; simpl; [reflexivity|].
  rewrite Hrow.
  match goal with
  | |- context [line_children ?a1 ?a2 ?a3 ?a4 ?a5 ?a6 ?a7 ?a8 ?a9 ?a10 ?a11 ?a12 ?a13] =>
      specialize (IH a12 a13);
      destruct (line_children a1 a2 a3 a4 a5 a6 a7 a8 a9 a10 a11 a12 a13)
        as [[items p] c']
  end.
  simpl in *. rewrite IH. reflexivity.
Qed.

Lemma layout_lines_available (lines : list FlexLine) (g cy : Q) :
  isRow style = true ->
  map item_available
    (fst (fst (fst (layout_lines style x width vw vh children lines g cy)))) =
  flat_map (fun line => map (main_size line) (childIndices line)) lines.
Proof.
  intros Hrow. revert g cy.
  induction lines as [|line rest IH]; intros g cy; [reflexivity|].
  cbn [layout_lines flat_map]. cbv zeta.
  set (start := if String.eqb (justifyContent style) "center" then _ else _).
  destruct start as [currentPos g0].
  pose proof (line_children_available line g0 cy (childIndices line) currentPos 0 Hrow) as Hl.
  cbv zeta in Hl.
  destruct (line_children style x width vw vh children line _ g0 cy
              (childIndices line) currentPos 0) as [[items p] maxCross].
  simpl in Hl.
  match goal with
  | |- context [layout_lines ?a1 ?a2 ?a3 ?a4 ?a5 ?a6 ?a7 ?a8 ?a9] =>
      specialize (IH a8 a9);
      destruct (layout_lines a1 a2 a3 a4 a5 a6 a7 a8 a9) as [[[items' endY] g'] cs]
  end.
  simpl in *. rewrite map_app, Hl, IH. reflexivity.
Qed.

End Sizes.

(** Three children of intrinsic size 40 in a container 300 wide with no
    gap make one line, wrapping or not. *)
Lemma three_children_one_line (style : ComputedStyle) (c1 c2 c3 : Child) :
  isRow style = true -> gap style == 0 ->
  child_grow c1 == 1 -> child_grow c2 == 2 -> child_grow c3 == 0 ->
  intrinsicSize style c1 == 40 -> intrinsicSize style c2 == 40 ->
  intrinsicSize style c3 == 40 ->
  exists line, flex_lines style 300 [c1; c2; c3] = [line] /\
               childIndices line = [0; 1; 2]%nat /\
               totalSize line == 120 /\ totalFlexGrow line == 3.
Proof.
  intros Hrow Hgap Hg1 Hg2 Hg3 Hs1 Hs2 Hs3.
  unfold flex_lines. rewrite Hrow, andb_true_r.
  destruct (canWrap style).
  - cbn [intrinsicSizes map wrap_lines].
    assert (E1 : fltb 300 (0 + (intrinsicSize style c1 + 0)
                           + (intrinsicSize style c2 + gap style)) = false)
      by (apply fltb_ge; lra).
    rewrite E1.
    assert (E2 : fltb 300 (0 + (intrinsicSize style c1 + 0)
                           + (intrinsicSize style c2 + gap style)
                           + (intrinsicSize style c3 + gap style)) = false)
      by (apply fltb_ge; lra).
    rewrite E2.
    eexists. split; [reflexivity|]. cbn [childIndices totalSize totalFlexGrow rev app].
    repeat split; lra.
  - eexists. split; [reflexivity|].
    cbn [childIndices totalSize totalFlexGrow List.length seq intrinsicSizes map
         single_total sum_grow fold_left].
    repeat split; lra.
Qed.

(** Once the child boxes hold their styles (from the second pass on): in
    a row flex container of width 300 with no gap, three children of
    intrinsic main-axis size 40 whose boxes hold the flex-grow values 1, 2
    and 0 are given the widths 100, 160 and 40 by the container: the free
    space 180 is split 1:2 on top of the intrinsic 40s. *)
Theorem flex_grow_distribution (style : ComputedStyle) (x y vw vh : Q)
    (c1 c2 c3 : Child) :
  isRow style = true -> gap style == 0 ->
  child_grow c1 == 1 -> child_grow c2 == 2 -> child_grow c3 == 0 ->
  intrinsicSize style c1 == 40 -> intrinsicSize style c2 == 40 ->
  intrinsicSize style c3 == 40 ->
  exists a1 a2 a3,
    map item_available (fst (layoutFlexChildren style x y 300 vw vh [c1; c2; c3]))
    = [a1; a2; a3] /\
    a1 == 100 /\ a2 == 160 /\ a3 == 40.
Proof.
  intros Hrow Hgap Hg1 Hg2 Hg3 Hs1 Hs2 Hs3.
  destruct (three_children_one_line style c1 c2 c3 Hrow Hgap Hg1 Hg2 Hg3 Hs1 Hs2 Hs3)
    as (line & Hlines & Hidx & Hts & Htg).
  pose proof (layout_lines_available style x 300 vw vh [c1; c2; c3]
                (flex_lines style 300 [c1; c2; c3]) (gap style) y Hrow) as Hav.
  unfold layoutFlexChildren.
  destruct (layout_lines style x 300 vw vh [c1; c2; c3]
              (flex_lines style 300 [c1; c2; c3]) (gap style) y)
    as [[[items endY] g] cs].
  rewrite Hrow. cbn [fst] in *.
  rewrite Hlines in Hav. cbn [flat_map] in Hav. rewrite Hidx, app_nil_r in Hav.
  cbn [map] in Hav.
  do 3 eexists. split; [exact Hav|].
  assert (Hfree : fltb (300 - totalSize line) 0 = false) by (apply fltb_ge; lra).
  assert (Hpos : fltb 0 (totalFlexGrow line) = true) by (apply fltb_lt; lra).
  unfold main_size, extra. rewrite Hfree, Hpos. cbn [nth intrinsicSizes map].
  repeat split.
  - rewrite Hs1, Hts, Htg, Hg1. vm_compute. reflexivity.
  - rewrite Hs2, Hts, Htg, Hg2. vm_compute. reflexivity.
  - rewrite Hs3, Hts, Htg, Hg3. vm_compute. reflexivity.
Qed.

(** A row container and three children as a second layout pass finds them:
    the first two grow (their intrinsic size is their padding, 20 + 20),
    the third has measured width 40. *)
Definition row_container : ComputedStyle := set_display Flex default_style.

Definition growing (g : Q) : Child :=
  let px20 := mkCssValue 20 Px in
  let s := set_flexGrow g
             (set_padding (mkEdges (mkCssValue 0 Px) px20 (mkCssValue 0 Px) px20)
                default_style) in
  (mkNodeInfo Element "" s 0 0 0 (fun _ _ _ => 20),
   mkRenderBox s rect_zero (mkBox rect_zero edges_zero edges_zero edges_zero) 0 0 0 0).

Definition fixed40 : Child :=
  (mkNodeInfo Element "" default_style 40 0 40 (fun _ _ _ => 20), new_box).

Lemma flex_grow_distribution_witness :
  exists a1 a2 a3,
    map item_available
      (fst (layoutFlexChildren row_container 0 0 300 1024 768
              [growing 1; growing 2; fixed40]))
    = [a1; a2; a3] /\
    a1 == 100 /\ a2 == 160 /\ a3 == 40.
Proof.
  apply (flex_grow_distribution row_container 0 0 1024 768
           (growing 1) (growing 2) fixed40); reflexivity.
Defined.

(** The child as [RenderTree::build] makes its box: the box holds the
    default style until [layout] has run on it. *)
Definition fresh (c : Child) : Child := (fst c, new_box).

(** The children as the pass leaves them, for the next pass. *)
Definition next_pass (children : list Child) (items : list FlexItem) : list Child :=
  combine (map fst children) (map item_box items).

(** The main-axis sizes of the children after a pass: the widths of their
    border boxes, and where the boxes stand. *)
Definition main_sizes (items : list FlexItem) : list Q :=
  map (fun i => Qred (r_width (frame (item_box i)))) items.
Definition main_starts (items : list FlexItem) : list Q :=
  map (fun i => Qred (r_x (frame (item_box i)))) items.

(** C1 at a failing input.  A row container 300 wide with no gap and three
    children whose styles give flex-grow 1, 2 and 0 and whose intrinsic
    main-axis sizes are 40 each (padding 20 + 20 for the two that grow, a
    measured content of 40 for the third).  [layoutFlexChildren] reads the
    flex-grow of a child from the style its box holds, before the
    [layout] of the child has computed that style: on the first pass over
    the tree the boxes hold the default style, nothing is distributed, and
    the children come out 40, 40 and 40 wide, at 0, 40 and 80.  The next
    pass over the same boxes gives 100, 160 and 40, at 0, 100 and 260. *)
Theorem flex_grow_first_pass :
  let children := [fresh (growing 1); fresh (growing 2); fresh fixed40] in
  let first := fst (layoutFlexChildren row_container 0 0 300 1024 768 children) in
  let second :=
    fst (layoutFlexChildren row_container 0 0 300 1024 768 (next_pass children first)) in
  map (fun c => Qred (flexGrow (node_style (fst c)))) children = [1; 2; 0] /\
  map (fun c => Qred (flexGrow (computedStyle (snd c)))) children = [0; 0; 0] /\
  main_sizes first = [40; 40; 40] /\ main_starts first = [0; 40; 80] /\
  map (fun i => Qred (flexGrow (computedStyle (item_box i)))) first = [1; 2; 0] /\
  main_sizes second = [100; 160; 40] /\ main_starts second = [0; 100; 260].
Proof. vm_compute. repeat split. Qed.

(** On the first pass each child is handed its measured content width,
    whatever its style says. *)
Example flex_first_pass :
  map (fun i => Qred (item_available i))
    (fst (layoutFlexChildren row_container 0 0 300 1024 768
            [fresh (growing 1); fresh (growing 2); fresh fixed40]))
  = [0; 0; 40].
Proof. vm_compute. reflexivity. Qed.

End FlexFacts.

(** ** Scroll offsets *)

Module ScrollFacts.
Import Css Style Layout.
Local Open Scope Q_scope.


Lemma std_max_ge_r (a b : Q) : b <= std_max a b.
Proof. destruct (std_max_spec a b) as [[H ->]|[H ->]]; lra. Qed.


Lemma std_min_le_l (a b : Q) : std_min a b <= a.
Proof. destruct (std_min_spec a b) as [[H ->]|[H ->]]; lra. Qed.
















End ScrollFacts.

(** ** Block formatting context *)

Module BlockFacts.
Import Css Style Layout.
Local Open Scope Q_scope.

(** The style [layout] works with has the margins, padding and font size
    of the node's own style unless the node is a text node. *)
Lemma inherit_box_fields (parent : option ComputedStyle) (n : NodeInfo) :
  is_text n = false ->
  margin (inherit parent n) = margin (node_style n) /\
  padding (inherit parent n) = padding (node_style n) /\
  fontSize (inherit parent n) = fontSize (node_style n).
Proof.
  unfold inherit, is_text. destruct parent as [p|]; [|now repeat split].
  destruct (node_type n); try discriminate; intros _.
  - destruct (contains "text-align" (inline_style n)),
             (contains "font-family" (inline_style n)),
             (contains "line-height" (inline_style n)); now repeat split.
  - now repeat split.
Qed.

(** Where [layout] puts the top of the border box, as [borderBox]
    reports it: below [y] by the top margin, and by the difference between
    the padding resolved against the containing width and font size and
    the padding [borderBox] resolves with the default arguments. *)
Lemma layout_border_top (n : NodeInfo) (parent : option ComputedStyle)
    (x y w vw vh : Q) (inFlow : bool) (b : RenderBox) :
  let s := inherit parent n in
  is_display (display s) Hidden = false ->
  r_y (borderBox (box (layout n parent x y w vw vh inFlow b))) ==
  y + getMarginTop s w (fontSize s)
  + (getPaddingTop s w (fontSize s) - px0 (e_top (padding s))).
Proof.
  intros s Hvis. unfold layout. fold s. rewrite Hvis. cbv zeta.
  destruct (scrolls (overflow s));
    cbn [box clampScroll borderBox content box_padding box_border r_y];
    unfold getBorderTopWidth, px0; ring.
Qed.

Section Siblings.
Variable layoutInlineGroup : list nat -> Q -> Q -> Q -> Q.
Variable self_style : ComputedStyle.
Variables x width vw vh : Q.

(** Two adjacent block-level children [A] and [B], neither of them
    [display: none]: the distance from the bottom of [A]'s border box to
    the top of [B]'s is the larger of [A]'s bottom margin and [B]'s top
    margin, plus the difference between [B]'s top padding as laid out and
    as [borderBox] resolves it. *)
Lemma adjacent_blocks_gap (nA nB : NodeInfo) (bA bB : RenderBox)
    (rest : list Child) (i : nat) (group : list nat) (currentY prev : Q) :
  inline_level nA = false -> inline_level nB = false ->
  is_display (display (inherit (Some self_style) nA)) Hidden = false ->
  is_display (display (inherit (Some self_style) nB)) Hidden = false ->
  exists A' B' tl,
    fst (block_loop layoutInlineGroup self_style x width vw vh
           ((nA, bA) :: (nB, bB) :: rest) i group currentY prev) = A' :: B' :: tl /\
    r_y (borderBox (box B')) - rect_bottom (borderBox (box A')) ==
    std_max (getMarginBottom (node_style nA) width (fontSize (node_style nA)))
            (getMarginTop (node_style nB) width (fontSize (node_style nB)))
    + (getPaddingTop (node_style nB) width (fontSize (node_style nB))
       - px0 (e_top (padding (node_style nB)))).
Proof.
  intros HA HB HvA HvB.
  assert (HtB : is_text nB = false).
  { unfold inline_level in HB. apply orb_false_iff in HB. tauto. }
  destruct (inherit_box_fields (Some self_style) nB HtB) as (Em & Ep & Ef).
  cbn [block_loop]. rewrite HA, HB.
  destruct (flush_group layoutInlineGroup x width group currentY prev) as [cy pm].
  match goal with
  | |- context [layout nA ?p ?x0 ?y0 ?w0 ?vw0 ?vh0 ?f0 bA] =>
      set (A' := layout nA p x0 y0 w0 vw0 vh0 f0 bA)
  end.
  cbn [flush_group].
  match goal with
  | |- context [layout nB ?p ?x0 ?y0 ?w0 ?vw0 ?vh0 ?f0 bB] =>
      pose proof (layout_border_top nB p x0 y0 w0 vw0 vh0 f0 bB HvB) as Htop;
      set (B' := layout nB p x0 y0 w0 vw0 vh0 f0 bB) in *
  end.
  match goal with
  | |- context [block_loop ?a1 ?a2 ?a3 ?a4 ?a5 ?a6 ?a7 ?a8 ?a9 ?a10 ?a11] =>
      destruct (block_loop a1 a2 a3 a4 a5 a6 a7 a8 a9 a10 a11) as [tl endY]
  end.
  exists A', B', tl. split; [reflexivity|].
  cbv zeta in Htop. rewrite Htop.
  unfold getMarginTop, getPaddingTop in *. rewrite Em, Ep, Ef. ring.
Qed.

End Siblings.

(** A padding that resolves to the same length in every context. *)
Definition context_free (v : CssValue) : Prop :=
  forall parent font, toPx2 v parent font == px0 v.

Lemma px_context_free (q : Q) : context_free (mkCssValue q Px).
Proof. intros parent font. reflexivity. Qed.

(** With a top padding of [B] given in pixels, the distance is the larger
    margin alone. *)
Lemma adjacent_blocks_collapse (lig : list nat -> Q -> Q -> Q -> Q)
    (self_style : ComputedStyle) (x width vw vh : Q) (nA nB : NodeInfo)
    (bA bB : RenderBox) (rest : list Child) (i : nat) (group : list nat)
    (currentY prev : Q) :
  inline_level nA = false -> inline_level nB = false ->
  is_display (display (inherit (Some self_style) nA)) Hidden = false ->
  is_display (display (inherit (Some self_style) nB)) Hidden = false ->
  context_free (e_top (padding (node_style nB))) ->
  exists A' B' tl,
    fst (block_loop lig self_style x width vw vh
           ((nA, bA) :: (nB, bB) :: rest) i group currentY prev) = A' :: B' :: tl /\
    r_y (borderBox (box B')) - rect_bottom (borderBox (box A')) ==
    std_max (getMarginBottom (node_style nA) width (fontSize (node_style nA)))
            (getMarginTop (node_style nB) width (fontSize (node_style nB))).
Proof.
  intros HA HB HvA HvB Hfree.
  destruct (adjacent_blocks_gap lig self_style x width vw vh nA nB bA bB rest i group
              currentY prev HA HB HvA HvB) as (A' & B' & tl & E & Hgap).
  exists A', B', tl. split; [exact E|]. rewrite Hgap.
  unfold getPaddingTop. rewrite (Hfree width (fontSize (node_style nB))). ring.
Qed.

(** The style a block of declarations gives, from the defaults. *)
Definition style_of (declarations : list (string * string)) : ComputedStyle :=
  match applyDeclarations declarations default_style with
  | Ok s => s
  | _ => default_style
  end.

Definition block_of (declarations : list (string * string)) : Child :=
  (mkNodeInfo Element "" (style_of declarations) 0 0 0 (fun _ _ _ => 50), new_box).

Definition no_inline_children : Q -> Q -> Q -> Q := fun _ _ _ => 0.
Definition no_inline_group : list nat -> Q -> Q -> Q -> Q := fun _ _ _ _ => 0.

(** The distance between the border boxes of the first two children of a
    container 300 wide at the origin. *)
Definition first_gap (children : list Child) : option Q :=
  match fst (layoutBlockChildren no_inline_children no_inline_group default_style
               0 0 300 1024 768 children) with
  | A' :: B' :: _ => Some (Qred (r_y (borderBox (box B')) - rect_bottom (borderBox (box A'))))
  | _ => None
  end.

(** Two blocks with [margin: 20px 0] are 20 apart, not 40; margins of 10
    and 30 give 30. *)
Example margin_collapse_20px :
  first_gap [block_of [("margin", "20px 0")]; block_of [("margin", "20px 0")]] = Some 20 /\
  first_gap [block_of [("margin-bottom", "10px")]; block_of [("margin-top", "30px")]]
  = Some 30.
Proof. split; vm_compute; reflexivity. Qed.

(** C3 at a failing input.  Two adjacent blocks with 20px vertical margins,
    the second with [padding-top: 10%], in a container 300 wide: [layout]
    resolves the padding to 30 and starts the content 30 lower, but
    [borderBox] resolves the percentage against a parent size of 0, so the
    border box of the second block starts 50 below the bottom of the first,
    where the larger margin is 20. *)
Theorem margin_collapse_percent_padding :
  let A := block_of [("margin-bottom", "20px"); ("margin-top", "20px")] in
  let B := block_of [("margin-bottom", "20px"); ("margin-top", "20px");
                     ("padding-top", "10%")] in
  std_max (getMarginBottom (node_style (fst A)) 300 16)
          (getMarginTop (node_style (fst B)) 300 16) == 20 /\
  first_gap [A; B] = Some 50.
Proof. split; vm_compute; reflexivity. Qed.

(** The same with a padding in [em] under a font size other than 16. *)
Example margin_collapse_em_padding :
  first_gap [block_of [("margin-bottom", "20px")];
             block_of [("font-size", "32px"); ("margin-top", "20px");
                       ("padding-top", "1em")]] = Some 36.
Proof. vm_compute. reflexivity. Qed.

End BlockFacts.

(** ** Applying declarations *)

Module StyleFacts.
Import Css Style.
Local Open Scope Q_scope.

(** A well-formed block is applied in full. *)
Example applyDeclarations_well_formed :
  match applyDeclarations [("flex", "2"); ("opacity", "0.5"); ("z-index", "3")]
          default_style with
  | Ok s => flexGrow s == 2 /\ flexShrink s == 1 /\ opacity s == 0.5 /\ zIndex s = 3%Z
  | _ => False
  end.
Proof. vm_compute. repeat split. Qed.

(** The [flex] shorthand has a handler around its conversions: a token
    that does not convert is read as a flex-basis or dropped. *)
Example flex_shorthand_handles_bad_token :
  match applyProperty "flex" "abc" default_style with
  | Ok s => flexGrow s == 0 /\ flexBasis s = mkCssValue 0 Px
  | _ => False
  end.
Proof. vm_compute. repeat split. Qed.

(** C2 at failing inputs.  A value that is not a number for [opacity],
    [line-height], [z-index], [flex-grow] or [flex-shrink] makes
    [std::stof] or [std::stoi] throw [std::invalid_argument]; nothing
    between [applyProperty] and the main loop catches it, so the
    declaration is not skipped: from any style, and whatever declarations
    follow, [applyDeclarations] leaves by the exception and the remaining
    declarations are not applied. *)
Theorem applyDeclarations_bad_number_throws
    (s : ComputedStyle) (rest : list (string * string)) :
  applyDeclarations (("opacity", "abc") :: rest) s = Throw invalid_argument /\
  applyDeclarations (("line-height", "normal") :: rest) s = Throw invalid_argument /\
  applyDeclarations (("z-index", "auto") :: rest) s = Throw invalid_argument /\
  applyDeclarations (("flex-grow", "abc") :: rest) s = Throw invalid_argument /\
  applyDeclarations (("flex-shrink", "abc") :: rest) s = Throw invalid_argument.
Proof. repeat split. Qed.

(** The length parser throws as well on a number without digits. *)
Example parseValue_lone_point :
  parseValue "." = Throw invalid_argument /\
  applyDeclarations [("width", "."); ("z-index", "1")] default_style
  = Throw invalid_argument.
Proof. split; reflexivity. Qed.

End StyleFacts.

(** ** Text line boxes *)

Module TextFacts.
Import Style Font TextLayout.
Local Open Scope Q_scope.

Definition nonempty_lines (ls : list TextLine) : Prop :=
  Forall (fun l => text l <> "") ls.

Lemma is_empty_false (s : string) : is_empty s = false -> s <> "".
Proof. destruct s; [discriminate | intros _ E; discriminate]. Qed.

Lemma wrap_words_nonempty (font : MSDFFont) (fs lh mw x0 : Q) (al : TextAlign)
    (words : list string) (cur : string) (w cy : Q) :
  nonempty_lines (fst (wrap_words font fs lh mw x0 al words cur w cy)).
Proof.
  revert cur w cy. induction words as [|word rest IH]; intros cur w cy; cbn [wrap_words].
  - destruct (is_empty (pop_spaces cur)) eqn:E; cbn [fst]; [constructor|].
    constructor; [|constructor]. cbn [line_of text]. now apply is_empty_false.
  - destruct (fleb (w + getTextWidth font word fs) mw || is_empty cur); [apply IH|].
    set (emit := if is_empty (pop_spaces cur) then _ else _).
    assert (Hemit : nonempty_lines (fst emit)).
    { subst emit. destruct (is_empty (pop_spaces cur)) eqn:E; cbn [fst]; [constructor|].
      constructor; [|constructor]. cbn [line_of text]. now apply is_empty_false. }
    destruct emit as [emitted cy'].
    set (tl := if String.eqb word " " then _ else _).
    assert (Htl : nonempty_lines (fst tl)).
    { subst tl. destruct (String.eqb word " "); apply IH. }
    destruct tl as [ls endY]. cbn [fst] in *.
    apply Forall_app. split; assumption.
Qed.

(** Every line [layoutText] makes has text, and it makes none for an empty
    content or without a font. *)
Lemma layoutText_lines (p : TextParams) (content : string) :
  nonempty_lines (fst (layoutText p content)) /\
  (content = "" -> fst (layoutText p content) = []).
Proof.
  unfold layoutText. destruct (p_font p) as [font|]; [|split; [constructor | reflexivity]].
  destruct (is_empty content) eqn:E; [split; [constructor | reflexivity]|].
  split; [|intros ->; discriminate].
  cbv zeta. destruct (fleb _ _); cbn [fst].
  - constructor; [|constructor]. cbn [line_of text]. now apply is_empty_false.
  - destruct (split_words content "") as [|w0 ws]; [constructor|].
    match goal with
    | |- context [wrap_words ?a1 ?a2 ?a3 ?a4 ?a5 ?a6 ?a7 ?a8 ?a9 ?a10] =>
        pose proof (wrap_words_nonempty a1 a2 a3 a4 a5 a6 a7 a8 a9 a10) as H;
        destruct (wrap_words a1 a2 a3 a4 a5 a6 a7 a8 a9 a10) as [ls endY]
    end.
    exact H.
Qed.

Lemma place_tokens_nonempty (font : MSDFFont) (fs tlh x0 w0 : Q) (al : TextAlign)
    (tokens : list string) (pen : Pen) (cur : string) (lsx : Q) :
  nonempty_lines (fst (place_tokens font fs tlh x0 w0 al tokens pen cur lsx)).
Proof.
  revert pen cur lsx.
  induction tokens as [|token rest IH]; intros pen cur lsx; cbn [place_tokens].
  - destruct (is_empty (pop_spaces cur)) eqn:E; cbn [fst]; [constructor|].
    constructor; [|constructor]. cbn [inline_line text]. now apply is_empty_false.
  - match goal with |- context [if ?c then _ else _] => destruct c end; [|apply IH].
    set (tl := if String.eqb token " " then _ else _).
    assert (Htl : nonempty_lines (fst tl)).
    { subst tl. destruct (String.eqb token " "); apply IH. }
    destruct tl as [ls pen']. cbn [fst] in *.
    apply Forall_app. split; [|exact Htl].
    destruct (is_empty (pop_spaces cur)) eqn:E; [constructor|].
    constructor; [|constructor]. cbn [inline_line text]. now apply is_empty_false.
Qed.

(** The same for [layoutTextTokensInline]. *)
Lemma layoutTextTokensInline_lines (font : MSDFFont) (st : ComputedStyle)
    (x0 w0 : Q) (pen : Pen) (content : string) :
  nonempty_lines (fst (layoutTextTokensInline font st x0 w0 pen content)) /\
  (content = "" -> fst (layoutTextTokensInline font st x0 w0 pen content) = []).
Proof.
  split; [apply place_tokens_nonempty | intros ->; reflexivity].
Qed.

End TextFacts.

(** ** Document order of the text boxes *)

Module TreeFacts.
Import TextLayout Tree.

(** Induction on render trees and on DOM trees. *)
Lemma RenderBox_tree_ind (P : RenderBox -> Prop) :
  (forall p n l cs, Forall P cs -> P (mkRenderBox p n l cs)) ->
  forall b, P b.
Proof.
  intros H. fix IH 1. intros [p n l cs]. apply H.
  induction cs as [|c cs IHcs]; constructor; [apply IH | exact IHcs].
Qed.

Definition text_box (b : RenderBox) : bool := is_text (node b) && has_lines b.

(** [collectTextBoxes] appends the text boxes of the subtree in pre-order. *)
Lemma collectTextBoxes_preorder (b : RenderBox) :
  forall acc, collectTextBoxes b acc = (acc ++ filter text_box (preorder b))%list.
Proof.
  induction b as [p n l cs IH] using RenderBox_tree_ind. intros acc.
  cbn [collectTextBoxes preorder children filter].
  change (is_text n && has_lines (mkRenderBox p n l cs))
    with (text_box (mkRenderBox p n l cs)).
  set (acc0 := if text_box (mkRenderBox p n l cs) then _ else acc).
  assert (Hfold : forall a, fold_left (fun acc c => collectTextBoxes c acc) cs a
                            = (a ++ filter text_box (flat_map preorder cs))%list).
  { induction cs as [|c cs' IHcs]; intros a; cbn [fold_left flat_map].
    - now rewrite app_nil_r.
    - inversion IH as [|? ? Hc Hcs']; subst.
      rewrite (IHcs Hcs'), Hc, filter_app, app_assoc. reflexivity. }
  rewrite Hfold. subst acc0.
  destruct (text_box (mkRenderBox p n l cs)); [|reflexivity].
  now rewrite <- app_assoc.
Qed.

Lemma mirrors_preorder (b : RenderBox) :
  forall n, mirrors n b -> map node (preorder b) = dom_preorder n.
Proof.
  induction b as [p n0 l cs IH] using RenderBox_tree_ind.
  intros [t tag txt ns] [Hnode Hcs].
  cbn [node children node_children] in *. subst n0.
  cbn [preorder dom_preorder children node_children map node]. f_equal.
  revert ns Hcs. induction cs as [|c cs' IHcs]; intros [|n' ns'] Hcs;
    try contradiction; [reflexivity|].
  destruct Hcs as [Hc Hcs']. inversion IH as [|? ? Hc0 Hcs0]; subst.
  cbn [flat_map]. rewrite map_app, (Hc0 _ Hc), (IHcs Hcs0 _ Hcs'). reflexivity.
Qed.

Lemma subsequence_refl {A : Type} (l : list A) : subsequence l l.
Proof. induction l; constructor; assumption. Qed.

Lemma subsequence_filter_map {A B : Type} (f : A -> B) (p : A -> bool)
    (q : B -> bool) (l : list A) :
  Forall (fun a => p a = true -> q (f a) = true) l ->
  subsequence (map f (filter p l)) (filter q (map f l)).
Proof.
  induction 1 as [|a l Ha Hl IH]; cbn [filter map]; [constructor|].
  destruct (p a) eqn:Ep.
  - rewrite (Ha eq_refl). cbn [map]. now constructor.
  - destruct (q (f a)); [now constructor | exact IH].
Qed.

(** Lines produced from an empty content: none. *)
Lemma produced_lines (content : string) (ls : list TextLine) :
  produced content ls ->
  TextFacts.nonempty_lines ls /\ (content = "" -> ls = []).
Proof.
  induction 1 as [|p|font st x0 w0 pen|ls dy _ [IH1 IH2]].
  - split; [constructor | reflexivity].
  - apply TextFacts.layoutText_lines.
  - apply TextFacts.layoutTextTokensInline_lines.
  - split.
    + unfold TextFacts.nonempty_lines in *. rewrite Forall_map.
      eapply Forall_impl; [|exact IH1]. intros l Hl. exact Hl.
    + intros E. rewrite (IH2 E). reflexivity.
Qed.

Lemma laid_out_text_boxes (b : RenderBox) :
  laid_out b ->
  Forall (fun b' => text_box b' = true -> nonempty_text (node b') = true) (preorder b).
Proof.
  induction b as [p n l cs IH] using RenderBox_tree_ind.
  intros [Hb Hcs]. cbn [node textLines children] in *.
  cbn [preorder children]. constructor.
  - unfold text_box, nonempty_text, has_lines. cbn [node textLines].
    destruct (is_text n); [|discriminate]. cbn [andb].
    destruct (produced_lines _ _ Hb) as [_ Hempty].
    destruct l; [discriminate|]. intros _.
    destruct (textContent n); [now specialize (Hempty eq_refl) | reflexivity].
  - induction cs as [|c cs' IHcs]; cbn [flat_map]; [constructor|].
    destruct Hcs as [Hc Hcs']. inversion IH as [|? ? Hc0 Hcs0]; subst.
    apply Forall_app. split; [now apply Hc0 | now apply IHcs].
Qed.

(** C7.  For a render tree that mirrors the DOM and is as layout leaves it,
    the rebuilt [allTextBoxes] is the pre-order enumeration of the boxes
    whose node is a text node and whose list of text lines is not empty;
    the pre-order of the render tree is that of the DOM; and the nodes of
    [allTextBoxes] come in the order of the pre-order of the DOM restricted
    to the text nodes with content. *)
Theorem allTextBoxes_document_order (dom : Node) (root : RenderBox) :
  mirrors dom root -> laid_out root ->
  rebuild_text_boxes root = filter text_box (preorder root) /\
  map node (preorder root) = dom_preorder dom /\
  subsequence (map node (rebuild_text_boxes root))
              (filter nonempty_text (dom_preorder dom)).
Proof.
  intros Hm Hl.
  assert (E : rebuild_text_boxes root = filter text_box (preorder root))
    by apply collectTextBoxes_preorder.
  split; [exact E|]. split; [now apply mirrors_preorder|].
  rewrite E, <- (mirrors_preorder root dom Hm).
  apply subsequence_filter_map. now apply laid_out_text_boxes.
Qed.

Lemma Node_tree_ind (P : Node -> Prop) :
  (forall t tag txt cs, Forall P cs -> P (mkNode t tag txt cs)) ->
  forall n, P n.
Proof.
  intros H. fix IH 1. intros [t tag txt cs]. apply H.
  induction cs as [|c cs IHcs]; constructor; [apply IH | exact IHcs].
Qed.

(** [RenderTree::build] makes a tree that mirrors the DOM and holds no
    text lines yet. *)
Lemma build_mirrors (n : Node) :
  forall next, mirrors n (fst (build n next)) /\ laid_out (fst (build n next)).
Proof.
  induction n as [t tag txt cs IH] using Node_tree_ind. intros next.
  cbn [build].
  set (build_children := fix build_children (l : list Node) (nx : Ptr) :=
         match l with
         | [] => ([], nx)
         | c :: l' =>
             let '(b, nx1) := build c nx in
             let '(bs, nx2) := build_children l' nx1 in (b :: bs, nx2)
         end).
  assert (Hcs : forall nx,
             (fix all2 (ns : list Node) (bs : list RenderBox) : Prop :=
                match ns, bs with
                | [], [] => True
                | n' :: ns', b' :: bs' => mirrors n' b' /\ all2 ns' bs'
                | _, _ => False
                end) cs (fst (build_children cs nx)) /\
             (fix all (bs : list RenderBox) : Prop :=
                match bs with
                | [] => True
                | b' :: bs' => laid_out b' /\ all bs'
                end) (fst (build_children cs nx))).
  { induction cs as [|c cs' IHcs]; intros nx; cbn [build_children fst]; [now split|].
    inversion IH as [|? ? Hc Hcs']; subst.
    specialize (Hc nx). destruct (build c nx) as [b nx1].
    specialize (IHcs Hcs' nx1). destruct (build_children cs' nx1) as [bs nx2].
    cbn [fst] in *. tauto. }
  specialize (Hcs (S next)). destruct (build_children cs (S next)) as [boxes next'].
  cbn [fst] in *. destruct Hcs as [H1 H2]. split.
  - cbn [mirrors node node_children children]. split; [reflexivity | exact H1].
  - cbn [laid_out node textLines children]. split; [|exact H2].
    destruct (is_text _); [constructor | reflexivity].
Qed.

(** A layout pass in which every text box is laid out by [layoutText]
    with the parameters [p]. *)
Fixpoint layout_all_text (p : TextParams) (b : RenderBox) : RenderBox :=
  let 'mkRenderBox a n lines cs := b in
  mkRenderBox a n
    (if is_text n then fst (layoutText p (textContent n)) else lines)
    (map (layout_all_text p) cs).

Lemma layout_all_text_keeps (p : TextParams) (b : RenderBox) :
  forall n, mirrors n b -> laid_out b ->
            mirrors n (layout_all_text p b) /\ laid_out (layout_all_text p b).
Proof.
  induction b as [a n0 l cs IH] using RenderBox_tree_ind.
  intros [t tag txt ns] [Hnode Hm] [Hl Hlc].
  cbn [node children node_children textLines] in *. subst n0.
  cbn [textContent is_text node_type] in Hl.
  cbn [layout_all_text mirrors laid_out node children node_children textLines
       textContent is_text node_type].
  assert (H : (fix all2 (ns : list Node) (bs : list RenderBox) : Prop :=
                 match ns, bs with
                 | [], [] => True
                 | n' :: ns', b' :: bs' => mirrors n' b' /\ all2 ns' bs'
                 | _, _ => False
                 end) ns (map (layout_all_text p) cs) /\
              (fix all (bs : list RenderBox) : Prop :=
                 match bs with
                 | [] => True
                 | b' :: bs' => laid_out b' /\ all bs'
                 end) (map (layout_all_text p) cs)).
  { clear Hl. revert ns Hm. induction cs as [|c cs' IHcs]; intros [|n' ns'] Hm;
      try contradiction; cbn [map]; [now split|].
    destruct Hm as [Hc Hm'], Hlc as [Hlc0 Hlc']. inversion IH as [|? ? Hc0 Hcs0]; subst.
    destruct (Hc0 _ Hc Hlc0) as [? ?]. destruct (IHcs Hcs0 Hlc' _ Hm') as [? ?].
    tauto. }
  destruct H as [H1 H2]. repeat split; try assumption.
  destruct (is_text _); [apply produced_block | exact Hl].
Qed.

(** Document [p["Hello ", strong["world"]], p[""]] after a layout pass. *)
Definition sample_dom : Node :=
  mkNode Document "" ""
    [mkNode Element "p" ""
       [mkNode Text "" "Hello " [];
        mkNode Element "strong" "" [mkNode Text "" "world" []]];
     mkNode Element "p" "" [mkNode Text "" "" []]].

Definition sample_params : TextParams :=
  mkTextParams 0 0 300 (Some FontFacts.mono10) Style.default_style.

Definition sample_tree : RenderBox :=
  layout_all_text sample_params (fst (build sample_dom 0%nat)).

Example sample_text_boxes :
  map (fun b => (ptr b, textContent (node b))) (rebuild_text_boxes sample_tree)
  = [(2%nat, "Hello "); (4%nat, "world")].
Proof. reflexivity. Qed.

Lemma allTextBoxes_document_order_witness :
  mirrors sample_dom sample_tree /\ laid_out sample_tree /\
  subsequence (map node (rebuild_text_boxes sample_tree))
              (filter nonempty_text (dom_preorder sample_dom)).
Proof.
  assert (Hm : mirrors sample_dom sample_tree) by (vm_compute; repeat split).
  assert (Hl : laid_out sample_tree).
  { cbn [laid_out sample_tree layout_all_text]. simpl.
    repeat split;
      first [ exact (produced_block "Hello " sample_params)
            | exact (produced_block "world" sample_params)
            | exact (produced_none "") ]. }
  split; [exact Hm|]. split; [exact Hl|].
  apply (allTextBoxes_document_order sample_dom sample_tree Hm Hl).
Defined.

End TreeFacts.

(** ** Copy serialization *)

Module CopyFacts.
Import TextLayout Selection.
Import Tree (Ptr).

Lemma append_assoc (a b c : string) : (a ++ b) ++ c = a ++ b ++ c.
Proof. induction a as [|x a IH]; simpl; [reflexivity | now rewrite IH]. Qed.

Lemma is_empty_append (a b : string) :
  is_empty (a ++ b) = is_empty a && is_empty b.
Proof. destruct a; reflexivity. Qed.

Lemma last_char_append (a b : string) :
  is_empty b = false -> last_char (a ++ b) = last_char b.
Proof.
  intros Hb. induction a as [|x a IH]; [reflexivity|].
  simpl. rewrite IH. destruct (a ++ b) eqn:E; [|reflexivity].
  destruct a; simpl in E; [subst b; discriminate | discriminate].
Qed.

Lemma ends_with_newline_append (a b : string) :
  is_empty b = false -> ends_with_newline (a ++ b) = ends_with_newline b.
Proof. intros Hb. unfold ends_with_newline. now rewrite last_char_append. Qed.

Lemma ends_with_newline_nl (a : string) :
  ends_with_newline (a ++ String newline "") = true.
Proof. rewrite ends_with_newline_append; reflexivity. Qed.

Lemma substring_all (s : string) : substring 0 (String.length s - 0) s = s.
Proof.
  rewrite Nat.sub_0_r. induction s as [|c s IH]; [reflexivity|].
  simpl. now rewrite IH.
Qed.

Lemma substring_nonempty (s : string) (n m : nat) :
  (n < String.length s)%nat -> (0 < m)%nat -> is_empty (substring n m s) = false.
Proof.
  revert n m. induction s as [|c s IH]; intros n m Hn Hm; simpl in Hn; [lia|].
  destruct n as [|n]; simpl.
  - destruct m; [lia | reflexivity].
  - apply IH; lia.
Qed.

(** The join of the lines of a box, as the loop applies it. *)
Definition add_part (acc part : string) : string :=
  if negb (is_empty acc) && negb (ends_with_newline acc) then acc ++ " " ++ part
  else acc ++ part.

Definition join_part (acc part : string) : string :=
  if ends_with_newline acc then acc ++ part else acc ++ " " ++ part.

Definition fresh (result : string) : Prop :=
  result = "" \/ ends_with_newline result = true.

Lemma selected_parts_nonempty (sel : TextSelection) (box : Ptr)
    (ls : list TextLine) (i : nat) :
  Forall (fun part => is_empty part = false) (selected_parts sel box ls i).
Proof.
  revert i. induction ls as [|line rest IH]; intros i; cbn [selected_parts]; [constructor|].
  destruct (getSelectionRangeForLine sel (Some box) i _) as [selStart selEnd].
  destruct ((selStart <? selEnd)%nat && (selStart <? _)%nat) eqn:E; cbn [app]; [|apply IH].
  constructor; [|apply IH].
  apply andb_true_iff in E as [E1 E2]. apply Nat.ltb_lt in E1, E2.
  apply substring_nonempty; lia.
Qed.

(** The line loop adds the selected parts one after the other. *)
Lemma copy_lines_parts (sel : TextSelection) (box : Ptr) (ls : list TextLine)
    (i : nat) (result : string) :
  (i = 0%nat -> fresh result) ->
  copy_lines sel box ls i result = fold_left add_part (selected_parts sel box ls i) result.
Proof.
  revert i result. induction ls as [|line rest IH]; intros i result Hi;
    cbn [copy_lines selected_parts]; [reflexivity|].
  destruct (getSelectionRangeForLine sel (Some box) i _) as [selStart selEnd].
  destruct ((selStart <? selEnd)%nat && (selStart <? _)%nat); cbn [app fold_left].
  - rewrite IH by discriminate. f_equal. unfold add_part.
    destruct i as [|i].
    + destruct (Hi eq_refl) as [-> | E]; [reflexivity|].
      rewrite E. cbn [Nat.ltb Nat.leb andb negb]. now rewrite andb_false_r.
    + cbn [Nat.ltb Nat.leb andb].
      destruct (negb (is_empty result) && negb (ends_with_newline result));
        [apply append_assoc | reflexivity].
  - apply IH. discriminate.
Qed.

Lemma fold_join_part_nonempty (parts : list string) (acc : string) :
  is_empty acc = false -> is_empty (fold_left join_part parts acc) = false.
Proof.
  revert acc. induction parts as [|p parts IH]; intros acc H; [exact H|].
  cbn [fold_left]. apply IH. unfold join_part.
  destruct (ends_with_newline acc); rewrite is_empty_append, H; reflexivity.
Qed.

Lemma fold_add_part_prefix (result acc : string) (parts : list string) :
  is_empty acc = false ->
  fold_left add_part parts (result ++ acc) = result ++ fold_left join_part parts acc.
Proof.
  revert acc. induction parts as [|p parts IH]; intros acc H; [reflexivity|].
  cbn [fold_left].
  assert (E : add_part (result ++ acc) p = result ++ join_part acc p).
  { unfold add_part, join_part.
    rewrite is_empty_append, H, andb_false_r, ends_with_newline_append by exact H.
    cbn [negb andb]. destruct (ends_with_newline acc); cbn [negb]; now rewrite append_assoc. }
  rewrite E. apply IH. unfold join_part.
  destruct (ends_with_newline acc); rewrite is_empty_append, H; reflexivity.
Qed.

Lemma append_empty (s : string) : s ++ "" = s.
Proof. induction s as [|c s IH]; simpl; [reflexivity | now rewrite IH]. Qed.

(** From a result that is empty or ends a line, the line loop appends the
    lines of the box joined as described. *)
Lemma copy_lines_join (sel : TextSelection) (box : Ptr) (ls : list TextLine)
    (result : string) :
  fresh result ->
  copy_lines sel box ls 0 result = result ++ join_lines (selected_parts sel box ls 0).
Proof.
  intros Hf. rewrite copy_lines_parts by (intros _; exact Hf).
  pose proof (selected_parts_nonempty sel box ls 0) as Hne.
  destruct (selected_parts sel box ls 0) as [|first rest]; cbn [fold_left join_lines].
  - now rewrite append_empty.
  - inversion Hne as [|? ? Hfirst _]; subst.
    replace (add_part result first) with (result ++ first).
    + now apply fold_add_part_prefix.
    + unfold add_part. destruct Hf as [-> | E]; [reflexivity|].
      rewrite E. now rewrite andb_false_r.
Qed.

Definition piece (heap : Heap) (sel : TextSelection) (box : Ptr) : string :=
  join_lines (selected_parts sel box (lines (heap box)) 0).

Definition join_piece (acc p : string) : string :=
  if is_empty acc then p else acc ++ String newline "" ++ p.

Lemma firstn_skipn_cons (l : list Ptr) (count idx : nat) :
  (idx < List.length l)%nat ->
  firstn (S count) (skipn idx l) = nth idx l O :: firstn count (skipn (S idx) l).
Proof.
  revert idx. induction l as [|a l IH]; intros idx H; simpl in H; [lia|].
  destruct idx as [|idx]; [reflexivity|].
  cbn [skipn nth]. apply IH. lia.
Qed.

(** The box loop joins the pieces of the boxes that have lines. *)
Lemma copy_boxes_join (heap : Heap) (sel : TextSelection) (startIdx : nat)
    (count idx : nat) (result : string) :
  (startIdx <= idx)%nat -> (idx = startIdx -> result = "") ->
  (idx + count <= List.length (allTextBoxes sel))%nat ->
  copy_boxes heap sel startIdx count idx result =
  fold_left join_piece
    (map (piece heap sel)
       (filter (has_text_lines heap) (firstn count (skipn idx (allTextBoxes sel)))))
    result.
Proof.
  revert idx result. induction count as [|count IH]; intros idx result Hle Hstart Hlen;
    [reflexivity|].
  rewrite firstn_skipn_cons by lia. cbn [copy_boxes filter].
  set (box := nth idx (allTextBoxes sel) O).
  unfold has_text_lines at 1.
  destruct (lines (heap box)) as [|l0 ls] eqn:El.
  - apply IH; [lia | lia | lia].
  - cbn [map fold_left]. rewrite IH by lia. f_equal.
    unfold join_piece, piece. rewrite El.
    destruct (is_empty result) eqn:Er.
    + destruct result; [|discriminate]. rewrite andb_false_r.
      now rewrite copy_lines_join by (left; reflexivity).
    + replace (startIdx <? idx)%nat with true.
      * cbn [negb andb]. rewrite copy_lines_join by (right; apply ends_with_newline_nl).
        apply append_assoc.
      * symmetry. apply Nat.ltb_lt.
        destruct (Nat.eq_dec idx startIdx) as [E|E]; [|lia].
        rewrite (Hstart E) in Er. discriminate.
Qed.

Lemma index_of_range (p : Ptr) (l : list Ptr) (i : Z) :
  (0 <= i)%Z -> (0 <= index_of p l i)%Z ->
  (i <= index_of p l i < i + Z.of_nat (List.length l))%Z.
Proof.
  revert i. induction l as [|q l IH]; intros i Hi H; cbn [index_of] in *; [lia|].
  destruct (Nat.eqb q p).
  - cbn [List.length]. lia.
  - specialize (IH (i + 1)%Z ltac:(lia) H). cbn [List.length]. lia.
Qed.

(** [getSelectedText] computes the serialization as described. *)
Lemma getSelectedText_serialization (heap : Heap) (sel : TextSelection) :
  getSelectedText heap sel = serialization heap sel.
Proof.
  unfold getSelectedText, serialization.
  destruct (negb (hasSelection sel) || is_null (anchorBox sel) || is_null (focusBox sel))
    eqn:Eg; [reflexivity|].
  destruct ((getBoxIndex sel (anchorBox sel) <? 0)%Z || (getBoxIndex sel (focusBox sel) <? 0)%Z)
    eqn:Ei; [reflexivity|].
  apply orb_false_iff in Ei as [Ea Ef]. apply Z.ltb_ge in Ea, Ef.
  cbv zeta. unfold join_boxes, boxes_in_range.
  rewrite copy_boxes_join; [reflexivity | lia | reflexivity |].
  assert (Ha : (getBoxIndex sel (anchorBox sel) < Z.of_nat (List.length (allTextBoxes sel)))%Z).
  { unfold getBoxIndex in *. destruct (anchorBox sel) as [p|]; [|lia].
    pose proof (index_of_range p (allTextBoxes sel) 0 ltac:(lia) Ea). lia. }
  assert (Hf : (getBoxIndex sel (focusBox sel) < Z.of_nat (List.length (allTextBoxes sel)))%Z).
  { unfold getBoxIndex in *. destruct (focusBox sel) as [p|]; [|lia].
    pose proof (index_of_range p (allTextBoxes sel) 0 ltac:(lia) Ef). lia. }
  lia.
Qed.

(** *** Fully covered boxes *)

(** Every line of the box is selected from its first character to its
    last. *)
Definition fully_selected (heap : Heap) (sel : TextSelection) (box : Ptr) : Prop :=
  forall i line, nth_error (lines (heap box)) i = Some line ->
    getSelectionRangeForLine sel (Some box) i (String.length (text line))
    = (0%nat, String.length (text line)).

(** A text box as layout leaves it, fully selected: it has lines, each
    line has text. *)
Definition covered (heap : Heap) (sel : TextSelection) (box : Ptr) : Prop :=
  lines (heap box) <> [] /\
  Forall (fun l => text l <> "") (lines (heap box)) /\
  fully_selected heap sel box.

(** Both indices of the selection are found in [allTextBoxes]. *)
Definition selection_in_list (sel : TextSelection) : Prop :=
  hasSelection sel = true /\
  (0 <= getBoxIndex sel (anchorBox sel))%Z /\ (0 <= getBoxIndex sel (focusBox sel))%Z.

Lemma selected_parts_full (sel : TextSelection) (box : Ptr) (ls : list TextLine) (i : nat) :
  (forall j line, nth_error ls j = Some line ->
     getSelectionRangeForLine sel (Some box) (i + j) (String.length (text line))
     = (0%nat, String.length (text line))) ->
  Forall (fun l => text l <> "") ls ->
  selected_parts sel box ls i = map text ls.
Proof.
  revert i. induction ls as [|line rest IH]; intros i Hr Hne; [reflexivity|].
  cbn [selected_parts map]. inversion Hne as [|? ? Hline Hrest]; subst.
  pose proof (Hr 0%nat line eq_refl) as E. rewrite Nat.add_0_r in E. rewrite E.
  assert (Hlen : (0 < String.length (text line))%nat).
  { destruct (text line); [congruence | simpl; lia]. }
  replace (0 <? String.length (text line))%nat with true
    by (symmetry; now apply Nat.ltb_lt).
  cbn [andb app]. rewrite substring_all. f_equal.
  apply IH; [|exact Hrest].
  intros j l Hj. specialize (Hr (S j) l Hj). now rewrite Nat.add_succ_r in Hr.
Qed.

Lemma covered_piece (heap : Heap) (sel : TextSelection) (box : Ptr) :
  covered heap sel box ->
  piece heap sel box = full_text heap box /\ is_empty (piece heap sel box) = false /\
  has_text_lines heap box = true.
Proof.
  intros (Hl & Hne & Hfull). unfold piece, full_text, has_text_lines.
  rewrite (selected_parts_full sel box (lines (heap box)) 0 Hfull Hne).
  split; [reflexivity|].
  destruct (lines (heap box)) as [|l0 ls]; [congruence|]. split; [|reflexivity].
  cbn [map join_lines]. apply fold_join_part_nonempty.
  inversion Hne; subst. destruct (text l0); [congruence | reflexivity].
Qed.

(** What follows a non-empty text: each piece after one newline. *)
Definition after (pieces : list string) : string :=
  fold_right (fun p r => String newline "" ++ p ++ r) "" pieces.

Lemma fold_join_piece_after (pieces : list string) (acc : string) :
  is_empty acc = false -> fold_left join_piece pieces acc = acc ++ after pieces.
Proof.
  revert acc. induction pieces as [|p ps IH]; intros acc H; cbn [fold_left after fold_right].
  - now rewrite append_empty.
  - unfold join_piece at 2. rewrite H. rewrite IH.
    + now rewrite !append_assoc.
    + rewrite is_empty_append, H. reflexivity.
Qed.

Definition starts_with_newline (s : string) : Prop :=
  exists r, s = String newline r.

(** Between two adjacent covered boxes of the range there is one newline:
    the serialization is the whole text of the first, a newline, the whole
    text of the second, after a prefix that is empty or ends a line and
    before a rest that is empty or starts with the next newline. *)
Lemma adjacent_covered_boxes (heap : Heap) (sel : TextSelection)
    (l1 l2 : list Ptr) (A B : Ptr) :
  selection_in_list sel ->
  boxes_in_range sel = (l1 ++ A :: B :: l2)%list ->
  covered heap sel A -> covered heap sel B ->
  exists pre post,
    getSelectedText heap sel =
    pre ++ full_text heap A ++ String newline "" ++ full_text heap B ++ post /\
    fresh pre /\ (post = "" \/ starts_with_newline post).
Proof.
  intros (Hsel & Ha & Hf) Hrange HA HB.
  destruct (covered_piece heap sel A HA) as (EA & NA & LA).
  destruct (covered_piece heap sel B HB) as (EB & NB & LB).
  rewrite getSelectedText_serialization. unfold serialization.
  assert (Hnull : is_null (anchorBox sel) = false /\ is_null (focusBox sel) = false).
  { unfold getBoxIndex in *. destruct (anchorBox sel), (focusBox sel); split;
      try reflexivity; lia. }
  destruct Hnull as [-> ->]. rewrite Hsel. cbn [negb orb].
  replace (getBoxIndex sel (anchorBox sel) <? 0)%Z with false
    by (symmetry; apply Z.ltb_ge; lia).
  replace (getBoxIndex sel (focusBox sel) <? 0)%Z with false
    by (symmetry; apply Z.ltb_ge; lia).
  cbn [orb]. rewrite Hrange, filter_app. cbn [filter]. rewrite LA, LB.
  rewrite map_app. cbn [map]. fold (piece heap sel A) (piece heap sel B).
  unfold join_boxes. rewrite fold_left_app. cbn [fold_left].
  set (acc1 := fold_left _ (map _ (filter _ l1)) "").
  fold join_piece.
  set (P2 := map _ (filter (has_text_lines heap) l2)).
  change (fold_left join_piece P2 (join_piece (join_piece acc1 (piece heap sel A))
                                     (piece heap sel B)))
    with (fold_left join_piece P2 (join_piece (join_piece acc1 (piece heap sel A))
                                     (piece heap sel B))).
  exists (if is_empty acc1 then "" else acc1 ++ String newline ""), (after P2).
  assert (E1 : join_piece acc1 (piece heap sel A)
               = (if is_empty acc1 then "" else acc1 ++ String newline "")
                 ++ piece heap sel A).
  { unfold join_piece. destruct (is_empty acc1); [reflexivity|].
    now rewrite append_assoc. }
  split; [|split].
  - match goal with
    | |- fold_left ?f P2 ?a = _ =>
        change (fold_left f P2 a)
          with (fold_left join_piece P2
                  (join_piece (join_piece acc1 (piece heap sel A)) (piece heap sel B)))
    end.
    rewrite E1. set (pre := if is_empty acc1 then "" else acc1 ++ String newline "").
    assert (Hne : is_empty (pre ++ piece heap sel A) = false)
      by (rewrite is_empty_append, NA; apply andb_false_r).
    unfold join_piece at 2. rewrite Hne.
    rewrite fold_join_piece_after
      by (rewrite is_empty_append, Hne; reflexivity).
    rewrite EA, EB, !append_assoc. reflexivity.
  - destruct (is_empty acc1); [now left | right; apply ends_with_newline_nl].
  - destruct P2 as [|p ps]; [now left | right].
    cbn [after fold_right]. eexists. reflexivity.
Qed.

Lemma index_of_absent (p : Ptr) (l : list Ptr) (i : Z) :
  ~ In p l -> index_of p l i = (-1)%Z.
Proof.
  revert i. induction l as [|q l IH]; intros i H; cbn [index_of]; [reflexivity|].
  destruct (Nat.eqb q p) eqn:E.
  - apply Nat.eqb_eq in E. subst. exfalso. apply H. now left.
  - apply IH. intros Hin. apply H. now right.
Qed.

Lemma index_of_nth (l : list Ptr) (k : nat) (i : Z) :
  NoDup l -> (k < List.length l)%nat ->
  index_of (nth k l 0%nat) l i = (i + Z.of_nat k)%Z.
Proof.
  revert k i. induction l as [|q l IH]; intros k i Hnd Hk; cbn [List.length] in Hk; [lia|].
  inversion Hnd as [|? ? Hq Hl]; subst. destruct k as [|k]; cbn [nth index_of].
  - rewrite Nat.eqb_refl. lia.
  - destruct (Nat.eqb q (nth k l 0%nat)) eqn:E.
    + apply Nat.eqb_eq in E. exfalso. apply Hq. rewrite E. apply nth_In. lia.
    + rewrite IH by (assumption || lia). lia.
Qed.

(** A box strictly between the two ends of the selection is selected
    whole. *)
Lemma interior_box_fully_selected (heap : Heap) (sel : TextSelection) (k : nat) :
  selection_in_list sel -> NoDup (allTextBoxes sel) ->
  (k < List.length (allTextBoxes sel))%nat ->
  (Z.min (getBoxIndex sel (anchorBox sel)) (getBoxIndex sel (focusBox sel)) < Z.of_nat k
   < Z.max (getBoxIndex sel (anchorBox sel)) (getBoxIndex sel (focusBox sel)))%Z ->
  fully_selected heap sel (nth k (allTextBoxes sel) 0%nat).
Proof.
  intros (Hsel & Ha & Hf) Hnd Hk Hbetween i line _.
  assert (Hidx : getBoxIndex sel (Some (nth k (allTextBoxes sel) 0%nat)) = Z.of_nat k).
  { cbn [getBoxIndex]. rewrite index_of_nth by assumption. lia. }
  assert (Hnull : is_null (anchorBox sel) = false /\ is_null (focusBox sel) = false).
  { unfold getBoxIndex in *. destruct (anchorBox sel), (focusBox sel); split;
      try reflexivity; lia. }
  destruct Hnull as [Hna Hnf].
  unfold getSelectionRangeForLine, getBoxSelectionState, isStartBox, isEndBox.
  rewrite Hsel, Hna, Hnf, Hidx. cbn [negb orb]. cbv zeta.
  set (a := getBoxIndex sel (anchorBox sel)) in *.
  set (f := getBoxIndex sel (focusBox sel)) in *.
  replace (Z.of_nat k <? 0)%Z with false by (symmetry; apply Z.ltb_ge; lia).
  replace (a <? 0)%Z with false by (symmetry; apply Z.ltb_ge; lia).
  replace (f <? 0)%Z with false by (symmetry; apply Z.ltb_ge; lia).
  cbn [orb].
  replace (Z.of_nat k <? Z.min a f)%Z with false by (symmetry; apply Z.ltb_ge; lia).
  replace (Z.max a f <? Z.of_nat k)%Z with false by (symmetry; apply Z.ltb_ge; lia).
  cbn [Z.eqb negb].
  replace (Z.of_nat k =? a)%Z with false by (symmetry; apply Z.eqb_neq; lia).
  replace (Z.of_nat k =? f)%Z with false by (symmetry; apply Z.eqb_neq; lia).
  destruct (a <=? f)%Z; reflexivity.
Qed.

(** A collapsed selection, anchor and focus at the same place, selects
    nothing on any line. *)
Lemma collapsed_range (sel : TextSelection) (box : option Ptr) (lineIdx len : nat) :
  anchorBox sel = focusBox sel -> anchorLineIndex sel = focusLineIndex sel ->
  anchorCharIndex sel = focusCharIndex sel ->
  let '(selStart, selEnd) := getSelectionRangeForLine sel box lineIdx len in
  (selStart <? selEnd)%nat = false.
Proof.
  intros Hb Hl Hc. unfold getSelectionRangeForLine.
  destruct (getBoxSelectionState sel box =? 0)%Z eqn:Es; cbn [negb]; [|reflexivity].
  unfold getBoxSelectionState, isStartBox, isEndBox in *. rewrite Hb, Hl, Hc in *.
  destruct (hasSelection sel); cbn [negb orb] in *; [|discriminate].
  destruct (is_null (focusBox sel)); cbn [orb] in *; [discriminate|].
  set (f := getBoxIndex sel (focusBox sel)) in *.
  set (b := getBoxIndex sel box) in *.
  rewrite Z.min_id, Z.max_id in Es.
  destruct ((b <? 0)%Z || (f <? 0)%Z || (f <? 0)%Z); [discriminate|].
  destruct (b <? f)%Z eqn:E1; [discriminate|].
  destruct (f <? b)%Z eqn:E2; [discriminate|].
  apply Z.ltb_ge in E1, E2.
  replace (f <=? f)%Z with true by (symmetry; apply Z.leb_le; lia).
  replace (b =? f)%Z with true by (symmetry; apply Z.eqb_eq; lia).
  cbn [andb]. rewrite Nat.ltb_irrefl, Nat.eqb_refl, Nat.ltb_irrefl. cbn [orb andb].
  destruct (lineIdx <? focusLineIndex sel)%nat eqn:E3; cbn [orb]; [reflexivity|].
  destruct (focusLineIndex sel <? lineIdx)%nat eqn:E4; [reflexivity|].
  apply Nat.ltb_ge in E3, E4.
  replace (lineIdx =? focusLineIndex sel)%nat with true
    by (symmetry; apply Nat.eqb_eq; lia).
  apply Nat.ltb_irrefl.
Qed.

Lemma collapsed_parts (sel : TextSelection) (box : Ptr) (ls : list TextLine) (i : nat) :
  anchorBox sel = focusBox sel -> anchorLineIndex sel = focusLineIndex sel ->
  anchorCharIndex sel = focusCharIndex sel ->
  selected_parts sel box ls i = [].
Proof.
  intros Hb Hl Hc. revert i. induction ls as [|line rest IH]; intros i; [reflexivity|].
  cbn [selected_parts].
  pose proof (collapsed_range sel (Some box) i (String.length (text line)) Hb Hl Hc) as H.
  destruct (getSelectionRangeForLine sel (Some box) i (String.length (text line)))
    as [selStart selEnd].
  rewrite H. cbn [andb app]. apply IH.
Qed.

Lemma collapsed_selection_empty (heap : Heap) (sel : TextSelection) :
  anchorBox sel = focusBox sel -> anchorLineIndex sel = focusLineIndex sel ->
  anchorCharIndex sel = focusCharIndex sel ->
  getSelectedText heap sel = "".
Proof.
  intros Hb Hl Hc. rewrite getSelectedText_serialization. unfold serialization.
  destruct (_ || _ || _); [reflexivity|]. destruct (_ || _); [reflexivity|].
  unfold join_boxes.
  induction (filter (has_text_lines heap) (boxes_in_range sel)) as [|b bs IH];
    [reflexivity|].
  cbn [map fold_left]. rewrite (collapsed_parts sel b _ 0 Hb Hl Hc). exact IH.
Qed.

(** C5. Copy serialization. [getSelectedText] is the serialization as
    described: the text boxes from min(anchor, focus) to max(anchor, focus)
    in the order of [allTextBoxes], the selected parts of the wrapped lines
    of one box joined with one space unless the text so far ends in a
    newline, the boxes joined with one newline. An empty selection (none, or
    anchor and focus at the same place) gives the empty string. Between two adjacent boxes of the range that are selected
    whole there is exactly one newline: the result is the whole text of the
    first, one newline, the whole text of the second, after a prefix that is
    empty or ends in a newline and before a rest that is empty or starts
    with the newline of the next box. The boxes strictly between the two
    ends are selected whole. *)
Theorem getSelectedText_spec (heap : Heap) (sel : TextSelection) :
  getSelectedText heap sel = serialization heap sel /\
  (hasSelection sel = false -> getSelectedText heap sel = "") /\
  (anchorBox sel = focusBox sel -> anchorLineIndex sel = focusLineIndex sel ->
   anchorCharIndex sel = focusCharIndex sel -> getSelectedText heap sel = "") /\
  (forall (l1 l2 : list Ptr) (A B : Ptr),
      selection_in_list sel ->
      boxes_in_range sel = (l1 ++ A :: B :: l2)%list ->
      covered heap sel A -> covered heap sel B ->
      exists pre post,
        getSelectedText heap sel =
        pre ++ full_text heap A ++ String newline "" ++ full_text heap B ++ post /\
        fresh pre /\ (post = "" \/ starts_with_newline post)) /\
  (forall k : nat,
      selection_in_list sel -> NoDup (allTextBoxes sel) ->
      (k < List.length (allTextBoxes sel))%nat ->
      (Z.min (getBoxIndex sel (anchorBox sel)) (getBoxIndex sel (focusBox sel)) < Z.of_nat k
       < Z.max (getBoxIndex sel (anchorBox sel)) (getBoxIndex sel (focusBox sel)))%Z ->
      fully_selected heap sel (nth k (allTextBoxes sel) 0%nat)).
Proof.
  split; [apply getSelectedText_serialization|]. split; [|split; [|split]].
  - intros H. unfold getSelectedText. rewrite H. reflexivity.
  - apply collapsed_selection_empty.
  - intros l1 l2 A B. apply adjacent_covered_boxes.
  - intros k. apply interior_box_fully_selected.
Qed.

(** Two paragraphs: the first wrapped on two lines, the second on one;
    everything selected, from the start of box 1 to the end of box 2. *)
Definition two_paragraphs : Heap :=
  fun p =>
    match p with
    | 1%nat => mkBoxData [mkTextLine "Hello" 0 0 50 19 0; mkTextLine "world" 0 19 50 19 6] 16
    | 2%nat => mkBoxData [mkTextLine "Bye" 0 38 30 19 0] 16
    | _ => mkBoxData [] 16
    end.

Definition select_both : TextSelection :=
  mkTextSelection (Some 1%nat) 0 0 (Some 2%nat) 0 3 false true (-1) [1%nat; 2%nat].

Example copy_two_paragraphs :
  getSelectedText two_paragraphs select_both
  = "Hello world" ++ String newline "" ++ "Bye".
Proof. reflexivity. Qed.

Lemma getSelectedText_spec_witness :
  exists pre post,
    getSelectedText two_paragraphs select_both =
    pre ++ full_text two_paragraphs 1%nat ++ String newline ""
        ++ full_text two_paragraphs 2%nat ++ post /\
    fresh pre /\ (post = "" \/ starts_with_newline post).
Proof.
  destruct (getSelectedText_spec two_paragraphs select_both) as (_ & _ & _ & H & _).
  apply (H [] [] 1%nat 2%nat).
  - repeat split; vm_compute; congruence.
  - reflexivity.
  - split; [discriminate|]. split.
    + repeat constructor; discriminate.
    + intros [|[|[|i]]] line Hl; simpl in Hl; inversion Hl; reflexivity.
  - split; [discriminate|]. split.
    + repeat constructor; discriminate.
    + intros [|[|i]] line Hl; simpl in Hl; inversion Hl; reflexivity.
Defined.

End CopyFacts.

(** ** Keyboard caret: the goal column *)

Module CaretFacts.
Import TextLayout.
Import Selection.
Import Caret.
Import Tree (Ptr).
Local Open Scope Q_scope.

(** *** Lines on bands of their own *)

(** Each line is more than one unit below the line before it: no two
    lines share a band. *)
Fixpoint bands (l : list VisualLine) : Prop :=
  match l with
  | [] => True
  | a :: rest =>
      match rest with
      | [] => True
      | b :: _ => vl_y a + 1 < vl_y b
      end /\ bands rest
  end.

Lemma bands_tail (a : VisualLine) (l : list VisualLine) : bands (a :: l) -> bands l.
Proof. intros [_ H]. exact H. Qed.

Lemma bands_head (a : VisualLine) (l : list VisualLine) :
  bands (a :: l) -> forall b, In b l -> vl_y a + 1 < vl_y b.
Proof.
  revert a. induction l as [|c l IH]; intros a H b Hb; [contradiction|].
  destruct H as [Hac Hl]. destruct Hb as [<- | Hb]; [exact Hac|].
  specialize (IH c Hl b Hb). lra.
Qed.

Lemma bands_app (l1 l2 : list VisualLine) :
  bands (l1 ++ l2) ->
  bands l1 /\ bands l2 /\ forall a b, In a l1 -> In b l2 -> vl_y a + 1 < vl_y b.
Proof.
  induction l1 as [|c l1 IH]; intros H.
  - repeat split; [exact H | intros a b []].
  - change ((c :: l1) ++ l2)%list with (c :: (l1 ++ l2))%list in H.
    pose proof (bands_head _ _ H) as Hc. destruct (IH (bands_tail _ _ H)) as (H1 & H2 & H12).
    repeat split.
    + destruct l1 as [|d l1]; [exact I|]. apply Hc. now left.
    + exact H1.
    + exact H2.
    + intros a b [<- | Ha] Hb; [apply Hc, in_or_app; now right | now apply H12].
Qed.

Lemma before_bands (a b : VisualLine) :
  vl_y a + 1 < vl_y b -> before a b = true /\ before b a = false.
Proof.
  intros H. unfold before, std_abs.
  assert (E1 : fltb (vl_y a - vl_y b) 0 = true) by (apply fltb_lt; lra).
  assert (E2 : fltb (vl_y b - vl_y a) 0 = false) by (apply fltb_ge; lra).
  rewrite E1, E2.
  replace (fltb (- (vl_y a - vl_y b)) 1) with false by (symmetry; apply fltb_ge; lra).
  replace (fltb (vl_y b - vl_y a) 1) with false by (symmetry; apply fltb_ge; lra).
  split; [apply fltb_lt | apply fltb_ge]; lra.
Qed.

(** Lines on bands of their own are in the order [std::sort] gives. *)
Lemma std_sort_bands (l : list VisualLine) : bands l -> std_sort l = l.
Proof.
  induction l as [|a l IH]; intros H; [reflexivity|].
  cbn [std_sort]. rewrite (IH (bands_tail _ _ H)).
  destruct l as [|b l]; [reflexivity|]. cbn [insert_line].
  destruct H as [Hab _]. now rewrite (proj1 (before_bands a b Hab)).
Qed.

(** Any rearrangement of such lines that has no inversion for [before],
    which is what a sort returns, is the list itself. *)
Lemma sorted_unique (l l' : list VisualLine) :
  bands l -> Permutation l l' ->
  StronglySorted (fun a b => before b a = false) l' -> l' = l.
Proof.
  revert l'. induction l as [|a l IH]; intros l' Hb Hp Hs.
  - now apply Permutation_nil in Hp.
  - destruct l' as [|x l']; [apply Permutation_sym, Permutation_nil in Hp; discriminate|].
    inversion Hs as [|? ? Hs' Hx]; subst.
    assert (Hxa : x = a).
    { assert (Hin : In x (a :: l)) by (apply (Permutation_in _ (Permutation_sym Hp)); now left).
      destruct Hin as [E | Hin]; [now symmetry|]. exfalso.
      pose proof (bands_head _ _ Hb x Hin) as Hy.
      assert (Ha : In a (x :: l')) by (apply (Permutation_in _ Hp); now left).
      destruct Ha as [E | Ha]; [subst; lra|].
      rewrite Forall_forall in Hx. specialize (Hx a Ha).
      rewrite (proj1 (before_bands a x Hy)) in Hx. discriminate. }
    subst x. f_equal. apply IH; [exact (bands_tail _ _ Hb) | | exact Hs'].
    exact (Permutation_cons_inv Hp).
Qed.

(** *** The collected lines and the heap *)

(** What [allLines] holds of a line is what the box holds. *)
Definition holds_line (heap : Heap) (l : VisualLine) (tl : TextLine) : Prop :=
  nth_error (lines (heap (vl_box l))) (vl_lineIndex l) = Some tl /\
  vl_y l = y tl /\ vl_x l = x tl /\ vl_width l = width tl.

Lemma box_lines_sound (box : Ptr) (ls : list TextLine) (li : nat) (l : VisualLine) :
  In l (box_lines box ls li) ->
  vl_box l = box /\
  exists k tl, nth_error ls k = Some tl /\ vl_lineIndex l = (li + k)%nat /\
               vl_y l = y tl /\ vl_x l = x tl /\ vl_width l = width tl.
Proof.
  revert li. induction ls as [|tl ls IH]; intros li H; [contradiction|].
  destruct H as [<- | H].
  - split; [reflexivity|]. exists 0%nat, tl. cbn. rewrite Nat.add_0_r. repeat split.
  - destruct (IH _ H) as (Hb & k & tl' & Hk & Hi & Hy). split; [exact Hb|].
    exists (S k), tl'. split; [exact Hk|]. split; [lia | exact Hy].
Qed.

Lemma collect_sound (heap : Heap) (boxes : list Ptr) (l : VisualLine) :
  In l (collect heap boxes) -> exists tl, holds_line heap l tl.
Proof.
  unfold collect. rewrite in_flat_map. intros (box & _ & H).
  destruct (box_lines_sound _ _ _ _ H) as (Hb & k & tl & Hk & Hi & Hy).
  exists tl. unfold holds_line. rewrite Hb, Hi. now split.
Qed.

Lemma insert_line_in (a l0 : VisualLine) (l : list VisualLine) :
  In l0 (insert_line a l) -> l0 = a \/ In l0 l.
Proof.
  induction l as [|b l IH]; cbn [insert_line].
  - intros [<- | []]. now left.
  - destruct (before a b).
    + intros [<- | H]; [now left | now right].
    + intros [<- | H]; [right; now left|]. destruct (IH H); [now left | right; now right].
Qed.

Lemma std_sort_in (l0 : VisualLine) (l : list VisualLine) :
  In l0 (std_sort l) -> In l0 l.
Proof.
  induction l as [|a l IH]; [exact (fun H => H)|]. cbn [std_sort]. intros H.
  destruct (insert_line_in _ _ _ H) as [-> | H']; [now left | right; now apply IH].
Qed.

(** *** The searches *)

Lemma find_current_at (box : Ptr) (li : nat) (pre rest : list VisualLine)
    (cur : VisualLine) (i : nat) :
  (forall a, In a pre -> ~ (vl_box a = box /\ vl_lineIndex a = li)) ->
  vl_box cur = box -> vl_lineIndex cur = li ->
  find_current box li (pre ++ cur :: rest) i = Some (i + List.length pre)%nat.
Proof.
  revert i. induction pre as [|a pre IH]; intros i Hpre Hb Hl; cbn [app find_current].
  - rewrite Hb, Hl, !Nat.eqb_refl. cbn. f_equal. lia.
  - destruct (Nat.eqb (vl_box a) box && Nat.eqb (vl_lineIndex a) li) eqn:E.
    + apply andb_true_iff in E as [E1 E2]. apply Nat.eqb_eq in E1, E2.
      exfalso. apply (Hpre a); [now left | now split].
    + rewrite IH; [cbn [List.length]; f_equal; lia | | assumption | assumption].
      intros b Hin. apply Hpre. now right.
Qed.

Lemma find_current_in (box : Ptr) (li : nat) (l : list VisualLine) (i k : nat) :
  find_current box li l i = Some k -> (i <= k < i + List.length l)%nat.
Proof.
  revert i. induction l as [|a l IH]; intros i; cbn [find_current]; [discriminate|].
  destruct (_ && _).
  - intros [= <-]. cbn [List.length]. lia.
  - intros H. specialize (IH _ H). cbn [List.length]. lia.
Qed.

Lemma scan_band_in (in_band : VisualLine -> bool) (targetX : Q)
    (rest : list VisualLine) (target : option VisualLine) (bestDist : Q)
    (l : VisualLine) :
  scan_band in_band targetX rest target bestDist = Some l ->
  target = Some l \/ In l rest.
Proof.
  revert target bestDist. induction rest as [|a rest IH]; intros target bestDist;
    cbn [scan_band]; [now left|].
  destruct (in_band a); [|now left].
  destruct (fleb (vl_x a) targetX && fleb targetX (vl_x a + vl_width a)).
  - intros H. destruct (IH _ _ H) as [[= <-] | Hin]; right; [now left | now right].
  - destruct (fleb 0 bestDist).
    + destruct (fltb _ bestDist).
      * intros H. destruct (IH _ _ H) as [[= <-] | Hin]; right; [now left | now right].
      * intros H. destruct (IH _ _ H) as [E | Hin]; [now left | right; now right].
    + intros H. destruct (IH _ _ H) as [E | Hin]; [now left | right; now right].
Qed.

Lemma find_line_in (beyond : VisualLine -> bool) (in_band : Q -> VisualLine -> bool)
    (targetX : Q) (rest : list VisualLine) (l : VisualLine) :
  find_line beyond in_band targetX rest = Some l -> In l rest.
Proof.
  induction rest as [|a rest IH]; cbn [find_line]; [discriminate|].
  destruct (beyond a).
  - intros H. destruct (scan_band_in _ _ _ _ _ _ H) as [E | Hin]; [discriminate | exact Hin].
  - intros H. right. now apply IH.
Qed.

Lemma FLT_MAX_pos : fleb 0 FLT_MAX = true.
Proof. reflexivity. Qed.

(** A band of one line: the scan takes that line, whether or not it
    contains the goal column. *)
Lemma scan_band_single (in_band : VisualLine -> bool) (targetX : Q)
    (l : VisualLine) (rest : list VisualLine) :
  in_band l = true ->
  match rest with [] => True | r :: _ => in_band r = false end ->
  std_abs (vl_x l - targetX) < FLT_MAX ->
  scan_band in_band targetX (l :: rest) None FLT_MAX = Some l.
Proof.
  intros Hl Hrest Hd. cbn [scan_band]. rewrite Hl.
  assert (Hend : forall d, scan_band in_band targetX rest (Some l) d = Some l).
  { intros d. destruct rest as [|r rest]; [reflexivity|]. cbn [scan_band]. now rewrite Hrest. }
  destruct (fleb (vl_x l) targetX && fleb targetX (vl_x l + vl_width l)); [apply Hend|].
  rewrite FLT_MAX_pos.
  replace (fltb _ FLT_MAX) with true; [apply Hend|].
  symmetry. apply fltb_lt.
  destruct (std_min_spec (std_abs (vl_x l - targetX))
              (std_abs (vl_x l + vl_width l - targetX))) as [[H1 ->] | [H1 ->]]; lra.
Qed.

Lemma skipn_past (A : Type) (pre : list A) (cur : A) (rest : list A) :
  skipn (S (List.length pre)) (pre ++ cur :: rest) = rest.
Proof. induction pre as [|a pre IH]; [reflexivity | exact IH]. Qed.

Lemma firstn_upto (A : Type) (pre rest : list A) :
  firstn (List.length pre) (pre ++ rest) = pre.
Proof. induction pre as [|a pre IH]; [now destruct rest | cbn; now rewrite IH]. Qed.

(** *** One vertical move *)

(** The goal column a vertical move works with: the caret's X when the
    goal is unset (negative), the goal otherwise. *)
Definition goal_column (font : Font.MSDFFont) (heap : Heap) (sel : TextSelection)
    (box : Ptr) (line : TextLine) : Q :=
  if fltb (goalX sel) 0 then caretX font heap box line (focusCharIndex sel)
  else goalX sel.

Definition with_goal (font : Font.MSDFFont) (heap : Heap) (sel : TextSelection)
    (box : Ptr) (line : TextLine) : TextSelection :=
  if fltb (goalX sel) 0 then set_goalX sel (caretX font heap box line (focusCharIndex sel))
  else sel.

Lemma with_goal_fields (font : Font.MSDFFont) (heap : Heap) (sel : TextSelection)
    (box : Ptr) (line : TextLine) :
  goalX (with_goal font heap sel box line) = goal_column font heap sel box line /\
  allTextBoxes (with_goal font heap sel box line) = allTextBoxes sel /\
  focusLineIndex (with_goal font heap sel box line) = focusLineIndex sel /\
  focusCharIndex (with_goal font heap sel box line) = focusCharIndex sel /\
  focusBox (with_goal font heap sel box line) = focusBox sel /\
  hasSelection (with_goal font heap sel box line) = hasSelection sel.
Proof. unfold with_goal, goal_column. destruct (fltb (goalX sel) 0); repeat split. Qed.

Section Vertical.
Variable font : Font.MSDFFont.
Variable heap : Heap.
Variable sel : TextSelection.
Variable box : Ptr.
Variable line : TextLine.
Hypothesis Hbands : bands (collect heap (allTextBoxes sel)).
Hypothesis Hline : nth_error (lines (heap box)) (focusLineIndex sel) = Some line.

Lemma focus_line_unique (pre rest : list VisualLine) (cur : VisualLine) :
  collect heap (allTextBoxes sel) = (pre ++ cur :: rest)%list ->
  vl_box cur = box -> vl_lineIndex cur = focusLineIndex sel ->
  vl_y cur = y line /\ vl_x cur = x line /\ vl_width cur = width line /\
  forall a, In a pre -> ~ (vl_box a = box /\ vl_lineIndex a = focusLineIndex sel).
Proof.
  intros Hc Hb Hl.
  assert (Hcur : In cur (collect heap (allTextBoxes sel))).
  { rewrite Hc. apply in_or_app. right. now left. }
  destruct (collect_sound _ _ _ Hcur) as (tl & Hn & Hy & Hx & Hw).
  rewrite Hb, Hl, Hline in Hn. injection Hn as <-.
  repeat split; try assumption.
  intros a Ha [Hab Hal].
  assert (Hain : In a (collect heap (allTextBoxes sel))).
  { rewrite Hc. apply in_or_app. now left. }
  destruct (collect_sound _ _ _ Hain) as (tl & Hn & Hy' & _).
  rewrite Hab, Hal, Hline in Hn. injection Hn as <-.
  rewrite Hc in Hbands. destruct (bands_app _ _ Hbands) as (_ & _ & H12).
  specialize (H12 a cur Ha (or_introl eq_refl)). rewrite Hy, Hy' in H12. lra.
Qed.

(** Down from a line that has a line below it: the caret goes to that
    line, at the goal column. *)
Lemma shiftVertical_down (pre post : list VisualLine) (cur next : VisualLine)
    (tln : TextLine) :
  collect heap (allTextBoxes sel) = (pre ++ cur :: next :: post)%list ->
  vl_box cur = box -> vl_lineIndex cur = focusLineIndex sel ->
  holds_line heap next tln ->
  std_abs (vl_x next - goal_column font heap sel box line) < FLT_MAX ->
  shiftVertical font heap true sel box line =
  Ok (set_focus (with_goal font heap sel box line) (Some (vl_box next)) (vl_lineIndex next)
        (charIndexAt font tln (fontSize (heap (vl_box next)))
           (goal_column font heap sel box line))).
Proof.
  intros Hc Hb Hl (Hn & _) Hd.
  destruct (focus_line_unique pre (next :: post) cur Hc Hb Hl) as (Hy & _ & _ & Hpre).
  destruct (with_goal_fields font heap sel box line) as (Hg & Ha & Hli & _).
  unfold shiftVertical. cbv zeta. fold (with_goal font heap sel box line).
  rewrite Hg, Ha, Hli, (std_sort_bands _ Hbands), Hc.
  rewrite (find_current_at box (focusLineIndex sel) pre (next :: post) cur 0 Hpre Hb Hl).
  cbn [Nat.add]. rewrite skipn_past.
  rewrite Hc in Hbands. destruct (bands_app _ _ Hbands) as (_ & Hrest & _).
  destruct Hrest as [Hcn Hnp].
  unfold find_below. cbn [find_line]. rewrite <- Hy.
  replace (fltb (vl_y cur + 1) (vl_y next)) with true by (symmetry; apply fltb_lt; lra).
  rewrite scan_band_single; [| apply fleb_le; lra | | exact Hd].
  - unfold place, line_at. rewrite Hn. reflexivity.
  - destruct post as [|r post]; [exact I|]. destruct Hnp as [Hnr _].
    apply fleb_gt. lra.
Qed.

(** Up from a line that has a line above it. *)
Lemma shiftVertical_up (pre post : list VisualLine) (prev cur : VisualLine)
    (tlp : TextLine) :
  collect heap (allTextBoxes sel) = (pre ++ prev :: cur :: post)%list ->
  vl_box cur = box -> vl_lineIndex cur = focusLineIndex sel ->
  holds_line heap prev tlp ->
  std_abs (vl_x prev - goal_column font heap sel box line) < FLT_MAX ->
  shiftVertical font heap false sel box line =
  Ok (set_focus (with_goal font heap sel box line) (Some (vl_box prev)) (vl_lineIndex prev)
        (charIndexAt font tlp (fontSize (heap (vl_box prev)))
           (goal_column font heap sel box line))).
Proof.
  intros Hc Hb Hl (Hn & _) Hd.
  assert (Hc' : collect heap (allTextBoxes sel) = ((pre ++ [prev]) ++ cur :: post)%list)
    by (rewrite Hc, <- app_assoc; reflexivity).
  destruct (focus_line_unique (pre ++ [prev]) post cur Hc' Hb Hl) as (Hy & _ & _ & Hpre).
  destruct (with_goal_fields font heap sel box line) as (Hg & Ha & Hli & _).
  unfold shiftVertical. cbv zeta. fold (with_goal font heap sel box line).
  rewrite Hg, Ha, Hli, (std_sort_bands _ Hbands), Hc'.
  rewrite (find_current_at box (focusLineIndex sel) (pre ++ [prev]) post cur 0 Hpre Hb Hl).
  cbn [Nat.add]. rewrite firstn_upto, rev_app_distr. cbn [rev app].
  rewrite Hc in Hbands. destruct (bands_app _ _ Hbands) as (Hbpre & Hrest & Hpr).
  destruct Hrest as [Hpc _].
  unfold find_above. cbn [find_line]. rewrite <- Hy.
  replace (fltb (vl_y prev) (vl_y cur - 1)) with true by (symmetry; apply fltb_lt; lra).
  rewrite scan_band_single; [| apply fleb_le; lra | | exact Hd].
  - unfold place, line_at. rewrite Hn. reflexivity.
  - destruct (rev pre) as [|r rp] eqn:Er; [exact I|].
    assert (Hr : In r pre) by (apply in_rev; rewrite Er; now left).
    specialize (Hpr r prev Hr (or_introl eq_refl)). apply fleb_gt. lra.
Qed.

End Vertical.

Lemma init_selection_fields (sel : TextSelection) :
  focusBox (init_selection sel) = focusBox sel /\
  focusLineIndex (init_selection sel) = focusLineIndex sel /\
  focusCharIndex (init_selection sel) = focusCharIndex sel /\
  goalX (init_selection sel) = goalX sel /\
  allTextBoxes (init_selection sel) = allTextBoxes sel /\
  (is_null (focusBox sel) = false -> hasSelection (init_selection sel) = true).
Proof.
  unfold init_selection. destruct (hasSelection sel) eqn:E, (is_null (focusBox sel));
    cbn; repeat split; intros; try assumption; try discriminate.
Qed.

(** A vertical move returns, and leaves in [goalX] the goal column it
    worked with. *)
Lemma shiftVertical_goal (font : Font.MSDFFont) (heap : Heap) (down : bool)
    (sel : TextSelection) (box : Ptr) (line : TextLine) :
  exists sel', shiftVertical font heap down sel box line = Ok sel' /\
               goalX sel' = goal_column font heap sel box line.
Proof.
  destruct (with_goal_fields font heap sel box line) as (Hg & Ha & _).
  unfold shiftVertical. cbv zeta. fold (with_goal font heap sel box line).
  set (sel1 := with_goal font heap sel box line) in *.
  set (allLines := std_sort (collect heap (allTextBoxes sel1))).
  assert (Hsound : forall l, In l allLines -> exists tl, line_at heap (vl_box l) (vl_lineIndex l) = Ok tl).
  { intros l Hl. apply std_sort_in, collect_sound in Hl. destruct Hl as (tl & Hn & _).
    exists tl. unfold line_at. now rewrite Hn. }
  assert (Hplace : forall s l t, In l allLines -> goalX s = goalX sel1 ->
            exists sel', place font heap s l t = Ok sel' /\
                         goalX sel' = goal_column font heap sel box line).
  { intros s l t Hl Hs. destruct (Hsound l Hl) as (tl & Htl). unfold place. rewrite Htl.
    cbn [bind]. eexists. split; [reflexivity|]. cbn. now rewrite Hs. }
  destruct (find_current box (focusLineIndex sel1) allLines 0) as [idx|];
    [|exists sel1; now split].
  destruct down.
  - destruct (find_below _ _ _) as [t|] eqn:Ef.
    + apply Hplace; [|reflexivity]. apply find_line_in in Ef.
      revert Ef. generalize (S idx). intros n Hin.
      rewrite <- (firstn_skipn n allLines). apply in_or_app. now right.
    + destruct (rev allLines) as [|lastLine rl] eqn:Er; [exists sel1; now split|].
      assert (Hin : In lastLine allLines) by (apply in_rev; rewrite Er; now left).
      destruct (Hsound _ Hin) as (tl & ->). cbn [bind]. eexists. split; [reflexivity|].
      exact Hg.
  - destruct (find_above _ _ _) as [t|] eqn:Ef.
    + apply Hplace; [|reflexivity]. apply find_line_in in Ef.
      apply in_rev in Ef. rewrite <- (firstn_skipn idx allLines). apply in_or_app. now left.
    + destruct allLines as [|firstLine rest] eqn:El; [exists sel1; now split|].
      apply Hplace; [now left | reflexivity].
Qed.

Lemma line_at_focus (heap : Heap) (box : Ptr) (li : nat) (line : TextLine) :
  nth_error (lines (heap box)) li = Some line ->
  line_at heap box li = Ok line /\ exists l ls, lines (heap box) = l :: ls.
Proof.
  intros H. unfold line_at. rewrite H. split; [reflexivity|].
  destruct (lines (heap box)) as [|l ls]; [destruct li; discriminate | eauto].
Qed.

Lemma shiftArrow_at_focus (font : Font.MSDFFont) (heap : Heap) (key : Arrow)
    (ctrlHeld : bool) (sel : TextSelection) (box : Ptr) (line : TextLine) :
  focusBox sel = Some box ->
  nth_error (lines (heap box)) (focusLineIndex sel) = Some line ->
  shiftArrow font heap key ctrlHeld sel =
  match key with
  | Key_Right => Ok (resetGoalX (shiftRight heap ctrlHeld (init_selection sel) line))
  | Key_Left => Ok (resetGoalX (shiftLeft heap ctrlHeld (init_selection sel) line))
  | Key_Up => shiftVertical font heap false (init_selection sel) box line
  | Key_Down => shiftVertical font heap true (init_selection sel) box line
  end.
Proof.
  intros Hb Hl. destruct (init_selection_fields sel) as (Hfb & Hfl & _).
  destruct (line_at_focus _ _ _ _ Hl) as (Hat & l & ls & Hls).
  unfold shiftArrow. cbv zeta. rewrite Hfb, Hb, Hls, Hfl, Hat. reflexivity.
Qed.

Lemma goal_init_selection (font : Font.MSDFFont) (heap : Heap) (sel : TextSelection)
    (box : Ptr) (line : TextLine) :
  goal_column font heap (init_selection sel) box line = goal_column font heap sel box line.
Proof.
  destruct (init_selection_fields sel) as (_ & _ & Hc & Hg & _).
  unfold goal_column. now rewrite Hc, Hg.
Qed.

(** *** The character under the caret's own X *)

Definition prefix_width (font : Font.MSDFFont) (fontSize : Q) (s : string) (i : nat) : Q :=
  Font.getTextWidth font (substring 0 i s) fontSize.

Definition char_width (font : Font.MSDFFont) (fontSize : Q) (s : string) (i : nat) : Q :=
  Font.getTextWidth font (substring i 1 s) fontSize.

(** The default font measures [s] character by character: the width up
    to a character and that of the character alone add up, and every
    character has a positive width. *)
Definition measured (font : Font.MSDFFont) (fontSize : Q) (s : string) : Prop :=
  forall i, (i < String.length s)%nat ->
    prefix_width font fontSize s (S i)
    == prefix_width font fontSize s i + char_width font fontSize s i /\
    0 < char_width font fontSize s i.

Lemma substring_0_0 (s : string) : substring 0 0 s = "".
Proof. now destruct s. Qed.

Lemma prefix_width_0 (font : Font.MSDFFont) (fontSize : Q) (s : string) :
  prefix_width font fontSize s 0 = 0.
Proof.
  unfold prefix_width, Font.getTextWidth. rewrite substring_0_0.
  now destruct (Font.atlas font).
Qed.

Lemma prefix_width_mono (font : Font.MSDFFont) (fontSize : Q) (s : string) (i j : nat) :
  measured font fontSize s -> (i <= j <= String.length s)%nat ->
  prefix_width font fontSize s i <= prefix_width font fontSize s j.
Proof.
  intros Hm [Hij Hj]. induction j as [|j IH].
  - replace i with 0%nat by lia. lra.
  - destruct (Nat.eq_dec i (S j)) as [->|Hne]; [lra|].
    specialize (IH ltac:(lia) ltac:(lia)). destruct (Hm j ltac:(lia)) as [Ha Hp]. lra.
Qed.

Lemma prefix_width_strict (font : Font.MSDFFont) (fontSize : Q) (s : string) (i j : nat) :
  measured font fontSize s -> (i < j <= String.length s)%nat ->
  prefix_width font fontSize s i < prefix_width font fontSize s j.
Proof.
  intros Hm [Hij Hj].
  pose proof (prefix_width_mono font fontSize s (S i) j Hm ltac:(lia)) as H.
  destruct (Hm i ltac:(lia)) as [Ha Hp]. lra.
Qed.

Lemma half_width (w : Q) : 0 < w -> 0 < w / 2 /\ w / 2 < w.
Proof.
  intros H. unfold Qdiv. change (/ 2) with (1 # 2). split; lra.
Qed.

Lemma char_loop_caret (font : Font.MSDFFont) (fontSize targetX x0 : Q) (s : string)
    (c : nat) :
  measured font fontSize s -> (c <= String.length s)%nat ->
  targetX == x0 + prefix_width font fontSize s c ->
  forall (r i : nat) (xi : Q),
    (i + r = String.length s)%nat -> (i <= c)%nat ->
    xi == x0 + prefix_width font fontSize s i ->
    char_loop font fontSize targetX s r i xi i = c.
Proof.
  intros Hm Hc Ht. induction r as [|r IH]; intros i xi Hlen Hi Hxi; cbn [char_loop].
  - lia.
  - fold (char_width font fontSize s i).
    destruct (Hm i ltac:(lia)) as [Ha Hp]. destruct (half_width _ Hp) as [Hh1 Hh2].
    destruct (Nat.eq_dec i c) as [->|Hne].
    + replace (fltb targetX (xi + char_width font fontSize s c / 2)) with true;
        [reflexivity|].
      symmetry. apply fltb_lt. lra.
    + pose proof (prefix_width_mono font fontSize s (S i) c Hm ltac:(lia)) as Hmono.
      replace (fltb targetX (xi + char_width font fontSize s i / 2)) with false.
      * apply IH; [lia | lia | lra].
      * symmetry. apply fltb_ge. lra.
Qed.

(** The handler's character search, given the X of the caret at [c],
    finds [c]. *)
Lemma charIndexAt_caret (font : Font.MSDFFont) (heap : Heap) (box : Ptr)
    (line : TextLine) (c : nat) :
  measured font (fontSize (heap box)) (text line) ->
  (c <= String.length (text line))%nat ->
  prefix_width font (fontSize (heap box)) (text line) (String.length (text line))
  <= width line ->
  charIndexAt font line (fontSize (heap box)) (caretX font heap box line c) = c.
Proof.
  intros Hm Hc Hw. unfold charIndexAt, caretX.
  destruct c as [|c]; cbn [Nat.ltb Nat.leb].
  - replace (fleb (x line) (x line)) with true by (symmetry; apply fleb_le; lra).
    reflexivity.
  - fold (prefix_width font (fontSize (heap box)) (text line) (S c)).
    set (W := prefix_width font (fontSize (heap box)) (text line)) in *.
    assert (Hpos : 0 < W (S c)).
    { pose proof (prefix_width_strict font (fontSize (heap box)) (text line) 0 (S c) Hm
                    ltac:(lia)) as H.
      rewrite prefix_width_0 in H. exact H. }
    replace (fleb (x line + W (S c)) (x line)) with false by (symmetry; apply fleb_gt; lra).
    destruct (fleb (x line + width line) (x line + W (S c))) eqn:E.
    + apply fleb_le in E.
      destruct (Nat.eq_dec (S c) (String.length (text line))) as [<-|Hne]; [reflexivity|].
      pose proof (prefix_width_strict font (fontSize (heap box)) (text line) (S c)
                    (String.length (text line)) Hm ltac:(lia)) as H.
      fold W in H. lra.
    + apply (char_loop_caret font (fontSize (heap box)) _ (x line) (text line) (S c) Hm Hc);
        [fold W; lra | lia | lia |].
      rewrite prefix_width_0. lra.
Qed.

(** *** Printable ASCII text is measured character by character *)

(** A printable ASCII character with a glyph of positive advance. *)
Definition plain_char (a : Font.MSDFAtlas) (c : ascii) : Prop :=
  (32 <= code c < 128)%nat /\
  exists g, Font.glyphs a (Z.of_nat (code c)) = Some g /\
            Font.valid g = true /\ 0 < Font.advance g.

Fixpoint plain_text (a : Font.MSDFAtlas) (s : string) : Prop :=
  match s with
  | EmptyString => True
  | String c s' => plain_char a c /\ plain_text a s'
  end.

(** The sum of the advances of the bytes of [s]. *)
Fixpoint advances (a : Font.MSDFAtlas) (scale : Q) (s : string) : Q :=
  match s with
  | EmptyString => 0
  | String c s' => Font.glyph_advance a scale (Z.of_nat (code c)) + advances a scale s'
  end.

Lemma get_after (pre : string) (c : ascii) (s : string) :
  String.get (String.length pre) (pre ++ String c s) = Some c.
Proof. induction pre as [|d pre IH]; [reflexivity | exact IH]. Qed.

Lemma length_app (s1 s2 : string) :
  String.length (s1 ++ s2) = (String.length s1 + String.length s2)%nat.
Proof. induction s1 as [|c s1 IH]; [reflexivity | cbn; now rewrite IH]. Qed.

Lemma land_128_ascii (c : ascii) :
  (code c < 128)%nat -> Z.land (Z.of_nat (code c)) 128 = 0%Z.
Proof.
  destruct c as [b0 b1 b2 b3 b4 b5 b6 b7]. destruct b7.
  - intros H. exfalso. unfold code in H. cbn in H.
    destruct b0, b1, b2, b3, b4, b5, b6; cbn in H; lia.
  - intros _. destruct b0, b1, b2, b3, b4, b5, b6; reflexivity.
Qed.

Lemma decodeUTF8_ascii (s : string) (i : nat) (c : ascii) :
  String.get i s = Some c -> (code c < 128)%nat ->
  Font.decodeUTF8 s i = (Z.of_nat (code c), i).
Proof.
  intros Hg Hc. unfold Font.decodeUTF8, Font.byte_at. rewrite Hg.
  rewrite (land_128_ascii c Hc). reflexivity.
Qed.

Lemma width_loop_plain (a : Font.MSDFAtlas) (scale : Q) (s : string) :
  plain_text a s ->
  forall (pre : string) (fuel : nat) (w : Q),
    (String.length s <= fuel)%nat ->
    Font.width_loop a scale (pre ++ s) fuel (String.length pre) w
    == w + advances a scale s.
Proof.
  induction s as [|c s IH]; intros Hp pre fuel w Hf.
  - cbn [advances]. destruct fuel as [|f]; cbn [Font.width_loop]; [lra|].
    rewrite length_app. cbn [String.length].
    replace (String.length pre <? String.length pre + 0)%nat with false
      by (symmetry; apply Nat.ltb_ge; lia).
    lra.
  - destruct Hp as [[Hc _] Hs]. destruct fuel as [|f]; [cbn in Hf; lia|].
    cbn [Font.width_loop advances]. rewrite length_app. cbn [String.length].
    replace (String.length pre <? String.length pre + S (String.length s))%nat with true
      by (symmetry; apply Nat.ltb_lt; lia).
    rewrite (decodeUTF8_ascii _ _ c (get_after pre c s)) by lia.
    replace (Z.of_nat (code c) <? 32)%Z with false by (symmetry; apply Z.ltb_ge; lia).
    replace (pre ++ String c s) with ((pre ++ String c "") ++ s)
      by (now rewrite CopyFacts.append_assoc).
    replace (S (String.length pre)) with (String.length (pre ++ String c ""))
      by (rewrite length_app; cbn; lia).
    rewrite IH; [lra | exact Hs | cbn in Hf; lia].
Qed.

Lemma getTextWidth_plain (font : Font.MSDFFont) (a : Font.MSDFAtlas) (fontSize : Q)
    (s : string) :
  Font.atlas font = Some a -> plain_text a s ->
  Font.getTextWidth font s fontSize == advances a (fontSize / Font.glyphSize a) s.
Proof.
  intros Ha Hp. unfold Font.getTextWidth. rewrite Ha.
  rewrite (width_loop_plain a _ s Hp "" (String.length s) 0 (Nat.le_refl _)). lra.
Qed.

Lemma plain_text_substring (a : Font.MSDFAtlas) (s : string) (n m : nat) :
  plain_text a s -> plain_text a (substring n m s).
Proof.
  revert n m. induction s as [|c s IH]; intros n m H.
  - destruct n, m; exact I.
  - destruct H as [Hc Hs]. destruct n as [|n]; cbn [substring].
    + destruct m as [|m]; [exact I|]. split; [exact Hc | now apply IH].
    + now apply IH.
Qed.

Lemma advances_prefix (a : Font.MSDFAtlas) (scale : Q) (s : string) (i : nat) :
  (i < String.length s)%nat ->
  advances a scale (substring 0 (S i) s)
  == advances a scale (substring 0 i s) + advances a scale (substring i 1 s).
Proof.
  revert i. induction s as [|c s IH]; intros i Hi; [cbn in Hi; lia|].
  destruct i as [|i].
  - cbn [substring advances]. rewrite substring_0_0. cbn [advances]. lra.
  - cbn [substring advances]. cbn in Hi. rewrite (IH i ltac:(lia)). lra.
Qed.

Lemma advances_char_pos (a : Font.MSDFAtlas) (scale : Q) (s : string) (i : nat) :
  plain_text a s -> (i < String.length s)%nat -> 0 < scale ->
  0 < advances a scale (substring i 1 s).
Proof.
  revert i. induction s as [|c s IH]; intros i Hp Hi Hs; [cbn in Hi; lia|].
  destruct Hp as [[_ (g & Hg & Hv & Hadv)] Hp]. destruct i as [|i].
  - cbn [substring advances]. rewrite substring_0_0. cbn [advances].
    unfold Font.glyph_advance. rewrite Hg, Hv.
    pose proof (Qmult_lt_0_compat _ _ Hadv Hs). lra.
  - cbn [substring]. cbn in Hi. apply IH; [exact Hp | lia | exact Hs].
Qed.

(** Printable ASCII text, in a loaded font whose glyphs for it have
    positive advances, is measured character by character. *)
Lemma plain_measured (font : Font.MSDFFont) (a : Font.MSDFAtlas) (fontSize : Q)
    (s : string) :
  Font.atlas font = Some a -> 0 < fontSize -> 0 < Font.glyphSize a ->
  plain_text a s -> measured font fontSize s.
Proof.
  intros Ha Hfs Hgs Hp i Hi. unfold prefix_width, char_width.
  rewrite !(getTextWidth_plain font a fontSize) by (assumption || now apply plain_text_substring).
  assert (Hscale : 0 < fontSize / Font.glyphSize a).
  { unfold Qdiv. apply Qmult_lt_0_compat; [exact Hfs | now apply Qinv_lt_0_compat]. }
  split; [now apply advances_prefix | now apply advances_char_pos].
Qed.

(** *** Down, then up *)

(** The caret is where its goal column puts it: either the goal is unset
    and the caret's own X is a column of its line (printable ASCII text
    with glyphs of positive advance, a line at least as wide as its text,
    at a non-negative X), or the goal is set and the caret is at the
    character the handler finds for it. *)
Definition caret_on_goal (font : Font.MSDFFont) (heap : Heap) (sel : TextSelection)
    (box : Ptr) (line : TextLine) : Prop :=
  (goalX sel < 0 /\ 0 <= x line /\
   (focusCharIndex sel <= String.length (text line))%nat /\
   exists a, Font.atlas font = Some a /\ 0 < fontSize (heap box) /\
             0 < Font.glyphSize a /\ plain_text a (text line) /\
             Font.getTextWidth font (text line) (fontSize (heap box)) <= width line)
  \/
  (0 <= goalX sel /\
   focusCharIndex sel = charIndexAt font line (fontSize (heap box)) (goalX sel)).

Lemma init_selection_selected (sel : TextSelection) :
  hasSelection sel = true -> init_selection sel = sel.
Proof. intros H. unfold init_selection. now rewrite H. Qed.

Lemma caret_on_goal_column (font : Font.MSDFFont) (heap : Heap) (sel : TextSelection)
    (box : Ptr) (line : TextLine) :
  caret_on_goal font heap sel box line ->
  0 <= goal_column font heap sel box line /\
  charIndexAt font line (fontSize (heap box)) (goal_column font heap sel box line)
  = focusCharIndex sel.
Proof.
  unfold goal_column.
  intros [(Hg & Hx & Hc & a & Ha & Hfs & Hgs & Hp & Hw) | (Hg & Hc)].
  - replace (fltb (goalX sel) 0) with true by (symmetry; now apply fltb_lt).
    pose proof (plain_measured font a _ _ Ha Hfs Hgs Hp) as Hm.
    split.
    + unfold caretX. destruct (0 <? focusCharIndex sel)%nat; [|exact Hx].
      fold (prefix_width font (fontSize (heap box)) (text line) (focusCharIndex sel)).
      pose proof (prefix_width_mono font _ _ 0 (focusCharIndex sel) Hm ltac:(lia)) as H.
      rewrite prefix_width_0 in H. lra.
    + apply charIndexAt_caret; [exact Hm | exact Hc |].
      unfold prefix_width.
      pose proof (CopyFacts.substring_all (text line)) as E. rewrite Nat.sub_0_r in E.
      now rewrite E.
  - replace (fltb (goalX sel) 0) with false by (symmetry; now apply fltb_ge).
    split; [exact Hg | now symmetry].
Qed.

(** Shift+Down then Shift+Up, from a line that has a line below it, in
    a document whose lines are on bands of their own. *)
Lemma down_up_returns (font : Font.MSDFFont) (heap : Heap) (sel : TextSelection)
    (box : Ptr) (line : TextLine) (pre post : list VisualLine) (cur next : VisualLine)
    (ctrl1 ctrl2 : bool) :
  focusBox sel = Some box ->
  nth_error (lines (heap box)) (focusLineIndex sel) = Some line ->
  collect heap (allTextBoxes sel) = (pre ++ cur :: next :: post)%list ->
  bands (collect heap (allTextBoxes sel)) ->
  vl_box cur = box -> vl_lineIndex cur = focusLineIndex sel ->
  caret_on_goal font heap sel box line ->
  std_abs (vl_x cur - goal_column font heap sel box line) < FLT_MAX ->
  std_abs (vl_x next - goal_column font heap sel box line) < FLT_MAX ->
  exists sel1 sel2,
    shiftArrow font heap Key_Down ctrl1 sel = Ok sel1 /\
    shiftArrow font heap Key_Up ctrl2 sel1 = Ok sel2 /\
    focusBox sel1 = Some (vl_box next) /\ focusLineIndex sel1 = vl_lineIndex next /\
    goalX sel1 = goal_column font heap sel box line /\
    goalX sel2 = goal_column font heap sel box line /\
    focusBox sel2 = focusBox sel /\ focusLineIndex sel2 = focusLineIndex sel /\
    focusCharIndex sel2 = focusCharIndex sel.
Proof.
  intros Hfb Hline Hc Hbands Hb Hl Hcaret Hdc Hdn.
  destruct (caret_on_goal_column _ _ _ _ _ Hcaret) as [Hpos Hchar].
  destruct (init_selection_fields sel) as (Ifb & Ifl & Ifc & Ig & Ia & Ih).
  set (sel0 := init_selection sel) in *.
  assert (Hsel0 : hasSelection sel0 = true) by (apply Ih; now rewrite Hfb).
  assert (Hnext : In next (collect heap (allTextBoxes sel))).
  { rewrite Hc. apply in_or_app. right. right. now left. }
  destruct (collect_sound _ _ _ Hnext) as (tln & Hln).
  assert (Hcur : In cur (collect heap (allTextBoxes sel))).
  { rewrite Hc. apply in_or_app. right. now left. }
  destruct (collect_sound _ _ _ Hcur) as (tlc & Hlc).
  assert (tlc = line).
  { destruct Hlc as (Hn & _). rewrite Hb, Hl, Hline in Hn. now injection Hn. }
  subst tlc.
  pose proof (goal_init_selection font heap sel box line) as Hgoal. fold sel0 in Hgoal.
  (* down *)
  assert (Hdown : shiftVertical font heap true sel0 box line =
                  Ok (set_focus (with_goal font heap sel0 box line) (Some (vl_box next))
                        (vl_lineIndex next)
                        (charIndexAt font tln (fontSize (heap (vl_box next)))
                           (goal_column font heap sel0 box line)))).
  { apply (shiftVertical_down font heap sel0 box line) with (pre := pre) (post := post)
                                                            (cur := cur).
    - now rewrite Ia.
    - now rewrite Ifl.
    - now rewrite Ia.
    - exact Hb.
    - now rewrite Ifl.
    - exact Hln.
    - now rewrite Hgoal. }
  destruct (with_goal_fields font heap sel0 box line) as (Wg & Wa & Wl & Wc & Wb & Wh).
  set (sel1 := set_focus (with_goal font heap sel0 box line) (Some (vl_box next))
                 (vl_lineIndex next)
                 (charIndexAt font tln (fontSize (heap (vl_box next)))
                    (goal_column font heap sel0 box line))) in *.
  assert (Hg1 : goalX sel1 = goal_column font heap sel box line) by (cbn; now rewrite Wg).
  assert (Ha1 : allTextBoxes sel1 = allTextBoxes sel) by (cbn; now rewrite Wa).
  assert (Hh1 : hasSelection sel1 = true) by (cbn; now rewrite Wh).
  assert (Hgoal1 : goal_column font heap sel1 (vl_box next) tln = goal_column font heap sel box line).
  { unfold goal_column at 1. rewrite Hg1.
    replace (fltb (goal_column font heap sel box line) 0) with false
      by (symmetry; now apply fltb_ge).
    reflexivity. }
  assert (Hwg1 : with_goal font heap sel1 (vl_box next) tln = sel1).
  { unfold with_goal. rewrite Hg1.
    replace (fltb (goal_column font heap sel box line) 0) with false
      by (symmetry; now apply fltb_ge).
    reflexivity. }
  (* up *)
  assert (Hup : shiftVertical font heap false sel1 (vl_box next) tln =
                Ok (set_focus sel1 (Some (vl_box cur)) (vl_lineIndex cur)
                      (charIndexAt font line (fontSize (heap (vl_box cur)))
                         (goal_column font heap sel box line)))).
  { rewrite <- Hwg1 at 2. rewrite <- Hgoal1.
    apply (shiftVertical_up font heap sel1 (vl_box next) tln) with (pre := pre) (post := post)
                                                                  (cur := next).
    - now rewrite Ha1.
    - exact (proj1 Hln).
    - now rewrite Ha1.
    - reflexivity.
    - reflexivity.
    - exact Hlc.
    - now rewrite Hgoal1. }
  eexists. eexists. split; [|split].
  - rewrite (shiftArrow_at_focus font heap Key_Down ctrl1 sel box line Hfb Hline).
    exact Hdown.
  - rewrite (shiftArrow_at_focus font heap Key_Up ctrl2 sel1 (vl_box next) tln
               eq_refl (proj1 Hln)).
    rewrite (init_selection_selected sel1 Hh1). exact Hup.
  - cbn. rewrite Wg, Hgoal, Hb, Hfb, Hl. repeat split; try reflexivity. exact Hchar.
Qed.

(** *** What resets the goal column, and what does not *)

Lemma shiftArrow_horizontal (font : Font.MSDFFont) (heap : Heap) (key : Arrow)
    (ctrlHeld : bool) (sel : TextSelection) (box : Ptr) (line : TextLine) :
  focusBox sel = Some box ->
  nth_error (lines (heap box)) (focusLineIndex sel) = Some line ->
  key = Key_Left \/ key = Key_Right ->
  exists sel', shiftArrow font heap key ctrlHeld sel = Ok sel' /\ goalX sel' = -1.
Proof.
  intros Hb Hl Hk. rewrite (shiftArrow_at_focus font heap key ctrlHeld sel box line Hb Hl).
  destruct Hk as [-> | ->]; eexists; (split; [reflexivity|]); reflexivity.
Qed.

(** Ctrl+A, Shift+click and dragging move the focus and leave the goal
    column as it is. *)
Remark other_moves_keep_goalX (heap : Heap) (sel : TextSelection) (box : Ptr)
    (lineIdx charIdx : nat) :
  goalX (selectAll heap sel) = goalX sel /\
  goalX (shiftClick sel box lineIdx charIdx) = goalX sel /\
  goalX (updateSelection sel (Some box) lineIdx charIdx) = goalX sel.
Proof.
  split; [|split; reflexivity].
  unfold selectAll. destruct (allTextBoxes sel) as [|b bs]; [reflexivity|].
  destruct (lines (heap b)); [reflexivity|].
  destruct (rev _); reflexivity.
Qed.

(** *** Two lines: [abcdefghij] above [xy] *)

(** Two text boxes of one line each, 10 units per character. *)
Definition two_lines : Heap :=
  fun p =>
    match p with
    | 1%nat => mkBoxData [mkTextLine "abcdefghij" 0 0 100 19 0] 10
    | 2%nat => mkBoxData [mkTextLine "xy" 0 19 20 19 0] 10
    | _ => mkBoxData [] 10
    end.

Definition caret_at (box : Ptr) (charIdx : nat) : TextSelection :=
  mkTextSelection (Some box) 0 charIdx (Some box) 0 charIdx false false (-1)
    [1%nat; 2%nat].

(** The caret after [h] on the first line goes down to the end of [xy]
    and comes back. *)
Example sticky_column :
  (sel1 <- shiftArrow FontFacts.mono10 two_lines Key_Down false (caret_at 1%nat 8%nat) ;;
   sel2 <- shiftArrow FontFacts.mono10 two_lines Key_Up false sel1 ;;
   Ok ((focusBox sel1, focusCharIndex sel1), (focusBox sel2, focusCharIndex sel2)))
  = Ok ((Some 2%nat, 2%nat), (Some 1%nat, 8%nat)).
Proof. vm_compute. reflexivity. Qed.

(** C8. The goal column.  With the focus caret on a line of a text box:
    a vertical move (Shift+Up or Shift+Down) returns and leaves in
    [goalX] the caret's current X when [goalX] was unset (negative, -1
    being the value the code stores) and the old [goalX] otherwise;
    Shift+Left and Shift+Right, with Ctrl or without, [startSelection]
    and [clear] leave -1.  Where the lines of the document are on bands
    of their own, the focus line has a line below it, the distances from
    the goal column to the two lines are finite floats and the caret is
    where its goal column puts it, Shift+Down followed by Shift+Up brings
    the focus back to the same box, line and character, with the same
    goal column throughout. *)
Theorem goalX_sticky (font : Font.MSDFFont) (heap : Heap) (sel : TextSelection)
    (box : Ptr) (line : TextLine) :
  focusBox sel = Some box ->
  nth_error (lines (heap box)) (focusLineIndex sel) = Some line ->
  (forall (ctrl : bool) (key : Arrow), key = Key_Up \/ key = Key_Down ->
     exists sel', shiftArrow font heap key ctrl sel = Ok sel' /\
                  goalX sel' = goal_column font heap sel box line) /\
  (forall (ctrl : bool) (key : Arrow), key = Key_Left \/ key = Key_Right ->
     exists sel', shiftArrow font heap key ctrl sel = Ok sel' /\ goalX sel' = -1) /\
  (forall b lineIdx charIdx, goalX (startSelection sel b lineIdx charIdx) = -1) /\
  goalX (clear sel) = -1 /\
  (forall (pre post : list VisualLine) (cur next : VisualLine) (ctrl1 ctrl2 : bool),
     collect heap (allTextBoxes sel) = (pre ++ cur :: next :: post)%list ->
     bands (collect heap (allTextBoxes sel)) ->
     vl_box cur = box -> vl_lineIndex cur = focusLineIndex sel ->
     caret_on_goal font heap sel box line ->
     std_abs (vl_x cur - goal_column font heap sel box line) < FLT_MAX ->
     std_abs (vl_x next - goal_column font heap sel box line) < FLT_MAX ->
     exists sel1 sel2,
       shiftArrow font heap Key_Down ctrl1 sel = Ok sel1 /\
       shiftArrow font heap Key_Up ctrl2 sel1 = Ok sel2 /\
       focusBox sel1 = Some (vl_box next) /\ focusLineIndex sel1 = vl_lineIndex next /\
       goalX sel1 = goal_column font heap sel box line /\
       goalX sel2 = goal_column font heap sel box line /\
       focusBox sel2 = focusBox sel /\ focusLineIndex sel2 = focusLineIndex sel /\
       focusCharIndex sel2 = focusCharIndex sel).
Proof.
  intros Hb Hl. split; [|split; [|split; [|split]]].
  - intros ctrl key Hk.
    rewrite (shiftArrow_at_focus font heap key ctrl sel box line Hb Hl).
    rewrite <- (goal_init_selection font heap sel box line).
    destruct Hk as [-> | ->]; apply shiftVertical_goal.
  - intros ctrl key Hk. now apply (shiftArrow_horizontal font heap key ctrl sel box line).
  - reflexivity.
  - reflexivity.
  - intros pre post cur next ctrl1 ctrl2 Hc Hbands Hcb Hcl Hcaret Hdc Hdn.
    now apply (down_up_returns font heap sel box line pre post cur next).
Qed.

Lemma goalX_sticky_witness :
  exists sel1 sel2,
    shiftArrow FontFacts.mono10 two_lines Key_Down false (caret_at 1%nat 8%nat) = Ok sel1 /\
    shiftArrow FontFacts.mono10 two_lines Key_Up false sel1 = Ok sel2 /\
    focusBox sel1 = Some 2%nat /\ focusLineIndex sel1 = 0%nat /\
    goalX sel1 = goal_column FontFacts.mono10 two_lines (caret_at 1%nat 8%nat) 1%nat
                   (mkTextLine "abcdefghij" 0 0 100 19 0) /\
    goalX sel2 = goal_column FontFacts.mono10 two_lines (caret_at 1%nat 8%nat) 1%nat
                   (mkTextLine "abcdefghij" 0 0 100 19 0) /\
    focusBox sel2 = Some 1%nat /\ focusLineIndex sel2 = 0%nat /\
    focusCharIndex sel2 = 8%nat.
Proof.
  destruct (goalX_sticky FontFacts.mono10 two_lines (caret_at 1%nat 8%nat) 1%nat
              (mkTextLine "abcdefghij" 0 0 100 19 0) eq_refl eq_refl)
    as (_ & _ & _ & _ & H).
  apply (H [] [] (mkVisualLine 1%nat 0%nat 0 0 100) (mkVisualLine 2%nat 0%nat 19 0 20) false false).
  - reflexivity.
  - vm_compute. repeat split.
  - reflexivity.
  - reflexivity.
  - left. split; [reflexivity|]. split; [discriminate|]. split; [simpl; lia|].
    eexists. split; [reflexivity|]. split; [reflexivity|]. split; [reflexivity|].
    split; [|vm_compute; discriminate].
    cbn [plain_text text].
    repeat (split; [split; [vm_compute; lia | eexists; repeat split; reflexivity]|]).
    exact I.
  - vm_compute. reflexivity.
  - vm_compute. reflexivity.
Defined.

(** C8 as stated fails on the last line.  The caret is after [x] on the
    second and last line; Shift+Down, with no line below, puts it at the
    end of that line and sets the goal column to the caret's X, 10;
    Shift+Up then takes it to the first line, after [a]. *)
Lemma goalX_last_line_counterexample :
  exists sel1 sel2,
    shiftArrow FontFacts.mono10 two_lines Key_Down false (caret_at 2%nat 1%nat) = Ok sel1 /\
    shiftArrow FontFacts.mono10 two_lines Key_Up false sel1 = Ok sel2 /\
    (focusBox sel1, focusLineIndex sel1, focusCharIndex sel1) = (Some 2%nat, 0%nat, 2%nat) /\
    (focusBox sel2, focusLineIndex sel2, focusCharIndex sel2) = (Some 1%nat, 0%nat, 1%nat) /\
    focusBox sel2 <> focusBox (caret_at 2%nat 1%nat).
Proof.
  eexists. eexists. split; [vm_compute; reflexivity|].
  split; [vm_compute; reflexivity|].
  split; [reflexivity|]. split; [reflexivity|]. discriminate.
Qed.

End CaretFacts.

(** ** UTF-8: what the parser encodes, the font decodes *)

Module Utf8Facts.
Import Utf8.
Import Font.

(** [P] holds of 0, ..., [n - 1]. *)
Definition below (n : nat) (P : Z -> bool) : bool :=
  forallb P (map Z.of_nat (seq 0 n)).

Lemma below_spec (n : nat) (P : Z -> bool) :
  below n P = true -> forall z, (0 <= z < Z.of_nat n)%Z -> P z = true.
Proof.
  unfold below. rewrite forallb_forall. intros H z Hz. apply H.
  rewrite in_map_iff. exists (Z.to_nat z). split; [lia|].
  apply in_seq. lia.
Qed.

Lemma lor_low (x y k : Z) :
  (0 <= k)%Z -> (0 <= y < 2 ^ k)%Z -> Z.lor (x * 2 ^ k) y = (x * 2 ^ k + y)%Z.
Proof.
  intros Hk Hy.
  assert (Hland : Z.land (x * 2 ^ k) y = 0%Z).
  { apply Z.bits_inj'. intros n Hn. rewrite Z.land_spec, Z.bits_0.
    destruct (Z.ltb_spec n k) as [Hlt | Hge].
    - rewrite Z.mul_pow2_bits_low by lia. reflexivity.
    - destruct (Z.eq_dec y 0) as [-> | Hy0]; [now rewrite Z.bits_0, andb_false_r|].
      rewrite (Z.bits_above_log2 y n), andb_false_r; [reflexivity | lia |].
      apply Z.log2_lt_pow2; [lia|].
      apply Z.lt_le_trans with (2 ^ k)%Z; [lia|]. apply Z.pow_le_mono_r; lia. }
  rewrite <- Z.lxor_lor by exact Hland. symmetry. now apply Z.add_nocarry_lxor.
Qed.

Lemma byte_to_char (b : Z) (rest : string) :
  (0 <= b < 256)%Z -> byte_at (String (to_char b) rest) 0 = b.
Proof.
  intros Hb. unfold byte_at, to_char, code. cbn [String.get].
  rewrite Z.mod_small by lia. rewrite nat_ascii_embedding by lia. lia.
Qed.

Lemma byte_at_S (c : ascii) (s : string) (i : nat) :
  byte_at (String c s) (S i) = byte_at s i.
Proof. reflexivity. Qed.

(** The bytes the encoder writes, as the decoder's masks see them. *)
Lemma continuation_byte (x : Z) :
  (0 <= x < 64)%Z ->
  (0 <= Z.lor 128 x < 256)%Z /\ Z.land (Z.lor 128 x) 63 = x.
Proof.
  intros Hx.
  pose proof (below_spec 64
    (fun x => (0 <=? Z.lor 128 x)%Z && (Z.lor 128 x <? 256)%Z
              && (Z.land (Z.lor 128 x) 63 =? x)%Z) eq_refl x Hx) as H.
  cbv beta in H. apply andb_true_iff in H as [H H3]. apply andb_true_iff in H as [H1 H2].
  apply Z.leb_le in H1. apply Z.ltb_lt in H2. apply Z.eqb_eq in H3. lia.
Qed.

Lemma lead_byte_2 (q : Z) :
  (0 <= q < 32)%Z ->
  let b := Z.lor 192 q in
  (0 <= b < 256)%Z /\ (Z.land b 128 =? 0)%Z = false /\
  (Z.land b 224 =? 192)%Z = true /\ Z.land b 31 = q.
Proof.
  intros Hq b.
  pose proof (below_spec 32
    (fun q => let b := Z.lor 192 q in
              (0 <=? b)%Z && (b <? 256)%Z && negb (Z.land b 128 =? 0)%Z
              && (Z.land b 224 =? 192)%Z && (Z.land b 31 =? q)%Z) eq_refl q Hq) as H.
  cbv beta zeta in H. fold b in H.
  repeat (apply andb_true_iff in H as [H ?]).
  apply Z.leb_le in H. apply Z.ltb_lt in H3. apply negb_true_iff in H2.
  apply Z.eqb_eq in H0. repeat split; try assumption; lia.
Qed.

Lemma lead_byte_3 (q : Z) :
  (0 <= q < 16)%Z ->
  let b := Z.lor 224 q in
  (0 <= b < 256)%Z /\ (Z.land b 128 =? 0)%Z = false /\
  (Z.land b 224 =? 192)%Z = false /\ (Z.land b 240 =? 224)%Z = true /\
  Z.land b 15 = q.
Proof.
  intros Hq b.
  pose proof (below_spec 16
    (fun q => let b := Z.lor 224 q in
              (0 <=? b)%Z && (b <? 256)%Z && negb (Z.land b 128 =? 0)%Z
              && negb (Z.land b 224 =? 192)%Z && (Z.land b 240 =? 224)%Z
              && (Z.land b 15 =? q)%Z) eq_refl q Hq) as H.
  cbv beta zeta in H. fold b in H.
  repeat (apply andb_true_iff in H as [H ?]).
  apply Z.leb_le in H. apply Z.ltb_lt in H4. apply negb_true_iff in H3, H2.
  apply Z.eqb_eq in H0. repeat split; try assumption; lia.
Qed.

Lemma lead_byte_4 (q : Z) :
  (0 <= q < 8)%Z ->
  let b := Z.lor 240 q in
  (0 <= b < 256)%Z /\ (Z.land b 128 =? 0)%Z = false /\
  (Z.land b 224 =? 192)%Z = false /\ (Z.land b 240 =? 224)%Z = false /\
  (Z.land b 248 =? 240)%Z = true /\ Z.land b 7 = q.
Proof.
  intros Hq b.
  pose proof (below_spec 8
    (fun q => let b := Z.lor 240 q in
              (0 <=? b)%Z && (b <? 256)%Z && negb (Z.land b 128 =? 0)%Z
              && negb (Z.land b 224 =? 192)%Z && negb (Z.land b 240 =? 224)%Z
              && (Z.land b 248 =? 240)%Z && (Z.land b 7 =? q)%Z) eq_refl q Hq) as H.
  cbv beta zeta in H. fold b in H.
  repeat (apply andb_true_iff in H as [H ?]).
  apply Z.leb_le in H. apply Z.ltb_lt in H5. apply negb_true_iff in H4, H3, H2.
  apply Z.eqb_eq in H0. repeat split; try assumption; lia.
Qed.

Lemma low_six (z : Z) : Z.land z 63 = (z mod 64)%Z.
Proof. change 63%Z with (Z.ones 6). now rewrite Z.land_ones by lia. Qed.

Lemma shiftr_div (z k : Z) : (0 <= k)%Z -> Z.shiftr z k = (z / 2 ^ k)%Z.
Proof. apply Z.shiftr_div_pow2. Qed.

Lemma div_ranges (cp : Z) :
  (0 <= cp < 1114112)%Z ->
  (cp / 2 ^ 6 = cp / 64 /\ cp / 2 ^ 12 = cp / 64 / 64 /\ cp / 2 ^ 18 = cp / 64 / 64 / 64)%Z.
Proof.
  intros H. change (2 ^ 6)%Z with 64%Z. change (2 ^ 12)%Z with (64 * 64)%Z.
  change (2 ^ 18)%Z with (64 * 64 * 64)%Z.
  rewrite <- !Z.div_div by lia. repeat split.
Qed.

Lemma lor_2 (a b : Z) :
  (0 <= b < 64)%Z -> Z.lor (Z.shiftl a 6) b = (a * 64 + b)%Z.
Proof.
  intros Hb. rewrite Z.shiftl_mul_pow2 by lia. now rewrite lor_low by (cbn; lia).
Qed.

Lemma lor_3 (a b c : Z) :
  (0 <= b < 64)%Z -> (0 <= c < 64)%Z ->
  Z.lor (Z.lor (Z.shiftl a 12) (Z.shiftl b 6)) c = ((a * 64 + b) * 64 + c)%Z.
Proof.
  intros Hb Hc. rewrite !Z.shiftl_mul_pow2 by lia.
  rewrite (lor_low a (b * 2 ^ 6) 12) by (cbn; lia).
  replace (a * 2 ^ 12 + b * 2 ^ 6)%Z with ((a * 64 + b) * 2 ^ 6)%Z by (cbn; ring).
  now rewrite lor_low by (cbn; lia).
Qed.

Lemma lor_4 (a b c d : Z) :
  (0 <= b < 64)%Z -> (0 <= c < 64)%Z -> (0 <= d < 64)%Z ->
  Z.lor (Z.lor (Z.lor (Z.shiftl a 18) (Z.shiftl b 12)) (Z.shiftl c 6)) d
  = (((a * 64 + b) * 64 + c) * 64 + d)%Z.
Proof.
  intros Hb Hc Hd. rewrite !Z.shiftl_mul_pow2 by lia.
  rewrite (lor_low a (b * 2 ^ 12) 18) by (cbn; lia).
  replace (a * 2 ^ 18 + b * 2 ^ 12)%Z with ((a * 64 + b) * 2 ^ 12)%Z by (cbn; ring).
  rewrite (lor_low (a * 64 + b) (c * 2 ^ 6) 12) by (cbn; lia).
  replace ((a * 64 + b) * 2 ^ 12 + c * 2 ^ 6)%Z with (((a * 64 + b) * 64 + c) * 2 ^ 6)%Z
    by (cbn; ring).
  now rewrite lor_low by (cbn; lia).
Qed.

(** X1.  A code point below 0x110000 written by [codePointToUtf8] is read
    back by the font's [decodeUTF8], whatever follows it: the decoder
    returns the code point and stops on the last byte written.  The
    encoding takes one to four bytes by the size of the code point. *)
Theorem utf8_round_trip (cp : Z) (rest : string) :
  (0 <= cp < 1114112)%Z ->
  decodeUTF8 (codePointToUtf8 cp ++ rest) 0
  = (cp, (String.length (codePointToUtf8 cp) - 1)%nat) /\
  String.length (codePointToUtf8 cp)
  = (if (cp <? 128)%Z then 1 else if (cp <? 2048)%Z then 2
     else if (cp <? 65536)%Z then 3 else 4)%nat.
Proof.
  intros Hcp. destruct (div_ranges cp Hcp) as (D6 & D12 & D18).
  assert (Hr : (0 <= cp mod 64 < 64)%Z) by (apply Z.mod_pos_bound; lia).
  assert (Hm : (0 <= (cp / 64) mod 64 < 64)%Z) by (apply Z.mod_pos_bound; lia).
  assert (Hh : (0 <= (cp / 64 / 64) mod 64 < 64)%Z) by (apply Z.mod_pos_bound; lia).
  pose proof (Z.div_mod cp 64 ltac:(lia)) as E1.
  pose proof (Z.div_mod (cp / 64) 64 ltac:(lia)) as E2.
  pose proof (Z.div_mod (cp / 64 / 64) 64 ltac:(lia)) as E3.
  unfold codePointToUtf8.
  destruct (Z.ltb_spec cp 128) as [H1 | H1].
  - split; [|reflexivity]. cbn [append String.length Nat.sub].
    unfold decodeUTF8. rewrite byte_to_char by lia.
    replace (Z.land cp 128 =? 0)%Z with true; [reflexivity|].
    symmetry.
    exact (below_spec 128 (fun z => Z.land z 128 =? 0)%Z eq_refl cp ltac:(lia)).
  - destruct (Z.ltb_spec cp 2048) as [H2 | H2].
    + split; [|reflexivity]. cbn [append String.length Nat.sub].
      rewrite low_six, shiftr_div, D6 by lia.
      assert (Hq : (0 <= cp / 64 < 32)%Z) by lia.
      destruct (lead_byte_2 _ Hq) as (B0 & L1 & L2 & L3).
      destruct (continuation_byte _ Hr) as (B1 & C1).
      unfold decodeUTF8. cbn [Nat.add]. rewrite !byte_at_S, !byte_to_char by assumption.
      rewrite L1, L2, L3, C1. cbn [andb String.length Nat.add Nat.ltb Nat.leb].
      f_equal. rewrite lor_2 by assumption. lia.
    + destruct (Z.ltb_spec cp 65536) as [H3 | H3].
      * split; [|reflexivity]. cbn [append String.length Nat.sub].
        rewrite !low_six, !shiftr_div, D6, D12 by lia.
        assert (Hq : (0 <= cp / 64 / 64 < 16)%Z) by lia.
        destruct (lead_byte_3 _ Hq) as (B0 & L1 & L2 & L3 & L4).
        destruct (continuation_byte _ Hm) as (B1 & C1).
        destruct (continuation_byte _ Hr) as (B2 & C2).
        unfold decodeUTF8. cbn [Nat.add]. rewrite !byte_at_S, !byte_to_char by assumption.
        rewrite L1, L2, L3, L4, C1, C2. cbn [andb String.length Nat.add Nat.ltb Nat.leb].
        f_equal. rewrite lor_3 by assumption. lia.
      * replace (cp <? 1114112)%Z with true by (symmetry; apply Z.ltb_lt; lia).
        split; [|reflexivity]. cbn [append String.length Nat.sub].
        rewrite !low_six, !shiftr_div, D6, D12, D18 by lia.
        assert (Hq : (0 <= cp / 64 / 64 / 64 < 8)%Z) by lia.
        destruct (lead_byte_4 _ Hq) as (B0 & L1 & L2 & L3 & L4 & L5).
        destruct (continuation_byte _ Hh) as (B1 & C1).
        destruct (continuation_byte _ Hm) as (B2 & C2).
        destruct (continuation_byte _ Hr) as (B3 & C3).
        unfold decodeUTF8. cbn [Nat.add]. rewrite !byte_at_S, !byte_to_char by assumption.
        rewrite L1, L2, L3, L4, L5, C1, C2, C3.
        cbn [andb String.length Nat.add Nat.ltb Nat.leb].
        f_equal. rewrite lor_4 by assumption. lia.
Qed.

Lemma utf8_round_trip_witness :
  decodeUTF8 (codePointToUtf8 8217 ++ "s") 0 = (8217%Z, 2%nat).
Proof.
  destruct (utf8_round_trip 8217 "s" ltac:(lia)) as [H _]. exact H.
Defined.

(** Beyond 0x10FFFF the encoder writes nothing. *)
Example codePointToUtf8_out_of_range : codePointToUtf8 1114112 = "".
Proof. reflexivity. Qed.

End Utf8Facts.

(** ** Positions along a text *)

Module MetricsFacts.
Import Font.
Import Metrics.
Local Open Scope Q_scope.

(** The code points the loops of the font read in [text], in order. *)
Definition code_points (text : string) : list Z :=
  map snd (characters text (String.length text) 0).

(** The byte index at which each of them starts. *)
Definition starts (text : string) : list nat :=
  map fst (characters text (String.length text) 0).

(** What a code point adds to the pen position: nothing for a control
    character or a code point without a valid glyph. *)
Definition shown (a : MSDFAtlas) (scale : Q) (cp : Z) : Q :=
  if (cp <? 32)%Z then 0 else glyph_advance a scale cp.

Fixpoint total (a : MSDFAtlas) (scale : Q) (l : list Z) : Q :=
  match l with
  | [] => 0
  | cp :: l' => shown a scale cp + total a scale l'
  end.

Lemma width_loop_total (a : MSDFAtlas) (scale : Q) (text : string)
    (fuel i : nat) (w : Q) :
  width_loop a scale text fuel i w
  == w + total a scale (map snd (characters text fuel i)).
Proof.
  revert i w. induction fuel as [|f IH]; intros i w; cbn [width_loop characters].
  - cbn. lra.
  - destruct (i <? String.length text)%nat; [|cbn; lra].
    destruct (decodeUTF8 text i) as [cp i']. cbn [map snd total]. unfold shown.
    destruct (cp <? 32)%Z; rewrite IH; lra.
Qed.

Lemma position_loop_total (a : MSDFAtlas) (scale : Q) (text : string) (index : nat)
    (fuel i charIndex : nat) (x : Q) :
  position_loop a scale text index fuel i charIndex x
  == x + total a scale (firstn (index - charIndex) (map snd (characters text fuel i))).
Proof.
  revert i charIndex x. induction fuel as [|f IH]; intros i ci x;
    cbn [position_loop characters].
  - rewrite firstn_nil. cbn. lra.
  - destruct (i <? String.length text)%nat; cbn [andb].
    2: { rewrite firstn_nil. cbn. lra. }
    destruct (ci <? index)%nat eqn:E.
    + apply Nat.ltb_lt in E. destruct (decodeUTF8 text i) as [cp i'].
      replace (index - ci)%nat with (S (index - S ci)) by lia.
      cbn [map snd firstn total]. unfold shown.
      destruct (cp <? 32)%Z; rewrite IH; lra.
    + apply Nat.ltb_ge in E. replace (index - ci)%nat with 0%nat by lia.
      cbn. lra.
Qed.

Lemma characters_length (text : string) (fuel i : nat) :
  (List.length (characters text fuel i) <= String.length text - i)%nat.
Proof.
  revert i. induction fuel as [|f IH]; intros i; cbn [characters]; [cbn; lia|].
  destruct (i <? String.length text)%nat eqn:E; [|cbn; lia].
  apply Nat.ltb_lt in E. pose proof (FontFacts.decodeUTF8_index text i) as Hd.
  destruct (decodeUTF8 text i) as [cp i']. cbn in Hd. cbn [List.length].
  specialize (IH (S i')). lia.
Qed.

Lemma code_points_length (text : string) :
  (List.length (code_points text) <= String.length text)%nat.
Proof.
  unfold code_points. rewrite length_map.
  pose proof (characters_length text (String.length text) 0). lia.
Qed.

Lemma code_points_empty (text : string) :
  is_empty text = true -> code_points text = [].
Proof. destruct text; [reflexivity | discriminate]. Qed.

Lemma getTextWidth_total (font : MSDFFont) (a : MSDFAtlas) (text : string) (fontSize : Q) :
  atlas font = Some a ->
  getTextWidth font text fontSize == total a (fontSize / glyphSize a) (code_points text).
Proof.
  intros Ha. unfold getTextWidth, code_points. rewrite Ha, width_loop_total. lra.
Qed.

Lemma getPositionAtIndex_total (font : MSDFFont) (a : MSDFAtlas) (text : string)
    (index : nat) (fontSize : Q) :
  atlas font = Some a ->
  getPositionAtIndex font text index fontSize
  == total a (fontSize / glyphSize a) (firstn index (code_points text)).
Proof.
  intros Ha. unfold getPositionAtIndex. rewrite Ha.
  destruct (is_empty text) eqn:Ee; cbn [orb].
  - rewrite (code_points_empty text Ee), firstn_nil. reflexivity.
  - destruct (index =? 0)%nat eqn:Ei.
    + apply Nat.eqb_eq in Ei. subst. reflexivity.
    + rewrite position_loop_total, Nat.sub_0_r. unfold code_points. lra.
Qed.

(** X2.  Measured up to an index at or past the last character, the
    pen position is the width of the text: [getPositionAtIndex] and
    [getTextWidth] walk the same characters and add the same advances. *)
Theorem getPositionAtIndex_end (font : MSDFFont) (text : string) (index : nat)
    (fontSize : Q) :
  (List.length (code_points text) <= index)%nat ->
  getPositionAtIndex font text index fontSize == getTextWidth font text fontSize.
Proof.
  intros H. destruct (atlas font) as [a|] eqn:Ha.
  - rewrite (getPositionAtIndex_total font a), (getTextWidth_total font a) by assumption.
    rewrite firstn_all2 by exact H. reflexivity.
  - unfold getPositionAtIndex, getTextWidth. rewrite Ha. reflexivity.
Qed.

Lemma getPositionAtIndex_end_witness :
  getPositionAtIndex FontFacts.mono10 "abc" 7 10 == getTextWidth FontFacts.mono10 "abc" 10.
Proof. apply getPositionAtIndex_end. vm_compute. lia. Defined.

(** The loop of [getSubstringWidth] once [startX] can no longer be set:
    the start index is behind, or no visible character stands at it. *)
Lemma substring_loop_kept (a : MSDFAtlas) (scale : Q) (text : string)
    (start end_ fuel : nat) :
  forall (i charIndex : nat) (x startX : Q),
    (start < charIndex)%nat \/
    (charIndex <= start)%nat /\
    match nth_error (map snd (characters text fuel i)) (start - charIndex) with
    | Some cp => (cp < 32)%Z
    | None => True
    end ->
    substring_loop a scale text start end_ fuel i charIndex x startX
    == x + total a scale (firstn (end_ - charIndex) (map snd (characters text fuel i)))
       - startX.
Proof.
  induction fuel as [|f IH]; intros i ci x startX H;
    cbn [substring_loop characters] in H |- *.
  - rewrite firstn_nil. cbn. lra.
  - destruct (i <? String.length text)%nat; cbn [andb].
    2: { rewrite firstn_nil. cbn. lra. }
    destruct (ci <? end_)%nat eqn:E.
    2: { apply Nat.ltb_ge in E. replace (end_ - ci)%nat with 0%nat by lia. cbn. lra. }
    apply Nat.ltb_lt in E.
    destruct (decodeUTF8 text i) as [cp i']. cbn [map snd] in H |- *.
    replace (end_ - ci)%nat with (S (end_ - S ci)) by lia. cbn [firstn total]. unfold shown.
    assert (Hnext : (start < S ci)%nat \/
                    (S ci <= start)%nat /\
                    match nth_error (map snd (characters text f (S i'))) (start - S ci) with
                    | Some cp => (cp < 32)%Z
                    | None => True
                    end).
    { destruct H as [H | [Hle H]]; [left; lia|].
      destruct (Nat.eq_dec ci start) as [-> | Hne]; [left; lia|]. right. split; [lia|].
      replace (start - ci)%nat with (S (start - S ci)) in H by lia. exact H. }
    destruct (cp <? 32)%Z eqn:Ecp.
    + rewrite (IH _ _ _ _ Hnext). lra.
    + replace (ci =? start)%nat with false.
      * rewrite (IH _ _ _ _ Hnext). lra.
      * symmetry. apply Nat.eqb_neq. intros ->. destruct H as [H | [_ H]]; [lia|].
        rewrite Nat.sub_diag in H. cbn in H. apply Z.ltb_ge in Ecp. lia.
Qed.

(** The same loop when a visible character stands at the start index. *)
Lemma substring_loop_set (a : MSDFAtlas) (scale : Q) (text : string)
    (start end_ fuel : nat) (cp0 : Z) :
  (32 <= cp0)%Z -> (start < end_)%nat ->
  forall (i charIndex : nat) (x startX : Q),
    (charIndex <= start)%nat ->
    nth_error (map snd (characters text fuel i)) (start - charIndex) = Some cp0 ->
    substring_loop a scale text start end_ fuel i charIndex x startX
    == total a scale (firstn (end_ - charIndex) (map snd (characters text fuel i)))
       - total a scale (firstn (start - charIndex) (map snd (characters text fuel i))).
Proof.
  intros Hcp0 Hse. induction fuel as [|f IH]; intros i ci x startX Hci Hn;
    cbn [characters] in Hn |- *.
  - destruct (start - ci)%nat; discriminate.
  - cbn [substring_loop].
    destruct (i <? String.length text)%nat; cbn [andb].
    2: { destruct (start - ci)%nat; discriminate. }
    replace (ci <? end_)%nat with true by (symmetry; apply Nat.ltb_lt; lia).
    destruct (decodeUTF8 text i) as [cp i']. cbn [map snd] in Hn |- *.
    replace (end_ - ci)%nat with (S (end_ - S ci)) by lia. cbn [firstn total].
    destruct (Nat.eq_dec ci start) as [-> | Hne].
    + rewrite Nat.sub_diag in Hn |- *. cbn in Hn. injection Hn as ->.
      replace (cp0 <? 32)%Z with false by (symmetry; apply Z.ltb_ge; lia).
      rewrite Nat.eqb_refl. cbv zeta.
      rewrite substring_loop_kept by (left; lia).
      unfold shown. replace (cp0 <? 32)%Z with false by (symmetry; apply Z.ltb_ge; lia).
      cbn [firstn total]. lra.
    + replace (start - ci)%nat with (S (start - S ci)) in Hn |- * by lia.
      cbn [nth_error firstn total] in Hn |- *.
      replace (ci =? start)%nat with false by (symmetry; now apply Nat.eqb_neq).
      assert (Hle : (S ci <= start)%nat) by lia.
      destruct (cp <? 32)%Z; rewrite (IH _ _ _ _ Hle Hn); lra.
Qed.

(** X3.  The width of the characters from [start] up to [end_] is the
    difference of the two pen positions when a visible character (code
    point 32 or more) stands at [start]; when a control character stands
    there the start is never recorded, and the function returns the pen
    position at [end_], measured from the beginning of the text. *)
Theorem getSubstringWidth_positions (font : MSDFFont) (text : string)
    (start end_ : nat) (fontSize : Q) (cp : Z) :
  (start < end_)%nat -> nth_error (code_points text) start = Some cp ->
  ((32 <= cp)%Z ->
   getSubstringWidth font text start end_ fontSize
   == getPositionAtIndex font text end_ fontSize
      - getPositionAtIndex font text start fontSize) /\
  ((cp < 32)%Z ->
   getSubstringWidth font text start end_ fontSize
   == getPositionAtIndex font text end_ fontSize).
Proof.
  intros Hse Hn.
  assert (Hlen : (start < String.length text)%nat).
  { pose proof (code_points_length text).
    assert (start < List.length (code_points text))%nat
      by (apply nth_error_Some; congruence).
    lia. }
  destruct (atlas font) as [a|] eqn:Ha.
  2: { unfold getSubstringWidth, getPositionAtIndex. rewrite Ha. split; intros _; lra. }
  rewrite !(getPositionAtIndex_total font a) by assumption.
  unfold getSubstringWidth. rewrite Ha.
  replace (end_ <=? start)%nat with false by (symmetry; apply Nat.leb_gt; lia).
  replace (String.length text <=? start)%nat with false
    by (symmetry; apply Nat.leb_gt; lia).
  cbn [orb]. unfold code_points in *. split; intros Hcp.
  - rewrite (substring_loop_set a _ text start end_ _ cp Hcp Hse 0 0 0 0 (Nat.le_0_l _))
      by (now rewrite Nat.sub_0_r).
    rewrite !Nat.sub_0_r. reflexivity.
  - rewrite substring_loop_kept.
    + rewrite Nat.sub_0_r. lra.
    + right. split; [lia|]. rewrite Nat.sub_0_r, Hn. exact Hcp.
Qed.

Lemma getSubstringWidth_positions_witness :
  getSubstringWidth FontFacts.mono10 "abcd" 1 3 10
  == getPositionAtIndex FontFacts.mono10 "abcd" 3 10
     - getPositionAtIndex FontFacts.mono10 "abcd" 1 10.
Proof.
  destruct (getSubstringWidth_positions FontFacts.mono10 "abcd" 1 3 10 98 ltac:(lia) eq_refl)
    as [H _].
  apply H. lia.
Defined.

(** After a tab at index 1 the width of [bc] comes out as that of [a],
    the tab, [b] and [c]. *)
Example getSubstringWidth_from_control :
  let text := String "a" (String (ascii_of_nat 9) "bc") in
  Qred (getSubstringWidth FontFacts.mono10 text 1 4 10) = 30 /\
  Qred (getSubstringWidth FontFacts.mono10 text 2 4 10) = 20.
Proof. split; reflexivity. Qed.

Lemma positions_loop_spec (a : MSDFAtlas) (scale : Q) (text : string) (fuel : nat) :
  forall (i : nat) (x : Q),
    List.length (positions_loop a scale text fuel i x)
    = List.length (characters text fuel i) /\
    forall k, (k < List.length (characters text fuel i))%nat ->
      nth k (positions_loop a scale text fuel i x) 0
      == x + total a scale (firstn (S k) (map snd (characters text fuel i))).
Proof.
  induction fuel as [|f IH]; intros i x; cbn [positions_loop characters].
  - split; [reflexivity | cbn; lia].
  - destruct (i <? String.length text)%nat; [|split; [reflexivity | cbn; lia]].
    destruct (decodeUTF8 text i) as [cp i'].
    assert (H : forall x', List.length (x' :: positions_loop a scale text f (S i') x')
                           = List.length ((i, cp) :: characters text f (S i')) /\
                forall k, (k < List.length ((i, cp) :: characters text f (S i')))%nat ->
                  x' == x + shown a scale cp ->
                  nth k (x' :: positions_loop a scale text f (S i') x') 0
                  == x + total a scale
                           (firstn (S k) (map snd ((i, cp) :: characters text f (S i'))))).
    { intros x'. destruct (IH (S i') x') as [Hl Hn]. split; [cbn; now rewrite Hl|].
      intros k Hk Hx'. cbn [map snd firstn total]. destruct k as [|k].
      - cbn. lra.
      - cbn [nth]. cbn [List.length] in Hk. rewrite Hn by lia. lra. }
    unfold shown in H. destruct (cp <? 32)%Z.
    + destruct (H x) as [Hl Hn]. split; [exact Hl|]. intros k Hk. apply Hn; [exact Hk | lra].
    + cbv zeta. destruct (H (x + glyph_advance a scale cp)) as [Hl Hn].
      split; [exact Hl|]. intros k Hk. apply Hn; [exact Hk | lra].
Qed.

(** X4.  With a loaded font [getCharacterPositions] returns one position
    more than the text has characters, and its entry [k] is the pen
    position [getPositionAtIndex] gives for index [k]; without an atlas
    it returns the empty list. *)
Theorem getCharacterPositions_spec (font : MSDFFont) (text : string) (fontSize : Q) :
  (atlas font = None -> getCharacterPositions font text fontSize = []) /\
  (atlas font <> None ->
   List.length (getCharacterPositions font text fontSize)
   = S (List.length (code_points text)) /\
   forall k, (k <= List.length (code_points text))%nat ->
     nth k (getCharacterPositions font text fontSize) 0
     == getPositionAtIndex font text k fontSize).
Proof.
  unfold getCharacterPositions. destruct (atlas font) as [a|] eqn:Ha.
  - split; [discriminate|]. intros _.
    destruct (positions_loop_spec a (fontSize / glyphSize a) text (String.length text) 0 0)
      as [Hl Hn].
    unfold code_points. rewrite length_map. split; [cbn; now rewrite Hl|].
    intros k Hk. rewrite (getPositionAtIndex_total font a) by exact Ha.
    destruct k as [|k]; [reflexivity|]. cbn [nth].
    rewrite Hn by lia. unfold code_points. lra.
  - split; [reflexivity | congruence].
Qed.

Lemma getCharacterPositions_spec_witness :
  nth 2 (getCharacterPositions FontFacts.mono10 "abc" 10) 0
  == getPositionAtIndex FontFacts.mono10 "abc" 2 10.
Proof.
  destruct (getCharacterPositions_spec FontFacts.mono10 "abc" 10) as [_ H].
  destruct (H ltac:(discriminate)) as [_ Hn]. apply Hn. vm_compute. lia.
Defined.

(** *** ASCII text: characters are bytes *)

Fixpoint ascii_text (s : string) : Prop :=
  match s with
  | EmptyString => True
  | String c s' => (code c < 128)%nat /\ ascii_text s'
  end.

Fixpoint bytes (s : string) : list Z :=
  match s with
  | EmptyString => []
  | String c s' => Z.of_nat (code c) :: bytes s'
  end.

Lemma characters_ascii (s : string) :
  ascii_text s ->
  forall (pre : string) (fuel : nat),
    (String.length s <= fuel)%nat ->
    characters (pre ++ s) fuel (String.length pre)
    = combine (seq (String.length pre) (String.length s)) (bytes s).
Proof.
  induction s as [|c s IH]; intros Ha pre fuel Hf.
  - destruct fuel as [|f]; cbn [characters]; [reflexivity|].
    rewrite CaretFacts.length_app. cbn [String.length].
    replace (String.length pre <? String.length pre + 0)%nat with false
      by (symmetry; apply Nat.ltb_ge; lia).
    reflexivity.
  - destruct Ha as [Hc Hs]. destruct fuel as [|f]; [cbn in Hf; lia|].
    cbn [characters]. rewrite CaretFacts.length_app. cbn [String.length].
    replace (String.length pre <? String.length pre + S (String.length s))%nat with true
      by (symmetry; apply Nat.ltb_lt; lia).
    rewrite (CaretFacts.decodeUTF8_ascii _ _ c (CaretFacts.get_after pre c s) Hc).
    cbn [seq bytes combine]. f_equal.
    replace (pre ++ String c s) with ((pre ++ String c "") ++ s)
      by (now rewrite CopyFacts.append_assoc).
    replace (S (String.length pre)) with (String.length (pre ++ String c ""))
      by (rewrite CaretFacts.length_app; cbn; lia).
    apply IH; [exact Hs | cbn in Hf; lia].
Qed.

Lemma bytes_length (s : string) : List.length (bytes s) = String.length s.
Proof. induction s as [|c s IH]; [reflexivity | cbn; now rewrite IH]. Qed.

Lemma combine_seq (l : list Z) (start : nat) :
  map snd (combine (seq start (List.length l)) l) = l /\
  map fst (combine (seq start (List.length l)) l) = seq start (List.length l).
Proof.
  revert start. induction l as [|b l IH]; intros start; [now split|].
  cbn. destruct (IH (S start)) as [-> ->]. now split.
Qed.

Lemma characters_of_ascii (s : string) :
  ascii_text s ->
  characters s (String.length s) 0 = combine (seq 0 (List.length (bytes s))) (bytes s).
Proof.
  intros H. pose proof (characters_ascii s H "" (String.length s) (Nat.le_refl _)) as E.
  cbn [append String.length] in E. now rewrite bytes_length.
Qed.

Lemma code_points_ascii (s : string) : ascii_text s -> code_points s = bytes s.
Proof.
  intros H. unfold code_points. rewrite (characters_of_ascii s H).
  apply combine_seq.
Qed.

(** In ASCII text a character starts at its own index. *)
Lemma starts_ascii (s : string) : ascii_text s -> starts s = seq 0 (String.length s).
Proof.
  intros H. unfold starts. rewrite (characters_of_ascii s H), <- (bytes_length s).
  apply combine_seq.
Qed.

Lemma ascii_text_prefix (s : string) (k : nat) :
  ascii_text s -> ascii_text (substring 0 k s).
Proof.
  revert k. induction s as [|c s IH]; intros k H; [now destruct k|].
  destruct H as [Hc Hs]. destruct k as [|k]; [exact I|].
  cbn [substring]. split; [exact Hc | now apply IH].
Qed.

Lemma bytes_prefix (s : string) (k : nat) :
  bytes (substring 0 k s) = firstn k (bytes s).
Proof.
  revert k. induction s as [|c s IH]; intros k; [now destruct k|].
  destruct k as [|k]; [reflexivity|]. cbn [substring bytes firstn]. now rewrite IH.
Qed.

(** X5.  On ASCII text the two ways the program locates index [k] in a
    line agree: the pen position at character [k], which the selection
    highlight uses, is the width of the first [k] bytes, which the
    keyboard caret uses. *)
Theorem getPositionAtIndex_ascii (font : MSDFFont) (text : string) (k : nat)
    (fontSize : Q) :
  ascii_text text ->
  getPositionAtIndex font text k fontSize
  == getTextWidth font (substring 0 k text) fontSize.
Proof.
  intros H. destruct (atlas font) as [a|] eqn:Ha.
  - rewrite (getPositionAtIndex_total font a), (getTextWidth_total font a) by assumption.
    rewrite (code_points_ascii text H).
    rewrite (code_points_ascii _ (ascii_text_prefix text k H)), bytes_prefix.
    reflexivity.
  - unfold getPositionAtIndex, getTextWidth. rewrite Ha. reflexivity.
Qed.

Lemma getPositionAtIndex_ascii_witness :
  getPositionAtIndex FontFacts.mono10 "Hello" 3 10
  == getTextWidth FontFacts.mono10 (substring 0 3 "Hello") 10.
Proof.
  apply getPositionAtIndex_ascii. cbn. repeat split; lia.
Defined.

(** Past ASCII they part: the index counts characters in one and bytes in
    the other.  In the two bytes of U+00E9 followed by [a], index 2 is
    after [a] for the first and inside nothing the second can show. *)
Example getPositionAtIndex_bytes_differ :
  let text := Utf8.codePointToUtf8 233 ++ "a" in
  Qred (getPositionAtIndex FontFacts.mono10 text 2 10) = 20 /\
  Qred (getTextWidth FontFacts.mono10 (substring 0 2 text) 10) = 10.
Proof. split; reflexivity. Qed.

(** *** Hit testing at a pen position *)

(** A character the font shows with a positive advance. *)
Definition visible (a : MSDFAtlas) (scale : Q) (cp : Z) : Prop :=
  (32 <= cp)%Z /\ 0 < glyph_advance a scale cp.

Lemma total_nonneg (a : MSDFAtlas) (scale : Q) (l : list Z) :
  Forall (visible a scale) l -> 0 <= total a scale l.
Proof.
  induction 1 as [|cp l [Hcp Hadv] _ IH]; cbn [total]; [lra|].
  unfold shown. replace (cp <? 32)%Z with false by (symmetry; apply Z.ltb_ge; lia). lra.
Qed.

Lemma visible_firstn (a : MSDFAtlas) (scale : Q) (l : list Z) (k : nat) :
  Forall (visible a scale) l -> Forall (visible a scale) (firstn k l).
Proof.
  intros H. revert k. induction H as [|cp l Hcp _ IH]; intros k; [now destruct k|].
  destruct k as [|k]; constructor; [exact Hcp | apply IH].
Qed.

Lemma first_past_at_position (a : MSDFAtlas) (scale : Q) (localX : Q)
    (chars : list (nat * Z)) :
  Forall (visible a scale) (map snd chars) ->
  forall (k : nat) (p : Q),
    (k <= List.length chars)%nat ->
    localX == p + total a scale (firstn k (map snd chars)) ->
    first_past_midpoint printable (glyph_advance a scale) localX chars p
    = nth_error (map fst chars) k.
Proof.
  induction chars as [|[start cp] chars IH]; intros Hv k p Hk Hx.
  - cbn in Hk. replace k with 0%nat by lia. reflexivity.
  - cbn [map snd] in Hv. inversion Hv as [|? ? [Hcp Hadv] Hv']; subst.
    cbn [first_past_midpoint]. unfold printable.
    replace (cp <? 32)%Z with false by (symmetry; apply Z.ltb_ge; lia). cbn [negb].
    set (adv := glyph_advance a scale cp) in *.
    assert (Hhalf : p + (p + adv - p) / 2 == p + adv * (1 # 2))
      by (unfold Qdiv; change (/ 2) with (1 # 2); ring).
    destruct k as [|k].
    + cbn [firstn total map] in Hx.
      replace (fltb localX (p + (p + adv - p) / 2)) with true; [reflexivity|].
      symmetry. apply fltb_lt. rewrite Hhalf. lra.
    + cbn [firstn total map snd] in Hx. unfold shown in Hx.
      replace (cp <? 32)%Z with false in Hx by (symmetry; apply Z.ltb_ge; lia).
      fold adv in Hx.
      assert (Hrest : 0 <= total a scale (firstn k (map snd chars))).
      { apply total_nonneg, visible_firstn, Hv'. }
      replace (fltb localX (p + (p + adv - p) / 2)) with false.
      * cbn [map fst nth_error]. apply IH; [exact Hv' | cbn in Hk; lia | lra].
      * symmetry. apply fltb_ge. rewrite Hhalf. lra.
Qed.

Lemma starts_head (text : string) :
  is_empty text = false -> nth 0 (starts text) (String.length text) = 0%nat.
Proof.
  destruct text as [|c s]; [discriminate|]. intros _. unfold starts.
  cbn [String.length characters]. cbn [Nat.ltb Nat.leb].
  destruct (decodeUTF8 (String c s) 0). reflexivity.
Qed.

(** X6.  Hit testing inverts the pen position.  In a text whose
    characters all have a glyph of positive advance, the hit test at the
    pen position of character [k] returns the byte index at which
    character [k] starts, and the length of the text when [k] is the
    number of characters. *)
Theorem hitTestText_at_position (font : MSDFFont) (a : MSDFAtlas) (text : string)
    (k : nat) (fontSize : Q) :
  atlas font = Some a ->
  Forall (visible a (fontSize / glyphSize a)) (code_points text) ->
  (k <= List.length (code_points text))%nat ->
  hitTestText font text (getPositionAtIndex font text k fontSize) fontSize
  = nth k (starts text) (String.length text).
Proof.
  intros Ha Hv Hk.
  pose proof (getPositionAtIndex_total font a text k fontSize Ha) as Hpos.
  set (localX := getPositionAtIndex font text k fontSize) in *.
  unfold hitTestText. rewrite Ha.
  destruct (is_empty text) eqn:Ee; cbn [orb].
  - destruct text; [|discriminate]. now destruct k.
  - destruct k as [|k].
    + cbn [firstn total] in Hpos.
      replace (fleb localX 0) with true by (symmetry; apply fleb_le; lra).
      now rewrite starts_head.
    + assert (Hpos' : 0 < localX).
      { rewrite Hpos. destruct (code_points text) as [|cp l] eqn:El; [cbn in Hk; lia|].
        inversion Hv as [|? ? [Hcp Hadv] Hv']; subst. cbn [firstn total]. unfold shown.
        replace (cp <? 32)%Z with false by (symmetry; apply Z.ltb_ge; lia).
        assert (0 <= total a (fontSize / glyphSize a) (firstn k l)).
        { apply total_nonneg, visible_firstn, Hv'. }
        lra. }
      replace (fleb localX 0) with false by (symmetry; apply fleb_gt; exact Hpos').
      rewrite FontFacts.hit_loop_first_past.
      unfold code_points in *. rewrite length_map in Hk.
      rewrite (first_past_at_position a _ localX _ Hv (S k) 0 Hk) by (rewrite Hpos; lra).
      unfold starts.
      destruct (nth_error (map fst (characters text (String.length text) 0)) (S k)) as [st|] eqn:En.
      * symmetry. now apply nth_error_nth.
      * symmetry. apply nth_overflow. now apply nth_error_None.
Qed.

Lemma hitTestText_at_position_witness :
  hitTestText FontFacts.mono10 "abc" (getPositionAtIndex FontFacts.mono10 "abc" 2 10) 10
  = 2%nat.
Proof.
  apply (hitTestText_at_position FontFacts.mono10 _ "abc" 2 10 eq_refl).
  - repeat constructor; vm_compute; congruence.
  - vm_compute. lia.
Defined.

End MetricsFacts.

(** ** Selectors *)

Module SelectorFacts.
Import Selector.
Import Tree (subsequence, sub_nil, sub_skip, sub_keep).

Definition matches (p : SimpleSelector) (n : Element) : Prop :=
  selectorMatches p n = true.

(** One more ancestor, or one part fewer, keeps a match. *)
Lemma match_ancestors_weaken (ancestors : list Element) :
  forall parts,
    (forall p, match_ancestors ancestors (p :: parts) = true ->
               match_ancestors ancestors parts = true) /\
    (forall n, match_ancestors ancestors parts = true ->
               match_ancestors (n :: ancestors) parts = true).
Proof.
  induction ancestors as [|a ancestors IH]; intros parts.
  - split; [discriminate|]. intros n H. destruct parts; [reflexivity | discriminate].
  - assert (Hdrop : forall parts p, match_ancestors (a :: ancestors) (p :: parts) = true ->
                                    match_ancestors (a :: ancestors) parts = true).
    { intros ps p H. cbn [match_ancestors] in H |- *. destruct ps as [|q qs]; [reflexivity|].
      destruct (selectorMatches p a).
      - destruct (selectorMatches q a).
        + now apply (proj1 (IH qs) q).
        + exact H.
      - destruct (selectorMatches q a).
        + apply (proj1 (IH qs) q). now apply (proj1 (IH (q :: qs)) p).
        + now apply (proj1 (IH (q :: qs)) p). }
    split; [apply Hdrop|].
    intros n H. cbn [match_ancestors]. destruct parts as [|p ps]; [reflexivity|].
    destruct (selectorMatches p n); [now apply (Hdrop ps p) | exact H].
Qed.

(** The loop finds a match exactly when some ancestors, taken in order,
    match the parts one for one. *)
Lemma match_ancestors_spec (ancestors : list Element) (parts : list SimpleSelector) :
  match_ancestors ancestors parts = true <->
  exists chosen, subsequence chosen ancestors /\ Forall2 matches parts chosen.
Proof.
  split.
  - revert parts. induction ancestors as [|a ancestors IH]; intros parts H.
    + destruct parts; [|discriminate]. exists []. split; constructor.
    + cbn [match_ancestors] in H. destruct parts as [|p ps].
      * exists []. split; [|constructor]. clear. induction (a :: ancestors); now constructor.
      * destruct (selectorMatches p a) eqn:E.
        -- destruct (IH _ H) as (chosen & Hs & Hf). exists (a :: chosen).
           split; [now constructor | now constructor].
        -- destruct (IH _ H) as (chosen & Hs & Hf). exists chosen.
           split; [now constructor | exact Hf].
  - intros (chosen & Hs & Hf). revert parts Hf.
    induction Hs as [|a chosen ancestors Hs IH | a chosen ancestors Hs IH]; intros parts Hf.
    + inversion Hf. reflexivity.
    + apply (proj2 (match_ancestors_weaken ancestors parts) a). now apply IH.
    + inversion Hf as [|p ? ps ? Hp Hf']; subst. cbn [match_ancestors].
      unfold matches in Hp. rewrite Hp. now apply IH.
Qed.

Lemma subsequence_app (A : Type) (l1 l1' l2 l2' : list A) :
  subsequence l1 l1' -> subsequence l2 l2' -> subsequence (l1 ++ l2) (l1' ++ l2').
Proof.
  intros H1 H2. induction H1; cbn; [exact H2 | now constructor | now constructor].
Qed.

Lemma subsequence_rev (A : Type) (l l' : list A) :
  subsequence l l' -> subsequence (rev l) (rev l').
Proof.
  induction 1 as [|a l l' H IH | a l l' H IH]; cbn [rev].
  - constructor.
  - rewrite <- (app_nil_r (rev l)). apply subsequence_app; [exact IH|].
    apply sub_skip, sub_nil.
  - apply subsequence_app; [exact IH|]. apply sub_keep, sub_nil.
Qed.

Lemma Forall2_rev (A B : Type) (R : A -> B -> Prop) (l : list A) (l' : list B) :
  Forall2 R l l' -> Forall2 R (rev l) (rev l').
Proof.
  induction 1 as [|a b l l' Hab H IH]; cbn [rev]; [constructor|].
  apply Forall2_app; [exact IH | now repeat constructor].
Qed.

(** X7.  Descendant matching.  A compound selector [before ... target]
    matches a node under its ancestors exactly when the target part
    matches the node and the parts before it match, one for one and in
    order, some of the ancestors: the single backward pass over the
    ancestors misses no possible assignment. *)
Theorem compoundSelectorMatches_descendant (before : list SimpleSelector)
    (target : SimpleSelector) (n : Element) (ancestors : list Element) :
  compoundSelectorMatches (before ++ [target]) n ancestors = true <->
  matches target n /\
  exists chosen, subsequence chosen ancestors /\ Forall2 matches before chosen.
Proof.
  unfold compoundSelectorMatches. rewrite rev_app_distr. cbn [rev app].
  unfold matches at 1. destruct (selectorMatches target n); cbn [negb].
  2: { split; [discriminate | intros [H _]; discriminate]. }
  rewrite length_app. cbn [List.length].
  destruct before as [|p ps].
  - cbn. split; [|reflexivity]. intros _. split; [reflexivity|].
    exists []. split; [|constructor]. clear. induction ancestors; now constructor.
  - replace (List.length (p :: ps) + 1 =? 1)%nat with false
      by (symmetry; apply Nat.eqb_neq; cbn; lia).
    rewrite match_ancestors_spec. split.
    + intros (chosen & Hs & Hf). split; [reflexivity|]. exists (rev chosen). split.
      * rewrite <- (rev_involutive ancestors). now apply subsequence_rev.
      * rewrite <- (rev_involutive (p :: ps)). now apply Forall2_rev.
    + intros (_ & chosen & Hs & Hf). exists (rev chosen). split.
      * now apply subsequence_rev.
      * now apply Forall2_rev.
Qed.

(** *** Parsing a selector that was written out *)

(** A character of a name: not a separator of the selector grammar, not
    one [trim] strips. *)
Definition name_char (c : ascii) : bool :=
  negb (Ascii.eqb c dot || Ascii.eqb c hash || Ascii.eqb c nul || Css.is_trim_char c).

Definition name (s : string) : Prop := CssNumber.all_chars name_char s = true.

Fixpoint class_text (cs : list string) : string :=
  match cs with
  | [] => ""
  | c :: cs' => String dot c ++ class_text cs'
  end.

(** A selector written as [tag.class.class#id]. *)
Definition render (sel : SimpleSelector) : string :=
  tag sel ++ class_text (classes sel)
  ++ (if is_empty (id sel) then "" else String hash (id sel)).

Lemma all_chars_app (p : ascii -> bool) (s1 s2 : string) :
  CssNumber.all_chars p (s1 ++ s2)
  = CssNumber.all_chars p s1 && CssNumber.all_chars p s2.
Proof.
  induction s1 as [|c s1 IH]; [reflexivity|]. cbn. rewrite IH. apply andb_assoc.
Qed.

Lemma selector_loop_name (x rest current : string) (mode : ascii) (sel : SimpleSelector) :
  name x ->
  selector_loop (x ++ rest) current mode sel = selector_loop rest (current ++ x) mode sel.
Proof.
  unfold name. revert current. induction x as [|c x IH]; intros current H.
  - cbn. now rewrite append_empty_r.
  - cbn in H. apply andb_true_iff in H as [Hc Hx]. cbn [append selector_loop].
    unfold name_char in Hc. apply negb_true_iff in Hc.
    apply orb_false_iff in Hc as [Hc _]. rewrite Hc.
    rewrite (IH _ Hx). now rewrite CopyFacts.append_assoc.
Qed.

Lemma selector_loop_name_end (x current : string) (mode : ascii) (sel : SimpleSelector) :
  name x -> selector_loop x current mode sel = save_token mode (current ++ x) sel.
Proof.
  intros H. pose proof (selector_loop_name x "" current mode sel H) as E.
  now rewrite append_empty_r in E.
Qed.

Lemma selector_loop_hash (rest current : string) (mode : ascii) (sel : SimpleSelector) :
  selector_loop (String hash rest) current mode sel
  = selector_loop rest "" hash (save_token mode current sel).
Proof. reflexivity. Qed.

Definition add_classes (cs : list string) (sel : SimpleSelector) : SimpleSelector :=
  mkSimpleSelector (tag sel) (id sel) (classes sel ++ cs).

Lemma selector_loop_classes (cs : list string) :
  Forall (fun c => name c /\ c <> "") cs ->
  forall (rest current : string) (mode : ascii) (sel : SimpleSelector),
    exists current' mode' sel',
      selector_loop (class_text cs ++ rest) current mode sel
      = selector_loop rest current' mode' sel' /\
      save_token mode' current' sel' = add_classes cs (save_token mode current sel).
Proof.
  induction 1 as [|c cs [Hc Hne] _ IH]; intros rest current mode sel.
  - exists current, mode, sel. split; [reflexivity|].
    unfold add_classes. rewrite app_nil_r. now destruct (save_token mode current sel).
  - cbn [class_text append]. rewrite CopyFacts.append_assoc.
    cbn [selector_loop]. rewrite Ascii.eqb_refl. cbn [orb].
    rewrite (selector_loop_name c _ "" _ _ Hc). cbn [append].
    destruct (IH rest c dot (save_token mode current sel)) as (c' & m' & s' & E & F).
    exists c', m', s'. split; [exact E|]. rewrite F.
    unfold save_token at 1. destruct c as [|c0 c]; [congruence|]. cbn [is_empty].
    rewrite Ascii.eqb_refl.
    replace (Ascii.eqb dot "t") with false by reflexivity.
    unfold add_classes. cbn [tag id classes]. now rewrite <- app_assoc.
Qed.

Definition no_blank (s : string) : Prop :=
  CssNumber.all_chars (fun c => negb (Css.is_trim_char c)) s = true.

Lemma name_no_blank (s : string) : name s -> no_blank s.
Proof.
  apply all_chars_weaken. intros c H. unfold name_char in H.
  apply negb_true_iff in H. apply orb_false_iff in H as [_ H]. now rewrite H.
Qed.

Lemma no_blank_app (s1 s2 : string) : no_blank s1 -> no_blank s2 -> no_blank (s1 ++ s2).
Proof. unfold no_blank. intros H1 H2. now rewrite all_chars_app, H1, H2. Qed.

(** X8.  A selector written as [tag.class...#id], with names free of
    [.], [#], NUL and white space, parses back to its tag, its classes in
    order and its id. *)
Theorem parseSimpleSelector_render (sel : SimpleSelector) :
  name (tag sel) -> Forall (fun c => name c /\ c <> "") (classes sel) -> name (id sel) ->
  parseSimpleSelector (render sel) = sel.
Proof.
  intros Ht Hc Hi. destruct sel as [t i cs]. cbn [tag id classes] in *.
  unfold parseSimpleSelector, render. cbn [tag id classes].
  assert (Hclasses : no_blank (class_text cs)).
  { clear -Hc. induction Hc as [|c cs [Hn _] _ IH]; [reflexivity|].
    cbn [class_text]. change (String dot c ++ class_text cs)
      with (String dot "" ++ (c ++ class_text cs)).
    apply no_blank_app; [reflexivity|]. apply no_blank_app; [now apply name_no_blank | exact IH]. }
  assert (Hid : no_blank (if is_empty i then "" else String hash i)).
  { destruct i as [|c i]; [reflexivity|]. cbn [is_empty].
    change (String hash (String c i)) with (String hash "" ++ String c i).
    apply no_blank_app; [reflexivity | now apply name_no_blank]. }
  rewrite trim_untouched
    by (apply no_blank_app; [now apply name_no_blank | now apply no_blank_app]).
  rewrite (selector_loop_name t _ "" _ _ Ht). cbn [append].
  destruct (selector_loop_classes cs Hc (if is_empty i then "" else String hash i)
              t "t"%char empty_selector) as (c' & m' & s' & E & F).
  rewrite E.
  assert (F0 : save_token "t" t empty_selector = mkSimpleSelector t "" []).
  { destruct t; reflexivity. }
  rewrite F0 in F. unfold add_classes in F. cbn [tag id classes app] in F.
  destruct i as [|c i]; cbn [is_empty].
  - cbn [selector_loop]. exact F.
  - rewrite selector_loop_hash, (selector_loop_name_end _ "" _ _ Hi). cbn [append].
    rewrite F. reflexivity.
Qed.

Lemma parseSimpleSelector_render_witness :
  parseSimpleSelector "div.btn.primary#main"
  = mkSimpleSelector "div" "main" ["btn"; "primary"].
Proof.
  apply (parseSimpleSelector_render (mkSimpleSelector "div" "main" ["btn"; "primary"])).
  - reflexivity.
  - repeat constructor; discriminate.
  - reflexivity.
Defined.

(** A NUL character in the text ends a token like a separator, and what
    follows it is dropped. *)
Example parseSimpleSelector_nul :
  parseSimpleSelector (String "a" (String nul "b")) = mkSimpleSelector "a" "" [].
Proof. reflexivity. Qed.

End SelectorFacts.

(** ** The selection read backwards *)

Module DirectionFacts.
Import Selection.
Import Direction.
Import Tree (Ptr).

Lemma getBoxIndex_swap (sel : TextSelection) (box : option Ptr) :
  getBoxIndex (swap_ends sel) box = getBoxIndex sel box.
Proof. reflexivity. Qed.

Lemma state_swap (sel : TextSelection) (box : option Ptr) :
  getBoxSelectionState (swap_ends sel) box = getBoxSelectionState sel box.
Proof.
  unfold getBoxSelectionState. rewrite !getBoxIndex_swap. cbn [swap_ends hasSelection anchorBox focusBox].
  rewrite Z.min_comm, Z.max_comm.
  destruct (hasSelection sel), (is_null (anchorBox sel)), (is_null (focusBox sel));
    cbn [negb orb]; try reflexivity.
  destruct (getBoxIndex sel box <? 0)%Z, (getBoxIndex sel (anchorBox sel) <? 0)%Z,
    (getBoxIndex sel (focusBox sel) <? 0)%Z; reflexivity.
Qed.

Ltac order_cases a f :=
  destruct (Z.leb_spec a f), (Z.leb_spec f a).

Lemma isStartBox_swap (sel : TextSelection) (box : option Ptr) :
  isStartBox (swap_ends sel) box = isStartBox sel box.
Proof.
  unfold isStartBox. rewrite !getBoxIndex_swap. cbn [swap_ends hasSelection anchorBox focusBox].
  destruct (hasSelection sel); cbn [negb]; [|reflexivity].
  order_cases (getBoxIndex sel (anchorBox sel)) (getBoxIndex sel (focusBox sel));
    try reflexivity; lia.
Qed.

Lemma isEndBox_swap (sel : TextSelection) (box : option Ptr) :
  isEndBox (swap_ends sel) box = isEndBox sel box.
Proof.
  unfold isEndBox. rewrite !getBoxIndex_swap. cbn [swap_ends hasSelection anchorBox focusBox].
  destruct (hasSelection sel); cbn [negb]; [|reflexivity].
  order_cases (getBoxIndex sel (anchorBox sel)) (getBoxIndex sel (focusBox sel));
    try reflexivity; lia.
Qed.

Ltac nat_tests :=
  repeat match goal with
         | H : (_ <? _)%nat = true |- _ => apply Nat.ltb_lt in H
         | H : (_ <? _)%nat = false |- _ => apply Nat.ltb_ge in H
         | H : (_ =? _)%nat = true |- _ => apply Nat.eqb_eq in H
         | H : (_ =? _)%nat = false |- _ => apply Nat.eqb_neq in H
         end.

(** The part of a line selected when both ends are in its box, from the
    two ends in either order. *)
Definition same_box_range (l1 c1 l2 c2 lineIdx lineLength : nat) : nat * nat :=
  let '(startLine, startChar, endLine, endChar) :=
    if (l2 <? l1)%nat || ((l1 =? l2)%nat && (c2 <? c1)%nat)
    then (l2, c2, l1, c1) else (l1, c1, l2, c2) in
  if (lineIdx <? startLine)%nat || (endLine <? lineIdx)%nat then (0, 0)%nat
  else
    ((if (lineIdx =? startLine)%nat then startChar else 0%nat),
     (if (lineIdx =? endLine)%nat then endChar else lineLength)).

Lemma same_box_range_sym (l1 c1 l2 c2 lineIdx lineLength : nat) :
  same_box_range l1 c1 l2 c2 lineIdx lineLength
  = same_box_range l2 c2 l1 c1 lineIdx lineLength.
Proof.
  unfold same_box_range.
  destruct (l2 <? l1)%nat eqn:E1, (l1 =? l2)%nat eqn:E2, (c2 <? c1)%nat eqn:E3,
    (l1 <? l2)%nat eqn:E4, (l2 =? l1)%nat eqn:E5, (c1 <? c2)%nat eqn:E6;
    nat_tests; try lia; cbn [orb andb]; try reflexivity.
  assert (c1 = c2) by lia. subst. reflexivity.
Qed.

Lemma range_swap (sel : TextSelection) (box : option Ptr) (lineIdx lineLength : nat) :
  getSelectionRangeForLine (swap_ends sel) box lineIdx lineLength
  = getSelectionRangeForLine sel box lineIdx lineLength.
Proof.
  unfold getSelectionRangeForLine.
  rewrite state_swap, isStartBox_swap, isEndBox_swap, !getBoxIndex_swap.
  cbn [swap_ends anchorBox focusBox anchorLineIndex anchorCharIndex focusLineIndex
         focusCharIndex].
  destruct (negb (getBoxSelectionState sel box =? 0)%Z); [reflexivity|].
  cbv zeta.
  pose proof (same_box_range_sym (anchorLineIndex sel) (anchorCharIndex sel)
                (focusLineIndex sel) (focusCharIndex sel) lineIdx lineLength) as Hsym.
  unfold same_box_range in Hsym.
  unfold isStartBox, isEndBox. destruct (hasSelection sel); cbn [negb andb].
  2: { order_cases (getBoxIndex sel (anchorBox sel)) (getBoxIndex sel (focusBox sel));
       reflexivity. }
  order_cases (getBoxIndex sel (anchorBox sel)) (getBoxIndex sel (focusBox sel));
    try lia; try reflexivity.
  replace (getBoxIndex sel (focusBox sel)) with (getBoxIndex sel (anchorBox sel)) by lia.
  destruct (getBoxIndex sel box =? getBoxIndex sel (anchorBox sel))%Z; cbn [andb].
  - symmetry. exact Hsym.
  - reflexivity.
Qed.

Lemma copy_lines_swap (sel : TextSelection) (box : Ptr) (ls : list TextLayout.TextLine)
    (lineIdx : nat) (result : string) :
  copy_lines (swap_ends sel) box ls lineIdx result = copy_lines sel box ls lineIdx result.
Proof.
  revert lineIdx result. induction ls as [|line rest IH]; intros lineIdx result;
    [reflexivity|].
  cbn [copy_lines]. rewrite range_swap.
  destruct (getSelectionRangeForLine sel (Some box) lineIdx _). apply IH.
Qed.

Lemma copy_boxes_swap (heap : Heap) (sel : TextSelection) (startIdx count boxIdx : nat)
    (result : string) :
  copy_boxes heap (swap_ends sel) startIdx count boxIdx result
  = copy_boxes heap sel startIdx count boxIdx result.
Proof.
  revert boxIdx result. induction count as [|count IH]; intros boxIdx result;
    [reflexivity|].
  cbn [copy_boxes swap_ends allTextBoxes].
  destruct (lines (heap (nth boxIdx (allTextBoxes sel) 0%nat))) as [|l ls].
  - apply IH.
  - rewrite copy_lines_swap. apply IH.
Qed.

(** X9.  The text copied does not depend on the direction of the
    selection: with anchor and focus exchanged, every line has the same
    selected range and [getSelectedText] returns the same string. *)
Theorem getSelectedText_direction (heap : Heap) (sel : TextSelection) :
  getSelectedText heap (swap_ends sel) = getSelectedText heap sel /\
  forall box lineIdx lineLength,
    getSelectionRangeForLine (swap_ends sel) box lineIdx lineLength
    = getSelectionRangeForLine sel box lineIdx lineLength.
Proof.
  split; [|intros; apply range_swap].
  unfold getSelectedText. rewrite !getBoxIndex_swap.
  cbn [swap_ends hasSelection anchorBox focusBox].
  replace (negb (hasSelection sel) || is_null (focusBox sel) || is_null (anchorBox sel))
    with (negb (hasSelection sel) || is_null (anchorBox sel) || is_null (focusBox sel))
    by (destruct (hasSelection sel), (is_null (anchorBox sel)), (is_null (focusBox sel));
        reflexivity).
  destruct (_ || _ || _); [reflexivity|].
  rewrite (orb_comm (getBoxIndex sel (focusBox sel) <? 0)%Z).
  destruct (_ || _); [reflexivity|].
  cbv zeta. rewrite Z.min_comm, Z.max_comm. apply copy_boxes_swap.
Qed.

End DirectionFacts.

(** ** Words: every letter of a word gives the same word *)

Module WordMoreFacts.
Import Word.

Lemma word_start_spec (text : string) (i : nat) :
  (forall k, (word_start text i <= k < i)%nat -> isWordBoundaryAt text k = false) /\
  (word_start text i = 0%nat \/
   exists p, word_start text i = S p /\ isWordBoundaryAt text p = true).
Proof.
  induction i as [|i [IH1 IH2]]; cbn [word_start].
  - split; [intros k Hk; lia | now left].
  - destruct (isWordBoundaryAt text i) eqn:E.
    + split; [intros k Hk; lia | right; now exists i].
    + split; [|exact IH2]. intros k Hk.
      destruct (Nat.eq_dec k i) as [->|Hne]; [exact E | apply IH1; lia].
Qed.

Lemma word_start_same (text : string) (s j : nat) :
  (s <= j)%nat ->
  (forall k, (s <= k < j)%nat -> isWordBoundaryAt text k = false) ->
  (s = 0%nat \/ exists p, s = S p /\ isWordBoundaryAt text p = true) ->
  word_start text j = s.
Proof.
  intros Hsj Hin Hs. induction j as [|j IH]; cbn [word_start]; [lia|].
  destruct (Nat.eq_dec s (S j)) as [->|Hne].
  - destruct Hs as [Hs | (p & Hp & Hb)]; [discriminate|]. injection Hp as <-.
    now rewrite Hb.
  - rewrite (Hin j ltac:(lia)). apply IH; [lia|]. intros k Hk. apply Hin. lia.
Qed.

Lemma scan_while_all (len : nat) (cond : nat -> bool) (fuel i : nat) :
  forall k, (i <= k < scan_while len cond fuel i)%nat -> cond k = true.
Proof.
  revert i. induction fuel as [|f IH]; intros i k Hk; cbn [scan_while] in Hk; [lia|].
  destruct ((i <? len)%nat && cond i) eqn:E; [|lia].
  apply andb_true_iff in E as [_ Ec].
  destruct (Nat.eq_dec k i) as [->|Hne]; [exact Ec | apply (IH (S i)); lia].
Qed.

Lemma scan_while_same (len : nat) (cond : nat -> bool) (fuel j r : nat) :
  (j <= r <= len)%nat -> (r - j <= fuel)%nat ->
  (forall k, (j <= k < r)%nat -> cond k = true) ->
  ((r <? len)%nat && cond r) = false ->
  scan_while len cond fuel j = r.
Proof.
  revert j. induction fuel as [|f IH]; intros j Hj Hf Hin Hout; cbn [scan_while].
  - lia.
  - destruct (Nat.eq_dec j r) as [->|Hne]; [now rewrite Hout|].
    replace (j <? len)%nat with true by (symmetry; apply Nat.ltb_lt; lia).
    rewrite (Hin j ltac:(lia)). cbn [andb].
    apply IH; [lia | lia | | exact Hout]. intros k Hk. apply Hin. lia.
Qed.

Lemma space_is_boundary (text : string) (k : nat) :
  space_at text k = true -> isWordBoundaryAt text k = true.
Proof.
  unfold space_at, isWordBoundaryAt. destruct (char_at text k) as [c|]; [|reflexivity].
  now intros ->.
Qed.

(** X10.  Inside a word the answer does not depend on the letter asked
    about: if [findWordBoundaries] at a non-boundary index [i] returns
    [(s, e)], it returns [(s, e)] at every non-boundary index of
    [s, e). *)
Theorem findWordBoundaries_same_word (text : string) (i j s e : nat) :
  (i < String.length text)%nat -> isWordBoundaryAt text i = false ->
  findWordBoundaries text i = (s, e) ->
  (s <= j < e)%nat -> isWordBoundaryAt text j = false ->
  findWordBoundaries text j = (s, e).
Proof.
  intros Hi Bi Hfw Hj Bj.
  assert (Hne : is_empty text = false) by (destruct text; [cbn in Hi; lia | reflexivity]).
  set (len := String.length text) in *.
  set (notB := fun k => negb (isWordBoundaryAt text k)).
  unfold findWordBoundaries in Hfw. fold len in Hfw. rewrite Hne in Hfw. cbv zeta in Hfw.
  replace (len <? i)%nat with false in Hfw by (symmetry; apply Nat.ltb_ge; lia).
  replace (i =? len)%nat with false in Hfw by (symmetry; apply Nat.eqb_neq; lia).
  rewrite Bi in Hfw. fold notB in Hfw.
  set (end1 := scan_while len notB len i) in *.
  injection Hfw as Hs He.
  destruct (word_start_spec text i) as [Hw1 Hw2]. rewrite Hs in Hw1, Hw2.
  pose proof (WordFacts.word_start_le text i) as Hsi. rewrite Hs in Hsi.
  pose proof (WordFacts.scan_while_ge len notB len i) as He1. fold end1 in He1.
  pose proof (WordFacts.scan_while_le len notB len i ltac:(lia)) as He2. fold end1 in He2.
  pose proof (scan_while_all len notB len i) as Hall1. fold end1 in Hall1.
  pose proof (WordFacts.scan_while_exit len notB len i ltac:(lia)) as Hexit. cbv zeta in Hexit.
  fold end1 in Hexit.
  assert (Hjend : (j < end1)%nat).
  { destruct (Nat.lt_ge_cases j end1) as [H|H]; [exact H|]. exfalso.
    pose proof (scan_while_all len (space_at text) len end1 j) as Hsp.
    rewrite He in Hsp. specialize (Hsp ltac:(lia)).
    apply space_is_boundary in Hsp. congruence. }
  assert (Hword : forall k, (s <= k < end1)%nat -> isWordBoundaryAt text k = false).
  { intros k Hk. destruct (Nat.lt_ge_cases k i) as [H|H]; [apply Hw1; lia|].
    specialize (Hall1 k ltac:(lia)). unfold notB in Hall1. now apply negb_true_iff in Hall1. }
  unfold findWordBoundaries. fold len. rewrite Hne. cbv zeta.
  replace (len <? j)%nat with false by (symmetry; apply Nat.ltb_ge; lia).
  replace (j =? len)%nat with false by (symmetry; apply Nat.eqb_neq; lia).
  rewrite Bj. fold notB.
  rewrite (word_start_same text s j); [| lia | intros k Hk; apply Hword; lia | exact Hw2].
  rewrite (scan_while_same len notB len j end1); [now rewrite He | lia | lia | | exact Hexit].
  intros k Hk. unfold notB. rewrite Hword by lia. reflexivity.
Qed.

Lemma findWordBoundaries_same_word_witness :
  findWordBoundaries "I don't know" 6 = (2, 8)%nat.
Proof.
  apply (findWordBoundaries_same_word "I don't know" 4 6 2 8); try reflexivity; cbn; lia.
Defined.

End WordMoreFacts.

(** ** Lengths with units *)

Module UnitFacts.
Import Css CssNumber.
Local Open Scope Q_scope.

(** A unit as written after a number: it does not begin like a number and
    holds nothing [trim] strips. *)
Definition unit_text (u : string) : Prop :=
  match u with
  | EmptyString => False
  | String c _ => is_num_char c = false
  end /\ all_chars (fun c => negb (is_trim_char c)) u = true.

Lemma take_while_app (p : ascii -> bool) (s u : string) :
  all_chars p s = true ->
  match u with EmptyString => True | String c _ => p c = false end ->
  take_while p (s ++ u) = s /\ drop_while p (s ++ u) = u.
Proof.
  intros Hs Hu. induction s as [|c s IH].
  - destruct u as [|c u]; [now split|]. cbn. now rewrite Hu.
  - cbn in Hs. apply andb_true_iff in Hs as [Hc Hs]. cbn. rewrite Hc.
    destruct (IH Hs) as [-> ->]. now split.
Qed.

(** X11.  A number that a [float] can hold, followed by a unit:
    [parseValue] reads the number and looks the unit up without regard to
    case; a unit it does not know counts as pixels. *)
Theorem parseValue_with_unit (s u : string) :
  unitless_numeric s = true -> CssFacts.float_range (numeric_value s) = true ->
  unit_text u ->
  parseValue (s ++ u)
  = Ok (mkCssValue (numeric_value s) (unit_of (map_string tolower u))).
Proof.
  intros H Hrange [Hu0 Hu]. destruct (CssFacts.numeric_body_chars s H) as [Hall Hne].
  pose proof (CssFacts.stof_numeric_body s H Hrange) as Hstof. cbv zeta in Hstof.
  assert (Hs : exists c r, s = String c r /\
             (Ascii.eqb c "-" = true \/ is_num_char c = true)).
  { destruct s as [|c r]; [now elim Hne|]. exists c, r. split; [reflexivity|].
    destruct (Ascii.eqb c "-") eqn:E; [now left|right].
    cbn [unsigned_part] in Hall. rewrite E in Hall. cbn [all_chars] in Hall.
    now apply andb_true_iff in Hall as [Hc _]. }
  destruct Hs as (c & r & -> & Hc).
  assert (Htrim : all_chars (fun c => negb (is_trim_char c)) (String c r) = true).
  { destruct Hc as [Hc|Hc].
    - cbn [unsigned_part] in Hall. rewrite Hc in Hall.
      cbn [all_chars]. destruct (minus_facts c Hc) as (-> & _). cbn [andb].
      apply (all_chars_weaken is_num_char); [exact num_char_not_trim | exact Hall].
    - destruct (num_char_facts c Hc) as (Hm & _).
      cbn [unsigned_part] in Hall. rewrite Hm in Hall.
      apply (all_chars_weaken is_num_char); [exact num_char_not_trim | exact Hall]. }
  unfold parseValue.
  rewrite trim_untouched by (rewrite SelectorFacts.all_chars_app, Htrim, Hu; reflexivity).
  assert (Hauto : String.eqb (String c r ++ u) "auto" = false /\
                  String.eqb (String c r ++ u) "none" = false).
  { cbn. destruct Hc as [Hc|Hc].
    - destruct (minus_facts c Hc) as (_ & -> & ->). now split.
    - destruct (num_char_facts c Hc) as (_ & _ & _ & _ & _ & -> & ->). now split. }
  destruct Hauto as [-> ->].
  assert (Hzero : String.eqb (String c r ++ u) "0" = false).
  { apply String.eqb_neq. intros E. apply (f_equal String.length) in E.
    rewrite CaretFacts.length_app in E. destruct u; [now destruct Hu0|]. cbn in E. lia. }
  rewrite Hzero. cbn [orb]. change (is_empty (String c r ++ u)) with false. cbv iota.
  unfold numeric_value. cbv zeta.
  replace (match String c r ++ u with
           | String c0 r0 => if Ascii.eqb c0 "-" then (true, r0) else (false, String c r ++ u)
           | EmptyString => (false, String c r ++ u)
           end)
    with (is_negative (String c r), unsigned_part (String c r) ++ u)
    by (cbn; now destruct (Ascii.eqb c "-")).
  cbv beta iota.
  set (body := unsigned_part (String c r)) in *.
  destruct (take_while_app is_num_char body u Hall) as [-> ->].
  { destruct u; [exact I | exact Hu0]. }
  destruct body as [|b0 b1] eqn:Eb; [congruence|].
  change (is_empty (String b0 b1)) with false. cbv iota.
  rewrite Hstof. cbn [bind]. rewrite (trim_untouched u Hu). reflexivity.
Qed.

Lemma parseValue_with_unit_witness :
  unitless_numeric "2.5" = true /\ CssFacts.float_range (numeric_value "2.5") = true /\
  parseValue "2.5EM" = Ok (mkCssValue (numeric_value "2.5") Em).
Proof.
  split; [reflexivity|]. split; [reflexivity|].
  apply (parseValue_with_unit "2.5" "EM"); [reflexivity | reflexivity|].
  split; reflexivity.
Defined.

(** Outside the range of [float] the number is not read: [std::stof]
    throws [std::out_of_range], and [parseValue] with it. *)
Example parseValue_with_unit_out_of_range :
  parseValue (CssFacts.forty_digits ++ "px") = Throw out_of_range.
Proof. vm_compute. reflexivity. Qed.

(** Points are not a unit the parser knows: a length in [pt] is that many
    pixels; "0px" is zero pixels and not the sentinel of "0". *)
Example parseValue_units :
  parseValue "12pt" = Ok (mkCssValue (numeric_value "12") Px) /\
  parseValue "50%" = Ok (mkCssValue (numeric_value "50") Percent) /\
  parseValue "0px" = Ok (mkCssValue (numeric_value "0") Px).
Proof.
  repeat split; vm_compute; reflexivity.
Qed.

End UnitFacts.

(** ** Splitting a value into its tokens *)

Module SplitFacts.
Import Style.

(** A token: not empty, no white space in it. *)
Definition token (t : string) : Prop :=
  t <> "" /\ CssNumber.all_chars (fun c => negb (isspace c)) t = true.

(** White space only. *)
Definition blank (w : string) : Prop := CssNumber.all_chars isspace w = true.

Lemma split_token (t rest cur : string) :
  CssNumber.all_chars (fun c => negb (isspace c)) t = true ->
  split_ws_from (t ++ rest) cur = split_ws_from rest (rev_string_onto t cur).
Proof.
  revert cur. induction t as [|c t IH]; intros cur H; [reflexivity|].
  cbn in H. apply andb_true_iff in H as [Hc Ht]. apply negb_true_iff in Hc.
  cbn [append split_ws_from rev_string_onto]. rewrite Hc. now apply IH.
Qed.

Lemma split_blank (w rest : string) :
  blank w -> split_ws_from (w ++ rest) "" = split_ws_from rest "".
Proof.
  unfold blank. induction w as [|c w IH]; intros H; [reflexivity|].
  cbn in H. apply andb_true_iff in H as [Hc Hw].
  cbn [append split_ws_from is_empty]. rewrite Hc. now apply IH.
Qed.

Lemma rev_onto_nonempty (t cur : string) :
  t <> "" -> is_empty (rev_string_onto t cur) = false.
Proof.
  revert cur. induction t as [|c t IH]; intros cur H; [congruence|].
  cbn [rev_string_onto]. destruct t as [|d t]; [reflexivity|]. now apply IH.
Qed.

(** A token, then white space: the token is cut there. *)
Lemma split_token_blank (t w rest : string) :
  token t -> w <> "" -> blank w ->
  split_ws_from (t ++ w ++ rest) "" = t :: split_ws_from rest "".
Proof.
  intros [Hne Ht] Hw Hb. rewrite (split_token t _ "" Ht).
  destruct w as [|c w]; [congruence|]. unfold blank in Hb. cbn in Hb.
  apply andb_true_iff in Hb as [Hc Hb].
  cbn [append split_ws_from]. rewrite Hc, (rev_onto_nonempty t "" Hne).
  fold (rev_string t). f_equal.
  - unfold rev_string. rewrite rev_string_onto_twice. cbn. apply append_empty_r.
  - now apply split_blank.
Qed.

Lemma split_token_end (t : string) : token t -> split_ws_from t "" = [t].
Proof.
  intros [Hne Ht]. rewrite <- (append_empty_r t) at 1. rewrite (split_token t "" "" Ht).
  cbn [split_ws_from]. rewrite (rev_onto_nonempty t "" Hne).
  unfold rev_string. rewrite rev_string_onto_twice. cbn. now rewrite append_empty_r.
Qed.

(** X12.  Tokens written with one space between them, with any white
    space before and after, are split back into the same tokens: no token
    is lost, cut or merged. *)
Theorem splitValues_join (tokens : list string) (before after : string) :
  Forall token tokens -> blank before -> blank after ->
  splitValues (before ++ String.concat " " tokens ++ after) = tokens.
Proof.
  intros Ht Hb Ha. unfold splitValues. rewrite (split_blank before _ Hb). clear Hb before.
  induction Ht as [|t tokens Htok Hrest IH].
  - cbn [String.concat append]. rewrite <- (append_empty_r after).
    now rewrite (split_blank after "" Ha).
  - destruct tokens as [|t' tokens].
    + cbn [String.concat]. destruct after as [|c after].
      * rewrite append_empty_r. now apply split_token_end.
      * rewrite <- (append_empty_r (String c after)).
        rewrite (split_token_blank t (String c after) "" Htok ltac:(discriminate) Ha).
        reflexivity.
    + change (String.concat " " (t :: t' :: tokens))
        with (t ++ " " ++ String.concat " " (t' :: tokens)).
      rewrite !CopyFacts.append_assoc.
      rewrite (split_token_blank t " " _ Htok ltac:(discriminate) eq_refl).
      f_equal. exact IH.
Qed.

Lemma splitValues_join_witness :
  splitValues "  10px 2em auto " = ["10px"; "2em"; "auto"].
Proof.
  apply (splitValues_join ["10px"; "2em"; "auto"] "  " " ").
  - repeat constructor; discriminate.
  - reflexivity.
  - reflexivity.
Defined.

End SplitFacts.

(** ** Text nodes: the words, one space apart *)

Module HtmlTextFacts.
Import Style.
Import HtmlText.

Definition join (words : list string) : string := String.concat " " words.

Definition lead (s : string) : string := if starts_with_space s then " " else "".
Definition trail (s : string) : string := if ends_with_space s then " " else "".

Lemma join_cons (w : string) (ws : list string) :
  ws <> [] -> join (w :: ws) = w ++ " " ++ join ws.
Proof. destruct ws; [congruence | reflexivity]. Qed.

Lemma split_nonempty (s cur : string) :
  is_empty cur = false -> split_ws_from s cur <> [].
Proof.
  revert cur. induction s as [|c s IH]; intros cur H; cbn [split_ws_from].
  - rewrite H. discriminate.
  - destruct (isspace c); [rewrite H; discriminate | now apply IH].
Qed.

Lemma trail_cons (c : ascii) (s : string) :
  s <> "" -> trail (String c s) = trail s.
Proof. destruct s as [|d s]; [congruence | reflexivity]. Qed.

(** After white space only, nothing is left to split. *)
Lemma split_nil_blank (s : string) :
  split_ws_from s "" = [] -> CssNumber.all_chars isspace s = true.
Proof.
  induction s as [|c s IH]; [reflexivity|]. cbn [split_ws_from is_empty].
  destruct (isspace c) eqn:E.
  - intros H. cbn. now rewrite E, IH.
  - intros H. exfalso. now apply (split_nonempty s (String c "")) in H.
Qed.

Lemma blank_trail (c : ascii) (s : string) :
  isspace c = true -> CssNumber.all_chars isspace s = true -> trail (String c s) = " ".
Proof.
  revert c. induction s as [|d s IH]; intros c Hc Hs.
  - unfold trail, ends_with_space. cbn. now rewrite Hc.
  - cbn in Hs. apply andb_true_iff in Hs as [Hd Hs].
    rewrite trail_cons by discriminate. now apply IH.
Qed.

Lemma rev_onto_app (s acc : string) :
  rev_string_onto s acc = rev_string_onto s "" ++ acc.
Proof.
  revert acc. induction s as [|d s IH]; intros acc; [reflexivity|].
  cbn [rev_string_onto]. rewrite (IH (String d acc)), (IH (String d "")).
  now rewrite CopyFacts.append_assoc.
Qed.

Lemma rev_string_cons (c : ascii) (cur : string) :
  rev_string (String c cur) = rev_string cur ++ String c "".
Proof. unfold rev_string. cbn [rev_string_onto]. apply rev_onto_app. Qed.

(** The collapsed text, by the state of the loop: after white space
    ([lastWasSpace]), and inside a word of which [cur] holds the
    characters read so far, last first. *)
Lemma collapse_words (s : string) :
  (collapse s true
   = match split_ws_from s "" with
     | [] => ""
     | words => join words ++ trail s
     end) /\
  (forall cur, is_empty cur = false ->
     rev_string cur ++ collapse s false = join (split_ws_from s cur) ++ trail s).
Proof.
  induction s as [|c s [IHA IHB]].
  - split; [reflexivity|]. intros cur H. cbn [collapse split_ws_from]. rewrite H.
    cbn. unfold trail. cbn. reflexivity.
  - split.
    + cbn [collapse split_ws_from is_empty]. destruct (isspace c) eqn:E.
      * rewrite IHA. destruct (split_ws_from s "") as [|w ws] eqn:Es; [reflexivity|].
        rewrite trail_cons; [reflexivity|]. intros ->. discriminate.
      * specialize (IHB (String c "") eq_refl). cbn [rev_string rev_string_onto append] in IHB.
        unfold rev_string in IHB. cbn [rev_string_onto append] in IHB. rewrite IHB.
        pose proof (split_nonempty s (String c "") eq_refl) as Hne.
        destruct (split_ws_from s (String c "")) as [|w ws]; [congruence|].
        destruct s as [|d s]; [|now rewrite (trail_cons c (String d s)) by discriminate].
        unfold trail, ends_with_space. cbn. now rewrite E.
    + intros cur Hcur. cbn [collapse split_ws_from]. destruct (isspace c) eqn:E.
      * rewrite Hcur, IHA.
        destruct (split_ws_from s "") as [|w ws] eqn:Es.
        -- cbn [join String.concat]. rewrite (blank_trail c s E (split_nil_blank s Es)).
           reflexivity.
        -- rewrite (join_cons (rev_string cur) (w :: ws)) by discriminate.
           rewrite trail_cons by (intros Hs; rewrite Hs in Es; discriminate Es).
           now rewrite !CopyFacts.append_assoc.
      * specialize (IHB (String c cur) eq_refl). rewrite rev_string_cons in IHB.
        rewrite CopyFacts.append_assoc in IHB. cbn [append] in IHB. rewrite IHB.
        destruct s as [|d s]; [|now rewrite (trail_cons c (String d s)) by discriminate].
        unfold trail, ends_with_space. cbn. now rewrite E.
Qed.

(** A word: not empty, no white space. *)
Definition word (w : string) : Prop :=
  is_empty w = false /\ CssNumber.all_chars (fun c => negb (isspace c)) w = true.

Lemma split_words (s cur : string) :
  CssNumber.all_chars (fun c => negb (isspace c)) cur = true ->
  Forall word (split_ws_from s cur).
Proof.
  revert cur. induction s as [|c s IH]; intros cur Hcur; cbn [split_ws_from].
  - destruct (is_empty cur) eqn:E; constructor; [|constructor]. split.
    + destruct cur; [discriminate|]. now apply SplitFacts.rev_onto_nonempty.
    + unfold rev_string. now apply all_chars_rev_onto.
  - destruct (isspace c) eqn:Ec.
    + destruct (is_empty cur) eqn:E; [now apply IH|]. constructor; [|now apply IH]. split.
      * destruct cur; [discriminate|]. now apply SplitFacts.rev_onto_nonempty.
      * unfold rev_string. now apply all_chars_rev_onto.
    + apply IH. cbn. now rewrite Ec.
Qed.

Lemma not_space_not_blank (c : ascii) : isspace c = false -> is_blank_char c = false.
Proof.
  unfold is_blank_char. destruct (Ascii.eqb_spec c " ") as [->|]; [discriminate | reflexivity].
Qed.

Lemma word_last (w : string) :
  word w -> exists c, last_char w = Some c /\ isspace c = false.
Proof.
  intros [Hne Hall]. induction w as [|c w IH]; [discriminate|].
  cbn in Hall. apply andb_true_iff in Hall as [Hc Hw]. apply negb_true_iff in Hc.
  destruct w as [|d w]; [now exists c|]. apply IH; [reflexivity | exact Hw].
Qed.

(** Words joined by single spaces begin and end with a character that is
    not white space. *)
Lemma join_ends (w : string) (ws : list string) :
  Forall word (w :: ws) ->
  (exists c r, join (w :: ws) = String c r /\ isspace c = false) /\
  (exists c, last_char (join (w :: ws)) = Some c /\ isspace c = false).
Proof.
  intros H. inversion H as [|? ? Hw Hws]; subst. split.
  - destruct Hw as [Hne Hall]. destruct w as [|c w]; [discriminate|].
    cbn in Hall. apply andb_true_iff in Hall as [Hc _]. apply negb_true_iff in Hc.
    destruct ws; cbn; eauto.
  - clear H. revert w Hw. induction Hws as [|w' ws Hw' Hws IH]; intros w Hw.
    + cbn. now apply word_last.
    + rewrite join_cons by discriminate. rewrite CopyFacts.last_char_append.
      * rewrite CopyFacts.last_char_append; [now apply IH|].
        destruct (IH w' Hw') as (c & Hc & _). destruct (join (w' :: ws)); [discriminate | reflexivity].
      * reflexivity.
Qed.

Lemma drop_trailing_kept (s : string) (c : ascii) :
  last_char s = Some c -> is_blank_char c = false -> drop_trailing s = s.
Proof.
  induction s as [|d s IH]; intros Hl Hc; [reflexivity|].
  cbn [drop_trailing]. destruct s as [|e s].
  - cbn in Hl. injection Hl as ->. cbn. now rewrite Hc.
  - rewrite IH by assumption. reflexivity.
Qed.

Lemma drop_trailing_space (s : string) :
  drop_trailing (s ++ " ") = drop_trailing s.
Proof.
  induction s as [|d s IH]; [reflexivity|]. cbn [append drop_trailing]. now rewrite IH.
Qed.

(** X13.  The content of a text node is the words of the text, one space
    apart, with one space in front when the text began with white space
    and one behind when it ended with white space; a text of white space
    only, or an empty one, makes no node. *)
Theorem text_node_words (processed : string) :
  text_node_content processed
  = match splitValues processed with
    | [] => None
    | words => Some (lead processed ++ join words ++ trail processed)
    end.
Proof.
  unfold text_node_content, splitValues. cbv zeta.
  assert (Hform : collapse processed false
                  = match split_ws_from processed "" with
                    | [] => lead processed
                    | words => lead processed ++ join words ++ trail processed
                    end).
  { destruct processed as [|c p]; [reflexivity|].
    unfold lead. cbn [starts_with_space collapse split_ws_from is_empty].
    destruct (isspace c) eqn:E.
    - rewrite (proj1 (collapse_words p)).
      destruct (split_ws_from p "") as [|w ws] eqn:Es; [reflexivity|].
      rewrite (trail_cons c p) by (intros Hp; rewrite Hp in Es; discriminate Es).
      reflexivity.
    - pose proof (proj2 (collapse_words p) (String c "") eq_refl) as HB.
      unfold rev_string in HB. cbn [rev_string_onto append] in HB. rewrite HB.
      pose proof (split_nonempty p (String c "") eq_refl) as Hne.
      destruct (split_ws_from p (String c "")) as [|w ws]; [congruence|].
      cbn [append]. destruct p as [|d p]; [|now rewrite (trail_cons c (String d p)) by discriminate].
      unfold trail, ends_with_space. cbn. now rewrite E. }
  rewrite Hform. pose proof (split_words processed "" eq_refl) as Hwords.
  destruct (split_ws_from processed "") as [|w ws] eqn:Es.
  - unfold lead. destruct (starts_with_space processed); reflexivity.
  - destruct (join_ends w ws Hwords) as [(c0 & r0 & Hj & Hc0) (cl & Hl & Hcl)].
    set (J := join (w :: ws)) in *.
    assert (Htrim : drop_trailing (drop_while is_blank_char
                                     (lead processed ++ J ++ trail processed)) = J).
    { assert (Hd : drop_while is_blank_char (lead processed ++ J ++ trail processed)
                   = J ++ trail processed).
      { unfold lead. destruct (starts_with_space processed); cbn [append drop_while is_blank_char Ascii.eqb Bool.eqb andb];
          rewrite Hj; cbn [append drop_while]; now rewrite (not_space_not_blank c0 Hc0). }
      rewrite Hd. unfold trail. destruct (ends_with_space processed).
      - rewrite drop_trailing_space. apply (drop_trailing_kept J cl Hl).
        now apply not_space_not_blank.
      - rewrite append_empty_r. apply (drop_trailing_kept J cl Hl).
        now apply not_space_not_blank. }
    rewrite Htrim.
    assert (HJ : is_empty J = false) by (rewrite Hj; reflexivity).
    rewrite HJ.
    assert (Hres : forall t, is_empty (lead processed ++ J ++ t) = false).
    { intros t. rewrite !CopyFacts.is_empty_append, HJ. cbn. now rewrite andb_false_r. }
    assert (Hsuffix :
      (if ends_with_space processed && negb (starts_with_space processed) then " "
       else if ends_with_space processed && starts_with_space processed
               && match last_char (lead processed ++ J ++ trail processed) with
                  | Some c => is_blank_char c
                  | None => false
                  end
            then " " else "") = trail processed).
    { unfold trail, lead.
      destruct (ends_with_space processed) eqn:Ee; cbn [andb]; [|reflexivity].
      destruct (starts_with_space processed); cbn [negb andb]; [|reflexivity].
      rewrite (CopyFacts.last_char_append " " (J ++ " "))
        by (rewrite CopyFacts.is_empty_append, HJ; reflexivity).
      rewrite (CopyFacts.last_char_append J " ") by reflexivity. reflexivity. }
    rewrite Hsuffix. fold (lead processed). now rewrite Hres.
Qed.

(** The words the node holds, one space apart, no white space lost or
    added inside. *)
Example text_node_words_sample :
  text_node_content (String (ascii_of_nat 10) "  Hello,   world" ++ String (ascii_of_nat 9) "")
  = Some " Hello, world " /\
  text_node_content "a  b" = Some "a b" /\
  text_node_content "   " = None.
Proof. repeat split. Qed.

End HtmlTextFacts.

(** ** Character references *)

Module EntityFacts.
Import Entities.
Import CssNumber (all_chars).

Lemma get_shift (pre s : string) (n : nat) :
  String.get (String.length pre + n) (pre ++ s) = String.get n s.
Proof. induction pre as [|d pre IH]; [reflexivity | exact IH]. Qed.

Lemma find_char_shift (c : ascii) (pre s : string) (n : nat) :
  find_char c (pre ++ s) (String.length pre + n) =
  option_map (Nat.add (String.length pre)) (find_char c s n).
Proof.
  induction pre as [|d pre IH]; cbn [append String.length Nat.add].
  - now destruct (find_char c s n).
  - cbn [find_char]. rewrite IH. now destruct (find_char c s n).
Qed.

Lemma substring_shift (pre s : string) (n m : nat) :
  substring (String.length pre + n) m (pre ++ s) = substring n m s.
Proof. induction pre as [|d pre IH]; [reflexivity | exact IH]. Qed.

Lemma find_char_bound (c : ascii) (s : string) :
  forall pos k, find_char c s pos = Some k -> (pos <= k < String.length s)%nat.
Proof.
  induction s as [|d s IH]; intros pos k H; [discriminate|].
  cbn [find_char] in H. cbn [String.length]. destruct pos as [|p].
  - destruct (Ascii.eqb d c); [injection H as <-; lia|].
    destruct (find_char c s 0) as [j|] eqn:E; [|discriminate].
    injection H as <-. apply IH in E. lia.
  - destruct (find_char c s p) as [j|] eqn:E; [|discriminate].
    injection H as <-. apply IH in E. lia.
Qed.

Lemma reference_shift (pre s : string) (n : nat) :
  reference (pre ++ s) (String.length pre + n) =
  option_map (fun rn => (fst rn, (String.length pre + snd rn)%nat)) (reference s n).
Proof.
  unfold reference. rewrite find_char_shift.
  destruct (find_char ";" s n) as [k|] eqn:E; [|reflexivity].
  cbn [option_map]. apply find_char_bound in E.
  replace (String.length pre + k - (String.length pre + n))%nat with (k - n)%nat by lia.
  destruct (k - n <? 12)%nat; [|reflexivity].
  replace (String.length pre + n + 1)%nat with (String.length pre + (n + 1))%nat by lia.
  rewrite substring_shift.
  replace (String.length pre + k + 1)%nat with (String.length pre + (k + 1))%nat by lia.
  destruct (starts_with_hash _); [destruct (numeric _)|];
    try reflexivity; now destruct (find _ htmlEntities).
Qed.

Lemma reference_bound (s : string) (pos : nat) (r : string) (n : nat) :
  reference s pos = Some (r, n) -> (pos < n <= String.length s)%nat.
Proof.
  unfold reference. destruct (find_char ";" s pos) as [k|] eqn:E; [|discriminate].
  apply find_char_bound in E. destruct (k - pos <? 12)%nat; [|discriminate].
  destruct (starts_with_hash _); [destruct (numeric _)|];
    try destruct (find _ htmlEntities); intros H; try discriminate;
    injection H as _ <-; lia.
Qed.

Lemma split_at (s : string) (n : nat) :
  (n <= String.length s)%nat ->
  s = substring 0 n s ++ substr_from n s /\ String.length (substring 0 n s) = n.
Proof.
  unfold substr_from. revert n. induction s as [|c s IH]; intros n Hn.
  - cbn in Hn. assert (n = 0)%nat as -> by lia. now split.
  - destruct n as [|n].
    + rewrite CopyFacts.substring_all. now split.
    + cbn [String.length] in Hn. destruct (IH n) as [E L]; [lia|].
      cbn [substring append String.length Nat.sub]. split; [now rewrite <- E | now rewrite L].
Qed.

(** The loop started at the end of a prefix, on the text that follows. *)
Lemma decode_loop_shift (fuel : nat) :
  forall pre s result,
    decode_loop (pre ++ s) fuel (String.length pre) result =
    result ++ decode_loop s fuel 0 "".
Proof.
  induction fuel as [|f IH]; intros pre s result.
  - cbn [decode_loop]. now rewrite append_empty_r.
  - cbn [decode_loop].
    rewrite <- (Nat.add_0_r (String.length pre)) at 1. rewrite get_shift.
    destruct s as [|c rest]; [cbn [String.get]; now rewrite append_empty_r|].
    cbn [String.get].
    assert (Hone : forall result',
      decode_loop (pre ++ String c rest) f (String.length pre + 1) result' =
      result' ++ decode_loop rest f 0 "").
    { intros result'.
      replace (pre ++ String c rest) with ((pre ++ String c "") ++ rest)
        by (rewrite CopyFacts.append_assoc; reflexivity).
      replace (String.length pre + 1)%nat with (String.length (pre ++ String c ""))
        by (rewrite CaretFacts.length_app; reflexivity).
      apply IH. }
    assert (Hlit : decode_loop (pre ++ String c rest) f (String.length pre + 1)
                     (result ++ String c "") =
                   result ++ decode_loop (String c rest) f (0 + 1) ("" ++ String c "")).
    { rewrite Hone.
      change (decode_loop (String c rest) f (0 + 1) ("" ++ String c ""))
        with (decode_loop (String c "" ++ rest) f (String.length (String c "")) (String c "")).
      rewrite (IH (String c "") rest (String c "")).
      now rewrite CopyFacts.append_assoc. }
    destruct (Ascii.eqb c "&"); [|exact Hlit].
    rewrite <- (Nat.add_0_r (String.length pre)) at 1. rewrite reference_shift.
    destruct (reference (String c rest) 0) as [[r n]|] eqn:E; [|exact Hlit].
    cbn [option_map fst snd]. apply reference_bound in E.
    destruct (split_at (String c rest) n) as [Es Ln]; [lia|].
    set (s1 := substring 0 n (String c rest)) in *.
    set (s2 := substr_from n (String c rest)) in *.
    rewrite Es at 1 2. rewrite <- CopyFacts.append_assoc.
    replace (String.length pre + n)%nat with (String.length (pre ++ s1))
      by (rewrite CaretFacts.length_app; lia).
    rewrite IH. rewrite <- Ln at 1. rewrite (IH s1 s2 ("" ++ r)).
    cbn [append]. now rewrite CopyFacts.append_assoc.
Qed.

(** One turn of the loop, on the text that is left. *)
Definition turn (s : string) : option (string * string) :=
  match s with
  | EmptyString => None
  | String c rest =>
      match (if Ascii.eqb c "&" then reference s 0 else None) with
      | Some (r, n) => Some (r, substr_from n s)
      | None => Some (String c "", rest)
      end
  end.

Lemma decode_loop_turn (f : nat) (s : string) :
  decode_loop s (S f) 0 "" =
  match turn s with
  | None => ""
  | Some (r, s') => r ++ decode_loop s' f 0 ""
  end.
Proof.
  destruct s as [|c rest]; [reflexivity|].
  cbn [decode_loop String.get turn].
  assert (Hlit : decode_loop (String c rest) f (0 + 1) ("" ++ String c "") =
                 String c "" ++ decode_loop rest f 0 "").
  { exact (decode_loop_shift f (String c "") rest (String c "")). }
  destruct (Ascii.eqb c "&"); [|exact Hlit].
  destruct (reference (String c rest) 0) as [[r n]|] eqn:E; [|exact Hlit].
  apply reference_bound in E.
  destruct (split_at (String c rest) n) as [Es Ln]; [lia|].
  pose proof (decode_loop_shift f (substring 0 n (String c rest))
                (substr_from n (String c rest)) ("" ++ r)) as H.
  rewrite <- Es, Ln in H. exact H.
Qed.

Lemma turn_shorter (s r s' : string) :
  turn s = Some (r, s') -> (String.length s' < String.length s)%nat.
Proof.
  destruct s as [|c rest]; [discriminate|]. cbn [turn].
  assert (Hlit : Some (String c "", rest) = Some (r, s') ->
                 (String.length s' < String.length (String c rest))%nat).
  { intros H. injection H as _ <-. cbn. lia. }
  destruct (Ascii.eqb c "&"); [|exact Hlit].
  destruct (reference (String c rest) 0) as [[r0 n]|] eqn:E; [|exact Hlit].
  intros H. injection H as _ <-. apply reference_bound in E.
  destruct (split_at (String c rest) n) as [Es Ln]; [lia|].
  rewrite Es at 2. rewrite CaretFacts.length_app. lia.
Qed.

Lemma decode_loop_fuel (f1 : nat) :
  forall f2 s, (String.length s <= f1)%nat -> (String.length s <= f2)%nat ->
    decode_loop s f1 0 "" = decode_loop s f2 0 "".
Proof.
  induction f1 as [|f1 IH]; intros f2 s H1 H2.
  - destruct s; [|cbn in H1; lia]. now destruct f2.
  - destruct f2 as [|f2].
    + destruct s; [reflexivity | cbn in H2; lia].
    + rewrite !decode_loop_turn. destruct (turn s) as [[r s']|] eqn:E; [|reflexivity].
      apply turn_shorter in E. rewrite (IH f2 s'); [reflexivity | lia | lia].
Qed.

(** [decodeEntities] by turns of its loop. *)
Lemma decodeEntities_turn (s : string) :
  decodeEntities s =
  match turn s with
  | None => ""
  | Some (r, s') => r ++ decodeEntities s'
  end.
Proof.
  unfold decodeEntities. destruct s as [|c rest]; [reflexivity|].
  cbn [String.length]. rewrite decode_loop_turn.
  destruct (turn (String c rest)) as [[r s']|] eqn:E; [|reflexivity].
  apply turn_shorter in E. cbn [String.length] in E.
  rewrite (decode_loop_fuel (String.length rest) (String.length s') s'); [reflexivity | lia | lia].
Qed.

Definition without (c : ascii) (s : string) : bool :=
  all_chars (fun d => negb (Ascii.eqb d c)) s.

Lemma find_char_first (c : ascii) (s rest : string) :
  without c s = true -> find_char c (s ++ String c rest) 0 = Some (String.length s).
Proof.
  unfold without. induction s as [|d s IH]; cbn [all_chars append find_char String.length].
  - now rewrite Ascii.eqb_refl.
  - intros H. apply andb_true_iff in H as [Hd Hs]. apply negb_true_iff in Hd.
    rewrite Hd, (IH Hs). reflexivity.
Qed.

Lemma find_char_none (c : ascii) (s : string) :
  without c s = true -> find_char c s 0 = None.
Proof.
  unfold without. induction s as [|d s IH]; [reflexivity|].
  cbn [all_chars find_char]. intros H. apply andb_true_iff in H as [Hd Hs].
  apply negb_true_iff in Hd. now rewrite Hd, (IH Hs).
Qed.

Lemma find_char_within (c : ascii) (s : string) :
  forall k m, find_char c s 0 = Some k -> (k < m)%nat ->
    find_char c (substring 0 m s) 0 = Some k.
Proof.
  induction s as [|d s IH]; intros k m H Hk; [discriminate|].
  destruct m as [|m]; [lia|]. cbn [find_char substring] in *.
  destruct (Ascii.eqb d c); [exact H|].
  destruct (find_char c s 0) as [j|] eqn:E; [|discriminate].
  injection H as <-. rewrite (IH j m eq_refl); [reflexivity | lia].
Qed.

Lemma substring_prefix (s t : string) : substring 0 (String.length s) (s ++ t) = s.
Proof. induction s as [|c s IH]; cbn; [now destruct t | now rewrite IH]. Qed.

Lemma substr_from_app (s t : string) : substr_from (String.length s) (s ++ t) = t.
Proof.
  unfold substr_from. rewrite CaretFacts.length_app.
  replace (String.length s + String.length t - String.length s)%nat
    with (String.length t - 0)%nat by lia.
  rewrite <- (Nat.add_0_r (String.length s)) at 1.
  rewrite substring_shift. apply CopyFacts.substring_all.
Qed.

(** What a reference that is closed within the limit is replaced by. *)
Definition replacement (entity : string) : option string :=
  let named := find entity htmlEntities in
  if starts_with_hash entity then
    match numeric entity with
    | Ok codePoint => Some (Utf8.codePointToUtf8 codePoint)
    | _ => named
    end
  else named.

Lemma turn_entity (entity rest : string) :
  without ";" entity = true -> (String.length entity <= 10)%nat ->
  turn (String "&" (entity ++ String ";" rest)) =
  match replacement entity with
  | Some v => Some (v, rest)
  | None => Some ("&", entity ++ String ";" rest)
  end.
Proof.
  intros Hno Hlen. cbn [turn]. change (Ascii.eqb "&" "&") with true. cbn iota.
  unfold reference, replacement. cbn [find_char]. change (Ascii.eqb "&" ";") with false.
  cbn iota. rewrite (find_char_first ";" entity rest Hno). cbn [option_map].
  rewrite Nat.sub_0_r.
  assert (Hlt : (S (String.length entity) <? 12)%nat = true) by (apply Nat.ltb_lt; lia).
  rewrite Hlt.
  replace (S (String.length entity) - 1)%nat with (String.length entity) by lia.
  change (substring (0 + 1) (String.length entity) (String "&" (entity ++ String ";" rest)))
    with (substring 0 (String.length entity) (entity ++ String ";" rest)).
  rewrite substring_prefix.
  assert (Hrest : substr_from (S (String.length entity) + 1)
                    (String "&" (entity ++ String ";" rest)) = rest).
  { pose proof (substr_from_app (String "&" (entity ++ ";")) rest) as H.
    cbn [append] in H. rewrite CopyFacts.append_assoc in H. cbn [append] in H.
    rewrite <- H at 2. f_equal. cbn [String.length]. rewrite CaretFacts.length_app.
    cbn [String.length]. lia. }
  destruct (starts_with_hash entity); [destruct (numeric entity)|];
    destruct (find entity htmlEntities); rewrite ?Hrest; reflexivity.
Qed.

Lemma decodeEntities_entity (entity rest : string) :
  without ";" entity = true -> (String.length entity <= 10)%nat ->
  decodeEntities (String "&" (entity ++ String ";" rest)) =
  match replacement entity with
  | Some v => v ++ decodeEntities rest
  | None => String "&" (decodeEntities (entity ++ String ";" rest))
  end.
Proof.
  intros Hno Hlen. rewrite decodeEntities_turn, (turn_entity entity rest Hno Hlen).
  now destruct (replacement entity).
Qed.

(** The entries of the table as [decodeEntities] reads them. *)
Definition well_formed_entry (entry : string * string) : bool :=
  without ";" (fst entry) && (String.length (fst entry) <=? 10)%nat
  && negb (starts_with_hash (fst entry))
  && match find (fst entry) htmlEntities with
     | Some v => String.eqb v (snd entry)
     | None => false
     end.

Lemma htmlEntities_well_formed : forallb well_formed_entry htmlEntities = true.
Proof. vm_compute. reflexivity. Qed.

(** X14: text without an ampersand is copied, and decoding goes on after it. *)
Theorem decodeEntities_plain (plain rest : string) :
  without "&" plain = true ->
  decodeEntities (plain ++ rest) = plain ++ decodeEntities rest.
Proof.
  unfold without. induction plain as [|c plain IH]; [reflexivity|].
  cbn [all_chars append]. intros H. apply andb_true_iff in H as [Hc Hp].
  apply negb_true_iff in Hc. rewrite decodeEntities_turn. cbn [turn].
  rewrite Hc. cbn [append]. now rewrite (IH Hp).
Qed.

Lemma decodeEntities_plain_witness :
  without "&" "a < b " = true /\
  decodeEntities ("a < b " ++ "&amp; c") = "a < b " ++ decodeEntities "&amp; c".
Proof. split; [reflexivity | apply decodeEntities_plain; reflexivity]. Defined.

(** X15: a reference to a name of the table is replaced by the table's
    text, whatever follows; the replacement is not decoded again. *)
Theorem decodeEntities_named (name value rest : string) :
  In (name, value) htmlEntities ->
  decodeEntities ("&" ++ name ++ ";" ++ rest) = value ++ decodeEntities rest.
Proof.
  intros Hin. pose proof htmlEntities_well_formed as Hwf.
  rewrite forallb_forall in Hwf. specialize (Hwf _ Hin).
  unfold well_formed_entry in Hwf. cbn [fst snd] in Hwf.
  apply andb_true_iff in Hwf as [Hwf Hfind]. apply andb_true_iff in Hwf as [Hwf Hhash].
  apply andb_true_iff in Hwf as [Hno Hlen]. apply Nat.leb_le in Hlen.
  apply negb_true_iff in Hhash.
  change ("&" ++ name ++ ";" ++ rest) with (String "&" (name ++ String ";" rest)).
  rewrite (decodeEntities_entity name rest Hno Hlen). unfold replacement. rewrite Hhash.
  destruct (find name htmlEntities) as [v|]; [|discriminate].
  apply String.eqb_eq in Hfind. now subst v.
Qed.

Lemma decodeEntities_named_witness :
  In ("amp", "&") htmlEntities /\
  decodeEntities ("&" ++ "amp" ++ ";" ++ "lt;") = "&" ++ decodeEntities "lt;".
Proof. split; [left; reflexivity | apply decodeEntities_named; left; reflexivity]. Defined.

Lemma digit_facts (c : ascii) :
  isdigit c = true ->
  isspace c = false /\ Ascii.eqb c "-" = false /\ Ascii.eqb c "+" = false /\
  Ascii.eqb c "x" = false /\ Ascii.eqb c "X" = false /\ Ascii.eqb c ";" = false /\
  (0 <= digit_val c <= 9)%Z.
Proof.
  destruct c as [[] [] [] [] [] [] [] []]; vm_compute; intros H; try discriminate H;
    repeat split; try reflexivity; intros X; discriminate X.
Qed.

Lemma xdigit_facts (c : ascii) :
  isxdigit c = true ->
  isspace c = false /\ Ascii.eqb c "-" = false /\ Ascii.eqb c "+" = false /\
  Ascii.eqb (tolower c) "x" = false /\ Ascii.eqb c ";" = false /\
  (0 <= hex_val c <= 15)%Z.
Proof.
  destruct c as [[] [] [] [] [] [] [] []]; vm_compute; intros H; try discriminate H;
    repeat split; try reflexivity; intros X; discriminate X.
Qed.

Lemma all_chars_impl (p q : ascii -> bool) (s : string) :
  (forall c, p c = true -> q c = true) -> all_chars p s = true -> all_chars q s = true.
Proof.
  intros Hpq. induction s as [|c s IH]; [reflexivity|]. cbn [all_chars].
  intros H. apply andb_true_iff in H as [Hc Hs]. now rewrite (Hpq c Hc), (IH Hs).
Qed.

Lemma digits_val_bound (s : string) :
  forall acc, all_chars isdigit s = true -> (0 <= acc)%Z ->
    (0 <= digits_val acc s < (acc + 1) * 10 ^ Z.of_nat (String.length s))%Z.
Proof.
  induction s as [|c s IH]; intros acc Hs Hacc.
  - cbn. lia.
  - cbn [all_chars] in Hs. apply andb_true_iff in Hs as [Hc Hs].
    apply digit_facts in Hc. destruct Hc as (_ & _ & _ & _ & _ & _ & Hc).
    cbn [digits_val String.length]. rewrite Nat2Z.inj_succ, Z.pow_succ_r by lia.
    specialize (IH (10 * acc + digit_val c)%Z Hs ltac:(lia)).
    assert (0 < 10 ^ Z.of_nat (String.length s))%Z by (apply Z.pow_pos_nonneg; lia).
    nia.
Qed.

Lemma hex_digits_val_bound (s : string) :
  forall acc, all_chars isxdigit s = true -> (0 <= acc)%Z ->
    (0 <= hex_digits_val acc s < (acc + 1) * 16 ^ Z.of_nat (String.length s))%Z.
Proof.
  induction s as [|c s IH]; intros acc Hs Hacc.
  - cbn. lia.
  - cbn [all_chars] in Hs. apply andb_true_iff in Hs as [Hc Hs].
    apply xdigit_facts in Hc. destruct Hc as (_ & _ & _ & _ & _ & Hc).
    cbn [hex_digits_val String.length]. rewrite Nat2Z.inj_succ, Z.pow_succ_r by lia.
    specialize (IH (16 * acc + hex_val c)%Z Hs ltac:(lia)).
    assert (0 < 16 ^ Z.of_nat (String.length s))%Z by (apply Z.pow_pos_nonneg; lia).
    nia.
Qed.

Lemma stoi_digits (digits : string) :
  all_chars isdigit digits = true -> (1 <= String.length digits <= 9)%nat ->
  stoi digits = Ok (digits_val 0 digits).
Proof.
  intros Hd Hlen. pose proof (digits_val_bound digits 0 Hd ltac:(lia)) as Hb.
  assert (10 ^ Z.of_nat (String.length digits) <= 10 ^ 9)%Z
    by (apply Z.pow_le_mono_r; lia).
  destruct digits as [|d ds]; [cbn in Hlen; lia|].
  pose proof Hd as Hd'. cbn [all_chars] in Hd'. apply andb_true_iff in Hd' as [Hc _].
  apply digit_facts in Hc. destruct Hc as (Hsp & Hm & Hp & _).
  unfold stoi. cbn [drop_while]. rewrite Hsp, Hm, Hp.
  rewrite (take_while_all isdigit _ Hd).
  assert (Hr : ((INT_MIN <=? digits_val 0 (String d ds))%Z
                && (digits_val 0 (String d ds) <=? INT_MAX)%Z) = true).
  { apply andb_true_iff. unfold INT_MIN, INT_MAX. split; apply Z.leb_le; lia. }
  now rewrite Hr.
Qed.

Lemma stoi16_digits (digits : string) :
  all_chars isxdigit digits = true -> (1 <= String.length digits <= 7)%nat ->
  stoi16 digits = Ok (hex_digits_val 0 digits).
Proof.
  intros Hd Hlen. pose proof (hex_digits_val_bound digits 0 Hd ltac:(lia)) as Hb.
  assert (16 ^ Z.of_nat (String.length digits) <= 16 ^ 7)%Z
    by (apply Z.pow_le_mono_r; lia).
  destruct digits as [|d ds]; [cbn in Hlen; lia|].
  pose proof Hd as Hd'. cbn [all_chars] in Hd'. apply andb_true_iff in Hd' as [Hc Hds].
  apply xdigit_facts in Hc. destruct Hc as (Hsp & Hm & Hp & _).
  unfold stoi16. cbn [drop_while]. rewrite Hsp, Hm, Hp.
  assert (Hpre : match String d ds with
                 | String z (String x (String d' r)) =>
                     if Ascii.eqb z "0" && Ascii.eqb (tolower x) "x" && isxdigit d'
                     then String d' r else String d ds
                 | _ => String d ds
                 end = String d ds).
  { destruct ds as [|x [|d' r]]; try reflexivity.
    cbn [all_chars] in Hds. apply andb_true_iff in Hds as [Hx _].
    apply xdigit_facts in Hx. destruct Hx as (_ & _ & _ & Hx & _).
    rewrite Hx, andb_false_r. reflexivity. }
  rewrite Hpre. rewrite (take_while_all isxdigit _ Hd).
  assert (Hr : ((INT_MIN <=? hex_digits_val 0 (String d ds))%Z
                && (hex_digits_val 0 (String d ds) <=? INT_MAX)%Z) = true).
  { apply andb_true_iff. unfold INT_MIN, INT_MAX. split; apply Z.leb_le; lia. }
  now rewrite Hr.
Qed.

Lemma substr_from_1 (c : ascii) (s : string) : substr_from 1 (String c s) = s.
Proof. exact (substr_from_app (String c "") s). Qed.

Lemma substr_from_2 (c d : ascii) (s : string) : substr_from 2 (String c (String d s)) = s.
Proof. exact (substr_from_app (String c (String d "")) s). Qed.

Lemma replacement_decimal (digits : string) :
  all_chars isdigit digits = true -> (1 <= String.length digits <= 9)%nat ->
  replacement (String "#" digits) = Some (Utf8.codePointToUtf8 (digits_val 0 digits)).
Proof.
  intros Hd Hlen. unfold replacement, numeric. change (starts_with_hash (String "#" digits)) with true.
  cbn iota. rewrite substr_from_1, (stoi_digits digits Hd Hlen).
  destruct digits as [|d ds]; [cbn in Hlen; lia|].
  cbn [all_chars] in Hd. apply andb_true_iff in Hd as [Hc _].
  apply digit_facts in Hc. destruct Hc as (_ & _ & _ & Hx & HX & _).
  cbn [String.get String.length]. rewrite Hx, HX.
  now rewrite andb_false_r.
Qed.

(** The letter that announces hexadecimal digits. *)
Definition radix_mark (upper : bool) : ascii := if upper then "X"%char else "x"%char.

Lemma replacement_hex (upper : bool) (digits : string) :
  all_chars isxdigit digits = true -> (1 <= String.length digits <= 7)%nat ->
  replacement (String "#" (String (radix_mark upper) digits)) =
  Some (Utf8.codePointToUtf8 (hex_digits_val 0 digits)).
Proof.
  intros Hd Hlen. unfold replacement, numeric.
  change (starts_with_hash (String "#" (String (radix_mark upper) digits))) with true.
  cbn iota. rewrite substr_from_2, (stoi16_digits digits Hd Hlen).
  cbn [String.get String.length].
  assert (Hm : (Ascii.eqb (radix_mark upper) "x" || Ascii.eqb (radix_mark upper) "X") = true)
    by now destruct upper.
  rewrite Hm. reflexivity.
Qed.

(** X16.  A numeric reference of one to nine decimal digits, or of [x] or
    [X] and one to seven hexadecimal digits, is replaced by the UTF-8
    encoding of the number it writes; this is the empty string from
    0x110000 on. *)
Theorem decodeEntities_numeric (hex upper : bool) (digits rest : string) :
  all_chars (if hex then isxdigit else isdigit) digits = true ->
  (1 <= String.length digits <= (if hex then 7 else 9))%nat ->
  decodeEntities
    ("&#" ++ (if hex then String (radix_mark upper) "" else "") ++ digits ++ ";" ++ rest) =
  Utf8.codePointToUtf8 ((if hex then hex_digits_val else digits_val) 0%Z digits)
  ++ decodeEntities rest.
Proof.
  intros Hd Hlen. destruct hex.
  - change ("&#" ++ String (radix_mark upper) "" ++ digits ++ ";" ++ rest)
      with (String "&" (String "#" (String (radix_mark upper) digits) ++ String ";" rest)).
    rewrite decodeEntities_entity.
    + now rewrite (replacement_hex upper digits Hd Hlen).
    + unfold without. cbn [all_chars].
      assert (Hm : negb (Ascii.eqb (radix_mark upper) ";") = true) by now destruct upper.
      rewrite Hm. cbn [negb andb]. change (Ascii.eqb "#" ";") with false. cbn [negb andb].
      apply (all_chars_impl isxdigit); [|exact Hd].
      intros c Hc. apply xdigit_facts in Hc. destruct Hc as (_ & _ & _ & _ & Hc & _).
      now rewrite Hc.
    + cbn [String.length]. lia.
  - change ("&#" ++ "" ++ digits ++ ";" ++ rest)
      with (String "&" (String "#" digits ++ String ";" rest)).
    rewrite decodeEntities_entity.
    + now rewrite (replacement_decimal digits Hd Hlen).
    + unfold without. cbn [all_chars]. change (Ascii.eqb "#" ";") with false.
      cbn [negb andb]. apply (all_chars_impl isdigit); [|exact Hd].
      intros c Hc. apply digit_facts in Hc. destruct Hc as (_ & _ & _ & _ & _ & Hc & _).
      now rewrite Hc.
    + cbn [String.length]. lia.
Qed.

Lemma decodeEntities_numeric_witness :
  all_chars isxdigit "20AC" = true /\ (1 <= String.length "20AC" <= 7)%nat /\
  decodeEntities ("&#" ++ String (radix_mark false) "" ++ "20AC" ++ ";" ++ " 5") =
  Utf8.codePointToUtf8 (hex_digits_val 0%Z "20AC") ++ decodeEntities " 5".
Proof.
  split; [reflexivity|]. split; [cbn; lia|].
  apply (decodeEntities_numeric true false "20AC" " 5"); [reflexivity | cbn; lia].
Defined.

(** Numbers that do not fit an [int] leave the reference as written;
    numbers from 0x110000 on make it vanish; a sign and white space are
    accepted in front of the digits. *)
Example decodeEntities_numeric_edges :
  decodeEntities "&#xFFFFFFFF;" = "&#xFFFFFFFF;" /\
  decodeEntities "a&#1114112;b" = "ab" /\
  decodeEntities "&# +65;" = "A" /\
  decodeEntities "&#65x;" = "A" /\
  decodeEntities "&#;" = "&#;".
Proof. repeat split; vm_compute; reflexivity. Qed.

Lemma without_prefix (c : ascii) (s t : string) :
  forall m, without c s = true -> (m <= String.length s)%nat ->
    without c (substring 0 m (s ++ t)) = true.
Proof.
  unfold without. induction s as [|d s IH]; intros m Hs Hm.
  - cbn in Hm. assert (m = 0)%nat as -> by lia. cbn. now destruct t.
  - destruct m as [|m]; [reflexivity|].
    cbn [all_chars] in Hs. apply andb_true_iff in Hs as [Hd Hs].
    cbn [append substring all_chars String.length] in *. rewrite Hd.
    apply IH; [exact Hs | lia].
Qed.

Lemma turn_unclosed (rest : string) :
  without ";" (substring 0 11 rest) = true ->
  turn (String "&" rest) = Some ("&", rest).
Proof.
  intros Hno. cbn [turn]. change (Ascii.eqb "&" "&") with true.
  cbn iota. unfold reference. cbn [find_char]. change (Ascii.eqb "&" ";") with false.
  cbn iota. destruct (find_char ";" rest 0) as [k|] eqn:E; [|reflexivity].
  cbn [option_map]. rewrite Nat.sub_0_r.
  destruct (S k <? 12)%nat eqn:Hk; [|reflexivity].
  apply Nat.ltb_lt in Hk.
  assert (Hk' : (k < 11)%nat) by lia.
  pose proof (find_char_within ";" rest k 11 E Hk') as H.
  rewrite (find_char_none _ _ Hno) in H. discriminate H.
Qed.

(** X17.  An ampersand with no semicolon among the eleven characters after
    it is copied as it is, and decoding goes on with the next character. *)
Theorem decodeEntities_unclosed (rest : string) :
  without ";" (substring 0 11 rest) = true ->
  decodeEntities ("&" ++ rest) = "&" ++ decodeEntities rest.
Proof.
  intros Hno. change ("&" ++ rest) with (String "&" rest).
  now rewrite decodeEntities_turn, (turn_unclosed rest Hno).
Qed.

Lemma decodeEntities_unclosed_witness :
  without ";" (substring 0 11 "B Associates; Ltd") = true /\
  decodeEntities ("&" ++ "B Associates; Ltd") = "&" ++ decodeEntities "B Associates; Ltd".
Proof. split; [reflexivity | apply decodeEntities_unclosed; reflexivity]. Defined.

(** X18.  A reference whose name is not in the table (the names are
    compared as written, so case matters) is left as it is: the ampersand
    is copied and decoding goes on with the name. *)
Theorem decodeEntities_unknown (name rest : string) :
  without ";" name = true -> starts_with_hash name = false ->
  find name htmlEntities = None ->
  decodeEntities ("&" ++ name ++ ";" ++ rest) = "&" ++ decodeEntities (name ++ ";" ++ rest).
Proof.
  intros Hno Hhash Hfind. destruct (Nat.le_gt_cases (String.length name) 10) as [Hlen|Hlen].
  - change ("&" ++ name ++ ";" ++ rest) with (String "&" (name ++ String ";" rest)).
    rewrite (decodeEntities_entity name rest Hno Hlen). unfold replacement.
    now rewrite Hhash, Hfind.
  - change ("&" ++ name ++ ";" ++ rest) with (String "&" (name ++ ";" ++ rest)).
    rewrite decodeEntities_turn, (turn_unclosed (name ++ ";" ++ rest)); [reflexivity|].
    apply without_prefix; [exact Hno | lia].
Qed.

Lemma decodeEntities_unknown_witness :
  without ";" "AMP" = true /\ starts_with_hash "AMP" = false /\
  find "AMP" htmlEntities = None /\
  decodeEntities ("&" ++ "AMP" ++ ";" ++ "") = "&" ++ decodeEntities ("AMP" ++ ";" ++ "").
Proof.
  split; [reflexivity|]. split; [reflexivity|]. split; [reflexivity|].
  apply decodeEntities_unknown; reflexivity.
Defined.

End EntityFacts.

(** ** Extending the selection with the keyboard *)

Module CaretMoreFacts.
Import TextLayout.
Import Selection.
Import Caret.
Import Tree (Ptr).
Import CaretFacts.
Local Open Scope Q_scope.

(** Two selections that differ in the focus and the goal column only. *)
Definition same_anchor (a b : TextSelection) : Prop :=
  anchorBox a = anchorBox b /\ anchorLineIndex a = anchorLineIndex b /\
  anchorCharIndex a = anchorCharIndex b /\ hasSelection a = hasSelection b /\
  isSelecting a = isSelecting b /\ allTextBoxes a = allTextBoxes b.

Lemma same_anchor_refl (a : TextSelection) : same_anchor a a.
Proof. repeat split. Qed.

Lemma same_anchor_trans (a b c : TextSelection) :
  same_anchor a b -> same_anchor b c -> same_anchor a c.
Proof.
  intros (H1 & H2 & H3 & H4 & H5 & H6) (K1 & K2 & K3 & K4 & K5 & K6).
  repeat split; congruence.
Qed.

Ltac split_matches :=
  repeat match goal with
         | |- context [match ?x with _ => _ end] => destruct x
         end.

Lemma shiftRight_anchor (heap : Heap) (ctrlHeld : bool) (sel : TextSelection)
    (line : TextLine) : same_anchor (shiftRight heap ctrlHeld sel line) sel.
Proof. unfold shiftRight. split_matches; repeat split. Qed.

Lemma shiftLeft_anchor (heap : Heap) (ctrlHeld : bool) (sel : TextSelection)
    (line : TextLine) : same_anchor (shiftLeft heap ctrlHeld sel line) sel.
Proof. unfold shiftLeft. split_matches; repeat split. Qed.

Lemma shiftVertical_anchor (font : Font.MSDFFont) (heap : Heap) (down : bool)
    (sel : TextSelection) (box : Ptr) (line : TextLine) (sel' : TextSelection) :
  shiftVertical font heap down sel box line = Ok sel' -> same_anchor sel' sel.
Proof.
  unfold shiftVertical, place, line_at, bind. cbv zeta.
  split_matches; intros H; try discriminate H; injection H as <-; repeat split.
Qed.

(** Where the selection starts once Shift is held with an arrow key: at
    the anchor of the selection there is, at the caret when there is
    none. *)
Definition selection_start (sel : TextSelection) : option Ptr * nat * nat :=
  if hasSelection sel || is_null (focusBox sel)
  then (anchorBox sel, anchorLineIndex sel, anchorCharIndex sel)
  else (focusBox sel, focusLineIndex sel, focusCharIndex sel).

Lemma shiftArrow_init (font : Font.MSDFFont) (heap : Heap) (key : Arrow)
    (ctrlHeld : bool) (sel sel' : TextSelection) :
  shiftArrow font heap key ctrlHeld sel = Ok sel' -> same_anchor sel' (init_selection sel).
Proof.
  unfold shiftArrow. cbv zeta.
  destruct (focusBox (init_selection sel)) as [box|];
    [|intros H; injection H as <-; apply same_anchor_refl].
  destruct (lines (heap box)) as [|l ls] eqn:El;
    [intros H; injection H as <-; apply same_anchor_refl|].
  unfold line_at, bind.
  destruct (nth_error (lines (heap box)) (focusLineIndex (init_selection sel))) as [line|];
    [|discriminate].
  destruct key; intros H.
  - injection H as <-.
    apply (same_anchor_trans _ (shiftLeft heap ctrlHeld (init_selection sel) line));
      [repeat split | apply shiftLeft_anchor].
  - injection H as <-.
    apply (same_anchor_trans _ (shiftRight heap ctrlHeld (init_selection sel) line));
      [repeat split | apply shiftRight_anchor].
  - exact (shiftVertical_anchor _ _ _ _ _ _ _ H).
  - exact (shiftVertical_anchor _ _ _ _ _ _ _ H).
Qed.

(** X19.  Shift with an arrow key never moves the anchor of a selection:
    after the key the selection starts where it started before, or at the
    caret when nothing was selected; the list of text boxes is left as it
    is, and a selection exists whenever there is a caret. *)
Theorem shiftArrow_keeps_anchor (font : Font.MSDFFont) (heap : Heap) (key : Arrow)
    (ctrlHeld : bool) (sel sel' : TextSelection) :
  shiftArrow font heap key ctrlHeld sel = Ok sel' ->
  (anchorBox sel', anchorLineIndex sel', anchorCharIndex sel') = selection_start sel /\
  allTextBoxes sel' = allTextBoxes sel /\
  hasSelection sel' = hasSelection sel || negb (is_null (focusBox sel)).
Proof.
  intros H. apply shiftArrow_init in H. destruct H as (H1 & H2 & H3 & H4 & _ & H6).
  rewrite H1, H2, H3, H4, H6. unfold selection_start, init_selection.
  destruct (hasSelection sel) eqn:Eh, (focusBox sel); cbn; rewrite ?Eh; repeat split.
Qed.

Lemma shiftArrow_keeps_anchor_witness :
  exists sel',
    shiftArrow FontFacts.mono10 two_lines Key_Down false (caret_at 1%nat 8%nat) = Ok sel' /\
    (anchorBox sel', anchorLineIndex sel', anchorCharIndex sel') = (Some 1%nat, 0%nat, 8%nat) /\
    focusBox sel' = Some 2%nat.
Proof.
  eexists. split; [vm_compute; reflexivity|]. split; [|reflexivity].
  refine (proj1 (shiftArrow_keeps_anchor FontFacts.mono10 two_lines Key_Down false
                   (caret_at 1%nat 8%nat) _ _)).
  vm_compute. reflexivity.
Defined.

(** *** Moves by words *)







(** *** The first and the last line *)

Section Edges.
Variable font : Font.MSDFFont.
Variable heap : Heap.
Variable sel : TextSelection.
Variable box : Ptr.
Variable line : TextLine.
Variable cur : VisualLine.
Hypothesis Hbands : bands (collect heap (allTextBoxes sel)).
Hypothesis Hline : nth_error (lines (heap box)) (focusLineIndex sel) = Some line.
Hypothesis Hbox : vl_box cur = box.
Hypothesis Hindex : vl_lineIndex cur = focusLineIndex sel.

(** Down from the last line. *)
Lemma shiftVertical_last (pre : list VisualLine) :
  collect heap (allTextBoxes sel) = (pre ++ [cur])%list ->
  shiftVertical font heap true sel box line =
  Ok (set_focus (with_goal font heap sel box line) (Some box) (focusLineIndex sel)
        (String.length (text line))).
Proof.
  intros Hc.
  destruct (focus_line_unique heap sel box line Hbands Hline pre [] cur Hc Hbox Hindex)
    as (_ & _ & _ & Hpre).
  destruct (with_goal_fields font heap sel box line) as (Hg & Ha & Hli & _).
  unfold shiftVertical. cbv zeta. fold (with_goal font heap sel box line).
  rewrite Hg, Ha, Hli, (std_sort_bands _ Hbands), Hc.
  rewrite (find_current_at box (focusLineIndex sel) pre [] cur 0 Hpre Hbox Hindex).
  cbn [Nat.add]. rewrite skipn_past. cbn [find_below find_line].
  rewrite rev_app_distr. cbn [rev app]. rewrite Hbox, Hindex.
  unfold line_at. rewrite Hline. reflexivity.
Qed.

(** Up from the first line. *)
Lemma shiftVertical_first (post : list VisualLine) :
  collect heap (allTextBoxes sel) = (cur :: post)%list ->
  shiftVertical font heap false sel box line =
  Ok (set_focus (with_goal font heap sel box line) (Some box) (focusLineIndex sel)
        (charIndexAt font line (fontSize (heap box)) (goal_column font heap sel box line))).
Proof.
  intros Hc.
  destruct (focus_line_unique heap sel box line Hbands Hline [] post cur Hc Hbox Hindex)
    as (_ & _ & _ & Hpre).
  destruct (with_goal_fields font heap sel box line) as (Hg & Ha & Hli & _).
  unfold shiftVertical. cbv zeta. fold (with_goal font heap sel box line).
  rewrite Hg, Ha, Hli, (std_sort_bands _ Hbands), Hc.
  pose proof (find_current_at box (focusLineIndex sel) [] post cur 0 Hpre Hbox Hindex) as Hf.
  cbn [app] in Hf. rewrite Hf.
  cbn [Nat.add List.length firstn rev find_above find_line].
  unfold place, line_at. rewrite Hbox, Hindex, Hline. reflexivity.
Qed.

End Edges.

(** X21.  Where the lines of the document are on bands of their own:
    Shift+Down with the caret on the last line puts the caret at the end
    of that line, and Shift+Up with the caret on the first line keeps it
    on that line, at the goal column (so a caret that is where its goal
    column puts it does not move; it does not go to the start of the
    line). *)
Theorem shiftArrow_edge_lines (font : Font.MSDFFont) (heap : Heap) (ctrlHeld : bool)
    (sel : TextSelection) (box : Ptr) (line : TextLine) (cur : VisualLine) :
  focusBox sel = Some box ->
  nth_error (lines (heap box)) (focusLineIndex sel) = Some line ->
  bands (collect heap (allTextBoxes sel)) ->
  vl_box cur = box -> vl_lineIndex cur = focusLineIndex sel ->
  (forall pre, collect heap (allTextBoxes sel) = (pre ++ [cur])%list ->
     exists sel', shiftArrow font heap Key_Down ctrlHeld sel = Ok sel' /\
       focusBox sel' = Some box /\ focusLineIndex sel' = focusLineIndex sel /\
       focusCharIndex sel' = String.length (text line)) /\
  (forall post, collect heap (allTextBoxes sel) = (cur :: post)%list ->
     exists sel', shiftArrow font heap Key_Up ctrlHeld sel = Ok sel' /\
       focusBox sel' = Some box /\ focusLineIndex sel' = focusLineIndex sel /\
       focusCharIndex sel' =
         charIndexAt font line (fontSize (heap box)) (goal_column font heap sel box line) /\
       (caret_on_goal font heap sel box line -> focusCharIndex sel' = focusCharIndex sel)).
Proof.
  intros Hb Hl Hbands Hcb Hci.
  destruct (init_selection_fields sel) as (_ & Hli & _ & _ & Hboxes & _).
  assert (Hbands' : bands (collect heap (allTextBoxes (init_selection sel))))
    by now rewrite Hboxes.
  assert (Hl' : nth_error (lines (heap box)) (focusLineIndex (init_selection sel)) = Some line)
    by now rewrite Hli.
  assert (Hci' : vl_lineIndex cur = focusLineIndex (init_selection sel)) by now rewrite Hli.
  split.
  - intros pre Hc. rewrite <- Hboxes in Hc.
    rewrite (shiftArrow_at_focus font heap Key_Down ctrlHeld sel box line Hb Hl).
    rewrite (shiftVertical_last font heap (init_selection sel) box line cur
               Hbands' Hl' Hcb Hci' pre Hc).
    eexists. split; [reflexivity|]. cbn. rewrite Hli. repeat split.
  - intros post Hc. rewrite <- Hboxes in Hc.
    rewrite (shiftArrow_at_focus font heap Key_Up ctrlHeld sel box line Hb Hl).
    rewrite (shiftVertical_first font heap (init_selection sel) box line cur
               Hbands' Hl' Hcb Hci' post Hc).
    eexists. split; [reflexivity|]. cbn. rewrite Hli, goal_init_selection.
    repeat split. intros Hcaret. apply caret_on_goal_column in Hcaret. apply Hcaret.
Qed.

Lemma shiftArrow_edge_lines_witness :
  exists sel',
    shiftArrow FontFacts.mono10 two_lines Key_Down false (caret_at 2%nat 1%nat) = Ok sel' /\
    focusBox sel' = Some 2%nat /\ focusLineIndex sel' = 0%nat /\
    focusCharIndex sel' = 2%nat.
Proof.
  assert (Hbands : bands (collect two_lines (allTextBoxes (caret_at 2%nat 1%nat))))
    by (vm_compute; repeat split).
  destruct (shiftArrow_edge_lines FontFacts.mono10 two_lines false (caret_at 2%nat 1%nat)
              2%nat (mkTextLine "xy" 0 19 20 19 0) (mkVisualLine 2%nat 0%nat 19 0 20)
              eq_refl eq_refl Hbands eq_refl eq_refl) as [Hdown _].
  exact (Hdown [mkVisualLine 1%nat 0%nat 0 0 100] eq_refl).
Defined.

End CaretMoreFacts.

(** ** Hexadecimal colours *)

Module ColourFacts.
Import Colour.
Import CssNumber (all_chars).
Local Open Scope Q_scope.

Definition unit_interval (q : Q) : Prop := 0 <= q <= 1.

Lemma channel_pair (c d : ascii) :
  isxdigit c = true -> isxdigit d = true ->
  exists v, Entities.stoi16 (String c (String d "")) = Ok v /\ unit_interval (channel v).
Proof.
  intros Hc Hd.
  assert (Hx : all_chars isxdigit (String c (String d "")) = true)
    by (cbn [all_chars]; now rewrite Hc, Hd).
  exists (Entities.hex_digits_val 0 (String c (String d ""))). split.
  - apply EntityFacts.stoi16_digits; [exact Hx | cbn; lia].
  - pose proof (EntityFacts.hex_digits_val_bound _ 0%Z Hx ltac:(lia)) as Hb.
    cbn [String.length] in Hb. change (16 ^ Z.of_nat 2)%Z with 256%Z in Hb.
    unfold unit_interval, channel.
    set (v := Entities.hex_digits_val 0 (String c (String d ""))) in *.
    assert (H0 : inject_Z 0 <= inject_Z v) by (rewrite <- Zle_Qle; lia).
    assert (H1 : inject_Z v <= inject_Z 255) by (rewrite <- Zle_Qle; lia).
    change (inject_Z 0) with 0 in H0. change (inject_Z 255) with 255 in H1.
    unfold Qdiv. change (/ 255) with (1 # 255). split; lra.
Qed.

Definition opaque_colour (c : Components) : Prop :=
  unit_interval (red c) /\ unit_interval (green c) /\ unit_interval (blue c) /\
  alpha c == 1.

Definition translucent_colour (c : Components) : Prop :=
  unit_interval (red c) /\ unit_interval (green c) /\ unit_interval (blue c) /\
  unit_interval (alpha c).

Ltac channels :=
  repeat match goal with
         | H : all_chars isxdigit (String _ _) = true |- _ => cbn [all_chars] in H
         | H : (_ && _) = true |- _ => apply andb_true_iff in H; destruct H
         end.

(** X22.  The short forms are the long forms with every digit written
    twice: [#rgb] is read as [#rrggbb] and [#rgba] as [#rrggbbaa],
    whatever the characters are. *)
Theorem parseHexColor_short_forms (p c0 c1 c2 c3 : ascii) :
  parseHexColor (String p (String c0 (String c1 (String c2 "")))) =
  parseHexColor
    (String p (String c0 (String c0 (String c1 (String c1 (String c2 (String c2 "")))))))
  /\
  parseHexColor (String p (String c0 (String c1 (String c2 (String c3 ""))))) =
  parseHexColor
    (String p (String c0 (String c0 (String c1 (String c1 (String c2 (String c2
       (String c3 (String c3 ""))))))))).
Proof. split; reflexivity. Qed.

(** X23.  A colour of three or six hexadecimal digits has its red, green
    and blue between 0 and 1 and alpha 1; with four or eight digits the
    alpha is between 0 and 1 as well; any other number of digits gives no
    colour. *)
Theorem parseHexColor_channels (p : ascii) (h : string) :
  all_chars isxdigit h = true ->
  match String.length h with
  | 3%nat | 6%nat =>
      exists c, parseHexColor (String p h) = Ok (Some c) /\ opaque_colour c
  | 4%nat | 8%nat =>
      exists c, parseHexColor (String p h) = Ok (Some c) /\ translucent_colour c
  | _ => parseHexColor (String p h) = Ok None
  end.
Proof.
  intros Hx.
  destruct h as [|c0 [|c1 [|c2 [|c3 [|c4 [|c5 [|c6 [|c7 [|c8 h]]]]]]]]];
    cbn [String.length]; try reflexivity.
  - channels.
    destruct (channel_pair c0 c0) as (r & Er & Hr); [assumption | assumption|].
    destruct (channel_pair c1 c1) as (g & Eg & Hg); [assumption | assumption|].
    destruct (channel_pair c2 c2) as (b & Eb & Hb); [assumption | assumption|].
    eexists. split.
    + cbn [parseHexColor String.length Nat.eqb twice String.get]. rewrite Er.
      cbn [bind]. rewrite Eg. cbn [bind]. rewrite Eb. reflexivity.
    + repeat split; try apply Hr; try apply Hg; try apply Hb.
  - channels.
    destruct (channel_pair c0 c0) as (r & Er & Hr); [assumption | assumption|].
    destruct (channel_pair c1 c1) as (g & Eg & Hg); [assumption | assumption|].
    destruct (channel_pair c2 c2) as (b & Eb & Hb); [assumption | assumption|].
    destruct (channel_pair c3 c3) as (a & Ea & Ha); [assumption | assumption|].
    eexists. split.
    + cbn [parseHexColor String.length Nat.eqb twice String.get]. rewrite Er.
      cbn [bind]. rewrite Eg. cbn [bind]. rewrite Eb. cbn [bind]. rewrite Ea. reflexivity.
    + repeat split; try apply Hr; try apply Hg; try apply Hb; apply Ha.
  - channels.
    destruct (channel_pair c0 c1) as (r & Er & Hr); [assumption | assumption|].
    destruct (channel_pair c2 c3) as (g & Eg & Hg); [assumption | assumption|].
    destruct (channel_pair c4 c5) as (b & Eb & Hb); [assumption | assumption|].
    eexists. split.
    + cbn [parseHexColor String.length Nat.eqb substring]. rewrite Er.
      cbn [bind]. rewrite Eg. cbn [bind]. rewrite Eb. reflexivity.
    + repeat split; try apply Hr; try apply Hg; try apply Hb.
  - channels.
    destruct (channel_pair c0 c1) as (r & Er & Hr); [assumption | assumption|].
    destruct (channel_pair c2 c3) as (g & Eg & Hg); [assumption | assumption|].
    destruct (channel_pair c4 c5) as (b & Eb & Hb); [assumption | assumption|].
    destruct (channel_pair c6 c7) as (a & Ea & Ha); [assumption | assumption|].
    eexists. split.
    + cbn [parseHexColor String.length Nat.eqb substring]. rewrite Er.
      cbn [bind]. rewrite Eg. cbn [bind]. rewrite Eb. cbn [bind]. rewrite Ea. reflexivity.
    + repeat split; try apply Hr; try apply Hg; try apply Hb; apply Ha.
Qed.

Lemma parseHexColor_channels_witness :
  exists c, parseHexColor "#1e90ff" = Ok (Some c) /\ opaque_colour c.
Proof. exact (parseHexColor_channels "#" "1e90ff" eq_refl). Defined.

(** A character that is no hexadecimal digit makes [std::stoi] throw, and
    nothing catches it; a sign is read as one. *)
Example parseHexColor_edges :
  parseHexColor "#ggg" = Throw invalid_argument /\
  parseHexColor "#12" = Ok None /\
  parseHexColor "#" = Ok None /\
  (exists c, parseHexColor "#-1-1-1" = Ok (Some c) /\ red c < 0).
Proof.
  split; [reflexivity|]. split; [reflexivity|]. split; [reflexivity|].
  eexists. split; [vm_compute; reflexivity|]. reflexivity.
Qed.

End ColourFacts.
